(** * Chat collapser content script: a model of [src/content.ts]

    The content script augments a host page: it wraps every element that
    looks like a chat message in a collapsible wrapper, offers one global
    collapse/expand button and rescans the page when the host adds nodes.

    The development follows the source top down.  The DOM is a forest of
    rose trees whose nodes carry their identity (a number); the Document
    node is a root of that forest and nodes that are not (or not yet) in
    the document are further roots.  DOM calls are functions of a small
    state monad with exceptions; JavaScript variables that hold nodes hold
    node identities here.  [debugLog] and [analyzePage] only write to the
    console and are left out. *)

From Stdlib Require Import List String Ascii Arith NArith Bool Lia.
Import ListNotations.

Set Implicit Arguments.

(* ================================================================== *)
(** * JavaScript strings *)

(** The text of a node is a sequence of UTF-16 code units. *)
Definition jstr := list N.

Definition lit (s : string) : jstr :=
  List.map N_of_ascii (list_ascii_of_string s).

(** [WhiteSpace] and [LineTerminator] of ECMAScript, the code units that
    [String.prototype.trim] strips. *)
Definition is_ws (c : N) : bool :=
  (N.leb 9 c && N.leb c 13) || N.eqb c 32 || N.eqb c 160 || N.eqb c 5760
  || (N.leb 8192 c && N.leb c 8202) || N.eqb c 8232 || N.eqb c 8233
  || N.eqb c 8239 || N.eqb c 8287 || N.eqb c 12288 || N.eqb c 65279.

Fixpoint trim_start (s : jstr) : jstr :=
  match s with
  | [] => []
  | c :: r => if is_ws c then trim_start r else s
  end.

Definition trim (s : jstr) : jstr := rev (trim_start (rev (trim_start s))).

(** [s.substring(0, n)] for [0 <= n]. *)
Definition substring0 (n : nat) (s : jstr) : jstr := firstn n s.

(** Does [p] occur in [s]?  (the test behind [[class*="p"]]). *)
Fixpoint contains (p s : string) : bool :=
  String.prefix p s ||
  match s with
  | EmptyString => false
  | String _ r => contains p r
  end.

Definition str_mem (x : string) (l : list string) : bool :=
  existsb (String.eqb x) l.

(* ================================================================== *)
(** * The DOM *)

Inductive nkind := KElement | KDocument.

(** What an element carries besides its children.  [classes] is the token
    list of the [class] attribute, [attrs] the other attributes, [style]
    the declarations of the inline style. *)
Record edata := mkData {
  kind : nkind;
  tag : string;
  classes : list string;
  attrs : list (string * string);
  style : list (string * string)
}.

#[local] Unset Elimination Schemes.
Inductive node :=
| Text (i : nat) (s : jstr)
| Elem (i : nat) (d : edata) (ks : list node).
#[local] Set Elimination Schemes.

Definition node_id (n : node) : nat :=
  match n with Text i _ => i | Elem i _ _ => i end.

(** [Node.nodeType]: 1 for elements, 3 for text, 9 for the document. *)
Definition nodeType (n : node) : nat :=
  match n with
  | Text _ _ => 3
  | Elem _ d _ => match kind d with KElement => 1 | KDocument => 9 end
  end.

Definition is_element (n : node) : bool := nodeType n =? 1.

Definition kids (n : node) : list node :=
  match n with Text _ _ => [] | Elem _ _ ks => ks end.

Section NodeInd.
Variable P : node -> Prop.
Hypothesis Htext : forall i s, P (Text i s).
Hypothesis Helem : forall i d ks, Forall P ks -> P (Elem i d ks).

Fixpoint node_ind' (n : node) : P n :=
  match n with
  | Text i s => Htext i s
  | Elem i d ks =>
      Helem i d
        ((fix go (l : list node) : Forall P l :=
            match l with
            | [] => Forall_nil P
            | k :: r => Forall_cons k (node_ind' k) (go r)
            end) ks)
  end.
End NodeInd.

Fixpoint first_some {A B : Type} (f : A -> option B) (l : list A) : option B :=
  match l with
  | [] => None
  | a :: r => match f a with Some b => Some b | None => first_some f r end
  end.

(** Identities of a tree, in document order. *)
Fixpoint ids (n : node) : list nat :=
  match n with
  | Text i _ => [i]
  | Elem i _ ks => i :: flat_map ids ks
  end.

Definition fids (f : list node) : list nat := flat_map ids f.

Fixpoint find_node (x : nat) (n : node) : option node :=
  if node_id n =? x then Some n
  else match n with
       | Text _ _ => None
       | Elem _ _ ks => first_some (find_node x) ks
       end.

Definition ffind (x : nat) (f : list node) : option node :=
  first_some (find_node x) f.

(** The node [x] and its ancestors, nearest first, as identity and data;
    text nodes do not occur in it. *)
Fixpoint chain (x : nat) (n : node) : option (list (nat * edata)) :=
  match n with
  | Text i _ => if i =? x then Some [] else None
  | Elem i d ks =>
      if i =? x then Some [(i, d)]
      else match first_some (chain x) ks with
           | Some c => Some (c ++ [(i, d)])
           | None => None
           end
  end.

Definition fchain (x : nat) (f : list node) : list (nat * edata) :=
  match first_some (chain x) f with Some c => c | None => [] end.

(** [Node.parentNode]: [None] is [null]. *)
Fixpoint parent_in (x : nat) (n : node) : option nat :=
  match n with
  | Text _ _ => None
  | Elem i _ ks =>
      if existsb (fun k => node_id k =? x) ks then Some i
      else first_some (parent_in x) ks
  end.

Definition parentNode (x : nat) (f : list node) : option nat :=
  first_some (parent_in x) f.

(** Elements of a tree in document order, the root included. *)
Fixpoint elements (n : node) : list (nat * edata) :=
  match n with
  | Text _ _ => []
  | Elem i d ks => (i, d) :: flat_map elements ks
  end.

Definition descendants (n : node) : list (nat * edata) :=
  flat_map elements (kids n).

(** [Node.textContent] of an element: the text of its descendants. *)
Fixpoint text_of (n : node) : jstr :=
  match n with
  | Text _ s => s
  | Elem _ _ ks => flat_map text_of ks
  end.

(** Replace every outermost node of identity [x] by the nodes [f] gives
    for it; the work horse of all tree updates. *)
Fixpoint rewrite_node (x : nat) (f : node -> list node) (n : node) : list node :=
  if node_id n =? x then f n
  else match n with
       | Text _ _ => [n]
       | Elem i d ks => [Elem i d (flat_map (rewrite_node x f) ks)]
       end.

Definition frewrite (x : nat) (f : node -> list node) (fo : list node) : list node :=
  flat_map (rewrite_node x f) fo.

Definition on_data (g : edata -> edata) (n : node) : list node :=
  match n with
  | Text _ _ => [n]
  | Elem i d ks => [Elem i (g d) ks]
  end.

Definition on_kids (g : list node -> list node) (n : node) : list node :=
  match n with
  | Text _ _ => [n]
  | Elem i d ks => [Elem i d (g ks)]
  end.

(* ------------------------------------------------------------------ *)
(** ** Selectors *)

Inductive simple_sel :=
| STag (t : string)            (* [div] *)
| SClass (c : string)          (* [.prose] *)
| SId (i : string)             (* [#collapse-all-btn] *)
| SAttrEq (k v : string)       (* [[role="row"]] *)
| SClassSub (v : string).      (* [[class*="message-"]] *)

(** A compound selector is a conjunction, a selector list a disjunction. *)
Definition selector := list (list simple_sel).

Fixpoint assoc (k : string) (l : list (string * string)) : option string :=
  match l with
  | [] => None
  | (k', v) :: r => if String.eqb k k' then Some v else assoc k r
  end.

Definition attr_is (k v : string) (d : edata) : bool :=
  match assoc k (attrs d) with
  | Some v' => String.eqb v v'
  | None => false
  end.

Definition matches_simple (d : edata) (s : simple_sel) : bool :=
  match s with
  | STag t => String.eqb t (tag d)
  | SClass c => str_mem c (classes d)
  | SId i => attr_is "id" i d
  | SAttrEq k v => attr_is k v d
  | SClassSub v => existsb (contains v) (classes d)
  end.

(** Only elements match; the Document node never does. *)
Definition matches (sel : selector) (d : edata) : bool :=
  match kind d with
  | KElement => existsb (forallb (matches_simple d)) sel
  | KDocument => false
  end.

Definition select (sel : selector) (l : list (nat * edata)) : list nat :=
  List.map fst (filter (fun e => matches sel (snd e)) l).

Definition is_document (n : node) : bool := nodeType n =? 9.

(** [document.querySelectorAll(sel)]. *)
Definition doc_querySelectorAll (sel : selector) (f : list node) : list nat :=
  select sel (flat_map descendants (filter is_document f)).

Definition doc_querySelector (sel : selector) (f : list node) : option nat :=
  hd_error (doc_querySelectorAll sel f).

Definition getElementById (i : string) (f : list node) : option nat :=
  doc_querySelector [[SId i]] f.

(** [x.querySelector(sel)]: the first matching descendant of [x]. *)
Definition querySelector (x : nat) (sel : selector) (f : list node) : option nat :=
  match ffind x f with
  | Some n => hd_error (select sel (descendants n))
  | None => None
  end.

(** [x.closest(sel)]: the nearest inclusive ancestor that matches. *)
Definition closest (x : nat) (sel : selector) (f : list node) : option nat :=
  hd_error (select sel (fchain x f)).

Definition textContent (x : nat) (f : list node) : jstr :=
  match ffind x f with Some n => text_of n | None => [] end.

Definition data_of (x : nat) (f : list node) : option edata :=
  match ffind x f with
  | Some (Elem _ d _) => Some d
  | _ => None
  end.

Definition classList_contains (x : nat) (c : string) (f : list node) : bool :=
  match data_of x f with Some d => str_mem c (classes d) | None => false end.

Definition getAttribute (x : nat) (k : string) (f : list node) : option string :=
  match data_of x f with Some d => assoc k (attrs d) | None => None end.

Definition firstChild (x : nat) (f : list node) : option nat :=
  match ffind x f with
  | Some n => option_map node_id (hd_error (kids n))
  | None => None
  end.

Definition children_ids (x : nat) (f : list node) : list nat :=
  match ffind x f with
  | Some n => List.map node_id (kids n)
  | None => []
  end.

(* ================================================================== *)
(** * The page: document, detached nodes, listeners, script state *)

(** The three click listeners the script registers. *)
Inductive handler :=
| HToggleAll                               (* [toggleAllMessages] *)
| HHandleToggle (column toggle : nat)      (* the closure [handleToggle] *)
| HPreviewClick (wrapper : nat).           (* the preview's arrow function *)

(** [roots] holds the Document node and every detached tree;
    [isAllCollapsed] is the field of the script's [state] object. *)
Record page := mkPage {
  roots : list node;
  next_id : nat;
  listeners : list (nat * handler);
  isAllCollapsed : bool
}.

Definition with_roots (g : list node -> list node) (p : page) : page :=
  mkPage (g (roots p)) (next_id p) (listeners p) (isAllCollapsed p).

(** A call either returns or throws; the page survives both. *)
Inductive result (A : Type) :=
| Ok (a : A) (p : page)
| Throw (p : page).
Arguments Throw {A} p.

Definition M (A : Type) := page -> result A.

Definition ret {A} (a : A) : M A := fun p => Ok a p.

Definition bind {A B} (c : M A) (k : A -> M B) : M B :=
  fun p => match c p with
           | Ok a p' => k a p'
           | Throw p' => Throw p'
           end.

Declare Scope dom_scope.
Delimit Scope dom_scope with dom.
Notation "x <- c ;; k" := (bind c (fun x => k))
  (at level 61, c at next level, right associativity) : dom_scope.
Notation "c ;; k" := (bind c (fun _ => k))
  (at level 61, right associativity) : dom_scope.
Local Open Scope dom_scope.

Definition page_of {A} (r : result A) : page :=
  match r with Ok _ p => p | Throw p => p end.

(** Read the forest. *)
Definition read {A} (g : list node -> A) : M A := fun p => Ok (g (roots p)) p.

Definition update (g : list node -> list node) : M unit :=
  fun p => Ok tt (with_roots g p).

Fixpoint forEach {A} (l : list A) (body : A -> M unit) : M unit :=
  match l with
  | [] => ret tt
  | a :: r => body a ;; forEach r body
  end.

Definition when_some {A} (o : option A) (k : A -> M unit) : M unit :=
  match o with Some a => k a | None => ret tt end.

(* ------------------------------------------------------------------ *)
(** ** DOM calls that change the page *)

Definition new_element (t : string) : edata := mkData KElement t [] [] [].

Definition createElement (t : string) : M nat :=
  fun p =>
    Ok (next_id p)
       (mkPage (roots p ++ [Elem (next_id p) (new_element t) []])
               (S (next_id p)) (listeners p) (isAllCollapsed p)).

Definition set_classes (g : list string -> list string) (d : edata) : edata :=
  mkData (kind d) (tag d) (g (classes d)) (attrs d) (style d).

Fixpoint put (k v : string) (l : list (string * string)) : list (string * string) :=
  match l with
  | [] => [(k, v)]
  | (k', v') :: r => if String.eqb k k' then (k, v) :: r else (k', v') :: put k v r
  end.

Definition set_attr (k v : string) (d : edata) : edata :=
  mkData (kind d) (tag d) (classes d) (put k v (attrs d)) (style d).

Definition set_style (k v : string) (d : edata) : edata :=
  mkData (kind d) (tag d) (classes d) (attrs d) (put k v (style d)).

(** The token set of a class attribute: every token once, where it comes
    first. *)
Fixpoint token_set (l : list string) : list string :=
  match l with
  | [] => []
  | a :: r => a :: filter (fun c => negb (String.eqb a c)) (token_set r)
  end.

(** [classList.add] and [classList.remove] change the token set and write
    the attribute anew from it. *)
Definition add_token (c : string) (l : list string) : list string :=
  if str_mem c (token_set l) then token_set l else token_set l ++ [c].

Definition remove_token (c : string) (l : list string) : list string :=
  filter (fun c' => negb (String.eqb c c')) (token_set l).

(** [x.className = "a b"], with the tokens given. *)
Definition set_className (x : nat) (cs : list string) : M unit :=
  update (frewrite x (on_data (set_classes (fun _ => cs)))).

Definition classList_add (x : nat) (c : string) : M unit :=
  update (frewrite x (on_data (set_classes (add_token c)))).

Definition classList_remove (x : nat) (c : string) : M unit :=
  update (frewrite x (on_data (set_classes (remove_token c)))).

Definition setAttribute (x : nat) (k v : string) : M unit :=
  update (frewrite x (on_data (set_attr k v))).

(** [x.style.k = v]. *)
Definition style_set (x : nat) (k v : string) : M unit :=
  update (frewrite x (on_data (set_style k v))).

Definition addEventListener (x : nat) (h : handler) : M unit :=
  fun p => Ok tt (mkPage (roots p) (next_id p) (listeners p ++ [(x, h)])
                         (isAllCollapsed p)).

Definition old_kids (x : nat) (f : list node) : list node :=
  match ffind x f with Some n => kids n | None => [] end.

(** [x.innerHTML = html]: [frag b] is the parsed markup with identities
    from [b] on and [cnt] the number of nodes in it.  The children [x] had
    are detached, not destroyed. *)
Definition set_innerHTML (x : nat) (frag : nat -> list node) (cnt : nat) : M unit :=
  fun p =>
    Ok tt (mkPage (frewrite x (on_kids (fun _ => frag (next_id p))) (roots p)
                     ++ old_kids x (roots p))
                  (cnt + next_id p) (listeners p) (isAllCollapsed p)).

(** [x.textContent = s]: one new text node, none for the empty string. *)
Definition set_textContent (x : nat) (s : jstr) : M unit :=
  fun p =>
    match s with
    | [] =>
        Ok tt (with_roots (fun f => frewrite x (on_kids (fun _ => [])) f
                                      ++ old_kids x f) p)
    | _ =>
        Ok tt (mkPage (frewrite x (on_kids (fun _ => [Text (next_id p) s])) (roots p)
                         ++ old_kids x (roots p))
                      (S (next_id p)) (listeners p) (isAllCollapsed p))
    end.

(** The checks of the DOM's pre-insertion algorithm that depend on the
    tree: the node must not contain the parent, the reference child must be
    a child of the parent, and a Document takes one element and no text. *)
Definition pre_insert_ok (parent c : nat) (ref : option nat) (f : list node) : bool :=
  match ffind parent f, ffind c f with
  | Some (Elem _ pd pks), Some cn =>
      negb (existsb (Nat.eqb parent) (ids cn))
      && match ref with
         | Some r => existsb (fun k => node_id k =? r) pks
         | None => true
         end
      && match kind pd with
         | KElement => true
         | KDocument => is_element cn && negb (existsb is_element pks)
         end
  | _, _ => false
  end.

Definition place (parent : nat) (ref : option nat) (cn : node) (f : list node) : list node :=
  match ref with
  | Some r => frewrite r (fun n => [cn; n]) f
  | None => frewrite parent (on_kids (fun ks => ks ++ [cn])) f
  end.

(** [parent.insertBefore(c, ref)]; [ref = None] is a [null] reference and
    appends.  A failed check throws (HierarchyRequestError, NotFoundError)
    and leaves the page as it was. *)
Definition insertBefore (parent c : nat) (ref : option nat) : M unit :=
  fun p =>
    if pre_insert_ok parent c ref (roots p) then
      if match ref with Some r => r =? c | None => false end then Ok tt p
      else
        match ffind c (roots p) with
        | Some cn =>
            Ok tt (with_roots
                     (fun f => place parent ref cn (frewrite c (fun _ => []) f)) p)
        | None => Throw p
        end
    else Throw p.

Definition appendChild (parent c : nat) : M unit := insertBefore parent c None.

(* ================================================================== *)
(** * The content script *)

Local Open Scope string_scope.
Local Open Scope list_scope.

Definition is_some {A} (o : option A) : bool :=
  match o with Some _ => true | None => false end.

(** The selectors of the source. *)
Definition sel_wrapper : selector := [[SClass "message-wrapper"]].
Definition sel_content : selector := [[SClass "message-content"]].
Definition sel_toggle : selector := [[SClass "collapse-toggle"]].
Definition sel_user : selector := [[SClassSub "user"]].
Definition sel_assistant : selector := [[SClassSub "assistant"]].
Definition sel_response : selector := [[SId "response-content-container"]].
Definition sel_span : selector := [[STag "span"]].
Definition sel_svg : selector := [[STag "svg"]].

(** ["p, pre, code, ul, ol, h1, h2, h3, span"] *)
Definition sel_structure : selector :=
  [[STag "p"]; [STag "pre"]; [STag "code"]; [STag "ul"]; [STag "ol"];
   [STag "h1"]; [STag "h2"]; [STag "h3"]; [STag "span"]].

(** The selector strategies of [processMessages], in their order. *)
Definition selectors : list selector :=
  [ [[SClass "prose"]];
    [[SClassSub "Message"]];
    [[SClass "message"]];
    [[SClass "chat-message"]];
    [[STag "div"; SClassSub "message-"]];
    [[SAttrEq "role" "article"]];
    [[SAttrEq "role" "row"]];
    [[STag "div"; SClassSub "whitespace-pre-wrap"]];
    [[STag "div"; SClassSub "markdown"]] ].

Definition nl : N := 10%N.
Definition sp : N := 32%N.

Definition svg_data : edata :=
  mkData KElement "svg" []
    [("viewBox", "0 0 16 16"); ("fill", "none");
     ("xmlns", "http://www.w3.org/2000/svg")] [].

Definition path_data : edata :=
  mkData KElement "path" []
    [("d", "M3 6L8 11L13 6"); ("stroke", "currentColor"); ("stroke-width", "2");
     ("stroke-linecap", "round"); ("stroke-linejoin", "round")] [].

(** The chevron both buttons show, parsed: an [svg] around one [path],
    with the white space of the template literal. *)
Definition chevron (b : nat) : list node :=
  [ Text b [nl; sp; sp; sp; sp];
    Elem (1 + b) svg_data
      [ Text (2 + b) [nl; sp; sp; sp; sp; sp; sp];
        Elem (3 + b) path_data [];
        Text (4 + b) [nl; sp; sp; sp; sp] ] ].

(** The markup of the toggle button: 6 nodes. *)
Definition toggle_html (b : nat) : list node :=
  chevron b ++ [Text (5 + b) [nl; sp; sp]].

(** The markup of the global button: 9 nodes. *)
Definition button_html (b : nat) : list node :=
  chevron b ++
  [ Text (5 + b) [nl; sp; sp; sp; sp];
    Elem (6 + b) (new_element "span") [Text (7 + b) (lit "Collapse All")];
    Text (8 + b) [nl; sp; sp] ].

(** [createCollapseAllButton] *)
Definition createCollapseAllButton : M nat :=
  button <- createElement "button" ;;
  setAttribute button "id" "collapse-all-btn" ;;
  set_className button ["collapse-all-button"] ;;
  set_innerHTML button button_html 9 ;;
  addEventListener button HToggleAll ;;
  ret button.

Definition set_isAllCollapsed (b : bool) : M unit :=
  fun p => Ok tt (mkPage (roots p) (next_id p) (listeners p) b).

Definition get_isAllCollapsed : M bool := fun p => Ok (isAllCollapsed p) p.

(** [toggleAllMessages] *)
Definition toggleAllMessages : M unit :=
  button <- read (getElementById "collapse-all-btn") ;;
  allMessages <- read (doc_querySelectorAll sel_wrapper) ;;
  old <- get_isAllCollapsed ;;
  set_isAllCollapsed (negb old) ;;
  forEach allMessages (fun wrapper =>
    content <- read (querySelector wrapper sel_content) ;;
    toggle <- read (querySelector wrapper sel_toggle) ;;
    match content, toggle with
    | Some content, Some toggle =>
        collapsed <- get_isAllCollapsed ;;
        if collapsed then
          classList_add content "collapsed" ;;
          classList_add toggle "collapsed" ;;
          setAttribute toggle "aria-expanded" "false"
        else
          classList_remove content "collapsed" ;;
          classList_remove toggle "collapsed" ;;
          setAttribute toggle "aria-expanded" "true"
    | _, _ => ret tt
    end) ;;
  when_some button (fun button =>
    span <- read (querySelector button sel_span) ;;
    svg <- read (querySelector button sel_svg) ;;
    collapsed <- get_isAllCollapsed ;;
    when_some span (fun span =>
      set_textContent span
        (if collapsed then lit "Expand All" else lit "Collapse All")) ;;
    when_some svg (fun svg =>
      style_set svg "transform"
        (if collapsed then "rotate(-90deg)" else "rotate(0deg)"))).

(** [handleToggle], the closure over [column] and [toggle] that
    [createCollapseColumn] registers on the toggle and on the line. *)
Definition handleToggle (column toggle : nat) : M unit :=
  wrapper <- read (closest column sel_wrapper) ;;
  when_some wrapper (fun wrapper =>
    content <- read (querySelector wrapper sel_content) ;;
    when_some content (fun content =>
      isCollapsed <- read (classList_contains content "collapsed") ;;
      if isCollapsed then
        classList_remove content "collapsed" ;;
        classList_remove toggle "collapsed" ;;
        setAttribute toggle "aria-expanded" "true"
      else
        classList_add content "collapsed" ;;
        classList_add toggle "collapsed" ;;
        setAttribute toggle "aria-expanded" "false")).

(** [createCollapseColumn] *)
Definition createCollapseColumn : M nat :=
  column <- createElement "div" ;;
  set_className column ["collapse-column"] ;;
  toggle <- createElement "button" ;;
  set_className toggle ["collapse-toggle"] ;;
  setAttribute toggle "aria-expanded" "true" ;;
  setAttribute toggle "aria-label" "Toggle message" ;;
  set_innerHTML toggle toggle_html 6 ;;
  line <- createElement "div" ;;
  set_className line ["collapse-line"] ;;
  addEventListener toggle (HHandleToggle column toggle) ;;
  addEventListener line (HHandleToggle column toggle) ;;
  appendChild column toggle ;;
  appendChild column line ;;
  ret column.

(** The text of the preview: at most 150 code units and three dots when
    something was cut. *)
Definition preview_of (t : jstr) : jstr :=
  substring0 150 t ++ (if (150 <? List.length t)%nat then lit "..." else []).

(** [addToggleToMessage] *)
Definition addToggleToMessage (messageElement : nat) : M unit :=
  processed <- read (closest messageElement sel_wrapper) ;;
  if is_some processed then ret tt else
  textLength <- read (fun f => List.length (trim (textContent messageElement f))) ;;
  if (textLength <? 20)%nat then ret tt else
  wrapper <- createElement "div" ;;
  set_className wrapper ["message-wrapper"] ;;
  isUser <- read (fun f => classList_contains messageElement "user" f
                           || is_some (closest messageElement sel_user f)) ;;
  isAssistant <- read (fun f => classList_contains messageElement "assistant" f
                           || is_some (closest messageElement sel_assistant f)) ;;
  (if isUser then classList_add wrapper "user-message" else ret tt) ;;
  (if isAssistant then classList_add wrapper "assistant-message" else ret tt) ;;
  parent <- read (parentNode messageElement) ;;
  match parent with
  | None => ret tt
  | Some parent =>
      insertBefore parent wrapper (Some messageElement) ;;
      collapseColumn <- createCollapseColumn ;;
      appendChild wrapper collapseColumn ;;
      contentContainer <- createElement "div" ;;
      set_className contentContainer ["message-content-container"] ;;
      preview <- createElement "div" ;;
      set_className preview ["message-preview"] ;;
      addEventListener preview (HPreviewClick wrapper) ;;
      contentWrapper <- createElement "div" ;;
      set_className contentWrapper ["message-content"] ;;
      appendChild contentWrapper messageElement ;;
      appendChild contentContainer preview ;;
      appendChild contentContainer contentWrapper ;;
      appendChild wrapper contentContainer ;;
      text <- read (fun f =>
        if isUser then trim (textContent messageElement f)
        else match querySelector contentContainer sel_response f with
             | Some r => trim (textContent r f)
             | None => []
             end) ;;
      set_textContent preview (preview_of text)
  end.

(** [Set.prototype.add]: a set keeps insertion order and no duplicates. *)
Definition set_add (x : nat) (s : list nat) : list nat :=
  if existsb (Nat.eqb x) s then s else s ++ [x].

Definition foundMessages (f : list node) : list nat :=
  fold_left
    (fun acc sel => fold_left (fun a el => set_add el a) (doc_querySelectorAll sel f) acc)
    selectors [].

(** The body of the loop over [foundMessages]. *)
Definition process_one (msg : nat) : M unit :=
  processed <- read (closest msg sel_wrapper) ;;
  if is_some processed then ret tt else
  textLength <- read (fun f => List.length (trim (textContent msg f))) ;;
  if (textLength <? 20)%nat then ret tt else
  hasTextContent <- read (querySelector msg sel_structure) ;;
  if is_some hasTextContent || (50 <? textLength)%nat then addToggleToMessage msg
  else ret tt.

(** [processMessages] *)
Definition processMessages : M unit :=
  found <- read foundMessages ;;
  forEach found process_one.

Definition document_element (f : list node) : option node :=
  match filter is_document f with
  | d :: _ => find is_element (kids d)
  | [] => None
  end.

(** [document.body]: the first [body] or [frameset] child of [html]. *)
Definition document_body (f : list node) : option nat :=
  match document_element f with
  | Some (Elem _ d ks) =>
      if (tag d =? "html")%string then
        option_map node_id
          (find (fun k => is_element k &&
                   match k with
                   | Elem _ kd _ => (tag kd =? "body")%string || (tag kd =? "frameset")%string
                   | Text _ _ => false
                   end) ks)
      else None
  | _ => None
  end.

Definition tag_of (x : nat) (f : list node) : string :=
  match data_of x f with Some d => tag d | None => "" end.

(** The containers [insertCollapseAllButton] tries, in its order. *)
Definition possibleContainers (f : list node) : list (option nat) :=
  [ doc_querySelector [[STag "header"]] f;
    doc_querySelector [[SClassSub "header"]] f;
    doc_querySelector [[STag "nav"]] f;
    doc_querySelector [[STag "main"]] f;
    document_body f ].

(** [insertCollapseAllButton]; tag names are kept in lower case, so
    [tagName === "HEADER"] reads [tag = "header"]. *)
Definition insertCollapseAllButton : M unit :=
  existing <- read (getElementById "collapse-all-btn") ;;
  if is_some existing then ret tt else
  container <- read (fun f => find is_some (possibleContainers f)) ;;
  match container with
  | Some (Some container) =>
      button <- createCollapseAllButton ;;
      t <- read (tag_of container) ;;
      if (t =? "header")%string || (t =? "nav")%string then appendChild container button
      else
        first <- read (firstChild container) ;;
        insertBefore container button first
  | _ => ret tt
  end.

(* ================================================================== *)
(** * Timers and the mutation observer ([init]) *)

(** The two callbacks [init] hands to [setTimeout]. *)
Inductive task := InitialScan | MutationScan.

Definition run_task (t : task) : M unit :=
  match t with
  | InitialScan =>
      insertCollapseAllButton ;;
      processMessages
  | MutationScan =>
      processMessages ;;
      existing <- read (getElementById "collapse-all-btn") ;;
      if is_some existing then ret tt else insertCollapseAllButton
  end.

(** The event loop as far as the script uses it: the page, the time in
    milliseconds, the pending timers ordered by the time they are due, the
    callbacks that ran so far with the time they were due, and the node the
    mutation observer watches, if [observe] was called. *)
Record loop := mkLoop {
  the_page : page;
  clock : nat;
  timers : list (nat * task);
  ran : list (nat * task);
  observed : option nat
}.

Fixpoint insert_timer (due : nat) (t : task) (l : list (nat * task)) : list (nat * task) :=
  match l with
  | [] => [(due, t)]
  | (d, t') :: r =>
      if (due <? d)%nat then (due, t) :: l else (d, t') :: insert_timer due t r
  end.

(** [setTimeout(cb, delay)]: nothing in the source ever cancels a timer. *)
Definition setTimeout (t : task) (delay : nat) (l : loop) : loop :=
  mkLoop (the_page l) (clock l) (insert_timer (clock l + delay) t (timers l)) (ran l)
         (observed l).

Record MutationRecord := mkRecord {
  addedNodes : list node;
  removedNodes : list node
}.

(** The flag the observer's callback computes from a batch of records. *)
Definition shouldProcess (mutations : list MutationRecord) : bool :=
  fold_left
    (fun flag mutation =>
       fold_left (fun flag node => if (nodeType node =? 1)%nat then true else flag)
                 (addedNodes mutation) flag)
    mutations false.

(** The callback given to [new MutationObserver]. *)
Definition observer_callback (mutations : list MutationRecord) (l : loop) : loop :=
  if shouldProcess mutations then setTimeout MutationScan 100 l else l.

(** A call of [init] returns or throws; the loop survives both. *)
Inductive outcome :=
| Returns (l : loop)
| Throws (l : loop).

Definition loop_of (o : outcome) : loop :=
  match o with Returns l => l | Throws l => l end.

(** [observer.observe(target, { childList: true, subtree: true })] *)
Definition observe (target : nat) (l : loop) : loop :=
  mkLoop (the_page l) (clock l) (timers l) (ran l) (Some target).

(** [init]: the first scan after half a second, then the observer on
    [document.body].  Without a body [observe] throws a TypeError; the timer
    is set by then. *)
Definition init (l : loop) : outcome :=
  let l := setTimeout InitialScan 500 l in
  match document_body (roots (the_page l)) with
  | Some body => Returns (observe body l)
  | None => Throws l
  end.

(** The nodes at and below [n] that were created from [b] on. *)
Fixpoint fresh_nodes (b : nat) (n : node) : list node :=
  (if (b <=? node_id n)%nat then [n] else []) ++
  match n with
  | Text _ _ => []
  | Elem _ _ ks => flat_map (fresh_nodes b) ks
  end.

(** The records the observer gets after a callback took the page from [p]
    to [p']: one for every node the callback created that is now below the
    watched node.  The browser's records list the nodes in the order they
    were put into the tree, leave out those that came inside another and
    tell what was removed; the observer's callback asks one thing only,
    whether some added node is an element, and to that both give the same
    answer. *)
Definition own_records (target : nat) (p p' : page) : list MutationRecord :=
  match ffind target (roots p') with
  | Some n =>
      List.map (fun k => mkRecord [k] [])
               (flat_map (fresh_nodes (next_id p)) (kids n))
  | None => []
  end.

(** The observer's callback is called with a batch of records, if the
    observer watches and there are records. *)
Definition deliver (ms : list MutationRecord) (l : loop) : loop :=
  match observed l, ms with
  | Some _, _ :: _ => observer_callback ms l
  | _, _ => l
  end.

(** Run the timer [(d, k)], the first of the pending ones, [r] being the
    others: the callback runs, and then the observer's with the records of
    what it inserted.  A callback that throws ends there; the page keeps
    what it did. *)
Definition run_timer (d : nat) (k : task) (r : list (nat * task)) (l : loop) : loop :=
  let p' := page_of (run_task k (the_page l)) in
  let l' := mkLoop p' (Nat.max d (clock l)) r (ran l ++ [(d, k)]) (observed l) in
  match observed l with
  | Some target => deliver (own_records target (the_page l) p') l'
  | None => l'
  end.

(** Run, in order, the timers due by [t], those included that the
    callbacks set on the way; at most [fuel] of them. *)
Fixpoint fire (fuel t : nat) (l : loop) : loop :=
  match fuel with
  | 0 => l
  | S fuel =>
      match timers l with
      | (d, k) :: r => if (d <=? t)%nat then fire fuel t (run_timer d k r l) else l
      | [] => l
      end
  end.

(** Turns that are enough to run what is due by [t]: a timer that runs was
    due by [t], and the one its callback sets is due 100 ms later. *)
Definition patience (t : nat) (ts : list (nat * task)) : nat :=
  list_sum (List.map (fun e => S t - fst e) ts).

(** Let the time be [t]. *)
Definition advance (t : nat) (l : loop) : loop :=
  let l' := fire (patience t (timers l)) t l in
  mkLoop (the_page l') (Nat.max t (clock l')) (timers l') (ran l') (observed l').

(** What the host does to the loop: its changes to the page reach the
    observer as a batch of mutation records, or time passes. *)
Inductive event :=
| Mutations (ms : list MutationRecord)
| Elapse (ms : nat).

Definition step (l : loop) (e : event) : loop :=
  match e with
  | Mutations ms => deliver ms l
  | Elapse d => advance (clock l + d) l
  end.

Definition run_events (es : list event) (l : loop) : loop := fold_left step es l.

Definition pending_scans (l : loop) : nat := List.length (timers l).

Local Close Scope string_scope.
Unset Implicit Arguments.

(* ================================================================== *)
(** * Notions the statements use *)

(** Identities are unique and below the next fresh one. *)
Definition wf (p : page) : Prop :=
  NoDup (fids (roots p)) /\ forall i, In i (fids (roots p)) -> i < next_id p.

(** The identities of a tree outside the subtrees rooted at [x]. *)
Fixpoint skel (x : nat) (n : node) : list nat :=
  if node_id n =? x then []
  else match n with
       | Text i _ => [i]
       | Elem i _ ks => i :: flat_map (skel x) ks
       end.

Definition fskel (x : nat) (f : list node) : list nat := flat_map (skel x) f.

(** The wrapper [addToggleToMessage] builds around the node [n], with the
    identities it draws from [b] on: wrapper [b], column [1+b], toggle
    [2+b], its markup [3+b .. 8+b], line [9+b], content container [10+b],
    preview [11+b], content region [12+b], preview text [13+b]. *)
Definition div (cs : list string) : edata := mkData KElement "div" cs [] [].

Definition wrapper_classes (isUser isAssistant : bool) : list string :=
  ["message-wrapper"%string]
    ++ (if isUser then ["user-message"%string] else [])
    ++ (if isAssistant then ["assistant-message"%string] else []).

Definition toggle_data (cs : list string) (expanded : string) : edata :=
  mkData KElement "button" cs
    [("aria-expanded"%string, expanded); ("aria-label", "Toggle message")%string] [].

Definition text_kids (i : nat) (s : jstr) : list node :=
  match s with [] => [] | _ => [Text i s] end.

Definition wrapper_tree (b : nat) (isUser isAssistant : bool) (ptext : jstr) (n : node)
  : node :=
  Elem b (div (wrapper_classes isUser isAssistant))
    [ Elem (1 + b) (div ["collapse-column"%string])
        [ Elem (2 + b) (toggle_data ["collapse-toggle"%string] "true") (toggle_html (3 + b));
          Elem (9 + b) (div ["collapse-line"%string]) [] ];
      Elem (10 + b) (div ["message-content-container"%string])
        [ Elem (11 + b) (div ["message-preview"%string]) (text_kids (13 + b) ptext);
          Elem (12 + b) (div ["message-content"%string]) [n] ] ].

(** The role tests of [addToggleToMessage]. *)
Definition is_user (x : nat) (f : list node) : bool :=
  classList_contains x "user" f || is_some (closest x sel_user f).

Definition is_assistant (x : nat) (f : list node) : bool :=
  classList_contains x "assistant" f || is_some (closest x sel_assistant f).

(** The trimmed text of the first element of [n] (itself included) whose
    id is [response-content-container]. *)
Definition response_text (n : node) : jstr :=
  match hd_error (select sel_response (elements n)) with
  | Some r => trim match find_node r n with
                   | Some m => text_of m
                   | None => []
                   end
  | None => []
  end.

(** The text [addToggleToMessage] shows in the preview of [n]. *)
Definition preview_text (isUser : bool) (n : node) : jstr :=
  preview_of (if isUser then trim (text_of n) else response_text n).

Definition wrapper_listeners (b : nat) : list (nat * handler) :=
  [ (2 + b, HHandleToggle (1 + b) (2 + b));
    (9 + b, HHandleToggle (1 + b) (2 + b));
    (11 + b, HPreviewClick b) ].

Definition wrapper_size (ptext : jstr) : nat :=
  match ptext with [] => 13 | _ => 14 end.

(** The forest [f] with [x] replaced by the trees [l], and the trees [t]
    detached next to it. *)
Definition placed (f : list node) (x : nat) (l t : list node) : list node :=
  frewrite x (fun _ => l) f ++ t.

(** The elements [document.querySelectorAll] chooses from. *)
Definition doc_elements (f : list node) : list (nat * edata) :=
  flat_map descendants (filter is_document f).

(** Is the parent of [x] an element or the Document?  [None]: no parent. *)
Definition parent_kind (x : nat) (f : list node) : option nkind :=
  match parentNode x f with
  | Some p => option_map kind (data_of p f)
  | None => None
  end.

(** The page after [addToggleToMessage] wrapped the node [n] of identity
    [x]. *)
Definition wrapped (p : page) (x : nat) (n : node) : page :=
  let b := next_id p in
  let u := is_user x (roots p) in
  let s := is_assistant x (roots p) in
  let t := preview_text u n in
  mkPage (frewrite x (fun _ => [wrapper_tree b u s t n]) (roots p))
         (wrapper_size t + b)
         (listeners p ++ wrapper_listeners b)
         (isAllCollapsed p).

(** The page after [addToggleToMessage] made a wrapper and found nothing
    to put it in. *)
Definition with_orphan (p : page) (x : nat) : page :=
  mkPage (roots p ++ [Elem (next_id p)
                        (div (wrapper_classes (is_user x (roots p))
                                              (is_assistant x (roots p)))) []])
         (S (next_id p)) (listeners p) (isAllCollapsed p).

(** The quantities [processMessages] tests for a candidate. *)
Definition text_length (x : nat) (f : list node) : nat :=
  List.length (trim (textContent x f)).

Definition has_structure (x : nat) (f : list node) : bool :=
  is_some (querySelector x sel_structure f).

Definition in_wrapper (x : nat) (f : list node) : bool :=
  is_some (closest x sel_wrapper f).

(** The filter of [processMessages], as the code has it: at least 20 code
    units of trimmed text, and a descendant that matches
    [p, pre, code, ul, ol, h1, h2, h3, span] or more than 50 code units. *)
Definition accepted (x : nat) (f : list node) : bool :=
  (20 <=? text_length x f) && (has_structure x f || (50 <? text_length x f)).


(** The preview as the specification words it: the trimmed text of the
    element for a user message, else that of the response content if there
    is one; cut to 150 code units, with three dots exactly when something
    was cut. *)
Definition claimed_preview (isUser : bool) (n : node) : jstr :=
  let full := if isUser then trim (text_of n) else response_text n in
  if 150 <? List.length full then firstn 150 full ++ lit "..." else full.

(** A decidable form of [wf], to check it on given pages. *)
Fixpoint nodupb (l : list nat) : bool :=
  match l with
  | [] => true
  | a :: r => negb (existsb (Nat.eqb a) r) && nodupb r
  end.

Definition wfb (p : page) : bool :=
  nodupb (fids (roots p)) && forallb (fun i => i <? next_id p) (fids (roots p)).

(** Pages to run the script on. *)
Definition el (i : nat) (t : string) (cs : list string) (ks : list node) : node :=
  Elem i (mkData KElement t cs [] []) ks.

Definition document_root (ks : list node) : node :=
  Elem 0 (mkData KDocument "#document" [] [] []) ks.

(** A user message with a paragraph and a node too short to be one. *)
Definition sample_roots : list node :=
  [ document_root
      [ el 1 "html" []
          [ el 2 "body" []
              [ el 3 "nav" [] [];
                el 4 "div" ["message"; "user"]%string
                  [ el 5 "p" [] [Text 6 (lit "Hello, how are you today please respond")] ];
                el 7 "div" ["prose"%string] [Text 8 (lit "short")] ] ] ] ].

Definition sample_page : page := mkPage sample_roots 9 [] false.

(** The same page with a message the host has taken out of the document. *)
Definition removed_page : page :=
  mkPage (sample_roots
            ++ [el 9 "div" ["message"%string]
                  [Text 10 (lit "a message the host page removed")]])
         11 [] false.

(** A page whose only candidate is the [div] 3 with the children [ks]. *)
Definition one_message (ks : list node) (next : nat) : page :=
  mkPage [ document_root
             [ el 1 "html" [] [ el 2 "body" [] [ el 3 "div" ["message"%string] ks ] ] ] ]
         next [] false.

(** 19 code units of text; 51 and no structure; 30 in a paragraph. *)
Definition page_19 : page := one_message [Text 4 (lit "nineteen characters")] 5.

Definition page_51 : page :=
  one_message [Text 4 (lit "fifty-one characters of text without any structure.")] 5.

Definition page_30 : page :=
  one_message [el 4 "p" [] [Text 5 (lit "thirty characters in paragraph")]] 6.


(** A page whose root element is itself a candidate: its parent is the
    Document, which takes no second element. *)
Definition root_candidate_page : page :=
  mkPage [ document_root
             [ el 1 "html" ["prose"%string]
                 [ el 2 "body" []
                     [Text 3 (lit "a page whose root element has the class of a message")] ] ] ]
         4 [] false.

(** The button [createCollapseAllButton] returns, with identities from [b]
    on: the button [b], its markup [1+b .. 9+b]. *)
Definition button_tree (b : nat) : node :=
  Elem b (mkData KElement "button" ["collapse-all-button"%string]
            [("id", "collapse-all-btn")%string] [])
    (button_html (1 + b)).

(** [container.tagName === "HEADER" || container.tagName === "NAV"] *)
Definition appends_button (t : string) : bool :=
  String.eqb t "header" || String.eqb t "nav".

(** The page after [insertCollapseAllButton] put the button into the
    container [c] of data [cd] and children [cks]. *)
Definition with_button (p : page) (c : nat) (cd : edata) (cks : list node) : page :=
  mkPage (frewrite c (fun _ => [Elem c cd (if appends_button (tag cd)
                                            then cks ++ [button_tree (next_id p)]
                                            else button_tree (next_id p) :: cks)])
            (roots p))
         (10 + next_id p) (listeners p ++ [(next_id p, HToggleAll)]) (isAllCollapsed p).

(** The containers as the specification lists them: header, navigation,
    main content region, document body. *)
Definition claimedContainers (f : list node) : list (option nat) :=
  [ doc_querySelector [[STag "header"]] f;
    doc_querySelector [[STag "nav"]] f;
    doc_querySelector [[STag "main"]] f;
    document_body f ].

(** A page with a [nav] and, after it, a footer whose class contains
    "header". *)
Definition footer_page : page :=
  mkPage [ document_root
             [ el 1 "html" []
                 [ el 2 "body" []
                     [ el 3 "nav" [] [];
                       el 4 "footer" ["headerless"%string] [] ] ] ] ]
         5 [] false.

(** The timers are kept in the order they are due in. *)
Fixpoint ordered (ts : list (nat * task)) : bool :=
  match ts with
  | [] => true
  | (d, _) :: r => forallb (fun e => d <=? fst e) r && ordered r
  end.

(** Every pending timer is due later than now. *)
Definition future (l : loop) : bool :=
  forallb (fun e => clock l <? fst e) (timers l).

Definition loop_ok (l : loop) : bool := ordered (timers l) && future l.

(** The number of batches, among the events, that make the observer
    schedule a scan. *)
Fixpoint qualifying (es : list event) : nat :=
  match es with
  | [] => 0
  | Mutations ms :: r => (if shouldProcess ms then 1 else 0) + qualifying r
  | Elapse _ :: r => qualifying r
  end.

(** The scans the loop accounts for: those pending and those that ran. *)
Definition scans (l : loop) : nat := pending_scans l + List.length (ran l).

(** A batch of records in which one element was added. *)
Definition element_batch : list MutationRecord :=
  [ mkRecord [el 20 "div" ["message"%string] []] [] ].

(** A loop with no timer pending, before [init]. *)
Definition idle_loop : loop := mkLoop sample_page 0 [] [] None.

(** The loop [s] ms after [init] at the time [c] on the page [p], if the
    host leaves the page alone and the first scan takes it to [p1]: the
    first scan runs after 500 ms; if it put an element below the watched
    node, the observer sets a mutation scan, which runs after 600 ms. *)
Definition after_init (p p1 : page) (c : nat) (log : list (nat * task)) (target s : nat)
  : loop :=
  if s <? 500 then mkLoop p (c + s) [(c + 500, InitialScan)] log (Some target)
  else if shouldProcess (own_records target p p1) then
    if s <? 600
    then mkLoop p1 (c + s) [(c + 600, MutationScan)] (log ++ [(c + 500, InitialScan)])
                (Some target)
    else mkLoop p1 (c + s) [] (log ++ [(c + 500, InitialScan); (c + 600, MutationScan)])
                (Some target)
  else mkLoop p1 (c + s) [] (log ++ [(c + 500, InitialScan)]) (Some target).

(** Change the data of every element, [m i] for the element [i]; what
    [classList], [setAttribute] and [style] do to a forest is an instance. *)
Fixpoint relabel (m : nat -> edata -> edata) (n : node) : node :=
  match n with
  | Text i s => Text i s
  | Elem i d ks => Elem i (m i d) (List.map (relabel m) ks)
  end.

Definition at_id (y : nat) (g : edata -> edata) (i : nat) (d : edata) : edata :=
  if i =? y then g d else d.

Definition lab (m : nat -> edata -> edata) (e : nat * edata) : nat * edata :=
  (fst e, m (fst e) (snd e)).

(** Selectors that look at neither the [collapsed] token nor
    [aria-expanded]. *)
Definition plain (s : simple_sel) : bool :=
  match s with
  | STag _ => true
  | SClass c => negb (String.eqb c "collapsed")
  | SId _ => true
  | SAttrEq k _ => negb (String.eqb k "aria-expanded")
  | SClassSub _ => false
  end.

Definition plain_sel (sel : selector) : bool := forallb (forallb plain) sel.

(** Changes of an element's data no plain selector sees. *)
Definition quiet (g : edata -> edata) : Prop :=
  forall d, kind (g d) = kind d
            /\ forall s, plain s = true -> matches_simple (g d) s = matches_simple d s.

(** The elements below [z], in document order. *)
Definition inner (z : nat) (f : list node) : list (nat * edata) :=
  match ffind z f with Some n => descendants n | None => [] end.

(** Every element of the forest, the detached trees included. *)
Definition all_elements (f : list node) : list (nat * edata) := flat_map elements f.

(** [f'] answers every query with a plain selector as [f] does. *)
Record stable (f f' : list node) : Prop := mkStable {
  st_doc : forall sel, plain_sel sel = true ->
      doc_querySelectorAll sel f' = doc_querySelectorAll sel f;
  st_all : forall sel, plain_sel sel = true ->
      select sel (all_elements f') = select sel (all_elements f);
  st_inner : forall z sel, plain_sel sel = true ->
      select sel (inner z f') = select sel (inner z f);
  st_leaf : forall z, inner z f = [] -> inner z f' = [];
  st_chain : forall c sel, plain_sel sel = true -> is_some (data_of c f) = true ->
      closest c sel f' = closest c sel f;
  st_elem : forall z, is_some (data_of z f') = is_some (data_of z f)
}.

(** Give the element [sp] the children [new]; what [textContent = s]
    does to a tree. *)
Fixpoint retext (sp : nat) (new : list node) (n : node) : node :=
  match n with
  | Text _ _ => n
  | Elem i d ks =>
      if i =? sp then Elem i d new else Elem i d (List.map (retext sp new) ks)
  end.

Definition is_text (n : node) : bool :=
  match n with Text _ _ => true | Elem _ _ _ => false end.

(** What a query can see of the node [z]: its data and the elements below. *)
Definition view (z : nat) (f : list node) : option (edata * list (nat * edata)) :=
  match ffind z f with
  | Some (Elem _ d ks) => Some (d, flat_map elements ks)
  | _ => None
  end.

(** Where [sp] is in [n], it is the element of data [d] and children [ks]. *)
Definition at_sp (sp : nat) (d : edata) (ks : list node) (n : node) : Prop :=
  forall m, find_node sp n = Some m -> m = Elem sp d ks.

(** The state of a wrapper as the DOM holds it: the [collapsed] token on
    an element and the [aria-expanded] attribute. *)
Definition collapsed (z : nat) (f : list node) : bool :=
  classList_contains z "collapsed" f.

Definition aria (z : nat) (f : list node) : option string :=
  getAttribute z "aria-expanded" f.

(** The value [aria-expanded] gets when the state becomes [c]. *)
Definition aria_of (c : bool) : string := if c then "false" else "true".

(** The content region and the toggle control the handlers look up in a
    wrapper. *)
Definition parts (w : nat) (f : list node) : option nat * option nat :=
  (querySelector w sel_content f, querySelector w sel_toggle f).

Definition token (c : bool) : list string -> list string :=
  if c then add_token "collapsed" else remove_token "collapsed".

(** The three calls both handlers make to bring a content region and a
    toggle into the state [c]. *)
Definition set_state (c : bool) (ct t : nat) (f : list node) : list node :=
  frewrite t (on_data (set_attr "aria-expanded" (aria_of c)))
    (frewrite t (on_data (set_classes (token c)))
       (frewrite ct (on_data (set_classes (token c))) f)).

(** The pairs (content region, toggle) of the wrappers [ws] that have both. *)
Definition both (w : nat) (f : list node) : list (nat * nat) :=
  match parts w f with
  | (Some ct, Some t) => [(ct, t)]
  | _ => []
  end.

Definition targets (ws : list nat) (f : list node) : list (nat * nat) :=
  flat_map (fun w => both w f) ws.

(** [i] is a content region or a toggle among the pairs, is a toggle. *)
Definition touched (i : nat) (T : list (nat * nat)) : bool :=
  existsb (fun e => (i =? fst e) || (i =? snd e)) T.

Definition toggled (i : nat) (T : list (nat * nat)) : bool :=
  existsb (fun e => i =? snd e) T.

(** [z.style.k] *)
Definition style_of (z : nat) (k : string) (f : list node) : option string :=
  match data_of z f with Some d => assoc k (style d) | None => None end.

(** The label of the global button, if there is one, holds text only. *)
Definition plain_label (f : list node) : bool :=
  match getElementById "collapse-all-btn" f with
  | Some b =>
      match querySelector b sel_span f with
      | Some sp => match inner sp f with [] => true | _ :: _ => false end
      | None => true
      end
  | None => true
  end.

Definition label_of (c : bool) : jstr :=
  if c then lit "Expand All" else lit "Collapse All".

Definition icon_of (c : bool) : string :=
  if c then "rotate(-90deg)" else "rotate(0deg)".

(** [N] activations of the global toggle, one after the other. *)
Fixpoint activations (N : nat) : M unit :=
  match N with
  | 0 => ret tt
  | S k => toggleAllMessages ;; activations k
  end.

Definition opt_is (o : option string) (v : string) : bool :=
  match o with Some v' => String.eqb v' v | None => false end.

(** Every wrapper of the document that has a content region and a toggle
    is expanded, as the transform leaves it. *)
Definition all_expanded (f : list node) : bool :=
  forallb (fun w =>
             match parts w f with
             | (Some ct, Some t) =>
                 negb (collapsed ct f) && negb (collapsed t f)
                 && opt_is (aria t f) "true"
             | _ => true
             end)
          (doc_querySelectorAll sel_wrapper f).

(** The page after the first scan of [sample_page]: the button is in the
    [nav], the message of the user is wrapped. *)
Definition scanned_page : page := page_of (run_task InitialScan sample_page).

(** A message of the assistant inside a message container, both
    candidates, and that page after the first scan: the inner element is
    wrapped first, then the outer one around it. *)
Definition nested_page : page :=
  mkPage [ document_root
             [ el 1 "html" []
                 [ el 2 "body" []
                     [ el 3 "div" ["message"%string]
                         [ el 4 "div" ["prose"%string]
                             [Text 5 (lit "an answer that has more than fifty code units of text in it")]
                         ] ] ] ] ]
         6 [] false.

Definition nested_scanned : page := page_of (run_task InitialScan nested_page).

(** Every element of class [message-wrapper], in or out of the document. *)
Definition wrappers (f : list node) : list nat := select sel_wrapper (all_elements f).

(** The three markers of a wrapper agree: the content region is collapsed
    exactly when the toggle is, and [aria-expanded] is "true" exactly when
    they are not.  A wrapper without content region or toggle has no state. *)
Definition consistent (f : list node) (w : nat) : bool :=
  match parts w f with
  | (Some ct, Some t) =>
      Bool.eqb (collapsed ct f) (collapsed t f)
      && opt_is (aria t f) (aria_of (collapsed ct f))
  | _ => true
  end.

(** Two wrappers have the same parts or share none. *)
Definition sep (a b : option nat * option nat) : bool :=
  match a, b with
  | (Some ct, Some t), (Some ct', Some t') =>
      ((ct =? ct') && (t =? t'))
      || (negb (ct =? ct') && negb (t =? t') && negb (ct =? t') && negb (t =? ct'))
  | _, _ => true
  end.

Definition separated (f : list node) : bool :=
  forallb (fun w => forallb (fun w' => sep (parts w f) (parts w' f)) (wrappers f))
          (wrappers f).

(** The closure [handleToggle] of a column belongs to the wrapper it finds:
    its [toggle] is the toggle of that wrapper. *)
Definition handler_ok (f : list node) (h : handler) : bool :=
  match h with
  | HHandleToggle c t =>
      is_some (data_of c f)
      && match closest c sel_wrapper f with
         | Some w =>
             match parts w f with
             | (Some _, Some t') => t' =? t
             | (Some _, None) => false
             | (None, _) => true
             end
         | None => true
         end
  | _ => true
  end.

Definition handlers_ok (p : page) : bool :=
  forallb (fun l => handler_ok (roots p) (snd l)) (listeners p).

(** What the toggles rely on and keep. *)
Definition toggle_inv (p : page) : Prop :=
  wf p
  /\ plain_label (roots p) = true
  /\ separated (roots p) = true
  /\ handlers_ok p = true
  /\ forallb (consistent (roots p)) (wrappers (roots p)) = true.

(** A click on a toggle or a line runs the closure registered there; a
    click on the global button runs [toggleAllMessages]. *)
Inductive action :=
| Individual (column toggle : nat)
| Global.

Definition run_action (a : action) : M unit :=
  match a with
  | Individual c t => handleToggle c t
  | Global => toggleAllMessages
  end.

Definition handler_eqb (h h' : handler) : bool :=
  match h, h' with
  | HToggleAll, HToggleAll => true
  | HHandleToggle c t, HHandleToggle c' t' => (c =? c') && (t =? t')
  | HPreviewClick w, HPreviewClick w' => w =? w'
  | _, _ => false
  end.

(** The closure of an individual toggle is one the script registered. *)
Definition registered (p : page) (a : action) : bool :=
  match a with
  | Individual c t =>
      existsb (fun l => handler_eqb (snd l) (HHandleToggle c t)) (listeners p)
  | Global => true
  end.

(** The loop of [processMessages] leaves a candidate alone: it is inside a
    wrapper or the filter rejects it. *)
Definition settled (f : list node) (c : nat) : bool :=
  in_wrapper c f || negb (accepted c f).

(** Does [x] or an ancestor element of [x] have a class with [v] in its
    name? *)
Definition role_in_chain (v : string) (x : nat) (f : list node) : bool :=
  existsb (fun e => existsb (contains v) (classes (snd e))
                    && match kind (snd e) with KElement => true | KDocument => false end)
          (fchain x f).

(** The selectors of the containers [insertCollapseAllButton] looks for
    before it falls back on the body. *)
Definition container_selectors : list selector :=
  [ [[STag "header"]]; [[SClassSub "header"]]; [[STag "nav"]]; [[STag "main"]] ].

(** The page has one of them. *)
Definition has_container (f : list node) : bool :=
  existsb (fun sel => is_some (doc_querySelector sel f)) container_selectors.

(* ================================================================== *)
(** * Clicks: the listeners of a node and the bubbling of the event *)

(** The listeners registered on [x], in the order of registration. *)
Definition listeners_at (x : nat) (p : page) : list handler :=
  List.map snd (filter (fun l => fst l =? x) (listeners p)).

(** Does the listener call [stopPropagation]?  [handleToggle] does, in its
    first line. *)
Definition stops (h : handler) : bool :=
  match h with
  | HHandleToggle _ _ => true
  | _ => false
  end.

(** Run one listener.  [rec] is what [click()] inside a listener does;
    [None] says that the nesting of clicks went deeper than allowed.  An
    exception ends the listener, not the dispatch. *)
Definition run_handler (rec : nat -> page -> option page) (h : handler) (p : page)
  : option page :=
  match h with
  | HToggleAll => Some (page_of (toggleAllMessages p))
  | HHandleToggle c t => Some (page_of (handleToggle c t p))
  | HPreviewClick w =>
      match querySelector w sel_toggle (roots p) with
      | Some t => rec t p
      | None => Some p
      end
  end.

(** Run the listeners of one node; the flag says whether one of them stopped
    the propagation. *)
Fixpoint invoke (rec : nat -> page -> option page) (hs : list handler) (p : page)
         (stopped : bool) : option (page * bool) :=
  match hs with
  | [] => Some (p, stopped)
  | h :: r =>
      match run_handler rec h p with
      | Some p' => invoke rec r p' (stopped || stops h)
      | None => None
      end
  end.

(** The bubbling of a click along the path fixed when it was dispatched. *)
Fixpoint bubble (rec : nat -> page -> option page) (path : list nat) (p : page)
  : option page :=
  match path with
  | [] => Some p
  | y :: r =>
      match invoke rec (listeners_at y p) p false with
      | Some (p', true) => Some p'
      | Some (p', false) => bubble rec r p'
      | None => None
      end
  end.

(** A click on [target]: its listeners run, then those of its ancestors,
    nearest first.  [fuel] bounds the nesting of [click()] calls. *)
Fixpoint click (fuel : nat) (target : nat) (p : page) : option page :=
  match fuel with
  | 0 => None
  | S k => bubble (click k) (List.map fst (fchain target (roots p))) p
  end.

(** No listener of the page sits on a proper ancestor of [x]. *)
Definition quiet_above (x : nat) (p : page) : bool :=
  forallb (fun y => match listeners_at y p with [] => true | _ :: _ => false end)
          (tl (List.map fst (fchain x (roots p)))).

(** The listeners of the page sit on nodes the page has numbered. *)
Definition listeners_bound (p : page) : bool :=
  forallb (fun l => fst l <? next_id p) (listeners p).

(** The parent of [c] is an element. *)
Definition under_element (c : nat) (f : list node) : bool :=
  match parent_kind c f with
  | Some KElement => true
  | _ => false
  end.

(* ================================================================== *)
(** * Lists and options *)

Lemma first_some_app {A B} (f : A -> option B) (l1 l2 : list A) :
  first_some f (l1 ++ l2) =
  match first_some f l1 with Some b => Some b | None => first_some f l2 end.
Proof.
  induction l1 as [|a l1 IH]; simpl; [reflexivity|].
  destruct (f a); [reflexivity | exact IH].
Qed.

Lemma first_some_none {A B} (f : A -> option B) (l : list A) :
  (forall a, In a l -> f a = None) -> first_some f l = None.
Proof.
  induction l as [|a l IH]; simpl; intros H; [reflexivity|].
  rewrite (H a (or_introl eq_refl)). apply IH. intros; apply H; now right.
Qed.

Lemma first_some_in {A B} (f : A -> option B) (l : list A) (b : B) :
  first_some f l = Some b -> exists a, In a l /\ f a = Some b.
Proof.
  induction l as [|a l IH]; simpl; [discriminate|].
  destruct (f a) eqn:E.
  - intros [= <-]. exists a; auto.
  - intros H. destruct (IH H) as [a' [? ?]]. exists a'; auto.
Qed.

Lemma existsb_eqb_in (x : nat) (l : list nat) :
  existsb (Nat.eqb x) l = true <-> In x l.
Proof.
  rewrite existsb_exists. split.
  - intros [y [Hy E]]. apply Nat.eqb_eq in E. now subst.
  - intros H. exists x. split; [assumption | apply Nat.eqb_refl].
Qed.

Lemma existsb_eqb_notin (x : nat) (l : list nat) :
  ~ In x l -> existsb (Nat.eqb x) l = false.
Proof.
  intros H. destruct (existsb (Nat.eqb x) l) eqn:E; [|reflexivity].
  apply existsb_eqb_in in E. contradiction.
Qed.

(* ================================================================== *)
(** * Looking up and rewriting nodes *)

Lemma ids_head (n : node) : In (node_id n) (ids n).
Proof. destruct n; simpl; auto. Qed.

Lemma in_fids (y : nat) (f : list node) :
  In y (fids f) <-> exists n, In n f /\ In y (ids n).
Proof. unfold fids. rewrite in_flat_map. reflexivity. Qed.

Lemma find_node_id (x : nat) (n m : node) :
  find_node x n = Some m -> node_id m = x.
Proof.
  induction n as [i s | i d ks IH] using node_ind'; simpl.
  - destruct (i =? x) eqn:E; [|discriminate].
    intros [= <-]. now apply Nat.eqb_eq in E.
  - destruct (i =? x) eqn:E.
    + intros [= <-]. now apply Nat.eqb_eq in E.
    + intros H. apply first_some_in in H. destruct H as [k [Hk Hf]].
      rewrite Forall_forall in IH. eauto.
Qed.

Lemma find_node_notin (x : nat) (n : node) :
  ~ In x (ids n) -> find_node x n = None.
Proof.
  induction n as [i s | i d ks IH] using node_ind'; simpl; intros H.
  - destruct (Nat.eqb_spec i x); [subst; tauto | reflexivity].
  - destruct (Nat.eqb_spec i x); [subst; tauto|].
    apply first_some_none. intros k Hk. rewrite Forall_forall in IH.
    apply IH; [assumption|]. intros Hin. apply H. right.
    apply in_flat_map. eauto.
Qed.

Lemma ffind_notin (x : nat) (f : list node) :
  ~ In x (fids f) -> ffind x f = None.
Proof.
  intros H. apply first_some_none. intros n Hn. apply find_node_notin.
  intros Hin. apply H. apply in_fids. eauto.
Qed.

Lemma find_node_in (x : nat) (n : node) :
  In x (ids n) -> exists m, find_node x n = Some m.
Proof.
  induction n as [i s | i d ks IH] using node_ind'; simpl.
  - intros [->|[]]. rewrite Nat.eqb_refl. eauto.
  - intros [->|H]; [rewrite Nat.eqb_refl; eauto|].
    destruct (i =? x); [eauto|].
    apply in_flat_map in H. destruct H as [k [Hk Hx]].
    rewrite Forall_forall in IH.
    induction ks as [|k' ks IHks]; [destruct Hk|]. simpl.
    destruct (find_node x k') eqn:E; [eauto|].
    destruct Hk as [->|Hk].
    + destruct (IH k (or_introl eq_refl) Hx) as [m Hm]. congruence.
    + apply IHks; [|assumption]. intros; apply IH; [now right | assumption].
Qed.

Lemma ffind_in (x : nat) (f : list node) :
  In x (fids f) -> exists m, ffind x f = Some m.
Proof.
  intros H. apply in_fids in H. destruct H as [n [Hn Hx]].
  unfold ffind. induction f as [|k f IH]; [destruct Hn|]. simpl.
  destruct (find_node x k) eqn:E; [eauto|].
  destruct Hn as [->|Hn].
  - destruct (find_node_in _ _ Hx) as [m Hm]. congruence.
  - auto.
Qed.

Lemma find_node_sub (x : nat) (n m : node) :
  find_node x n = Some m -> incl (ids m) (ids n).
Proof.
  induction n as [i s | i d ks IH] using node_ind'; simpl.
  - destruct (i =? x); [|discriminate]. intros [= <-]. apply incl_refl.
  - destruct (i =? x).
    + intros [= <-]. apply incl_refl.
    + intros H. apply first_some_in in H. destruct H as [k [Hk Hf]].
      rewrite Forall_forall in IH. intros y Hy. right.
      apply in_flat_map. exists k. split; [assumption|].
      exact (IH k Hk Hf y Hy).
Qed.

Lemma ffind_sub (x : nat) (f : list node) (m : node) :
  ffind x f = Some m -> incl (ids m) (fids f).
Proof.
  intros H. apply first_some_in in H. destruct H as [k [Hk Hf]].
  intros y Hy. apply in_fids. exists k. split; [assumption|].
  exact (find_node_sub _ _ _ Hf y Hy).
Qed.

Lemma ffind_id (x : nat) (f : list node) (m : node) :
  ffind x f = Some m -> node_id m = x.
Proof.
  intros H. apply first_some_in in H. destruct H as [k [_ Hf]].
  exact (find_node_id _ _ _ Hf).
Qed.

Lemma ffind_app (x : nat) (f g : list node) :
  ffind x (f ++ g) =
  match ffind x f with Some m => Some m | None => ffind x g end.
Proof. apply first_some_app. Qed.

Lemma frewrite_app (x : nat) (h : node -> list node) (f g : list node) :
  frewrite x h (f ++ g) = frewrite x h f ++ frewrite x h g.
Proof. apply flat_map_app. Qed.

Lemma flat_map_ext_in {A B} (g h : A -> list B) (l : list A) :
  (forall a, In a l -> g a = h a) -> flat_map g l = flat_map h l.
Proof.
  induction l as [|a l IH]; simpl; intros H; [reflexivity|].
  rewrite (H a (or_introl eq_refl)). f_equal. apply IH.
  intros; apply H; now right.
Qed.

Lemma flat_map_id_on {A} (h : A -> list A) (l : list A) :
  (forall a, In a l -> h a = [a]) -> flat_map h l = l.
Proof.
  induction l as [|a l IH]; simpl; intros H; [reflexivity|].
  rewrite (H a (or_introl eq_refl)). simpl. f_equal. apply IH.
  intros; apply H; now right.
Qed.

Lemma rewrite_notin (x : nat) (h : node -> list node) (n : node) :
  ~ In x (ids n) -> rewrite_node x h n = [n].
Proof.
  induction n as [i s | i d ks IH] using node_ind'; simpl; intros H.
  - destruct (Nat.eqb_spec i x); [subst; tauto | reflexivity].
  - destruct (Nat.eqb_spec i x); [subst; tauto|].
    do 2 f_equal. apply flat_map_id_on. intros k Hk.
    rewrite Forall_forall in IH. apply IH; [assumption|].
    intros Hin. apply H. right. apply in_flat_map. eauto.
Qed.

Lemma frewrite_notin (x : nat) (h : node -> list node) (f : list node) :
  ~ In x (fids f) -> frewrite x h f = f.
Proof.
  intros H. apply flat_map_id_on. intros n Hn. apply rewrite_notin.
  intros Hin. apply H. apply in_fids. eauto.
Qed.

Lemma rewrite_here (h : node -> list node) (n : node) :
  rewrite_node (node_id n) h n = h n.
Proof. destruct n; simpl; now rewrite Nat.eqb_refl. Qed.

Lemma find_here (n : node) : find_node (node_id n) n = Some n.
Proof. destruct n; simpl; now rewrite Nat.eqb_refl. Qed.

(* ================================================================== *)
(** * Unique identities *)

Lemma NoDup_app_disj {A} (l1 l2 : list A) (a : A) :
  NoDup (l1 ++ l2) -> In a l1 -> In a l2 -> False.
Proof.
  induction l1 as [|b l1 IH]; simpl; intros H H1 H2; [destruct H1|].
  inversion H as [|? ? Hn Hd]; subst. destruct H1 as [->|H1].
  - apply Hn. apply in_or_app. now right.
  - eauto.
Qed.

Lemma NoDup_kid (ks : list node) (k : node) :
  NoDup (fids ks) -> In k ks -> NoDup (ids k).
Proof.
  induction ks as [|k' ks IH]; simpl; intros H Hin; [destruct Hin|].
  destruct Hin as [->|Hin].
  - exact (NoDup_app_remove_r _ _ H).
  - apply IH; [exact (NoDup_app_remove_l _ _ H) | assumption].
Qed.

Lemma NoDup_elem (i : nat) (d : edata) (ks : list node) :
  NoDup (ids (Elem i d ks)) -> ~ In i (fids ks) /\ NoDup (fids ks).
Proof. simpl. intros H. inversion H; subst. auto. Qed.

(** With unique identities there is one node to find. *)
Lemma ffind_unique (x : nat) (f : list node) (k m : node) :
  NoDup (fids f) -> In k f -> find_node x k = Some m -> ffind x f = Some m.
Proof.
  induction f as [|k' f IH]; simpl; intros H Hin Hf; [destruct Hin|].
  unfold ffind. simpl. destruct Hin as [->|Hin].
  - now rewrite Hf.
  - destruct (find_node x k') eqn:E.
    + exfalso. apply (NoDup_app_disj _ _ x H).
      * apply (find_node_sub _ _ _ E). rewrite <- (find_node_id _ _ _ E). apply ids_head.
      * apply in_fids. exists k. split; [assumption|].
        apply (find_node_sub _ _ _ Hf). rewrite <- (find_node_id _ _ _ Hf). apply ids_head.
    + apply IH; [exact (NoDup_app_remove_l _ _ H) | assumption | assumption].
Qed.

Lemma rewrite_const (x : nat) (g : node -> list node) (n m : node) :
  NoDup (ids n) -> find_node x n = Some m ->
  rewrite_node x g n = rewrite_node x (fun _ => g m) n.
Proof.
  induction n as [i s | i d ks IH] using node_ind'; intros Hnd Hf.
  - simpl in *. destruct (i =? x); [|discriminate]. now inversion Hf.
  - simpl in *. destruct (i =? x); [now inversion Hf|].
    apply (NoDup_elem i d) in Hnd. destruct Hnd as [_ Hnd].
    do 2 f_equal. apply flat_map_ext_in. intros k Hk.
    rewrite Forall_forall in IH.
    destruct (find_node x k) eqn:E.
    + apply IH; [assumption | exact (NoDup_kid _ _ Hnd Hk) |].
      rewrite E. rewrite <- Hf. symmetry.
      exact (ffind_unique _ _ _ _ Hnd Hk E).
    + assert (~ In x (ids k)) as Hx.
      { intros Hin. destruct (find_node_in _ _ Hin) as [? ?]. congruence. }
      now rewrite !rewrite_notin.
Qed.

Lemma frewrite_const (x : nat) (g : node -> list node) (f : list node) (m : node) :
  NoDup (fids f) -> ffind x f = Some m ->
  frewrite x g f = frewrite x (fun _ => g m) f.
Proof.
  intros Hnd Hf. apply flat_map_ext_in. intros k Hk.
  destruct (find_node x k) eqn:E.
  - apply rewrite_const; [exact (NoDup_kid _ _ Hnd Hk)|].
    rewrite E, <- Hf. symmetry. exact (ffind_unique _ _ _ _ Hnd Hk E).
  - assert (~ In x (ids k)) as Hx.
    { intros Hin. destruct (find_node_in _ _ Hin) as [? ?]. congruence. }
    now rewrite !rewrite_notin.
Qed.

Lemma skel_sub (x : nat) (n : node) : incl (skel x n) (ids n).
Proof.
  induction n as [i s | i d ks IH] using node_ind'; simpl.
  - destruct (i =? x); [intros ? [] | apply incl_refl].
  - destruct (i =? x); [intros ? []|].
    intros y [->|Hy]; [now left|]. right.
    apply in_flat_map in Hy. destruct Hy as [k [Hk Hy]].
    apply in_flat_map. exists k. split; [assumption|].
    rewrite Forall_forall in IH. exact (IH k Hk y Hy).
Qed.

Lemma fskel_sub (x : nat) (f : list node) : incl (fskel x f) (fids f).
Proof.
  intros y Hy. apply in_flat_map in Hy. destruct Hy as [k [Hk Hy]].
  apply in_fids. exists k. split; [assumption | exact (skel_sub _ _ _ Hy)].
Qed.

(** The subtree at [x] and the rest of the tree share no identity. *)
Lemma skel_disjoint (x y : nat) (n m : node) :
  NoDup (ids n) -> find_node x n = Some m -> In y (ids m) -> ~ In y (skel x n).
Proof.
  induction n as [i s | i d ks IH] using node_ind'; intros Hnd Hf Hy.
  - simpl in *. destruct (i =? x); [auto | discriminate].
  - simpl in *. destruct (i =? x); [auto|].
    inversion Hnd as [|? ? Hi Hks]; subst.
    apply first_some_in in Hf. destruct Hf as [k [Hk Hf]].
    assert (In y (ids k)) as Hyk by exact (find_node_sub _ _ _ Hf y Hy).
    intros [->|Hin].
    + apply Hi. apply in_flat_map. eauto.
    + apply in_flat_map in Hin. destruct Hin as [k' [Hk' Hin]].
      rewrite Forall_forall in IH.
      clear Hi Hnd. induction ks as [|k0 ks IHks]; [destruct Hk|].
      simpl in Hks. destruct Hk as [Ek|Hk], Hk' as [Ek'|Hk'].
      * subst k k'.
        exact (IH k0 (or_introl eq_refl) (NoDup_app_remove_r _ _ Hks) Hf Hy Hin).
      * subst k. apply (NoDup_app_disj _ _ y Hks Hyk).
        apply in_flat_map. exists k'. split; [assumption | exact (skel_sub _ _ _ Hin)].
      * subst k'. apply (NoDup_app_disj _ _ y Hks (skel_sub _ _ _ Hin)).
        apply in_flat_map. eauto.
      * apply IHks;
          [intros; apply IH; [now right | assumption..]
          | assumption | exact (NoDup_app_remove_l _ _ Hks) | assumption].
Qed.

Lemma fskel_disjoint (x y : nat) (f : list node) (m : node) :
  NoDup (fids f) -> ffind x f = Some m -> In y (ids m) -> ~ In y (fskel x f).
Proof.
  intros Hnd Hf Hy Hin.
  remember (S (list_max (fids f) + x)) as r eqn:Er.
  assert (~ In r (fids f)) as Hr.
  { intros Hr. pose proof (proj1 (list_max_le (fids f) _) (le_n _)) as Hmax.
    rewrite Forall_forall in Hmax. specialize (Hmax _ Hr). lia. }
  assert ((r =? x) = false) as Hrx by (apply Nat.eqb_neq; lia).
  apply (skel_disjoint x y (Elem r (new_element "") f) m).
  - simpl. constructor; assumption.
  - simpl. rewrite Hrx. exact Hf.
  - assumption.
  - simpl. rewrite Hrx. now right.
Qed.

(* ================================================================== *)
(** * Rewriting below a rewritten node

    After [x] was replaced by the trees [l], a call that names only new
    nodes or nodes below [x] works on [l] alone. *)

Lemma flat_map_comp {A B C} (g : B -> list C) (h : A -> list B) (l : list A) :
  flat_map g (flat_map h l) = flat_map (fun a => flat_map g (h a)) l.
Proof.
  induction l as [|a l IH]; simpl; [reflexivity|].
  now rewrite flat_map_app, IH.
Qed.

Lemma rewrite_rewrite (x y : nat) (h : node -> list node) (l : list node) (n : node) :
  ~ In y (skel x n) ->
  frewrite y h (rewrite_node x (fun _ => l) n)
  = rewrite_node x (fun _ => frewrite y h l) n.
Proof.
  unfold frewrite.
  induction n as [i s | i d ks IH] using node_ind'; simpl; intros Hy.
  - destruct (i =? x); [reflexivity|]. simpl in *.
    destruct (Nat.eqb_spec i y); [subst; tauto | reflexivity].
  - destruct (i =? x); [reflexivity|]. simpl in *.
    destruct (Nat.eqb_spec i y); [subst; tauto|].
    rewrite app_nil_r. do 2 f_equal. rewrite flat_map_comp.
    apply flat_map_ext_in. intros k Hk. rewrite Forall_forall in IH.
    apply IH; [assumption|]. intros Hin. apply Hy. right.
    apply in_flat_map. eauto.
Qed.

Lemma frewrite_frewrite (x y : nat) (h : node -> list node) (l f : list node) :
  ~ In y (fskel x f) ->
  frewrite y h (frewrite x (fun _ => l) f) = frewrite x (fun _ => frewrite y h l) f.
Proof.
  intros Hy. unfold frewrite at 1 2. rewrite flat_map_comp.
  apply flat_map_ext_in. intros k Hk. apply rewrite_rewrite.
  intros Hin. apply Hy. apply in_flat_map. eauto.
Qed.

Lemma find_rewrite (x y : nat) (l : list node) (n : node) :
  ~ In y (skel x n) ->
  ffind y (rewrite_node x (fun _ => l) n)
  = if existsb (Nat.eqb x) (ids n) then ffind y l else None.
Proof.
  unfold ffind.
  induction n as [i s | i d ks IH] using node_ind'; simpl; intros Hy.
  - rewrite (Nat.eqb_sym x i). destruct (i =? x); [reflexivity|]. simpl in *.
    destruct (Nat.eqb_spec i y); [subst; tauto | reflexivity].
  - rewrite (Nat.eqb_sym x i). destruct (i =? x); [reflexivity|]. simpl in *.
    destruct (Nat.eqb_spec i y); [subst; tauto|].
    assert (forall k, In k ks -> ~ In y (skel x k)) as Hks.
    { intros k Hk Hin. apply Hy. right. apply in_flat_map. eauto. }
    clear Hy. rewrite Forall_forall in IH.
    assert (first_some (find_node y) (flat_map (rewrite_node x (fun _ => l)) ks)
            = if existsb (Nat.eqb x) (flat_map ids ks)
              then first_some (find_node y) l else None) as ->.
    { induction ks as [|k ks IHks]; simpl; [reflexivity|].
      rewrite first_some_app, existsb_app.
      rewrite (IH k (or_introl eq_refl) (Hks k (or_introl eq_refl))).
      rewrite IHks;
        [| intros; apply IH; [now right | assumption] | intros; apply Hks; now right].
      destruct (existsb (Nat.eqb x) (ids k)); simpl.
      - destruct (first_some (find_node y) l);
          [reflexivity | now destruct (existsb (Nat.eqb x) (flat_map ids ks))].
      - reflexivity. }
    now destruct (existsb (Nat.eqb x) (flat_map ids ks)), (first_some (find_node y) l).
Qed.

Lemma ffind_frewrite (x y : nat) (l f : list node) :
  ~ In y (fskel x f) -> In x (fids f) ->
  ffind y (frewrite x (fun _ => l) f) = ffind y l.
Proof.
  intros Hy Hx.
  assert (ffind y (frewrite x (fun _ => l) f)
          = if existsb (Nat.eqb x) (fids f) then ffind y l else None) as ->.
  { clear Hx. unfold ffind, frewrite, fids.
    induction f as [|k f IH]; simpl; [reflexivity|].
    rewrite first_some_app, existsb_app.
    pose proof (find_rewrite x y l k) as Hk. unfold ffind in Hk. rewrite Hk.
    2:{ intros Hin. apply Hy. simpl. apply in_or_app. now left. }
    rewrite IH.
    2:{ intros Hin. apply Hy. simpl. apply in_or_app. now right. }
    destruct (existsb (Nat.eqb x) (ids k)); simpl.
    - destruct (first_some (find_node y) l);
        [reflexivity | now destruct (existsb (Nat.eqb x) (flat_map ids f))].
    - reflexivity. }
  apply existsb_eqb_in in Hx. now rewrite Hx.
Qed.

(** The same for trees appended to the forest. *)
Lemma frewrite_tail (y : nat) (h : node -> list node) (f t : list node) :
  ~ In y (fids f) -> frewrite y h (f ++ t) = f ++ frewrite y h t.
Proof. intros Hy. now rewrite frewrite_app, frewrite_notin. Qed.

Lemma ffind_tail (y : nat) (f t : list node) :
  ~ In y (fids f) -> ffind y (f ++ t) = ffind y t.
Proof. intros Hy. now rewrite ffind_app, ffind_notin. Qed.

Lemma ffind_front (y : nat) (f t : list node) (m : node) :
  ffind y f = Some m -> ffind y (f ++ t) = Some m.
Proof. intros Hy. now rewrite ffind_app, Hy. Qed.

(* ================================================================== *)
(** * Running DOM calls on an explicit page *)

Ltac eqb_tac :=
  repeat match goal with
  | |- context [Nat.eqb ?u ?v] =>
      first [ replace (Nat.eqb u v) with true by (symmetry; apply Nat.eqb_eq; lia)
            | replace (Nat.eqb u v) with false by (symmetry; apply Nat.eqb_neq; lia) ]
  end.

Lemma placed_ffind (R : list node) (x : nat) (N : node) (y : nat) (l t : list node) :
  ffind x R = Some N ->
  ~ In y (fskel x R) -> ffind y (placed R x l t) = ffind y (l ++ t).
Proof.
  intros HN Hy. unfold placed. rewrite !ffind_app, ffind_frewrite; auto.
  apply (ffind_sub _ _ _ HN). rewrite <- (ffind_id _ _ _ HN). apply ids_head.
Qed.

Lemma placed_frewrite (R : list node) (x y : nat) (h : node -> list node) (l t : list node) :
  ~ In y (fskel x R) ->
  frewrite y h (placed R x l t) = placed R x (frewrite y h l) (frewrite y h t).
Proof.
  intros Hy. unfold placed. now rewrite frewrite_app, frewrite_frewrite.
Qed.



Lemma chain_in (x : nat) (n : node) :
  In x (ids n) -> exists c, chain x n = Some c.
Proof.
  induction n as [i s | i d ks IH] using node_ind'; simpl.
  - intros [->|[]]. rewrite Nat.eqb_refl. eauto.
  - intros [->|H]; [rewrite Nat.eqb_refl; eauto|].
    destruct (i =? x); [eauto|].
    apply in_flat_map in H. destruct H as [k [Hk Hx]].
    rewrite Forall_forall in IH.
    assert (exists c, first_some (chain x) ks = Some c) as [c ->]; [|eauto].
    induction ks as [|k' ks IHks]; [destruct Hk|]. simpl.
    destruct (chain x k') eqn:E; [eauto|].
    destruct Hk as [->|Hk].
    + destruct (IH k (or_introl eq_refl) Hx) as [m Hm]. congruence.
    + apply IHks; [|assumption]. intros; apply IH; [now right | assumption].
Qed.

Lemma fchain_front (x : nat) (f t : list node) :
  In x (fids f) -> fchain x (f ++ t) = fchain x f.
Proof.
  intros H. unfold fchain. rewrite first_some_app.
  assert (exists c, first_some (chain x) f = Some c) as [c ->]; [|reflexivity].
  apply in_fids in H. destruct H as [n [Hn Hx]].
  induction f as [|k f IH]; [destruct Hn|]. simpl.
  destruct (chain x k) eqn:E; [eauto|].
  destruct Hn as [->|Hn].
  - destruct (chain_in _ _ Hx) as [m Hm]. congruence.
  - auto.
Qed.

Lemma closest_front (x : nat) (sel : selector) (f t : list node) :
  In x (fids f) -> closest x sel (f ++ t) = closest x sel f.
Proof. intros H. unfold closest. now rewrite fchain_front. Qed.

Lemma data_of_front (x : nat) (f t : list node) (m : node) :
  ffind x f = Some m -> data_of x (f ++ t) = data_of x f.
Proof. intros H. unfold data_of. now rewrite (ffind_front _ _ _ _ H), H. Qed.

Lemma parentNode_front (x p : nat) (f t : list node) :
  parentNode x f = Some p -> parentNode x (f ++ t) = Some p.
Proof. unfold parentNode. intros H. now rewrite first_some_app, H. Qed.


Lemma run_read {A} (g : list node -> A) r n l a :
  read g (mkPage r n l a) = Ok (g r) (mkPage r n l a).
Proof. reflexivity. Qed.
Lemma run_update g r n l a :
  update g (mkPage r n l a) = Ok tt (mkPage (g r) n l a).
Proof. reflexivity. Qed.
Lemma run_createElement t r n l a :
  createElement t (mkPage r n l a)
  = Ok n (mkPage (r ++ [Elem n (new_element t) []]) (S n) l a).
Proof. reflexivity. Qed.
Lemma run_set_className x cs r n l a :
  set_className x cs (mkPage r n l a)
  = Ok tt (mkPage (frewrite x (on_data (set_classes (fun _ => cs))) r) n l a).
Proof. reflexivity. Qed.
Lemma run_classList_add x c r n l a :
  classList_add x c (mkPage r n l a)
  = Ok tt (mkPage (frewrite x (on_data (set_classes (add_token c))) r) n l a).
Proof. reflexivity. Qed.
Lemma run_classList_remove x c r n l a :
  classList_remove x c (mkPage r n l a)
  = Ok tt (mkPage (frewrite x (on_data (set_classes (remove_token c))) r) n l a).
Proof. reflexivity. Qed.
Lemma run_setAttribute x k v r n l a :
  setAttribute x k v (mkPage r n l a)
  = Ok tt (mkPage (frewrite x (on_data (set_attr k v)) r) n l a).
Proof. reflexivity. Qed.
Lemma run_style_set x k v r n l a :
  style_set x k v (mkPage r n l a)
  = Ok tt (mkPage (frewrite x (on_data (set_style k v)) r) n l a).
Proof. reflexivity. Qed.
Lemma run_addEventListener x h r n l a :
  addEventListener x h (mkPage r n l a) = Ok tt (mkPage r n (l ++ [(x, h)]) a).
Proof. reflexivity. Qed.
Lemma run_set_innerHTML x frag cnt r n l a :
  set_innerHTML x frag cnt (mkPage r n l a)
  = Ok tt (mkPage (frewrite x (on_kids (fun _ => frag n)) r ++ old_kids x r) (cnt + n) l a).
Proof. reflexivity. Qed.
Lemma run_ret {A} (v : A) p : ret v p = Ok v p.
Proof. reflexivity. Qed.
Lemma run_insertBefore parent c ref r n l a :
  insertBefore parent c ref (mkPage r n l a)
  = if pre_insert_ok parent c ref r then
      if match ref with Some r' => r' =? c | None => false end then Ok tt (mkPage r n l a)
      else match ffind c r with
           | Some cn => Ok tt (mkPage (place parent ref cn (frewrite c (fun _ => []) r)) n l a)
           | None => Throw (mkPage r n l a)
           end
    else Throw (mkPage r n l a).
Proof. reflexivity. Qed.
Lemma run_appendChild parent c r n l a :
  appendChild parent c (mkPage r n l a)
  = if pre_insert_ok parent c None r then
      match ffind c r with
      | Some cn => Ok tt (mkPage (frewrite parent (on_kids (fun ks => ks ++ [cn]))
                                    (frewrite c (fun _ => []) r)) n l a)
      | None => Throw (mkPage r n l a)
      end
    else Throw (mkPage r n l a).
Proof. reflexivity. Qed.

Lemma run_cond_add (u : bool) x c r n l a :
  (if u then classList_add x c else ret tt) (mkPage r n l a)
  = Ok tt (mkPage (if u then frewrite x (on_data (set_classes (add_token c))) r else r) n l a).
Proof. now destruct u. Qed.

Lemma run_cond_add_tail (u : bool) (R : list node) i c k t cs at' st ks n l a :
  ~ In i (fids R) ->
  (if u then classList_add i c else ret tt)
    (mkPage (R ++ [Elem i (mkData k t cs at' st) ks]) n l a)
  = Ok tt (mkPage (R ++ [Elem i (mkData k t (if u then add_token c cs else cs) at' st) ks])
             n l a).
Proof.
  intros Hi. destruct u; [|reflexivity].
  rewrite run_classList_add, frewrite_tail by exact Hi.
  simpl. now rewrite Nat.eqb_refl.
Qed.

Create Rewrite HintDb run.
#[local] Hint Rewrite @run_read run_update run_createElement run_set_className
  run_classList_add run_classList_remove run_setAttribute run_style_set
  run_addEventListener run_set_innerHTML @run_ret run_insertBefore run_appendChild
  : run.

Lemma bind_assoc {A B C} (c : M A) (k : A -> M B) (k' : B -> M C) (p : page) :
  bind (bind c k) k' p = bind c (fun v => bind (k v) k') p.
Proof. unfold bind. now destruct (c p). Qed.

Ltac mstep :=
  rewrite ?bind_assoc; unfold bind at 1; progress autorewrite with run; cbv beta iota.

Ltac tsimp :=
  repeat progress
    (cbv beta iota delta [on_data on_kids set_classes set_attr
       set_style new_element add_token str_mem is_element toggle_html chevron];
     cbn [frewrite fids ffind place old_kids
          flat_map rewrite_node node_id app put kind tag classes attrs style
          first_some find_node kids ids existsb orb negb andb nodeType
          String.eqb Ascii.eqb Bool.eqb Nat.add];
     eqb_tac).

Lemma classList_contains_front (x : nat) (c : string) (f t : list node) (m : node) :
  ffind x f = Some m -> classList_contains x c (f ++ t) = classList_contains x c f.
Proof. intros H. unfold classList_contains. now rewrite (data_of_front _ _ _ _ H). Qed.


Lemma placed_snoc (R : list node) (x : nat) (l t t' : list node) :
  placed R x l t ++ t' = placed R x l (t ++ t').
Proof. unfold placed. now rewrite app_assoc. Qed.

Lemma select_skip_div (sel_id : string) (i : nat) (cs : list string) sty (l : list (nat * edata)) :
  select [[SId sel_id]] ((i, mkData KElement "div" cs [] sty) :: l) = select [[SId sel_id]] l.
Proof. reflexivity. Qed.

Lemma elements_ids (n : node) (e : nat * edata) :
  In e (elements n) -> In (fst e) (ids n).
Proof.
  induction n as [i s | i d ks IH] using node_ind'; simpl; [tauto|].
  intros [<-|H]; [now left|]. right.
  apply in_flat_map in H. destruct H as [k [Hk H]].
  apply in_flat_map. exists k. split; [assumption|].
  rewrite Forall_forall in IH. auto.
Qed.

Lemma select_in (sel : selector) (l : list (nat * edata)) (r : nat) :
  In r (select sel l) -> exists d, In (r, d) l /\ matches sel d = true.
Proof.
  unfold select. rewrite in_map_iff. intros [[i d] [<- H]].
  apply filter_In in H. simpl in *. exists d. tauto.
Qed.

Lemma hd_error_in {A} (l : list A) (a : A) : hd_error l = Some a -> In a l.
Proof. destruct l; simpl; [discriminate|]. intros [= ->]. now left. Qed.

Section Transform.
Variables (R : list node) (b : nat) (x : nat) (N : node).
Variables (ls : list (nat * handler)) (a : bool).
Hypothesis Hnd : NoDup (fids R).
Hypothesis Hlt : forall i, In i (fids R) -> i < b.
Hypothesis HN : ffind x R = Some N.
Hypothesis Hclosest : closest x sel_wrapper R = None.
Hypothesis Hlen : 20 <= List.length (trim (textContent x R)).

Lemma fresh_R (y : nat) : b <= y -> ~ In y (fids R).
Proof. intros H Hin. apply Hlt in Hin. lia. Qed.

Lemma x_in : In x (fids R).
Proof. apply (ffind_sub _ _ _ HN). rewrite <- (ffind_id _ _ _ HN). apply ids_head. Qed.

Lemma local_fresh (y : nat) : b <= y -> ~ In y (fskel x R).
Proof. intros H Hin. apply (fresh_R y H). exact (fskel_sub _ _ _ Hin). Qed.

Lemma local_x : ~ In x (fskel x R).
Proof.
  apply (fskel_disjoint x x R N Hnd HN).
  rewrite <- (ffind_id _ _ _ HN) at 1. apply ids_head.
Qed.

Lemma N_fresh (y : nat) : b <= y -> ~ In y (ids N).
Proof. intros H Hin. apply (fresh_R y H). exact (ffind_sub _ _ _ HN y Hin). Qed.

Lemma rewrite_at_x (h : node -> list node) : rewrite_node x h N = h N.
Proof. rewrite <- (ffind_id _ _ _ HN) at 1. apply rewrite_here. Qed.

Lemma find_at_x : find_node x N = Some N.
Proof. rewrite <- (ffind_id _ _ _ HN) at 1. apply find_here. Qed.

Ltac loc := first [apply local_x | apply local_fresh; lia].
Ltac nsimp :=
  repeat first
    [ rewrite rewrite_at_x
    | rewrite find_at_x
    | rewrite (rewrite_notin _ _ N) by (apply N_fresh; lia)
    | rewrite (find_node_notin _ N) by (apply N_fresh; lia)
    | rewrite (existsb_eqb_notin _ (ids N)) by (apply N_fresh; lia)
    | rewrite app_nil_r ].
Ltac psimp :=
  unfold pre_insert_ok, old_kids, textContent, querySelector;
  repeat first
    [ rewrite placed_snoc
    | rewrite (placed_frewrite R x) by loc
    | rewrite (placed_ffind R x N _ _ _ HN) by loc ];
  tsimp; repeat (progress (nsimp; tsimp)).

(** The calls up to the test of the parent: the guards pass, the wrapper
    is created and gets its classes. *)
Ltac head_phase :=
  unfold addToggleToMessage;
  mstep; rewrite Hclosest; cbn [is_some];
  mstep; replace (_ <? 20) with false by (symmetry; apply Nat.ltb_ge; exact Hlen);
  mstep; mstep;
  rewrite frewrite_tail by (apply fresh_R; lia); tsimp;
  mstep; mstep;
  rewrite !(classList_contains_front _ _ _ _ _ HN), !closest_front by exact x_in;
  fold (is_user x R); fold (is_assistant x R);
  generalize (is_user x R) as u; generalize (is_assistant x R) as s; intros s u;
  rewrite ?bind_assoc; unfold bind at 1;
  rewrite run_cond_add_tail by (apply fresh_R; lia); cbv beta iota;
  rewrite ?bind_assoc; unfold bind at 1;
  rewrite run_cond_add_tail by (apply fresh_R; lia); cbv beta iota;
  match goal with |- context [mkData KElement "div" ?c [] []] =>
    replace c with (wrapper_classes u s) by (destruct u, s; reflexivity) end.

Lemma addToggle_run (par : nat) (pd : edata) (pks : list node) :
  parentNode x R = Some par ->
  ffind par R = Some (Elem par pd pks) ->
  existsb (fun k => node_id k =? x) pks = true ->
  kind pd = KElement ->
  addToggleToMessage x (mkPage R b ls a)
  = Ok tt (mkPage (frewrite x (fun _ => [wrapper_tree b (is_user x R) (is_assistant x R)
                                           (preview_text (is_user x R) N) N]) R)
             (wrapper_size (preview_text (is_user x R) N) + b)
             (ls ++ wrapper_listeners b) a).
Proof.
  intros Hpar HP Hkid Hkind.
  pose proof x_in as Hx.
  assert (x < b) as Hxb by (apply Hlt, Hx).
  assert (par < b) as Hpb.
  { apply Hlt. apply (ffind_sub _ _ _ HP). now left. }
  head_phase.
  mstep; rewrite (parentNode_front _ _ _ _ Hpar).
  mstep; unfold pre_insert_ok;
    rewrite (ffind_front _ _ _ _ HP), !ffind_tail by (apply fresh_R; lia);
    rewrite frewrite_tail by (apply fresh_R; lia);
    tsimp; rewrite Hkid, Hkind; cbn [andb]; tsimp;
    rewrite app_nil_r, (frewrite_const _ _ _ _ Hnd HN).
  match goal with |- context [frewrite x (fun _ => ?l) R] =>
         replace (frewrite x (fun _ => l) R) with (placed R x l []) at 1
           by (unfold placed; apply app_nil_r) end.
  unfold createCollapseColumn.
  repeat (mstep; psimp).
  match goal with |- set_textContent _ (preview_of ?e) _ = _ =>
    replace e with (if u then trim (text_of N) else response_text N) end.
  2:{ destruct u; [reflexivity|]. unfold response_text, sel_response.
      cbn [descendants kids flat_map elements app].
      rewrite !select_skip_div, !app_nil_r.
      destruct (hd_error (select [[SId "response-content-container"]] (elements N))) as [r|] eqn:Er;
        [|reflexivity].
      assert (In r (ids N)) as Hr.
      { apply hd_error_in, select_in in Er. destruct Er as [d [Hd _]].
        exact (elements_ids _ _ Hd). }
      assert (r < b) as Hrb by (apply Hlt; exact (ffind_sub _ _ _ HN r Hr)).
      rewrite (placed_ffind R x N _ _ _ HN) by exact (fskel_disjoint x r R N Hnd HN Hr).
      tsimp. now destruct (find_node r N). }
  fold (preview_text u N).
  unfold set_textContent.
  destruct (preview_text u N) eqn:Ep; unfold with_roots;
    cbn [roots next_id listeners isAllCollapsed]; psimp.
  all: unfold placed, wrapper_listeners; rewrite app_nil_r, <- !app_assoc; reflexivity.
Qed.

Lemma addToggle_orphan_run :
  parentNode x R = None ->
  addToggleToMessage x (mkPage R b ls a)
  = Ok tt (mkPage (R ++ [Elem b (div (wrapper_classes (is_user x R) (is_assistant x R))) []])
             (S b) ls a).
Proof.
  intros Hpar. head_phase.
  mstep. unfold parentNode in *. rewrite first_some_app, Hpar. reflexivity.
Qed.

Lemma addToggle_throw_run (par : nat) (pd : edata) (pks : list node) :
  parentNode x R = Some par ->
  ffind par R = Some (Elem par pd pks) ->
  existsb is_element pks = true ->
  kind pd = KDocument ->
  addToggleToMessage x (mkPage R b ls a)
  = Throw (mkPage (R ++ [Elem b (div (wrapper_classes (is_user x R) (is_assistant x R))) []])
             (S b) ls a).
Proof.
  intros Hpar HP Hel Hkind.
  assert (par < b) as Hpb.
  { apply Hlt. apply (ffind_sub _ _ _ HP). now left. }
  head_phase.
  mstep; rewrite (parentNode_front _ _ _ _ Hpar).
  mstep; unfold pre_insert_ok;
    rewrite (ffind_front _ _ _ _ HP), !ffind_tail by (apply fresh_R; lia).
  unfold is_element in Hel. tsimp. rewrite Hkind, Hel.
  cbn [negb]. rewrite andb_false_r. reflexivity.
Qed.
End Transform.

(* ================================================================== *)
(** * The forest after a subtree was replaced *)

Lemma chain_notin (y : nat) (n : node) : ~ In y (ids n) -> chain y n = None.
Proof.
  induction n as [i s | i d ks IH] using node_ind'; simpl; intros H.
  - destruct (Nat.eqb_spec i y); [subst; tauto | reflexivity].
  - destruct (Nat.eqb_spec i y); [subst; tauto|].
    rewrite first_some_none; [reflexivity|]. intros k Hk.
    rewrite Forall_forall in IH. apply IH; [assumption|].
    intros Hin. apply H. right. apply in_flat_map. eauto.
Qed.

Lemma first_some_flat_map {A B C} (f : B -> option C) (f' : A -> option C)
      (g : A -> list B) (l : list A) :
  (forall a, In a l -> first_some f (g a) = f' a) ->
  first_some f (flat_map g l) = first_some f' l.
Proof.
  induction l as [|a l IH]; simpl; intros H; [reflexivity|].
  rewrite first_some_app, (H a (or_introl eq_refl)).
  destruct (f' a); [reflexivity|]. apply IH. intros; apply H; now right.
Qed.

Lemma first_some_one {A B} (f : A -> option B) (a : A) : first_some f [a] = f a.
Proof. simpl. now destruct (f a). Qed.

(** Two children that share an identity are one child. *)
Lemma unique_kid (ks : list node) (k k' : node) (y : nat) :
  NoDup (fids ks) -> In k ks -> In k' ks -> In y (ids k) -> In y (ids k') -> k = k'.
Proof.
  induction ks as [|k0 ks IH]; simpl; intros Hnd Hk Hk' Hy Hy'; [destruct Hk|].
  destruct Hk as [Ek|Hk], Hk' as [Ek'|Hk'].
  - congruence.
  - subst k0. exfalso. apply (NoDup_app_disj _ _ y Hnd Hy).
    apply in_fids. eauto.
  - subst k0. exfalso. apply (NoDup_app_disj _ _ y Hnd Hy').
    apply in_fids. eauto.
  - apply IH; auto. exact (NoDup_app_remove_l _ _ Hnd).
Qed.

Lemma ids_rewrite_list (x y : nat) (l ks : list node) :
  (forall k, In k ks ->
     (In y (fids (rewrite_node x (fun _ => l) k)) <->
      In y (skel x k) \/ (In x (ids k) /\ In y (fids l)))) ->
  (In y (fids (frewrite x (fun _ => l) ks)) <->
   In y (fskel x ks) \/ (In x (fids ks) /\ In y (fids l))).
Proof.
  intros IH. split.
  - intros Hy. apply in_fids in Hy. destruct Hy as [m [Hm Hy]].
    apply in_flat_map in Hm. destruct Hm as [k [Hk Hm]].
    assert (In y (fids (rewrite_node x (fun _ => l) k))) as Hin
        by (apply in_fids; exists m; auto).
    apply (IH k Hk) in Hin. destruct Hin as [Hin|[Hx Hl]].
    + left. apply in_flat_map. exists k. auto.
    + right. split; [apply in_fids; exists k; auto | assumption].
  - intros [Hy|[Hx Hl]].
    + apply in_flat_map in Hy. destruct Hy as [k [Hk Hy]].
      assert (In y (fids (rewrite_node x (fun _ => l) k))) as Hin
          by (apply (IH k Hk); now left).
      apply in_fids in Hin. destruct Hin as [m [Hm Hin]].
      apply in_fids. exists m. split; [apply in_flat_map; exists k; auto | assumption].
    + apply in_fids in Hx. destruct Hx as [k [Hk Hx]].
      assert (In y (fids (rewrite_node x (fun _ => l) k))) as Hin
          by (apply (IH k Hk); now right).
      apply in_fids in Hin. destruct Hin as [m [Hm Hin]].
      apply in_fids. exists m. split; [apply in_flat_map; exists k; auto | assumption].
Qed.

Lemma ids_rewrite (x y : nat) (l : list node) (n : node) :
  In y (fids (rewrite_node x (fun _ => l) n)) <->
  In y (skel x n) \/ (In x (ids n) /\ In y (fids l)).
Proof.
  induction n as [i s | i d ks IH] using node_ind'; simpl.
  - destruct (Nat.eqb_spec i x); simpl.
    + subst. tauto.
    + intuition.
  - destruct (Nat.eqb_spec i x); simpl.
    + subst. tauto.
    + rewrite ?app_nil_r. rewrite Forall_forall in IH.
      pose proof (ids_rewrite_list x y l ks IH) as Hks.
      unfold fids, frewrite, fskel in Hks. rewrite Hks. intuition.
Qed.

Lemma fids_frewrite (x y : nat) (l f : list node) :
  In y (fids (frewrite x (fun _ => l) f)) <->
  In y (fskel x f) \/ (In x (fids f) /\ In y (fids l)).
Proof. apply ids_rewrite_list. intros k _. apply ids_rewrite. Qed.

Lemma NoDup_frewrite_list (x : nat) (l ks : list node) :
  (forall k, In k ks -> NoDup (fids (rewrite_node x (fun _ => l) k))) ->
  NoDup (fids ks) ->
  (forall y, In y (fids l) -> ~ In y (fskel x ks)) ->
  NoDup (fids (frewrite x (fun _ => l) ks)).
Proof.
  induction ks as [|k ks IH]; simpl; intros Hk Hnd Hl; [constructor|].
  unfold fids. rewrite flat_map_app. apply NoDup_app.
  - apply Hk. now left.
  - apply IH.
    + intros; apply Hk; now right.
    + exact (NoDup_app_remove_l _ _ Hnd).
    + intros y Hy Hin. apply (Hl y Hy). apply in_or_app. now right.
  - intros y Hy Hy'. fold (fids (rewrite_node x (fun _ => l) k)) in Hy.
    fold (fids (frewrite x (fun _ => l) ks)) in Hy'.
    apply ids_rewrite in Hy. apply fids_frewrite in Hy'.
    destruct Hy as [Hy|[Hx Hy]], Hy' as [Hy'|[Hx' Hy']].
    + apply (NoDup_app_disj _ _ y Hnd (skel_sub _ _ _ Hy)). exact (fskel_sub _ _ _ Hy').
    + apply (Hl y Hy'). apply in_or_app. now left.
    + apply (Hl y Hy). apply in_or_app. now right.
    + exact (NoDup_app_disj _ _ x Hnd Hx Hx').
Qed.

Lemma NoDup_rewrite (x : nat) (l : list node) (n : node) :
  NoDup (ids n) -> NoDup (fids l) ->
  (forall y, In y (fids l) -> ~ In y (skel x n)) ->
  NoDup (fids (rewrite_node x (fun _ => l) n)).
Proof.
  induction n as [i s | i d ks IH] using node_ind'; simpl; intros Hnd Hl Hd.
  - destruct (i =? x); [assumption|]. simpl. repeat constructor. simpl. tauto.
  - destruct (Nat.eqb_spec i x); [assumption|]. simpl in *. rewrite ?app_nil_r.
    inversion Hnd as [|? ? Hi Hks]; subst.
    constructor.
    + intros Hin. fold (fids (flat_map (rewrite_node x (fun _ => l)) ks)) in Hin.
      apply (fids_frewrite x i l ks) in Hin. destruct Hin as [Hin|[_ Hin]].
      * apply Hi. exact (fskel_sub _ _ _ Hin).
      * apply (Hd i Hin). now left.
    + apply NoDup_frewrite_list; [|assumption|].
      * intros k Hk. rewrite Forall_forall in IH. apply IH; [assumption| |assumption|].
        -- exact (NoDup_kid _ _ Hks Hk).
        -- intros y Hy Hin. apply (Hd y Hy). right. apply in_flat_map. eauto.
      * intros y Hy Hin. apply (Hd y Hy). now right.
Qed.

Lemma NoDup_frewrite (x : nat) (l f : list node) :
  NoDup (fids f) -> NoDup (fids l) ->
  (forall y, In y (fids l) -> ~ In y (fskel x f)) ->
  NoDup (fids (frewrite x (fun _ => l) f)).
Proof.
  intros Hnd Hl Hd. apply NoDup_frewrite_list; try assumption.
  intros k Hk. apply NoDup_rewrite; [exact (NoDup_kid _ _ Hnd Hk) | assumption |].
  intros y Hy Hin. apply (Hd y Hy). apply in_flat_map. eauto.
Qed.

Lemma fchain_notin (y : nat) (l : list node) :
  ~ In y (fids l) -> first_some (chain y) l = None.
Proof.
  intros H. apply first_some_none. intros n Hn. apply chain_notin.
  intros Hin. apply H. apply in_fids. eauto.
Qed.

Lemma skel_not_x (x : nat) (n : node) : ~ In x (skel x n).
Proof.
  induction n as [i s | i d ks IH] using node_ind'; simpl.
  - destruct (Nat.eqb_spec i x); simpl; [tauto | intuition].
  - destruct (Nat.eqb_spec i x); simpl; [tauto|].
    intros [E|H]; [contradiction|].
    apply in_flat_map in H. destruct H as [k [Hk H]].
    rewrite Forall_forall in IH. exact (IH k Hk H).
Qed.

(** What holds of a node outside the replaced subtree holds of the
    children it is found in. *)
Lemma outside_kid (x y i : nat) (d : edata) (ks : list node) (k : node) :
  NoDup (ids (Elem i d ks)) ->
  (In y (ids (Elem i d ks)) -> In y (skel x (Elem i d ks))) ->
  (i =? x) = false ->
  In k ks -> In y (ids k) -> In y (skel x k).
Proof.
  intros Hnd Hout Hix Hk Hy.
  apply NoDup_elem in Hnd. destruct Hnd as [Hi Hks].
  assert (In y (fids ks)) as Hyks by (apply in_fids; eauto).
  assert (In y (skel x (Elem i d ks))) as Hs by (apply Hout; simpl; auto).
  simpl in Hs. rewrite Hix in Hs. destruct Hs as [->|Hs]; [contradiction|].
  apply in_flat_map in Hs. destruct Hs as [k' [Hk' Hs]].
  rewrite (unique_kid ks k k' y Hks Hk Hk' Hy (skel_sub _ _ _ Hs)). exact Hs.
Qed.

Lemma chain_out (x y : nat) (l : list node) (n : node) :
  NoDup (ids n) -> (In y (ids n) -> In y (skel x n)) -> ~ In y (fids l) ->
  first_some (chain y) (rewrite_node x (fun _ => l) n) = chain y n.
Proof.
  intros Hnd Hout Hl. revert Hnd Hout.
  induction n as [i s | i d ks IH] using node_ind'; intros Hnd Hout.
  - simpl in *. destruct (Nat.eqb_spec i x).
    + rewrite (fchain_notin _ _ Hl). destruct (Nat.eqb_spec i y); [|reflexivity].
      exfalso. apply Hout. auto.
    + simpl. now destruct (i =? y).
  - simpl rewrite_node. simpl node_id. destruct (i =? x) eqn:Hix.
    + rewrite (fchain_notin _ _ Hl). symmetry. apply chain_notin.
      intros Hin. apply Hout in Hin. simpl in Hin. now rewrite Hix in Hin.
    + rewrite first_some_one. simpl.
      rewrite (first_some_flat_map (chain y) (chain y)); [reflexivity|].
      intros k Hk. rewrite Forall_forall in IH. apply IH; [assumption| |].
      * apply (NoDup_elem i d) in Hnd. exact (NoDup_kid _ _ (proj2 Hnd) Hk).
      * exact (outside_kid x y i d ks k Hnd Hout Hix Hk).
Qed.

Lemma fchain_out (x y : nat) (l f : list node) :
  NoDup (fids f) -> (In y (fids f) -> In y (fskel x f)) -> ~ In y (fids l) ->
  fchain y (frewrite x (fun _ => l) f) = fchain y f.
Proof.
  intros Hnd Hout Hl. unfold fchain, frewrite.
  rewrite (first_some_flat_map (chain y) (chain y)); [reflexivity|].
  intros k Hk. apply chain_out; [exact (NoDup_kid _ _ Hnd Hk) | | assumption].
  intros Hy. assert (In y (fskel x f)) as Hs by (apply Hout, in_fids; eauto).
  apply in_flat_map in Hs. destruct Hs as [k' [Hk' Hs]].
  rewrite (unique_kid f k k' y Hnd Hk Hk' Hy (skel_sub _ _ _ Hs)). exact Hs.
Qed.

Lemma first_some_bind {A B C} (f : A -> option B) (g : B -> option C) (l : list A) :
  (forall a b, In a l -> f a = Some b -> g b <> None) ->
  first_some (fun a => match f a with Some b => g b | None => None end) l
  = match first_some f l with Some b => g b | None => None end.
Proof.
  induction l as [|a l IH]; simpl; intros H; [reflexivity|].
  destruct (f a) as [b|] eqn:E.
  - specialize (H a b (or_introl eq_refl) E). now destruct (g b).
  - apply IH. intros; eapply H; eauto.
Qed.

Lemma find_out (x y : nat) (l : list node) (n : node) :
  NoDup (ids n) -> (In y (ids n) -> In y (skel x n)) -> ~ In y (fids l) ->
  first_some (find_node y) (rewrite_node x (fun _ => l) n)
  = match find_node y n with
    | Some m => hd_error (rewrite_node x (fun _ => l) m)
    | None => None
    end.
Proof.
  intros Hnd Hout Hl. revert Hnd Hout.
  induction n as [i s | i d ks IH] using node_ind'; intros Hnd Hout.
  - simpl in *. destruct (i =? x) eqn:Hix.
    + rewrite (ffind_notin _ _ Hl : first_some _ _ = None).
      destruct (Nat.eqb_spec i y); [|reflexivity]. exfalso. apply Hout. auto.
    + simpl. destruct (i =? y); [|reflexivity]. simpl. now rewrite Hix.
  - simpl rewrite_node. simpl node_id. destruct (i =? x) eqn:Hix.
    + rewrite (ffind_notin _ _ Hl : first_some _ _ = None).
      rewrite find_node_notin; [reflexivity|].
      intros Hin. apply Hout in Hin. simpl in Hin. now rewrite Hix in Hin.
    + rewrite first_some_one. simpl. destruct (i =? y) eqn:Hiy.
      * simpl. now rewrite Hix.
      * rewrite Forall_forall in IH.
        rewrite (first_some_flat_map (find_node y)
                   (fun k => match find_node y k with
                             | Some m => hd_error (rewrite_node x (fun _ => l) m)
                             | None => None
                             end)).
        -- apply first_some_bind. intros k m Hk Hm.
           assert (node_id m <> x) as Hmx.
           { rewrite (find_node_id _ _ _ Hm). intros ->.
             apply (skel_not_x x k). apply (outside_kid x x i d ks k Hnd Hout Hix Hk).
             apply (find_node_sub _ _ _ Hm). rewrite <- (find_node_id _ _ _ Hm) at 1.
             apply ids_head. }
           apply Nat.eqb_neq in Hmx. destruct m; simpl in *; now rewrite Hmx.
        -- intros k Hk. apply IH; [assumption| |].
           ++ apply (NoDup_elem i d) in Hnd. exact (NoDup_kid _ _ (proj2 Hnd) Hk).
           ++ exact (outside_kid x y i d ks k Hnd Hout Hix Hk).
Qed.

Lemma ffind_out (x y : nat) (l f : list node) :
  NoDup (fids f) -> (In y (fids f) -> In y (fskel x f)) -> ~ In y (fids l) ->
  ffind y (frewrite x (fun _ => l) f)
  = match ffind y f with
    | Some m => hd_error (rewrite_node x (fun _ => l) m)
    | None => None
    end.
Proof.
  intros Hnd Hout Hl.
  remember (S (list_max (fids f) + x + y)) as r eqn:Er.
  assert (~ In r (fids f)) as Hr.
  { intros Hr. pose proof (proj1 (list_max_le (fids f) _) (le_n _)) as Hmax.
    rewrite Forall_forall in Hmax. specialize (Hmax _ Hr). lia. }
  assert ((r =? x) = false) as Hrx by (apply Nat.eqb_neq; lia).
  assert ((r =? y) = false) as Hry by (apply Nat.eqb_neq; lia).
  pose proof (find_out x y l (Elem r (new_element "") f)) as H.
  cbn [rewrite_node node_id find_node] in H. rewrite Hrx, Hry in H.
  rewrite first_some_one in H. cbn [find_node node_id] in H. rewrite Hry in H.
  apply H; [simpl; constructor; assumption | | assumption].
  simpl. rewrite Hrx. intros [E|Hin]; [apply Nat.eqb_neq in Hry; contradiction|].
  right. now apply Hout.
Qed.

Lemma first_some_flat_map_in {A B C} (f : B -> option C) (g : A -> list B)
      (l : list A) (c : C) :
  first_some f (flat_map g l) = Some c ->
  exists a, In a l /\ first_some f (g a) = Some c.
Proof.
  induction l as [|a l IH]; simpl; [discriminate|].
  rewrite first_some_app. destruct (first_some f (g a)) eqn:E.
  - intros [= <-]. exists a. auto.
  - intros H. destruct (IH H) as [a' [? ?]]. exists a'. auto.
Qed.

(** The ancestors of a node inside the replacement: first its ancestors
    inside the replacement, then others. *)
Lemma chain_in_rewrite (x y : nat) (l : list node) (n : node) (c : list (nat * edata)) :
  first_some (chain y) (rewrite_node x (fun _ => l) n) = Some c ->
  ~ In y (skel x n) ->
  exists c1 c2, c = c1 ++ c2 /\ first_some (chain y) l = Some c1.
Proof.
  revert c. induction n as [i s | i d ks IH] using node_ind'; intros c Hc Hy.
  - simpl in *. destruct (i =? x).
    + exists c, []. now rewrite app_nil_r.
    + simpl in *. destruct (Nat.eqb_spec i y); [subst; tauto | discriminate].
  - simpl rewrite_node in Hc. simpl node_id in Hc. simpl in Hy.
    destruct (i =? x).
    + exists c, []. now rewrite app_nil_r.
    + rewrite first_some_one in Hc. simpl in Hc, Hy.
      destruct (Nat.eqb_spec i y); [subst; tauto|].
      destruct (first_some (chain y) (flat_map (rewrite_node x (fun _ => l)) ks))
        as [c'|] eqn:E; [|discriminate].
      injection Hc as <-.
      apply first_some_flat_map_in in E. destruct E as [k [Hk E]].
      rewrite Forall_forall in IH.
      destruct (IH k Hk c' E) as [c1 [c2 [-> H1]]].
      * intros Hin. apply Hy. right. apply in_flat_map. eauto.
      * exists c1, (c2 ++ [(i, d)]). now rewrite app_assoc.
Qed.

Lemma fchain_in_rewrite (x y : nat) (l f : list node) :
  In x (fids f) -> In y (fids l) -> ~ In y (fskel x f) ->
  exists c1 c2, fchain y (frewrite x (fun _ => l) f) = c1 ++ c2
                /\ first_some (chain y) l = Some c1.
Proof.
  intros Hx Hy Hs. unfold fchain.
  assert (In y (fids (frewrite x (fun _ => l) f))) as Hin
      by (apply fids_frewrite; auto).
  apply in_fids in Hin. destruct Hin as [m [Hm Hin]].
  destruct (chain_in _ _ Hin) as [cm Hcm].
  destruct (first_some (chain y) (frewrite x (fun _ => l) f)) as [c|] eqn:E.
  - apply first_some_flat_map_in in E. destruct E as [k [Hk E]].
    destruct (chain_in_rewrite x y l k c E) as [c1 [c2 [-> H1]]]; [|eauto].
    intros Hk'. apply Hs. apply in_flat_map. eauto.
  - exfalso. revert E. clear - Hm Hcm. induction (frewrite x (fun _ => l) f) as [|k r IH];
      [destruct Hm|]. simpl. destruct Hm as [->|Hm].
    + now rewrite Hcm.
    + destruct (chain y k); [discriminate | auto].
Qed.

Lemma chain_last (y i : nat) (d : edata) (ks : list node) (c : list (nat * edata)) :
  chain y (Elem i d ks) = Some c -> In (i, d) c.
Proof.
  simpl. destruct (i =? y).
  - intros [= <-]. now left.
  - destruct (first_some (chain y) ks); [|discriminate].
    intros [= <-]. apply in_or_app. right. now left.
Qed.

Lemma elements_rewrite (x : nat) (l : list node) (n : node) (e : nat * edata) :
  In e (flat_map elements (rewrite_node x (fun _ => l) n)) ->
  In e (elements n) \/ In e (flat_map elements l).
Proof.
  induction n as [i s | i d ks IH] using node_ind'; simpl.
  - destruct (i =? x); simpl; tauto.
  - destruct (i =? x); simpl; [tauto|]. rewrite app_nil_r.
    intros [<-|H]; [now left; left|].
    apply in_flat_map in H. destruct H as [m [Hm H]].
    apply in_flat_map in Hm. destruct Hm as [k [Hk Hm]].
    rewrite Forall_forall in IH.
    destruct (IH k Hk) as [H'|H']; [apply in_flat_map; eauto | | now right].
    left. right. apply in_flat_map. eauto.
Qed.

Lemma descendants_sub (n : node) (e : nat * edata) :
  In e (descendants n) -> In e (elements n).
Proof. destruct n; simpl; [tauto|]. unfold descendants. simpl. auto. Qed.

Lemma doc_elements_frewrite (x : nat) (l f : list node) (e : nat * edata) :
  In e (doc_elements (frewrite x (fun _ => l) f)) ->
  In e (doc_elements f) \/ In e (flat_map elements l).
Proof.
  unfold doc_elements, frewrite.
  induction f as [|r f IH]; simpl; [tauto|].
  rewrite filter_app, flat_map_app, in_app_iff. intros [H|H].
  - destruct r as [i s | i d ks]; simpl in H.
    + destruct (i =? x).
      * right. apply in_flat_map in H. destruct H as [m [Hm H]].
        apply filter_In in Hm. apply in_flat_map. exists m.
        split; [tauto | now apply descendants_sub].
      * simpl in H. tauto.
    + destruct (i =? x) eqn:Hix.
      * right. apply in_flat_map in H. destruct H as [m [Hm H]].
        apply filter_In in Hm. apply in_flat_map. exists m.
        split; [tauto | now apply descendants_sub].
      * change (is_document (Elem i d ks)) with (is_document (Elem i d (flat_map (rewrite_node x (fun _ => l)) ks))).
        simpl in H. destruct (is_document (Elem i d (flat_map (rewrite_node x (fun _ => l)) ks)));
          [|destruct H].
        simpl in H. rewrite app_nil_r in H. unfold descendants in H. simpl in H.
        apply in_flat_map in H. destruct H as [m [Hm H]].
        apply in_flat_map in Hm. destruct Hm as [k [Hk Hm]].
        destruct (elements_rewrite x l k e) as [H'|H']; [apply in_flat_map; eauto | | now right].
        left. simpl. apply in_or_app. left. unfold descendants. simpl.
        apply in_flat_map. eauto.
  - destruct (IH H) as [H'|H']; [|now right]. left.
    destruct (is_document r); [|assumption]. simpl. apply in_or_app. now right.
Qed.

Lemma parent_in_spec (x p : nat) (n : node) :
  NoDup (ids n) -> parent_in x n = Some p ->
  exists pd pks, find_node p n = Some (Elem p pd pks)
                 /\ existsb (fun k => node_id k =? x) pks = true.
Proof.
  induction n as [i s | i d ks IH] using node_ind'; simpl; intros Hnd H; [discriminate|].
  destruct (existsb (fun k => node_id k =? x) ks) eqn:E.
  - injection H as <-. rewrite Nat.eqb_refl. eauto.
  - apply first_some_in in H. destruct H as [k [Hk H]].
    inversion Hnd as [|? ? Hi Hks]; subst. rewrite Forall_forall in IH.
    destruct (IH k Hk (NoDup_kid _ _ Hks Hk) H) as [pd [pks [Hf He]]].
    exists pd, pks. split; [|assumption].
    destruct (Nat.eqb_spec i p).
    + exfalso. subst. apply Hi. apply in_fids. exists k. split; [assumption|].
      apply (find_node_sub _ _ _ Hf). now left.
    + exact (ffind_unique p ks k _ Hks Hk Hf).
Qed.

Lemma parentNode_spec (x p : nat) (f : list node) :
  NoDup (fids f) -> parentNode x f = Some p ->
  exists pd pks, ffind p f = Some (Elem p pd pks)
                 /\ existsb (fun k => node_id k =? x) pks = true.
Proof.
  intros Hnd H. apply first_some_in in H. destruct H as [k [Hk H]].
  destruct (parent_in_spec x p k (NoDup_kid _ _ Hnd Hk) H) as [pd [pks [Hf He]]].
  exists pd, pks. split; [|assumption]. exact (ffind_unique p f k _ Hnd Hk Hf).
Qed.

(* ================================================================== *)
(** * The augmentation transform on a page *)

Lemma page_eta (p : page) :
  p = mkPage (roots p) (next_id p) (listeners p) (isAllCollapsed p).
Proof. now destruct p. Qed.

Lemma data_of_find (x : nat) (f : list node) (d : edata) (ks : list node) :
  ffind x f = Some (Elem x d ks) -> data_of x f = Some d.
Proof. unfold data_of. now intros ->. Qed.

Lemma parent_kind_spec (x : nat) (f : list node) (k : nkind) :
  NoDup (fids f) -> parent_kind x f = Some k ->
  exists par pd pks,
    parentNode x f = Some par /\ ffind par f = Some (Elem par pd pks)
    /\ existsb (fun n => node_id n =? x) pks = true /\ kind pd = k.
Proof.
  unfold parent_kind. intros Hnd H.
  destruct (parentNode x f) as [par|] eqn:Hp; [|discriminate].
  destruct (parentNode_spec x par f Hnd Hp) as [pd [pks [Hf He]]].
  rewrite (data_of_find _ _ _ _ Hf) in H. injection H as <-.
  exists par, pd, pks. auto.
Qed.

Lemma textContent_some (x : nat) (f : list node) :
  0 < List.length (trim (textContent x f)) -> exists n, ffind x f = Some n.
Proof.
  unfold textContent. destruct (ffind x f); [eauto|]. simpl. lia.
Qed.

(** [addToggleToMessage] on an element that passes its guards and sits
    under an element wraps it. *)
Lemma addToggle_wraps (p : page) (x : nat) (n : node) :
  wf p -> ffind x (roots p) = Some n ->
  parent_kind x (roots p) = Some KElement ->
  closest x sel_wrapper (roots p) = None ->
  20 <= List.length (trim (textContent x (roots p))) ->
  addToggleToMessage x p = Ok tt (wrapped p x n).
Proof.
  intros [Hnd Hlt] Hn Hk Hc Hl.
  destruct (parent_kind_spec _ _ _ Hnd Hk) as [par [pd [pks [Hp [Hf [He Hkd]]]]]].
  rewrite (page_eta p) at 1.
  eapply addToggle_run; eassumption.
Qed.

Lemma addToggle_orphan (p : page) (x : nat) :
  wf p -> parentNode x (roots p) = None ->
  closest x sel_wrapper (roots p) = None ->
  20 <= List.length (trim (textContent x (roots p))) ->
  addToggleToMessage x p = Ok tt (with_orphan p x).
Proof.
  intros [Hnd Hlt] Hp Hc Hl.
  destruct (textContent_some x (roots p)) as [n Hn]; [lia|].
  rewrite (page_eta p) at 1.
  eapply addToggle_orphan_run; eassumption.
Qed.

Lemma addToggle_skips (p : page) (x : nat) :
  is_some (closest x sel_wrapper (roots p)) = true
  \/ List.length (trim (textContent x (roots p))) < 20 ->
  addToggleToMessage x p = Ok tt p.
Proof.
  intros H. unfold addToggleToMessage, bind, read, ret.
  destruct (closest x sel_wrapper (roots p)); [reflexivity|]. simpl.
  destruct H as [H|H]; [discriminate|].
  apply Nat.ltb_lt in H. now rewrite H.
Qed.

Lemma NoDup_find_node (x : nat) (k n : node) :
  NoDup (ids k) -> find_node x k = Some n -> NoDup (ids n).
Proof.
  induction k as [i s | i d ks IH] using node_ind'; simpl; intros Hnd Hf.
  - destruct (i =? x); [|discriminate]. now injection Hf as <-.
  - destruct (i =? x); [now injection Hf as <-|].
    apply first_some_in in Hf. destruct Hf as [k [Hk Hf]].
    inversion Hnd; subst. rewrite Forall_forall in IH.
    exact (IH k Hk (NoDup_kid _ _ H2 Hk) Hf).
Qed.

Lemma NoDup_ffind (x : nat) (f : list node) (n : node) :
  NoDup (fids f) -> ffind x f = Some n -> NoDup (ids n).
Proof.
  intros Hnd Hf. apply first_some_in in Hf. destruct Hf as [k [Hk Hf]].
  exact (NoDup_find_node x k n (NoDup_kid _ _ Hnd Hk) Hf).
Qed.

Lemma ids_wrapper (b : nat) (u s : bool) (t : jstr) (n : node) (y : nat) :
  In y (ids (wrapper_tree b u s t n)) ->
  (b <= y < wrapper_size t + b) \/ In y (ids n).
Proof.
  destruct t; simpl; rewrite ?in_app_iff; simpl; intuition lia.
Qed.

Lemma NoDup_wrapper (b : nat) (u s : bool) (t : jstr) (n : node) :
  NoDup (ids n) -> (forall y, In y (ids n) -> y < b) ->
  NoDup (ids (wrapper_tree b u s t n)).
Proof.
  intros Hnd Hlt.
  assert (forall y, b <= y -> ~ In y (ids n)) as Hfresh
      by (intros y Hy Hin; apply Hlt in Hin; lia).
  destruct t; simpl; rewrite ?app_nil_r;
    repeat (constructor;
            [simpl; intros H; repeat (destruct H as [H|H]; [lia|]);
             revert H; apply Hfresh; lia|]);
    assumption.
Qed.

Section Wrapped.
Variables (p : page) (x : nat) (n : node).
Hypothesis Hwf : wf p.
Hypothesis Hn : ffind x (roots p) = Some n.

Let b := next_id p.
Let u := is_user x (roots p).
Let s := is_assistant x (roots p).
Let t := preview_text u n.
Let W := wrapper_tree b u s t n.

Lemma wrapped_roots : roots (wrapped p x n) = frewrite x (fun _ => [W]) (roots p).
Proof. reflexivity. Qed.

Lemma n_below (y : nat) : In y (ids n) -> y < b.
Proof. intros Hy. apply (proj2 Hwf). exact (ffind_sub _ _ _ Hn y Hy). Qed.

Lemma x_in_roots : In x (fids (roots p)).
Proof. apply (ffind_sub _ _ _ Hn). rewrite <- (ffind_id _ _ _ Hn). apply ids_head. Qed.

Lemma W_local (y : nat) : In y (fids [W]) -> ~ In y (fskel x (roots p)).
Proof.
  intros Hy.
  assert (In y (ids W)) as Hy'
      by (change (fids [W]) with (ids W ++ []) in Hy; now rewrite app_nil_r in Hy).
  clear Hy. destruct (ids_wrapper b u s t n y Hy') as [Hy|Hy].
  - intros Hin. apply fskel_sub in Hin. apply (proj2 Hwf) in Hin. fold b in Hin. lia.
  - exact (fskel_disjoint x y (roots p) n (proj1 Hwf) Hn Hy).
Qed.

Lemma wrapped_wf : wf (wrapped p x n).
Proof.
  split.
  - rewrite wrapped_roots. apply NoDup_frewrite; [exact (proj1 Hwf) | | exact W_local].
    change (fids [W]) with (ids W ++ []). rewrite app_nil_r.
    apply NoDup_wrapper; [|exact n_below].
    exact (NoDup_ffind _ _ _ (proj1 Hwf) Hn).
  - intros i Hi. rewrite wrapped_roots in Hi. apply fids_frewrite in Hi.
    change (next_id (wrapped p x n)) with (wrapper_size t + b).
    destruct Hi as [Hi|[_ Hi]].
    + apply fskel_sub in Hi. apply (proj2 Hwf) in Hi. fold b in Hi. lia.
    + assert (In i (ids W)) as Hi'
          by (change (fids [W]) with (ids W ++ []) in Hi; now rewrite app_nil_r in Hi).
      destruct (ids_wrapper b u s t n i Hi') as [H|H]; [lia|]. apply n_below in H. lia.
Qed.

(** A node of the wrapper, old or new, is looked up inside the wrapper. *)
Lemma wrapped_ffind (y : nat) :
  In y (ids W) -> ffind y (roots (wrapped p x n)) = find_node y W.
Proof.
  intros Hy. rewrite wrapped_roots, ffind_frewrite.
  - unfold ffind. apply first_some_one.
  - apply W_local. change (fids [W]) with (ids W ++ []). now rewrite app_nil_r.
  - exact x_in_roots.
Qed.

Lemma in_wrapper_closest (y : nat) :
  In y (ids W) -> is_some (closest y sel_wrapper (roots (wrapped p x n))) = true.
Proof.
  intros Hy. unfold closest. rewrite wrapped_roots.
  destruct (fchain_in_rewrite x y [W] (roots p) x_in_roots) as [c1 [c2 [-> H1]]].
  - change (fids [W]) with (ids W ++ []). now rewrite app_nil_r.
  - apply W_local. change (fids [W]) with (ids W ++ []). now rewrite app_nil_r.
  - rewrite first_some_one in H1. apply chain_last in H1.
    assert (In b (select sel_wrapper (c1 ++ c2))) as Hin.
    { unfold select. apply in_map_iff. exists (b, div (wrapper_classes u s)).
      split; [reflexivity|]. apply filter_In. split; [apply in_or_app; now left|].
      simpl. now destruct u, s. }
    destruct (select sel_wrapper (c1 ++ c2)); [destruct Hin | reflexivity].
Qed.
End Wrapped.

Lemma frewrite_same_node (x : nat) (n : node) : rewrite_node x (fun m => [m]) n = [n].
Proof.
  induction n as [i s | i d ks IH] using node_ind'; simpl.
  - now destruct (i =? x).
  - destruct (i =? x); [reflexivity|]. do 2 f_equal.
    apply flat_map_id_on. intros k Hk. rewrite Forall_forall in IH. auto.
Qed.

Lemma frewrite_same (x : nat) (f : list node) : frewrite x (fun m => [m]) f = f.
Proof. apply flat_map_id_on. intros k _. apply frewrite_same_node. Qed.

(** An identity of the forest is inside the subtree at [x] or outside. *)
Lemma inside_or_outside (x y : nat) (f : list node) (n : node) :
  NoDup (fids f) -> ffind x f = Some n -> In y (fids f) ->
  In y (fskel x f) \/ In y (ids n).
Proof.
  intros Hnd Hn Hy.
  rewrite <- (frewrite_same x f), (frewrite_const x _ f n Hnd Hn) in Hy.
  apply fids_frewrite in Hy. destruct Hy as [Hy|[_ Hy]]; [now left|].
  right. simpl in Hy. now rewrite app_nil_r in Hy.
Qed.

Lemma find_trans (p y : nat) (n0 P k : node) :
  NoDup (ids n0) -> find_node p n0 = Some P -> find_node y P = Some k ->
  find_node y n0 = Some k.
Proof.
  induction n0 as [i s | i d ks IH] using node_ind'; intros Hnd HP Hk.
  - simpl in HP. destruct (i =? p); [|discriminate]. now injection HP as <-.
  - simpl in HP. destruct (i =? p); [now injection HP as <-|].
    apply first_some_in in HP. destruct HP as [k0 [Hk0 HP]].
    inversion Hnd as [|? ? Hi Hks]; subst. rewrite Forall_forall in IH.
    pose proof (IH k0 Hk0 (NoDup_kid _ _ Hks Hk0) HP Hk) as Hf.
    simpl. destruct (Nat.eqb_spec i y).
    + exfalso. subst. apply Hi. apply in_fids. exists k0. split; [assumption|].
      apply (find_node_sub _ _ _ Hf). rewrite <- (find_node_id _ _ _ Hf) at 1.
      apply ids_head.
    + exact (ffind_unique y ks k0 k Hks Hk0 Hf).
Qed.

Lemma ffind_trans (p y : nat) (f : list node) (P k : node) :
  NoDup (fids f) -> ffind p f = Some P -> find_node y P = Some k ->
  ffind y f = Some k.
Proof.
  intros Hnd HP Hk. apply first_some_in in HP. destruct HP as [k0 [Hk0 HP]].
  apply (ffind_unique y f k0 k Hnd Hk0).
  exact (find_trans p y k0 P k (NoDup_kid _ _ Hnd Hk0) HP Hk).
Qed.

Lemma kid_found (p : nat) (f : list node) (pd : edata) (pks : list node) (k : node) :
  NoDup (fids f) -> ffind p f = Some (Elem p pd pks) -> In k pks ->
  ffind (node_id k) f = Some k.
Proof.
  intros Hnd HP Hk. apply (ffind_trans p _ f _ k Hnd HP).
  pose proof (NoDup_ffind _ _ _ Hnd HP) as HndP.
  apply (NoDup_elem p pd) in HndP. destruct HndP as [Hp Hks].
  simpl. destruct (Nat.eqb_spec p (node_id k)).
  - exfalso. apply Hp. apply in_fids. exists k. split; [assumption|].
    rewrite e. apply ids_head.
  - exact (ffind_unique _ pks k k Hks Hk (find_here k)).
Qed.

Lemma existsb_id_in (x : nat) (ks : list node) :
  existsb (fun k => node_id k =? x) ks = true -> exists k, In k ks /\ node_id k = x.
Proof.
  intros H. apply existsb_exists in H. destruct H as [k [Hk E]].
  apply Nat.eqb_eq in E. eauto.
Qed.


Lemma first_some_only {A B} (f : A -> option B) (l : list A) (a : A) (b : B) :
  In a l -> f a = Some b ->
  (forall a' b', In a' l -> f a' = Some b' -> b' = b) ->
  first_some f l = Some b.
Proof.
  induction l as [|a0 l IH]; simpl; intros Ha Hf Hu; [destruct Ha|].
  destruct (f a0) as [b0|] eqn:E.
  - f_equal. exact (Hu a0 b0 (or_introl eq_refl) E).
  - destruct Ha as [->|Ha]; [congruence|].
    apply IH; auto. intros; eapply Hu; eauto.
Qed.

Lemma parent_in_sub (x p : nat) (n : node) :
  parent_in x n = Some p -> In x (ids n) /\ In p (ids n).
Proof.
  induction n as [i s | i d ks IH] using node_ind'; simpl; [discriminate|].
  destruct (existsb (fun k => node_id k =? x) ks) eqn:E.
  - intros [= <-]. split; [|now left]. right.
    apply existsb_id_in in E. destruct E as [k [Hk <-]].
    apply in_flat_map. exists k. split; [assumption | apply ids_head].
  - intros H. apply first_some_in in H. destruct H as [k [Hk H]].
    rewrite Forall_forall in IH. destruct (IH k Hk H) as [H1 H2].
    split; right; apply in_flat_map; eauto.
Qed.

(** With unique identities the node that lists [k] among its children is
    the parent of [k]. *)
Lemma parent_in_unique (q : nat) (n0 : node) (d : edata) (ks : list node) (k : node) :
  NoDup (ids n0) -> find_node q n0 = Some (Elem q d ks) -> In k ks ->
  parent_in (node_id k) n0 = Some q.
Proof.
  induction n0 as [i s | i d0 ks0 IH] using node_ind'; intros Hnd Hq Hk.
  - simpl in Hq. destruct (i =? q); discriminate.
  - simpl in Hq. destruct (Nat.eqb_spec i q).
    + injection Hq as -> -> ->. simpl.
      replace (existsb (fun k0 => node_id k0 =? node_id k) ks) with true; [reflexivity|].
      symmetry. apply existsb_exists. exists k. split; [assumption | apply Nat.eqb_refl].
    + apply first_some_in in Hq. destruct Hq as [k0 [Hk0 Hq]].
      inversion Hnd as [|? ? Hi Hks]; subst. rewrite Forall_forall in IH.
      pose proof (NoDup_kid _ _ Hks Hk0) as Hnd0.
      assert (In (node_id k) (ids k0)) as Hin0.
      { apply (find_node_sub _ _ _ Hq). right. apply in_flat_map.
        exists k. split; [assumption | apply ids_head]. }
      simpl.
      destruct (existsb (fun k1 => node_id k1 =? node_id k) ks0) eqn:E.
      * exfalso. apply existsb_id_in in E. destruct E as [k1 [Hk1 E]].
        assert (k1 = k0) as ->.
        { apply (unique_kid ks0 k1 k0 (node_id k) Hks Hk1 Hk0); [|assumption].
          rewrite <- E. apply ids_head. }
        pose proof (NoDup_find_node _ _ _ Hnd0 Hq) as HndQ.
        apply (NoDup_elem q d) in HndQ. destruct HndQ as [Hqn _].
        assert (q = node_id k0) as Eq.
        { destruct k0 as [i0 s0 | i0 d1 ks1]; simpl in *.
          - destruct (i0 =? q); discriminate.
          - destruct (Nat.eqb_spec i0 q); [congruence|].
            exfalso. inversion Hnd0 as [|? ? Hi0 _]; subst. apply Hi0.
            apply first_some_in in Hq. destruct Hq as [k2 [Hk2 Hq]].
            apply in_flat_map. exists k2. split; [assumption|].
            apply (find_node_sub _ _ _ Hq). right. apply in_flat_map.
            exists k. split; [assumption | apply ids_head]. }
        apply Hqn. rewrite Eq, E. apply in_fids. exists k.
        split; [assumption | apply ids_head].
      * apply (first_some_only _ ks0 k0); [assumption | exact (IH k0 Hk0 Hnd0 Hq Hk) |].
        intros k' q' Hk' Hq'.
        assert (k' = k0) as ->.
        { apply (unique_kid ks0 k' k0 (node_id k) Hks Hk' Hk0); [|assumption].
          exact (proj1 (parent_in_sub _ _ _ Hq')). }
        rewrite (IH k0 Hk0 Hnd0 Hq Hk) in Hq'. congruence.
Qed.

Lemma parentNode_unique (q : nat) (f : list node) (d : edata) (ks : list node) (k : node) :
  NoDup (fids f) -> ffind q f = Some (Elem q d ks) -> In k ks ->
  parentNode (node_id k) f = Some q.
Proof.
  intros Hnd Hq Hk. apply first_some_in in Hq. destruct Hq as [k0 [Hk0 Hq]].
  pose proof (parent_in_unique q k0 d ks k (NoDup_kid _ _ Hnd Hk0) Hq Hk) as Hp.
  apply (first_some_only _ f k0); [assumption | assumption |].
  intros k' q' Hk' Hq'.
  assert (k' = k0) as ->.
  { apply (unique_kid f k' k0 (node_id k) Hnd Hk' Hk0).
    - exact (proj1 (parent_in_sub _ _ _ Hq')).
    - exact (proj1 (parent_in_sub _ _ _ Hp)). }
  congruence.
Qed.

(* ================================================================== *)
(** * Properties of the transform and the filter *)

Lemma nodupb_sound (l : list nat) : nodupb l = true -> NoDup l.
Proof.
  induction l as [|a l IH]; simpl; intros H; [constructor|].
  apply andb_prop in H. destruct H as [H1 H2]. constructor; [|auto].
  intros Hin. apply existsb_eqb_in in Hin. rewrite Hin in H1. discriminate.
Qed.

Lemma wfb_sound (p : page) : wfb p = true -> wf p.
Proof.
  unfold wfb, wf. intros H. apply andb_prop in H. destruct H as [H1 H2].
  split; [now apply nodupb_sound|].
  intros i Hi. rewrite forallb_forall in H2. apply Nat.ltb_lt. auto.
Qed.

(** C10: [addToggleToMessage] called on an element that is a wrapper or
    inside one, or whose trimmed text is shorter than 20 code units,
    returns and leaves the whole page as it was. *)
Theorem addToggle_guards_leave_page (p : page) (x : nat) :
  in_wrapper x (roots p) = true \/ text_length x (roots p) < 20 ->
  addToggleToMessage x p = Ok tt p.
Proof.
  unfold in_wrapper, text_length. intros H.
  unfold addToggleToMessage, bind, read, ret.
  destruct (closest x sel_wrapper (roots p)) as [w|]; [reflexivity|].
  destruct H as [H|H]; [discriminate|].
  cbn [is_some]. apply Nat.ltb_lt in H. now rewrite H.
Qed.

Lemma addToggle_guards_leave_page_witness :
  text_length 7 (roots sample_page) < 20
  /\ addToggleToMessage 7 sample_page = Ok tt sample_page.
Proof.
  assert (text_length 7 (roots sample_page) < 20) as H by (vm_compute; lia).
  split; [exact H|]. apply addToggle_guards_leave_page. right. exact H.
Defined.

(** C8: called on an element that has no parent node, the transform
    returns without an exception and changes no tree of the page: at most
    the wrapper it made stays behind, detached and empty. *)
Theorem addToggle_without_parent (p : page) (x : nat) :
  wf p -> parentNode x (roots p) = None ->
  exists p', addToggleToMessage x p = Ok tt p'
             /\ (p' = p \/ p' = with_orphan p x)
             /\ filter is_document (roots p') = filter is_document (roots p).
Proof.
  intros Hwf Hp.
  destruct (in_wrapper x (roots p)) eqn:Hw.
  { exists p. rewrite addToggle_skips; auto. }
  destruct (Nat.lt_ge_cases (text_length x (roots p)) 20) as [Hl|Hl].
  { exists p. rewrite addToggle_skips; auto. }
  exists (with_orphan p x). split; [|split; [now right|]].
  - apply addToggle_orphan; try assumption.
    unfold in_wrapper in Hw. now destruct (closest x sel_wrapper (roots p)).
  - simpl. rewrite filter_app. simpl. apply app_nil_r.
Qed.

Lemma addToggle_without_parent_witness :
  exists p', addToggleToMessage 9 removed_page = Ok tt p'
             /\ (p' = removed_page \/ p' = with_orphan removed_page 9)
             /\ filter is_document (roots p') = filter is_document (roots removed_page).
Proof.
  apply addToggle_without_parent; [apply wfb_sound|]; vm_compute; reflexivity.
Defined.

Lemma closest_none (x : nat) (f : list node) :
  in_wrapper x f = false -> closest x sel_wrapper f = None.
Proof. unfold in_wrapper. now destruct (closest x sel_wrapper f). Qed.

Lemma x_in_wrapper_tree (b : nat) (u s : bool) (t : jstr) (n : node) :
  In (node_id n) (ids (wrapper_tree b u s t n)).
Proof.
  pose proof (ids_head n) as H.
  destruct t; simpl; rewrite ?in_app_iff; simpl; rewrite ?in_app_iff; tauto.
Qed.

Lemma wrapped_in_wrapper (p : page) (x : nat) (n : node) :
  wf p -> ffind x (roots p) = Some n ->
  in_wrapper x (roots (wrapped p x n)) = true.
Proof.
  intros Hwf Hn. apply in_wrapper_closest; try assumption.
  rewrite <- (ffind_id _ _ _ Hn) at 1. apply x_in_wrapper_tree.
Qed.








Example nineteen_is_not_wrapped :
  text_length 3 (roots page_19) = 19
  /\ processMessages page_19 = Ok tt page_19.
Proof. split; vm_compute; reflexivity. Qed.

Example fifty_one_is_wrapped :
  text_length 3 (roots page_51) = 51 /\ has_structure 3 (roots page_51) = false
  /\ in_wrapper 3 (roots (page_of (processMessages page_51))) = true.
Proof. repeat split; vm_compute; reflexivity. Qed.

Example thirty_with_paragraph_is_wrapped :
  text_length 3 (roots page_30) = 30 /\ has_structure 3 (roots page_30) = true
  /\ in_wrapper 3 (roots (page_of (processMessages page_30))) = true.
Proof. repeat split; vm_compute; reflexivity. Qed.

(** Why the statements about wrapping ask for a parent that is an
    element: for the root element [insertBefore] on the Document throws, and
    the document stays as it was. *)
Example root_candidate_throws :
  exists p', processMessages root_candidate_page = Throw p'
             /\ filter is_document (roots p') = filter is_document (roots root_candidate_page).
Proof. eexists. split; vm_compute; reflexivity. Qed.


Lemma preview_of_claimed (t : jstr) :
  preview_of t = if 150 <? List.length t then firstn 150 t ++ lit "..." else t.
Proof.
  unfold preview_of, substring0. destruct (Nat.ltb_spec 150 (List.length t)) as [H|H].
  - reflexivity.
  - rewrite app_nil_r. apply firstn_all2. exact H.
Qed.

Lemma text_of_text_kids (i : nat) (t : jstr) : flat_map text_of (text_kids i t) = t.
Proof. destruct t; simpl; [reflexivity|]. now rewrite app_nil_r. Qed.

Ltac fsimp :=
  repeat progress (cbn [find_node node_id first_some Nat.add app text_kids]; eqb_tac).

Lemma find_preview (b : nat) (u s : bool) (t : jstr) (n : node) :
  (forall y, In y (ids n) -> y < b) ->
  find_node (11 + b) (wrapper_tree b u s t n)
  = Some (Elem (11 + b) (div ["message-preview"%string]) (text_kids (13 + b) t)).
Proof.
  intros Hn. unfold wrapper_tree, toggle_html, chevron. fsimp. reflexivity.
Qed.

Lemma find_content (b : nat) (u s : bool) (t : jstr) (n : node) :
  (forall y, In y (ids n) -> y < b) ->
  find_node (12 + b) (wrapper_tree b u s t n)
  = Some (Elem (12 + b) (div ["message-content"%string]) [n]).
Proof.
  intros Hn. unfold wrapper_tree, toggle_html, chevron. fsimp.
  destruct t; fsimp; reflexivity.
Qed.

Lemma find_inner (b : nat) (u s : bool) (t : jstr) (n : node) :
  (forall y, In y (ids n) -> y < b) ->
  find_node (node_id n) (wrapper_tree b u s t n) = Some n.
Proof.
  intros Hn. pose proof (Hn _ (ids_head n)) as Hx.
  unfold wrapper_tree, toggle_html, chevron. fsimp.
  destruct t; fsimp; now rewrite find_here.
Qed.

Lemma in_wrapper_tree_new (b : nat) (u s : bool) (t : jstr) (n : node) (k : nat) :
  k <= 12 -> In (k + b) (ids (wrapper_tree b u s t n)).
Proof.
  intros Hk. unfold wrapper_tree, toggle_html, chevron.
  destruct t; simpl; rewrite ?in_app_iff; simpl;
    do 13 (destruct k as [|k]; [tauto|]); lia.
Qed.

(** C6: the preview of a wrapped element shows the trimmed text of the
    element when it is a user message, else the trimmed text of its
    response content (empty when there is none), cut to 150 code units with
    three dots exactly when the text is longer. *)
Theorem preview_text_is_computed (p : page) (x : nat) (n : node) :
  wf p -> ffind x (roots p) = Some n ->
  parent_kind x (roots p) = Some KElement ->
  in_wrapper x (roots p) = false ->
  20 <= text_length x (roots p) ->
  exists p', addToggleToMessage x p = Ok tt p'
    /\ classList_contains (11 + next_id p) "message-preview" (roots p') = true
    /\ textContent (11 + next_id p) (roots p')
       = claimed_preview (is_user x (roots p)) n.
Proof.
  intros Hwf Hn Hk Hw Hl. exists (wrapped p x n).
  split; [apply addToggle_wraps; auto using closest_none|].
  assert (ffind (11 + next_id p) (roots (wrapped p x n))
          = Some (Elem (11 + next_id p) (div ["message-preview"%string])
                    (text_kids (13 + next_id p)
                       (preview_text (is_user x (roots p)) n)))) as Hf.
  { rewrite (wrapped_ffind p x n Hwf Hn).
    - apply find_preview. intros y Hy. apply (proj2 Hwf).
      exact (ffind_sub _ _ _ Hn y Hy).
    - apply (in_wrapper_tree_new _ _ _ _ _ 11). lia. }
  split.
  - unfold classList_contains, data_of. rewrite Hf. reflexivity.
  - unfold textContent. rewrite Hf. cbn [text_of]. rewrite text_of_text_kids.
    unfold preview_text, claimed_preview. apply preview_of_claimed.
Qed.

Lemma preview_text_is_computed_witness :
  exists p', addToggleToMessage 4 sample_page = Ok tt p'
    /\ classList_contains (11 + next_id sample_page) "message-preview" (roots p') = true
    /\ textContent (11 + next_id sample_page) (roots p')
       = claimed_preview (is_user 4 (roots sample_page))
           (el 4 "div" ["message"; "user"]%string
              [el 5 "p" [] [Text 6 (lit "Hello, how are you today please respond")]]).
Proof.
  apply preview_text_is_computed; [apply wfb_sound| | | |]; vm_compute;
    first [reflexivity | lia].
Defined.





(* ================================================================== *)
(** * The global toggle button *)

Lemma run_createCollapseAllButton (R : list node) (b : nat) ls a :
  (forall i, In i (fids R) -> i < b) ->
  createCollapseAllButton (mkPage R b ls a)
  = Ok b (mkPage (R ++ [button_tree b]) (10 + b) (ls ++ [(b, HToggleAll)]) a).
Proof.
  intros Hlt.
  assert (forall y, b <= y -> ~ In y (fids R)) as Hfresh
      by (intros y Hy Hin; apply Hlt in Hin; lia).
  unfold createCollapseAllButton.
  mstep. mstep. rewrite frewrite_tail by (apply Hfresh; lia). tsimp.
  mstep. rewrite frewrite_tail by (apply Hfresh; lia). tsimp.
  mstep. unfold old_kids. rewrite frewrite_tail, ffind_tail by (apply Hfresh; lia). tsimp.
  mstep. rewrite app_nil_r. reflexivity.
Qed.

Lemma elements_find (c : nat) (d : edata) (n : node) :
  NoDup (ids n) -> In (c, d) (elements n) ->
  exists ks, find_node c n = Some (Elem c d ks).
Proof.
  induction n as [i s | i d0 ks0 IH] using node_ind'; simpl; intros Hnd H; [destruct H|].
  destruct H as [[= -> ->]|H].
  - rewrite Nat.eqb_refl. eauto.
  - apply in_flat_map in H. destruct H as [k [Hk H]].
    inversion Hnd as [|? ? Hi Hks]; subst. rewrite Forall_forall in IH.
    destruct (IH k Hk (NoDup_kid _ _ Hks Hk) H) as [ks Hf]. exists ks.
    destruct (Nat.eqb_spec i c).
    + exfalso. subst. apply Hi. apply in_fids. exists k. split; [assumption|].
      apply (find_node_sub _ _ _ Hf). now left.
    + exact (ffind_unique c ks0 k _ Hks Hk Hf).
Qed.

Lemma doc_elements_find (c : nat) (d : edata) (f : list node) :
  NoDup (fids f) -> In (c, d) (doc_elements f) ->
  exists ks, ffind c f = Some (Elem c d ks).
Proof.
  intros Hnd H. apply in_flat_map in H. destruct H as [r [Hr H]].
  apply filter_In in Hr. destruct Hr as [Hr _]. apply descendants_sub in H.
  destruct (elements_find c d r (NoDup_kid _ _ Hnd Hr) H) as [ks Hf].
  exists ks. exact (ffind_unique c f r _ Hnd Hr Hf).
Qed.

Lemma matches_element (sel : selector) (d : edata) :
  matches sel d = true -> kind d = KElement.
Proof. unfold matches. now destruct (kind d). Qed.

Lemma doc_query_found (sel : selector) (c : nat) (f : list node) :
  NoDup (fids f) -> doc_querySelector sel f = Some c ->
  exists d ks, ffind c f = Some (Elem c d ks) /\ kind d = KElement.
Proof.
  intros Hnd H. apply hd_error_in, select_in in H. destruct H as [d [Hd Hm]].
  destruct (doc_elements_find c d f Hnd Hd) as [ks Hf].
  exists d, ks. split; [assumption | exact (matches_element _ _ Hm)].
Qed.

Lemma root_found (f : list node) (r : node) :
  NoDup (fids f) -> In r f -> ffind (node_id r) f = Some r.
Proof. intros Hnd Hr. exact (ffind_unique _ f r r Hnd Hr (find_here r)). Qed.

Lemma document_body_found (c : nat) (f : list node) :
  NoDup (fids f) -> document_body f = Some c ->
  exists d ks, ffind c f = Some (Elem c d ks) /\ kind d = KElement.
Proof.
  intros Hnd. unfold document_body, document_element.
  destruct (filter is_document f) as [|r rs] eqn:Ef; [discriminate|].
  assert (In r f) as Hr.
  { assert (In r (filter is_document f)) as H by (rewrite Ef; now left).
    apply filter_In in H. tauto. }
  destruct (find is_element (kids r)) as [h|] eqn:Eh; [|discriminate].
  apply find_some in Eh. destruct Eh as [Hh _].
  destruct h as [|hi hd hks]; [discriminate|].
  destruct (String.eqb (tag hd) "html"); [|discriminate].
  destruct (find _ hks) as [k|] eqn:Ek; [|discriminate]. simpl.
  intros [= <-]. apply find_some in Ek. destruct Ek as [Hk Hel].
  destruct r as [|ri rd rks]; [destruct Hh|]. simpl in Hh.
  pose proof (root_found f _ Hnd Hr) as Hfr. simpl in Hfr.
  pose proof (kid_found ri f rd rks _ Hnd Hfr Hh) as Hfh. simpl in Hfh.
  pose proof (kid_found hi f hd hks k Hnd Hfh Hk) as Hfk.
  destruct k as [|ki kd kks]; [discriminate|]. simpl in *.
  exists kd, kks. split; [assumption|].
  apply andb_prop in Hel. destruct Hel as [Hel _].
  unfold is_element in Hel. simpl in Hel. now destruct (kind kd).
Qed.

Lemma container_found (c : nat) (f : list node) :
  NoDup (fids f) -> find is_some (possibleContainers f) = Some (Some c) ->
  exists d ks, ffind c f = Some (Elem c d ks) /\ kind d = KElement.
Proof.
  intros Hnd H. apply find_some in H. destruct H as [H _].
  unfold possibleContainers in H. simpl in H.
  destruct H as [H|[H|[H|[H|[H|[]]]]]];
    first [exact (doc_query_found _ c f Hnd H) | exact (document_body_found c f Hnd H)].
Qed.

(** Rewriting a node below [c] is rewriting [c]. *)
Lemma rewrite_inside (c r : nat) (h : node -> list node) (n C : node) :
  NoDup (ids n) -> find_node c n = Some C -> In r (ids C) ->
  rewrite_node r h n = rewrite_node c (fun _ => rewrite_node r h C) n.
Proof.
  induction n as [i s | i d ks IH] using node_ind'; intros Hnd HC Hr.
  - simpl in HC. simpl. destruct (i =? c); [|discriminate]. now injection HC as <-.
  - simpl in HC. simpl. destruct (i =? c) eqn:Hic.
    + injection HC as <-. reflexivity.
    + inversion Hnd as [|? ? Hi Hks]; subst.
      apply first_some_in in HC. destruct HC as [k0 [Hk0 HC]].
      assert (In r (ids k0)) as Hrk by exact (find_node_sub _ _ _ HC r Hr).
      destruct (Nat.eqb_spec i r).
      * exfalso. subst. apply Hi. apply in_fids. eauto.
      * do 2 f_equal. apply flat_map_ext_in. intros k Hk.
        rewrite Forall_forall in IH.
        destruct (find_node c k) as [C'|] eqn:E.
        -- assert (k = k0) as ->.
           { apply (unique_kid ks k k0 c Hks Hk Hk0).
             - apply (find_node_sub _ _ _ E). rewrite <- (find_node_id _ _ _ E) at 1.
               apply ids_head.
             - apply (find_node_sub _ _ _ HC). rewrite <- (find_node_id _ _ _ HC) at 1.
               apply ids_head. }
           apply IH; [assumption | exact (NoDup_kid _ _ Hks Hk0) | assumption | assumption].
        -- assert (~ In c (ids k)) as Hc.
           { intros Hin. destruct (find_node_in _ _ Hin) as [? ?]. congruence. }
           assert (~ In r (ids k)) as Hr'.
           { intros Hin. assert (k = k0) as -> by exact (unique_kid ks k k0 r Hks Hk Hk0 Hin Hrk).
             congruence. }
           now rewrite !rewrite_notin.
Qed.

Lemma frewrite_inside (c r : nat) (h : node -> list node) (f : list node) (C : node) :
  NoDup (fids f) -> ffind c f = Some C -> In r (ids C) ->
  frewrite r h f = frewrite c (fun _ => rewrite_node r h C) f.
Proof.
  intros Hnd HC Hr. apply first_some_in in HC. destruct HC as [k0 [Hk0 HC]].
  assert (In r (ids k0)) as Hrk by exact (find_node_sub _ _ _ HC r Hr).
  apply flat_map_ext_in. intros k Hk.
  destruct (find_node c k) as [C'|] eqn:E.
  - assert (k = k0) as ->.
    { apply (unique_kid f k k0 c Hnd Hk Hk0).
      - apply (find_node_sub _ _ _ E). rewrite <- (find_node_id _ _ _ E) at 1. apply ids_head.
      - apply (find_node_sub _ _ _ HC). rewrite <- (find_node_id _ _ _ HC) at 1. apply ids_head. }
    apply rewrite_inside; [exact (NoDup_kid _ _ Hnd Hk0) | assumption | assumption].
  - assert (~ In c (ids k)) as Hc.
    { intros Hin. destruct (find_node_in _ _ Hin) as [? ?]. congruence. }
    assert (~ In r (ids k)) as Hr'.
    { intros Hin. assert (k = k0) as -> by exact (unique_kid f k k0 r Hnd Hk Hk0 Hin Hrk).
      congruence. }
    now rewrite !rewrite_notin.
Qed.

Lemma ids_button (b y : nat) : In y (ids (button_tree b)) -> b <= y < 10 + b.
Proof. simpl. intuition lia. Qed.

Lemma insert_button_run (R : list node) (b : nat) ls a (c : nat) (cd : edata)
      (cks : list node) :
  NoDup (fids R) -> (forall i, In i (fids R) -> i < b) ->
  getElementById "collapse-all-btn" R = None ->
  find is_some (possibleContainers R) = Some (Some c) ->
  ffind c R = Some (Elem c cd cks) -> kind cd = KElement ->
  insertCollapseAllButton (mkPage R b ls a)
  = Ok tt (with_button (mkPage R b ls a) c cd cks).
Proof.
  intros Hnd Hlt Hnone Hc HC Hkind.
  assert (forall y, b <= y -> ~ In y (fids R)) as Hfresh
      by (intros y Hy Hin; apply Hlt in Hin; lia).
  assert (c < b) as Hcb by (apply Hlt; exact (ffind_sub _ _ _ HC c (or_introl eq_refl))).
  assert (~ In c (ids (button_tree b))) as HcB by (intros H; apply ids_button in H; lia).
  unfold insertCollapseAllButton, with_button. cbn [roots next_id listeners isAllCollapsed].
  mstep. rewrite Hnone. cbn [is_some].
  mstep. rewrite Hc.
  rewrite ?bind_assoc. unfold bind at 1. rewrite run_createCollapseAllButton by exact Hlt.
  mstep. unfold tag_of. rewrite (data_of_front _ _ _ _ HC), (data_of_find _ _ _ _ HC).
  fold (appends_button (tag cd)).
  assert (ffind b (R ++ [button_tree b]) = Some (button_tree b)) as HB.
  { rewrite ffind_tail by (apply Hfresh; lia).
    unfold ffind, button_tree. cbn [first_some find_node node_id].
    now rewrite Nat.eqb_refl. }
  assert (frewrite b (fun _ => []) (R ++ [button_tree b]) = R) as Hrm.
  { rewrite frewrite_tail by (apply Hfresh; lia).
    unfold frewrite, button_tree. cbn [flat_map rewrite_node node_id].
    rewrite Nat.eqb_refl. apply app_nil_r. }
  destruct (appends_button (tag cd)).
  - rewrite run_appendChild. unfold pre_insert_ok.
    rewrite (ffind_front _ _ _ _ HC), HB, Hkind, (existsb_eqb_notin _ _ HcB), Hrm.
    cbn [negb andb]. now rewrite (frewrite_const c _ R _ Hnd HC).
  - unfold bind at 1. rewrite run_read. cbv beta iota.
    unfold firstChild. rewrite (ffind_front _ _ _ _ HC). cbn [kids].
    destruct cks as [|k0 cks]; cbn [hd_error option_map].
    + rewrite run_insertBefore. unfold pre_insert_ok.
      rewrite (ffind_front _ _ _ _ HC), HB, Hkind, (existsb_eqb_notin _ _ HcB), Hrm.
      cbn [negb andb place]. now rewrite (frewrite_const c _ R _ Hnd HC).
    + assert (In (node_id k0) (ids (Elem c cd (k0 :: cks)))) as Hk0.
      { right. simpl. apply in_or_app. left. apply ids_head. }
      assert (node_id k0 < b) as Hkb by (apply Hlt; exact (ffind_sub _ _ _ HC _ Hk0)).
      rewrite run_insertBefore. unfold pre_insert_ok.
      rewrite (ffind_front _ _ _ _ HC), HB, Hkind, (existsb_eqb_notin _ _ HcB), Hrm.
      cbn [existsb]. rewrite Nat.eqb_refl. cbn [negb andb orb place].
      replace (node_id k0 =? b) with false by (symmetry; apply Nat.eqb_neq; lia).
      rewrite (frewrite_inside c (node_id k0) _ R _ Hnd HC Hk0).
      pose proof (NoDup_ffind _ _ _ Hnd HC) as HndC.
      apply (NoDup_elem c cd) in HndC. destruct HndC as [HcC HndK].
      simpl in HndK.
      assert (rewrite_node (node_id k0) (fun n => [button_tree b; n]) (Elem c cd (k0 :: cks))
              = [Elem c cd (button_tree b :: k0 :: cks)]) as ->; [|reflexivity].
      cbn [rewrite_node node_id flat_map].
      replace (c =? node_id k0) with false.
      2:{ symmetry. apply Nat.eqb_neq. intros ->. apply HcC. simpl.
          apply in_or_app. left. apply ids_head. }
      rewrite rewrite_here. do 2 f_equal. cbn [app]. do 2 f_equal.
      apply flat_map_id_on. intros k Hk. apply rewrite_notin. intros Hin.
      apply (NoDup_app_disj _ _ (node_id k0) HndK (ids_head k0)).
      apply in_fids. eauto.
Qed.

Lemma ffind_with_button (p : page) (c : nat) (cd : edata) (cks : list node) :
  wf p -> ffind c (roots p) = Some (Elem c cd cks) ->
  ffind c (roots (with_button p c cd cks))
  = Some (Elem c cd (if appends_button (tag cd)
                     then cks ++ [button_tree (next_id p)]
                     else button_tree (next_id p) :: cks)).
Proof.
  intros [Hnd Hlt] HC. unfold with_button. cbn [roots].
  rewrite ffind_frewrite.
  - unfold ffind. cbn [first_some find_node node_id]. now rewrite Nat.eqb_refl.
  - apply (fskel_disjoint c c (roots p) _ Hnd HC). now left.
  - exact (ffind_sub _ _ _ HC c (or_introl eq_refl)).
Qed.

Lemma NoDup_with_button (p : page) (c : nat) (cd : edata) (cks : list node) :
  wf p -> ffind c (roots p) = Some (Elem c cd cks) ->
  NoDup (fids (roots (with_button p c cd cks))).
Proof.
  intros [Hnd Hlt] HC. unfold with_button. cbn [roots].
  pose proof (NoDup_ffind _ _ _ Hnd HC) as HndC.
  assert (forall y, In y (ids (Elem c cd cks)) -> y < next_id p) as HCb
      by (intros y Hy; apply Hlt; exact (ffind_sub _ _ _ HC y Hy)).
  assert (forall y, In y (ids (button_tree (next_id p))) -> ~ In y (ids (Elem c cd cks))) as Hd
      by (intros y Hy Hin; apply ids_button in Hy; apply HCb in Hin; lia).
  assert (NoDup (ids (button_tree (next_id p)))) as HndB.
  { simpl. repeat (constructor; [simpl; intuition lia|]). constructor. }
  apply NoDup_frewrite; [assumption | |].
  - cbn [fids flat_map ids]. rewrite app_nil_r.
    simpl in HndC. inversion HndC as [|? ? Hc Hks]; subst.
    destruct (appends_button (tag cd)).
    + constructor.
      * rewrite flat_map_app, in_app_iff. intros [H|H]; [auto|].
        cbn [flat_map] in H. rewrite app_nil_r in H. apply (Hd c H). now left.
      * rewrite flat_map_app. apply NoDup_app; [assumption | |].
        -- cbn [flat_map]. now rewrite app_nil_r.
        -- intros y Hy Hy2. cbn [flat_map] in Hy2. rewrite app_nil_r in Hy2.
           apply (Hd y Hy2). now right.
    + constructor.
      * cbn [flat_map]. rewrite in_app_iff. intros [H|H]; [|auto].
        apply (Hd c H). now left.
      * cbn [flat_map]. apply NoDup_app; [assumption | assumption |].
        intros y Hy Hy2. apply (Hd y Hy). now right.
  - intros y Hy. cbn [fids flat_map ids] in Hy. rewrite app_nil_r in Hy.
    assert (In y (ids (Elem c cd cks)) \/ In y (ids (button_tree (next_id p)))) as [H|H].
    { destruct Hy as [Hy|Hy]; [left; now left|].
      destruct (appends_button (tag cd)).
      - rewrite flat_map_app, in_app_iff in Hy.
        cbn [flat_map] in Hy. rewrite app_nil_r in Hy.
        destruct Hy; [left; now right | now right].
      - cbn [flat_map] in Hy. rewrite in_app_iff in Hy.
        destruct Hy; [now right | left; now right]. }
    + exact (fskel_disjoint c y (roots p) _ Hnd HC H).
    + intros Hin. apply fskel_sub in Hin. apply Hlt in Hin. apply ids_button in H. lia.
Qed.

(** C9, as the code has it: with an element of id [collapse-all-btn] in
    the document nothing is inserted; otherwise the button goes into the
    first there is of: the first [header] element, the first element whose
    class contains "header", the first [nav], the first [main], the body;
    as last child of a [header] or [nav], as first child otherwise. *)
Theorem button_insertion (p : page) :
  (is_some (getElementById "collapse-all-btn" (roots p)) = true ->
   insertCollapseAllButton p = Ok tt p)
  /\ (wf p -> getElementById "collapse-all-btn" (roots p) = None ->
      forall c, find is_some (possibleContainers (roots p)) = Some (Some c) ->
      exists p', insertCollapseAllButton p = Ok tt p'
        /\ parentNode (next_id p) (roots p') = Some c
        /\ getAttribute (next_id p) "id" (roots p') = Some "collapse-all-btn"%string
        /\ children_ids c (roots p')
           = if appends_button (tag_of c (roots p))
             then children_ids c (roots p) ++ [next_id p]
             else next_id p :: children_ids c (roots p)).
Proof.
  split.
  - intros H. unfold insertCollapseAllButton, bind, read, ret.
    now destruct (getElementById "collapse-all-btn" (roots p)).
  - intros Hwf Hnone c Hc.
    destruct (container_found c (roots p) (proj1 Hwf) Hc) as [cd [cks [HC Hkind]]].
    exists (with_button p c cd cks).
    pose proof (ffind_with_button p c cd cks Hwf HC) as HC'.
    pose proof (NoDup_with_button p c cd cks Hwf HC) as Hnd'.
    assert (In (button_tree (next_id p))
              (if appends_button (tag cd) then cks ++ [button_tree (next_id p)]
               else button_tree (next_id p) :: cks)) as HinB.
    { destruct (appends_button (tag cd)); [apply in_or_app; right|]; now left. }
    split; [|split; [|split]].
    + rewrite (page_eta p) at 1.
      apply insert_button_run; try assumption; [exact (proj1 Hwf) | exact (proj2 Hwf)].
    + exact (parentNode_unique c _ cd _ (button_tree (next_id p)) Hnd' HC' HinB).
    + pose proof (kid_found c _ cd _ (button_tree (next_id p)) Hnd' HC' HinB) as HB.
      unfold getAttribute, data_of. cbn [node_id button_tree] in HB. rewrite HB.
      reflexivity.
    + unfold children_ids, tag_of. rewrite HC', HC, (data_of_find _ _ _ _ HC).
      cbn [kids]. destruct (appends_button (tag cd)); [|reflexivity].
      now rewrite map_app.
Qed.

Lemma button_insertion_witness :
  exists p', insertCollapseAllButton sample_page = Ok tt p'
    /\ parentNode (next_id sample_page) (roots p') = Some 3
    /\ getAttribute (next_id sample_page) "id" (roots p') = Some "collapse-all-btn"%string
    /\ children_ids 3 (roots p')
       = if appends_button (tag_of 3 (roots sample_page))
         then children_ids 3 (roots sample_page) ++ [next_id sample_page]
         else next_id sample_page :: children_ids 3 (roots sample_page).
Proof.
  apply (proj2 (button_insertion sample_page)); [apply wfb_sound| |];
    vm_compute; reflexivity.
Defined.

(** C9 as the specification words it (header, navigation, main, body)
    fails: on a page with a [nav] and a [footer] of class "headerless" the
    first container of the claimed order is the [nav], and the button ends
    up in the footer. *)
Lemma button_not_in_claimed_container :
  getElementById "collapse-all-btn" (roots footer_page) = None
  /\ find is_some (claimedContainers (roots footer_page)) = Some (Some 3)
  /\ exists p', insertCollapseAllButton footer_page = Ok tt p'
       /\ parentNode (next_id footer_page) (roots p') = Some 4
       /\ parentNode (next_id footer_page) (roots p') <> Some 3.
Proof.
  split; [reflexivity|]. split; [reflexivity|].
  exists (page_of (insertCollapseAllButton footer_page)).
  split; [vm_compute; reflexivity|].
  split; [vm_compute; reflexivity|].
  vm_compute. discriminate.
Qed.

(* ================================================================== *)
(** * Timers *)

Lemma shouldProcess_inner (ns : list node) (flag : bool) :
  fold_left (fun flag node => if (nodeType node =? 1)%nat then true else flag) ns flag
  = flag || existsb (fun n => nodeType n =? 1) ns.
Proof.
  revert flag. induction ns as [|n ns IH]; intros flag; simpl.
  - now rewrite orb_false_r.
  - rewrite IH. destruct (nodeType n =? 1); simpl; [now rewrite orb_true_r|reflexivity].
Qed.

Lemma shouldProcess_outer (ms : list MutationRecord) (flag : bool) :
  fold_left
    (fun flag mutation =>
       fold_left (fun flag node => if (nodeType node =? 1)%nat then true else flag)
                 (addedNodes mutation) flag)
    ms flag
  = flag || existsb (fun m => existsb (fun n => nodeType n =? 1) (addedNodes m)) ms.
Proof.
  revert flag. induction ms as [|m ms IH]; intros flag; simpl.
  - now rewrite orb_false_r.
  - rewrite IH, shouldProcess_inner. now rewrite orb_assoc.
Qed.

Lemma shouldProcess_spec (ms : list MutationRecord) :
  shouldProcess ms = true
  <-> exists m n, In m ms /\ In n (addedNodes m) /\ nodeType n = 1.
Proof.
  unfold shouldProcess. rewrite shouldProcess_outer. simpl.
  rewrite existsb_exists. split.
  - intros [m [Hm H]]. apply existsb_exists in H. destruct H as [n [Hn H]].
    apply Nat.eqb_eq in H. now exists m, n.
  - intros [m [n [Hm [Hn H]]]]. exists m. split; [assumption|].
    apply existsb_exists. exists n. split; [assumption|]. now apply Nat.eqb_eq.
Qed.

Lemma insert_timer_length (d : nat) (k : task) (ts : list (nat * task)) :
  List.length (insert_timer d k ts) = S (List.length ts).
Proof.
  induction ts as [|[d' k'] r IH]; simpl; [reflexivity|].
  destruct (d <? d'); simpl; [reflexivity|]. now rewrite IH.
Qed.

Lemma insert_timer_in (d : nat) (k : task) (ts : list (nat * task)) (e : nat * task) :
  In e (insert_timer d k ts) <-> e = (d, k) \/ In e ts.
Proof.
  induction ts as [|[d' k'] r IH]; simpl.
  - intuition congruence.
  - destruct (d <? d'); simpl; [intuition congruence|].
    rewrite IH. intuition congruence.
Qed.

Lemma insert_timer_ordered (d : nat) (k : task) (ts : list (nat * task)) :
  ordered ts = true -> ordered (insert_timer d k ts) = true.
Proof.
  induction ts as [|[d' k'] r IH]; simpl; [reflexivity|].
  intros H. apply andb_true_iff in H. destruct H as [Hall Hr].
  destruct (d <? d') eqn:E.
  - simpl. rewrite Hall, Hr.
    apply Nat.ltb_lt in E.
    replace (d <=? d') with true by (symmetry; apply Nat.leb_le; lia). simpl.
    rewrite andb_true_r. apply forallb_forall. intros e He.
    rewrite forallb_forall in Hall. apply Hall in He.
    apply Nat.leb_le in He. apply Nat.leb_le. lia.
  - simpl. rewrite (IH Hr), andb_true_r.
    apply Nat.ltb_ge in E.
    apply forallb_forall. intros e He. apply insert_timer_in in He.
    destruct He as [->|He]; [apply Nat.leb_le; simpl; lia|].
    rewrite forallb_forall in Hall. now apply Hall.
Qed.

Lemma forallb_weaken {A : Type} (f g : A -> bool) (l : list A) :
  (forall x, f x = true -> g x = true) -> forallb f l = true -> forallb g l = true.
Proof.
  intros H Hf. apply forallb_forall. intros x Hx.
  rewrite forallb_forall in Hf. auto.
Qed.

Lemma patience_cons (t d : nat) (k : task) (r : list (nat * task)) :
  patience t ((d, k) :: r) = (S t - d) + patience t r.
Proof. reflexivity. Qed.

Lemma patience_insert (t d : nat) (k : task) (ts : list (nat * task)) :
  patience t (insert_timer d k ts) = patience t ts + (S t - d).
Proof.
  induction ts as [|[d' k'] r IH]; cbn [insert_timer].
  - rewrite patience_cons. unfold patience. simpl list_sum. lia.
  - destruct (d <? d'); rewrite ?patience_cons; [|rewrite IH]; lia.
Qed.

Lemma deliver_cases (ms : list MutationRecord) (l : loop) :
  deliver ms l = l \/ deliver ms l = setTimeout MutationScan 100 l.
Proof.
  unfold deliver, observer_callback. destruct (observed l); [|now left].
  destruct ms; [now left|]. destruct (shouldProcess (m :: ms)); [now right|now left].
Qed.

Lemma deliver_qualifying (ms : list MutationRecord) (l : loop) (target : nat) :
  observed l = Some target ->
  deliver ms l = if shouldProcess ms then setTimeout MutationScan 100 l else l.
Proof.
  unfold deliver, observer_callback. intros ->. destruct ms; reflexivity.
Qed.

(** What running a timer leaves: the other timers, and the scan the
    observer sets if the callback put an element below the watched node. *)
Lemma run_timer_cases (d : nat) (k : task) (r : list (nat * task)) (l : loop) :
  let base := mkLoop (page_of (run_task k (the_page l))) (Nat.max d (clock l)) r
                     (ran l ++ [(d, k)]) (observed l) in
  run_timer d k r l = base \/ run_timer d k r l = setTimeout MutationScan 100 base.
Proof.
  unfold run_timer. destruct (observed l); [apply deliver_cases|now left].
Qed.

Lemma fire_wait (fuel t : nat) (l : loop) :
  forallb (fun e => t <? fst e) (firstn 1 (timers l)) = true -> fire fuel t l = l.
Proof.
  destruct fuel; [reflexivity|]. simpl. destruct (timers l) as [|[d k] r]; [reflexivity|].
  simpl. intros H. rewrite andb_true_r in H. apply Nat.ltb_lt in H.
  now replace (d <=? t) with false by (symmetry; apply Nat.leb_gt; lia).
Qed.

Lemma ordered_head (d t : nat) (k : task) (r : list (nat * task)) :
  ordered ((d, k) :: r) = true -> t < d ->
  forallb (fun e => t <? fst e) ((d, k) :: r) = true.
Proof.
  simpl. intros H Hd. apply andb_true_iff in H. destruct H as [Hall _].
  replace (t <? d) with true by (symmetry; apply Nat.ltb_lt; lia). simpl.
  apply forallb_forall. intros e He. rewrite forallb_forall in Hall.
  apply Hall in He. apply Nat.leb_le in He. apply Nat.ltb_lt. lia.
Qed.

(** With [patience] turns everything due by [t] has run. *)
Lemma fire_done (t fuel : nat) :
  forall l, ordered (timers l) = true -> patience t (timers l) <= fuel ->
            ordered (timers (fire fuel t l)) = true
            /\ forallb (fun e => t <? fst e) (timers (fire fuel t l)) = true.
Proof.
  induction fuel as [|fuel IH]; intros l Ho Hp.
  - simpl. split; [assumption|]. destruct (timers l) as [|[d k] r]; [reflexivity|].
    apply (ordered_head d t k r Ho). rewrite patience_cons in Hp. lia.
  - simpl. destruct (timers l) as [|[d k] r] eqn:Et; [rewrite Et; now split|].
    destruct (Nat.leb_spec d t) as [Hd|Hd].
    + pose proof Ho as Ho'. simpl in Ho'. apply andb_true_iff in Ho'.
      destruct Ho' as [_ Hr].
      rewrite patience_cons in Hp.
      assert (patience t r < S fuel) as Hpr by lia.
      apply IH.
      * destruct (run_timer_cases d k r l) as [->| ->]; cbn [timers setTimeout];
          [assumption|now apply insert_timer_ordered].
      * destruct (run_timer_cases d k r l) as [->| ->]; cbn [timers setTimeout clock];
          [lia|]. rewrite patience_insert. lia.
    + rewrite Et. split; [assumption|]. now apply ordered_head.
Qed.

Lemma fire_clock (t fuel : nat) :
  forall l, clock l <= t -> clock (fire fuel t l) <= t.
Proof.
  induction fuel as [|fuel IH]; intros l Hc; [assumption|].
  simpl. destruct (timers l) as [|[d k] r]; [assumption|].
  destruct (Nat.leb_spec d t) as [Hd|Hd]; [|assumption].
  apply IH. destruct (run_timer_cases d k r l) as [->| ->]; cbn [clock setTimeout]; lia.
Qed.

Lemma fire_observed (t fuel : nat) :
  forall l, observed (fire fuel t l) = observed l.
Proof.
  induction fuel as [|fuel IH]; intros l; [reflexivity|].
  simpl. destruct (timers l) as [|[d k] r]; [reflexivity|].
  destruct (d <=? t); [|reflexivity]. rewrite IH.
  now destruct (run_timer_cases d k r l) as [->| ->].
Qed.

(** No timer is cancelled: what is pending stays pending until it runs. *)
Lemma fire_keeps (t fuel : nat) (e : nat * task) :
  forall l, In e (timers l ++ ran l) ->
            In e (timers (fire fuel t l) ++ ran (fire fuel t l)).
Proof.
  induction fuel as [|fuel IH]; intros l He; [assumption|].
  simpl. destruct (timers l) as [|[d k] r] eqn:Et; [now rewrite Et|].
  destruct (d <=? t); [|now rewrite Et].
  apply IH. apply in_app_or in He.
  assert (In e (r ++ ran l ++ [(d, k)])) as H.
  { destruct He as [[<-|He]|He]; rewrite !in_app_iff; simpl; tauto. }
  destruct (run_timer_cases d k r l) as [->| ->]; cbn [timers ran setTimeout];
    [assumption|].
  apply in_app_or in H. apply in_or_app.
  destruct H as [H|H]; [left; apply insert_timer_in; now right|now right].
Qed.

Lemma fire_scans (t fuel : nat) :
  forall l, scans l <= scans (fire fuel t l).
Proof.
  induction fuel as [|fuel IH]; intros l; [reflexivity|].
  simpl. destruct (timers l) as [|[d k] r] eqn:Et; [reflexivity|].
  destruct (d <=? t); [|reflexivity].
  etransitivity; [|apply IH]. unfold scans, pending_scans. rewrite Et.
  destruct (run_timer_cases d k r l) as [->| ->]; cbn [timers ran setTimeout];
    rewrite ?insert_timer_length, length_app; simpl; lia.
Qed.

Lemma step_observed (l : loop) (e : event) : observed (step l e) = observed l.
Proof.
  destruct e as [ms|d]; simpl.
  - now destruct (deliver_cases ms l) as [->| ->].
  - apply fire_observed.
Qed.

Lemma step_ok (l : loop) (e : event) : loop_ok l = true -> loop_ok (step l e) = true.
Proof.
  unfold loop_ok, future. intros H. apply andb_true_iff in H. destruct H as [Ho Hf].
  destruct e as [ms|d]; simpl.
  - destruct (deliver_cases ms l) as [->| ->]; [now rewrite Ho, Hf|].
    cbn [timers clock setTimeout]. rewrite (insert_timer_ordered _ _ _ Ho). simpl.
    apply forallb_forall. intros e He. apply insert_timer_in in He.
    destruct He as [->|He]; [apply Nat.ltb_lt; simpl; lia|].
    rewrite forallb_forall in Hf. now apply Hf.
  - destruct (fire_done (clock l + d) _ l Ho (le_n _)) as [H1 H2].
    pose proof (fire_clock (clock l + d) (patience (clock l + d) (timers l)) l
                  (Nat.le_add_r _ _)) as Hc.
    rewrite H1. simpl.
    replace (Nat.max (clock l + d) _) with (clock l + d) by lia. exact H2.
Qed.

Lemma step_keeps (l : loop) (e : event) (x : nat * task) :
  In x (timers l ++ ran l) -> In x (timers (step l e) ++ ran (step l e)).
Proof.
  destruct e as [ms|d]; simpl.
  - destruct (deliver_cases ms l) as [->| ->]; [auto|].
    cbn [timers ran setTimeout]. rewrite !in_app_iff, insert_timer_in. tauto.
  - apply fire_keeps.
Qed.

Lemma step_scans (l : loop) (e : event) (target : nat) :
  observed l = Some target -> scans l + qualifying [e] <= scans (step l e).
Proof.
  intros Hobs. destruct e as [ms|d]; simpl.
  - rewrite (deliver_qualifying ms l target Hobs).
    destruct (shouldProcess ms); [|lia]. unfold scans, pending_scans.
    cbn [timers ran setTimeout]. rewrite insert_timer_length. lia.
  - pose proof (fire_scans (clock l + d) (patience (clock l + d) (timers l)) l) as H.
    unfold scans, pending_scans in *. simpl. lia.
Qed.

Lemma batches_pending (bs : list (list MutationRecord)) :
  forall (l : loop) (target : nat),
    observed l = Some target ->
    pending_scans (run_events (List.map Mutations bs) l)
    = pending_scans l + qualifying (List.map Mutations bs).
Proof.
  induction bs as [|ms bs IH]; intros l target Hobs; [simpl; lia|].
  change (run_events (List.map Mutations (ms :: bs)) l)
    with (run_events (List.map Mutations bs) (step l (Mutations ms))).
  rewrite (IH (step l (Mutations ms)) target) by (now rewrite step_observed).
  cbn [List.map qualifying step]. rewrite (deliver_qualifying ms l target Hobs).
  destruct (shouldProcess ms); [|lia]. unfold pending_scans.
  cbn [timers setTimeout]. rewrite insert_timer_length. lia.
Qed.

(** C1, as the code has it: the observer's callback looks at the batch
    only, never at the pending timers.  A batch with an added node of type 1
    sets one timer for the mutation scan, due 100 ms after the batch,
    however many scans are pending; any other batch sets none.  So k such
    batches in a row leave k more scans pending.  No timer is cancelled:
    along any run of the loop what was pending is pending or has run, every
    such batch of the host accounts for a scan of its own (the scans'
    own insertions are batches too and add theirs), and what is still
    pending is due in the future: every scan whose delay has passed did
    run. *)
Theorem one_scan_per_batch (es : list event) (l : loop) (target : nat) :
  loop_ok l = true -> observed l = Some target ->
  (forall ms, shouldProcess ms = true
              <-> exists m n, In m ms /\ In n (addedNodes m) /\ nodeType n = 1)
  /\ (forall ms, shouldProcess ms = true ->
        timers (step l (Mutations ms))
        = insert_timer (clock l + 100) MutationScan (timers l)
        /\ In (clock l + 100, MutationScan) (timers (step l (Mutations ms)))
        /\ pending_scans (step l (Mutations ms)) = S (pending_scans l))
  /\ (forall ms, shouldProcess ms = false -> step l (Mutations ms) = l)
  /\ (forall bs, pending_scans (run_events (List.map Mutations bs) l)
                 = pending_scans l + qualifying (List.map Mutations bs))
  /\ scans l + qualifying es <= scans (run_events es l)
  /\ (forall x, In x (timers l ++ ran l) ->
                In x (timers (run_events es l) ++ ran (run_events es l)))
  /\ loop_ok (run_events es l) = true
  /\ forall d k, In (d, k) (timers (run_events es l)) -> clock (run_events es l) < d.
Proof.
  intros Hok Hobs. split; [exact shouldProcess_spec|]. split.
  { intros ms H. cbn [step]. rewrite (deliver_qualifying ms l target Hobs), H.
    cbn [timers setTimeout]. split; [reflexivity|].
    split; [apply insert_timer_in; now left|].
    unfold pending_scans. cbn [timers]. apply insert_timer_length. }
  split.
  { intros ms H. cbn [step]. now rewrite (deliver_qualifying ms l target Hobs), H. }
  split; [intros bs; exact (batches_pending bs l target Hobs)|].
  revert l Hok Hobs. induction es as [|e es IH]; intros l Hok Hobs.
  - simpl. split; [lia|]. split; [auto|]. split; [assumption|].
    intros d k Hin. unfold loop_ok, future in Hok.
    apply andb_true_iff in Hok. destruct Hok as [_ Hf].
    rewrite forallb_forall in Hf. apply Hf in Hin. now apply Nat.ltb_lt in Hin.
  - change (run_events (e :: es) l) with (run_events es (step l e)).
    destruct (IH (step l e) (step_ok l e Hok)) as [H1 [H2 H3]];
      [now rewrite step_observed|].
    split; [|split; [|assumption]].
    + pose proof (step_scans l e target Hobs) as H. simpl in H |- *.
      destruct e as [ms|d]; simpl in *; lia.
    + intros x Hx. apply H2. now apply step_keeps.
Qed.

Lemma one_scan_per_batch_witness :
  (forall ms, shouldProcess ms = true
              <-> exists m n, In m ms /\ In n (addedNodes m) /\ nodeType n = 1)
  /\ (forall ms, shouldProcess ms = true ->
        timers (step (loop_of (init idle_loop)) (Mutations ms))
        = insert_timer (clock (loop_of (init idle_loop)) + 100) MutationScan
                       (timers (loop_of (init idle_loop)))
        /\ In (clock (loop_of (init idle_loop)) + 100, MutationScan)
              (timers (step (loop_of (init idle_loop)) (Mutations ms)))
        /\ pending_scans (step (loop_of (init idle_loop)) (Mutations ms))
           = S (pending_scans (loop_of (init idle_loop))))
  /\ (forall ms, shouldProcess ms = false ->
                 step (loop_of (init idle_loop)) (Mutations ms) = loop_of (init idle_loop))
  /\ (forall bs, pending_scans (run_events (List.map Mutations bs) (loop_of (init idle_loop)))
                 = pending_scans (loop_of (init idle_loop))
                   + qualifying (List.map Mutations bs))
  /\ scans (loop_of (init idle_loop))
       + qualifying [Mutations element_batch; Elapse 10; Mutations element_batch; Elapse 100]
     <= scans (run_events [Mutations element_batch; Elapse 10; Mutations element_batch;
                           Elapse 100] (loop_of (init idle_loop)))
  /\ (forall x, In x (timers (loop_of (init idle_loop)) ++ ran (loop_of (init idle_loop))) ->
                In x (timers (run_events [Mutations element_batch; Elapse 10;
                                          Mutations element_batch; Elapse 100]
                                         (loop_of (init idle_loop)))
                      ++ ran (run_events [Mutations element_batch; Elapse 10;
                                          Mutations element_batch; Elapse 100]
                                         (loop_of (init idle_loop)))))
  /\ loop_ok (run_events [Mutations element_batch; Elapse 10; Mutations element_batch;
                          Elapse 100] (loop_of (init idle_loop))) = true
  /\ forall d k,
      In (d, k) (timers (run_events [Mutations element_batch; Elapse 10;
                                     Mutations element_batch; Elapse 100]
                                    (loop_of (init idle_loop)))) ->
      clock (run_events [Mutations element_batch; Elapse 10;
                         Mutations element_batch; Elapse 100] (loop_of (init idle_loop))) < d.
Proof.
  apply (one_scan_per_batch _ (loop_of (init idle_loop)) 2); vm_compute; reflexivity.
Defined.

(** C1 as stated fails: a second batch with an added element, ten
    milliseconds after the first, finds the scan of the first pending and
    sets another; both run, 100 ms after their batches. *)
Lemma second_batch_schedules_a_second_scan :
  shouldProcess element_batch = true
  /\ timers (run_events [Mutations element_batch; Elapse 10] (loop_of (init idle_loop)))
     = [(100, MutationScan); (500, InitialScan)]
  /\ timers (run_events [Mutations element_batch; Elapse 10; Mutations element_batch]
                        (loop_of (init idle_loop)))
     = [(100, MutationScan); (110, MutationScan); (500, InitialScan)]
  /\ ran (run_events [Mutations element_batch; Elapse 10; Mutations element_batch; Elapse 100]
                     (loop_of (init idle_loop)))
     = [(100, MutationScan); (110, MutationScan)].
Proof.
  repeat split; vm_compute; reflexivity.
Qed.

(* ================================================================== *)
(** * Changing the data of elements *)

Lemma map_id_on {A} (h : A -> A) (l : list A) :
  (forall a, In a l -> h a = a) -> List.map h l = l.
Proof.
  induction l as [|a l IH]; intros H; simpl; [reflexivity|].
  rewrite H by now left. rewrite IH; [reflexivity|]. intros b Hb. apply H. now right.
Qed.

Lemma flat_map_singleton {A B} (g : A -> list B) (h : A -> B) (l : list A) :
  (forall a, In a l -> g a = [h a]) -> flat_map g l = List.map h l.
Proof.
  induction l as [|a l IH]; intros H; simpl; [reflexivity|].
  rewrite H by now left. rewrite IH; [reflexivity|]. intros b Hb. apply H. now right.
Qed.

Lemma flat_map_map_in {A B C D} (g : B -> list C) (h : A -> B) (k : D -> C)
      (g' : A -> list D) (l : list A) :
  (forall a, In a l -> g (h a) = List.map k (g' a)) ->
  flat_map g (List.map h l) = List.map k (flat_map g' l).
Proof.
  induction l as [|a l IH]; intros H; simpl; [reflexivity|].
  rewrite H by now left. rewrite map_app, IH; [reflexivity|].
  intros b Hb. apply H. now right.
Qed.

Lemma flat_map_map_same {A B C} (g : B -> list C) (h : A -> B)
      (g' : A -> list C) (l : list A) :
  (forall a, In a l -> g (h a) = g' a) ->
  flat_map g (List.map h l) = flat_map g' l.
Proof.
  induction l as [|a l IH]; intros H; simpl; [reflexivity|].
  rewrite H by now left. rewrite IH; [reflexivity|].
  intros b Hb. apply H. now right.
Qed.

Lemma first_some_map_in {A B C D} (f : B -> option C) (h : A -> B) (k : D -> C)
      (f' : A -> option D) (l : list A) :
  (forall a, In a l -> f (h a) = option_map k (f' a)) ->
  first_some f (List.map h l) = option_map k (first_some f' l).
Proof.
  induction l as [|a l IH]; intros H; simpl; [reflexivity|].
  rewrite H by now left. destruct (f' a); simpl; [reflexivity|].
  apply IH. intros b Hb. apply H. now right.
Qed.

Lemma relabel_id (m : nat -> edata -> edata) (n : node) : node_id (relabel m n) = node_id n.
Proof. now destruct n. Qed.

Lemma relabel_kids (m : nat -> edata -> edata) (n : node) :
  kids (relabel m n) = List.map (relabel m) (kids n).
Proof. now destruct n. Qed.

Lemma relabel_notin (y : nat) (g : edata -> edata) (n : node) :
  ~ In y (ids n) -> relabel (at_id y g) n = n.
Proof.
  induction n as [i s|i d ks IH] using node_ind'; intros H; [reflexivity|].
  simpl in *. unfold at_id at 1.
  destruct (i =? y) eqn:E; [apply Nat.eqb_eq in E; tauto|].
  f_equal. apply map_id_on. intros k Hk.
  rewrite Forall_forall in IH. apply IH; [assumption|].
  intros Hy. apply H. right. apply in_flat_map. now exists k.
Qed.

Lemma rewrite_on_data (y : nat) (g : edata -> edata) (n : node) :
  NoDup (ids n) -> rewrite_node y (on_data g) n = [relabel (at_id y g) n].
Proof.
  induction n as [i s|i d ks IH] using node_ind'; intros Hnd.
  - simpl. now destruct (i =? y).
  - destruct (NoDup_elem i d ks Hnd) as [Hi Hks].
    simpl. unfold at_id at 1. destruct (i =? y) eqn:E.
    + apply Nat.eqb_eq in E. subst y. simpl. do 2 f_equal.
      symmetry. apply map_id_on. intros k Hk. apply relabel_notin.
      intros Hy. apply Hi. apply in_flat_map. now exists k.
    + do 2 f_equal. apply flat_map_singleton. intros k Hk.
      rewrite Forall_forall in IH. apply IH; [assumption|].
      now apply (NoDup_kid ks).
Qed.

Lemma frewrite_on_data (y : nat) (g : edata -> edata) (f : list node) :
  NoDup (fids f) -> frewrite y (on_data g) f = List.map (relabel (at_id y g)) f.
Proof.
  intros Hnd. apply flat_map_singleton. intros k Hk.
  apply rewrite_on_data. now apply (NoDup_kid f).
Qed.

Lemma ids_relabel (m : nat -> edata -> edata) (n : node) : ids (relabel m n) = ids n.
Proof.
  induction n as [i s|i d ks IH] using node_ind'; [reflexivity|].
  simpl. f_equal. apply flat_map_map_same.
  rewrite Forall_forall in IH. exact IH.
Qed.

Lemma fids_relabel (m : nat -> edata -> edata) (f : list node) :
  fids (List.map (relabel m) f) = fids f.
Proof. apply flat_map_map_same. intros k _. apply ids_relabel. Qed.

Lemma find_relabel (m : nat -> edata -> edata) (w : nat) (n : node) :
  find_node w (relabel m n) = option_map (relabel m) (find_node w n).
Proof.
  induction n as [i s|i d ks IH] using node_ind'.
  - simpl. now destruct (i =? w).
  - simpl. destruct (i =? w); [reflexivity|].
    apply first_some_map_in. rewrite Forall_forall in IH. exact IH.
Qed.

Lemma ffind_relabel (m : nat -> edata -> edata) (w : nat) (f : list node) :
  ffind w (List.map (relabel m) f) = option_map (relabel m) (ffind w f).
Proof. apply first_some_map_in. intros k _. apply find_relabel. Qed.

Lemma elements_relabel (m : nat -> edata -> edata) (n : node) :
  elements (relabel m n) = List.map (lab m) (elements n).
Proof.
  induction n as [i s|i d ks IH] using node_ind'; [reflexivity|].
  simpl. unfold lab at 1. simpl. f_equal. apply flat_map_map_in.
  rewrite Forall_forall in IH. exact IH.
Qed.

Lemma descendants_relabel (m : nat -> edata -> edata) (n : node) :
  descendants (relabel m n) = List.map (lab m) (descendants n).
Proof.
  unfold descendants. rewrite relabel_kids. apply flat_map_map_in.
  intros k _. apply elements_relabel.
Qed.

Lemma chain_relabel (m : nat -> edata -> edata) (x : nat) (n : node) :
  chain x (relabel m n) = option_map (List.map (lab m)) (chain x n).
Proof.
  induction n as [i s|i d ks IH] using node_ind'.
  - simpl. now destruct (i =? x).
  - simpl. destruct (i =? x); [reflexivity|].
    rewrite (first_some_map_in (chain x) (relabel m) (List.map (lab m)) (chain x)).
    + destruct (first_some (chain x) ks); simpl; [|reflexivity].
      now rewrite map_app.
    + rewrite Forall_forall in IH. exact IH.
Qed.

Lemma fchain_relabel (m : nat -> edata -> edata) (x : nat) (f : list node) :
  fchain x (List.map (relabel m) f) = List.map (lab m) (fchain x f).
Proof.
  unfold fchain.
  rewrite (first_some_map_in (chain x) (relabel m) (List.map (lab m)) (chain x)).
  - now destruct (first_some (chain x) f).
  - intros k _. apply chain_relabel.
Qed.

Lemma text_of_relabel (m : nat -> edata -> edata) (n : node) :
  text_of (relabel m n) = text_of n.
Proof.
  induction n as [i s|i d ks IH] using node_ind'; [reflexivity|].
  simpl. apply flat_map_map_same. rewrite Forall_forall in IH. exact IH.
Qed.

Lemma select_lab (m : nat -> edata -> edata) (sel : selector) (l : list (nat * edata)) :
  (forall i d, matches sel (m i d) = matches sel d) ->
  select sel (List.map (lab m) l) = select sel l.
Proof.
  intros H. unfold select. induction l as [|[i d] l IH]; simpl; [reflexivity|].
  rewrite H. destruct (matches sel d); simpl; now rewrite IH.
Qed.

Lemma quiet_matches (g : edata -> edata) (sel : selector) (d : edata) :
  quiet g -> plain_sel sel = true -> matches sel (g d) = matches sel d.
Proof.
  intros Hq Hp. destruct (Hq d) as [Hk Hs]. unfold matches. rewrite Hk.
  destruct (kind d); [|reflexivity].
  unfold plain_sel in Hp. induction sel as [|c sel IH]; simpl; [reflexivity|].
  simpl in Hp. apply andb_true_iff in Hp. destruct Hp as [Hc Hp].
  rewrite (IH Hp). f_equal.
  clear IH Hp. induction c as [|s c IH]; simpl; [reflexivity|].
  simpl in Hc. apply andb_true_iff in Hc. destruct Hc as [Hs' Hc].
  now rewrite (Hs s Hs'), (IH Hc).
Qed.

Lemma quiet_at (y : nat) (g : edata -> edata) (sel : selector) :
  quiet g -> plain_sel sel = true ->
  forall i d, matches sel (at_id y g i d) = matches sel d.
Proof.
  intros Hq Hp i d. unfold at_id. destruct (i =? y); [|reflexivity].
  now apply quiet_matches.
Qed.

Lemma str_mem_app (x : string) (l1 l2 : list string) :
  str_mem x (l1 ++ l2) = str_mem x l1 || str_mem x l2.
Proof. apply existsb_app. Qed.

Lemma str_mem_filter_other (x c : string) (l : list string) :
  String.eqb x c = false ->
  str_mem x (filter (fun c' => negb (String.eqb c c')) l) = str_mem x l.
Proof.
  intros H. unfold str_mem. induction l as [|a l IH]; simpl; [reflexivity|].
  destruct (String.eqb c a) eqn:E; simpl.
  - apply String.eqb_eq in E. subst a. now rewrite H.
  - now rewrite IH.
Qed.

Lemma str_mem_filter_same (c : string) (l : list string) :
  str_mem c (filter (fun c' => negb (String.eqb c c')) l) = false.
Proof.
  unfold str_mem. induction l as [|a l IH]; simpl; [reflexivity|].
  destruct (String.eqb c a) eqn:E; simpl; [assumption|]. now rewrite E.
Qed.

(** The token set has the tokens of the attribute. *)
Lemma str_mem_token_set (x : string) (l : list string) :
  str_mem x (token_set l) = str_mem x l.
Proof.
  induction l as [|a l IH]; [reflexivity|].
  cbn [token_set]. unfold str_mem in *. cbn [existsb].
  destruct (String.eqb x a) eqn:E; [reflexivity|]. cbn [orb].
  fold (str_mem x (filter (fun c => negb (String.eqb a c)) (token_set l))).
  rewrite str_mem_filter_other; [exact IH|exact E].
Qed.

Lemma str_mem_add_other (x c : string) (l : list string) :
  String.eqb x c = false -> str_mem x (add_token c l) = str_mem x l.
Proof.
  intros H. unfold add_token. destruct (str_mem c (token_set l));
    [apply str_mem_token_set|].
  rewrite str_mem_app, str_mem_token_set. simpl. rewrite H. now rewrite !orb_false_r.
Qed.

Lemma str_mem_add_same (c : string) (l : list string) : str_mem c (add_token c l) = true.
Proof.
  unfold add_token. destruct (str_mem c (token_set l)) eqn:E; [assumption|].
  rewrite str_mem_app. simpl. rewrite String.eqb_refl. now rewrite orb_true_r.
Qed.

Lemma str_mem_remove_other (x c : string) (l : list string) :
  String.eqb x c = false -> str_mem x (remove_token c l) = str_mem x l.
Proof.
  intros H. unfold remove_token. now rewrite str_mem_filter_other, str_mem_token_set.
Qed.

Lemma str_mem_remove_same (c : string) (l : list string) :
  str_mem c (remove_token c l) = false.
Proof. unfold remove_token. apply str_mem_filter_same. Qed.

Lemma assoc_put_other (k k' v : string) (l : list (string * string)) :
  String.eqb k k' = false -> assoc k (put k' v l) = assoc k l.
Proof.
  intros H. induction l as [|[a b] l IH]; simpl.
  - now rewrite H.
  - destruct (String.eqb k' a) eqn:E; simpl.
    + apply String.eqb_eq in E. subst a. now rewrite H.
    + now rewrite IH.
Qed.

Lemma assoc_put_same (k v : string) (l : list (string * string)) :
  assoc k (put k v l) = Some v.
Proof.
  induction l as [|[a b] l IH]; simpl.
  - now rewrite String.eqb_refl.
  - destruct (String.eqb k a) eqn:E; simpl; [now rewrite String.eqb_refl|].
    now rewrite E.
Qed.

Lemma quiet_add : quiet (set_classes (add_token "collapsed")).
Proof.
  intros d. split; [reflexivity|]. intros [t|c|i|k v|v] Hp; try reflexivity; simpl in *.
  - apply str_mem_add_other. now apply negb_true_iff in Hp.
  - discriminate.
Qed.

Lemma quiet_remove : quiet (set_classes (remove_token "collapsed")).
Proof.
  intros d. split; [reflexivity|]. intros [t|c|i|k v|v] Hp; try reflexivity; simpl in *.
  - apply str_mem_remove_other. now apply negb_true_iff in Hp.
  - discriminate.
Qed.

Lemma quiet_aria (v : string) : quiet (set_attr "aria-expanded" v).
Proof.
  intros d. split; [reflexivity|]. intros [t|c|i|k v'|v'] Hp; try reflexivity; simpl in *.
  - unfold attr_is. simpl. now rewrite assoc_put_other.
  - unfold attr_is. simpl. rewrite assoc_put_other; [reflexivity|].
    now apply negb_true_iff in Hp.
Qed.

Lemma quiet_style (k v : string) : quiet (set_style k v).
Proof. intros d. split; [reflexivity|]. now intros []. Qed.

Lemma data_of_relabel (m : nat -> edata -> edata) (z : nat) (f : list node) :
  data_of z (List.map (relabel m) f) = option_map (m z) (data_of z f).
Proof.
  unfold data_of. rewrite ffind_relabel.
  destruct (ffind z f) as [n|] eqn:E; [|reflexivity].
  apply ffind_id in E. destruct n; simpl in *; [reflexivity|now subst].
Qed.

Lemma data_of_update (y z : nat) (g : edata -> edata) (f : list node) :
  NoDup (fids f) ->
  data_of z (frewrite y (on_data g) f)
  = if z =? y then option_map g (data_of z f) else data_of z f.
Proof.
  intros Hnd. rewrite frewrite_on_data, data_of_relabel by assumption.
  unfold at_id. destruct (z =? y); [reflexivity|]. now destruct (data_of z f).
Qed.

Lemma fids_update (y : nat) (g : edata -> edata) (f : list node) :
  NoDup (fids f) -> fids (frewrite y (on_data g) f) = fids f.
Proof. intros Hnd. now rewrite frewrite_on_data, fids_relabel. Qed.

Lemma inner_relabel (m : nat -> edata -> edata) (z : nat) (f : list node) :
  inner z (List.map (relabel m) f) = List.map (lab m) (inner z f).
Proof.
  unfold inner. rewrite ffind_relabel. destruct (ffind z f); [|reflexivity].
  apply descendants_relabel.
Qed.

Lemma is_document_relabel (m : nat -> edata -> edata) (n : node) :
  (forall i d, kind (m i d) = kind d) -> is_document (relabel m n) = is_document n.
Proof. intros H. destruct n; [reflexivity|]. unfold is_document. simpl. now rewrite H. Qed.

Lemma filter_map_comm {A} (t : A -> bool) (h : A -> A) (l : list A) :
  (forall a, t (h a) = t a) -> filter t (List.map h l) = List.map h (filter t l).
Proof.
  intros H. induction l as [|a l IH]; simpl; [reflexivity|].
  rewrite H. destruct (t a); simpl; now rewrite IH.
Qed.

Lemma stable_relabel (m : nat -> edata -> edata) (f : list node) :
  (forall i, quiet (m i)) -> stable f (List.map (relabel m) f).
Proof.
  intros Hq.
  assert (forall sel, plain_sel sel = true -> forall i d, matches sel (m i d) = matches sel d)
    as Hm by (intros sel Hp i d; now apply quiet_matches).
  assert (forall i d, kind (m i d) = kind d) as Hk by (intros i d; apply (Hq i d)).
  constructor.
  - intros sel Hp. unfold doc_querySelectorAll.
    rewrite filter_map_comm by (intros a; now apply is_document_relabel).
    rewrite (flat_map_map_in descendants (relabel m) (lab m) descendants)
      by (intros a _; apply descendants_relabel).
    now apply select_lab, Hm.
  - intros sel Hp. unfold all_elements.
    rewrite (flat_map_map_in elements (relabel m) (lab m) elements)
      by (intros a _; apply elements_relabel).
    now apply select_lab, Hm.
  - intros z sel Hp. rewrite inner_relabel. now apply select_lab, Hm.
  - intros z Hz. now rewrite inner_relabel, Hz.
  - intros c sel Hp _. unfold closest. rewrite fchain_relabel.
    f_equal. now apply select_lab, Hm.
  - intros z. rewrite data_of_relabel. now destruct (data_of z f).
Qed.

Lemma quiet_at_id (y : nat) (g : edata -> edata) : quiet g -> forall i, quiet (at_id y g i).
Proof.
  intros Hq i d. unfold at_id. destruct (i =? y); [apply Hq|]. now split.
Qed.

Lemma stable_update (y : nat) (g : edata -> edata) (f : list node) :
  NoDup (fids f) -> quiet g -> stable f (frewrite y (on_data g) f).
Proof.
  intros Hnd Hq. rewrite frewrite_on_data by assumption.
  apply stable_relabel. now apply quiet_at_id.
Qed.

Lemma stable_refl (f : list node) : stable f f.
Proof. now constructor. Qed.

Lemma stable_trans (f1 f2 f3 : list node) : stable f1 f2 -> stable f2 f3 -> stable f1 f3.
Proof.
  intros [a1 b1 c1 d1 e1 g1] [a2 b2 c2 d2 e2 g2]. constructor.
  - intros sel Hp. now rewrite a2, a1.
  - intros sel Hp. now rewrite b2, b1.
  - intros z sel Hp. now rewrite c2, c1.
  - intros z Hz. auto.
  - intros c sel Hp Hc. rewrite e2, e1; try assumption; [reflexivity|].
    now rewrite g1.
  - intros z. now rewrite g2, g1.
Qed.

(* ================================================================== *)
(** * Replacing the text of an element *)

Lemma rewrite_on_kids (sp : nat) (new : list node) (n : node) :
  rewrite_node sp (on_kids (fun _ => new)) n = [retext sp new n].
Proof.
  induction n as [i s|i d ks IH] using node_ind'.
  - simpl. now destruct (i =? sp).
  - simpl. destruct (i =? sp); [reflexivity|].
    do 2 f_equal. apply flat_map_singleton. rewrite Forall_forall in IH. exact IH.
Qed.

Lemma frewrite_on_kids (sp : nat) (new : list node) (f : list node) :
  frewrite sp (on_kids (fun _ => new)) f = List.map (retext sp new) f.
Proof. apply flat_map_singleton. intros k _. apply rewrite_on_kids. Qed.

Lemma texts_no_elements (l : list node) :
  forallb is_text l = true -> flat_map elements l = [].
Proof.
  induction l as [|[i s|i d ks] l IH]; simpl; intros H; [reflexivity|auto|discriminate].
Qed.

Lemma no_elements_texts (l : list node) :
  flat_map elements l = [] -> forallb is_text l = true.
Proof.
  induction l as [|[i s|i d ks] l IH]; simpl; intros H; [reflexivity|auto|discriminate].
Qed.

Lemma texts_find (z : nat) (l : list node) (m : node) :
  forallb is_text l = true -> ffind z l = Some m -> is_text m = true.
Proof.
  intros Ht Hf. apply first_some_in in Hf. destruct Hf as [k [Hk Hf]].
  rewrite forallb_forall in Ht. apply Ht in Hk.
  destruct k as [i s|]; [|discriminate]. simpl in Hf.
  destruct (i =? z); [now inversion Hf|discriminate].
Qed.

Lemma texts_in (z : nat) (l : list node) :
  forallb is_text l = true -> In z (fids l) -> exists s, In (Text z s) l.
Proof.
  intros Ht Hz. apply in_flat_map in Hz. destruct Hz as [k [Hk Hz]].
  rewrite forallb_forall in Ht. pose proof (Ht k Hk) as Hk'.
  destruct k as [i s|]; [|discriminate]. simpl in Hz. destruct Hz as [<-|[]].
  now exists s.
Qed.

Lemma view_inner (z : nat) (f : list node) :
  inner z f = match view z f with Some (_, l) => l | None => [] end.
Proof. unfold inner, view. now destruct (ffind z f) as [[|]|]. Qed.

Lemma view_data (z : nat) (f : list node) : data_of z f = option_map fst (view z f).
Proof. unfold data_of, view. now destruct (ffind z f) as [[|]|]. Qed.

Lemma fskel_not_x (x : nat) (f : list node) : ~ In x (fskel x f).
Proof.
  intros H. apply in_flat_map in H. destruct H as [n [_ H]]. exact (skel_not_x x n H).
Qed.

Section Retext.
Variables (sp : nat) (d : edata) (ks new : list node).
Hypothesis Hks : forallb is_text ks = true.
Hypothesis Hnew : forallb is_text new = true.

Lemma at_sp_kid (i : nat) (d0 : edata) (ks0 : list node) (k : node) :
  NoDup (ids (Elem i d0 ks0)) -> at_sp sp d ks (Elem i d0 ks0) -> (i =? sp) = false ->
  In k ks0 -> at_sp sp d ks k.
Proof.
  intros Hnd Hat E Hk m Hm. apply Hat. simpl. rewrite E.
  destruct (NoDup_elem i d0 ks0 Hnd) as [_ Hnd'].
  exact (ffind_unique sp ks0 k m Hnd' Hk Hm).
Qed.

Lemma at_sp_here (i : nat) (d0 : edata) (ks0 : list node) :
  at_sp sp d ks (Elem i d0 ks0) -> (i =? sp) = true -> d0 = d /\ ks0 = ks.
Proof.
  intros Hat E. specialize (Hat (Elem i d0 ks0)). simpl in Hat. rewrite E in Hat.
  specialize (Hat eq_refl). now inversion Hat.
Qed.

Lemma elements_retext (n : node) :
  NoDup (ids n) -> at_sp sp d ks n -> elements (retext sp new n) = elements n.
Proof.
  induction n as [i s|i d0 ks0 IH] using node_ind'; intros Hnd Hat; [reflexivity|].
  simpl. destruct (i =? sp) eqn:E.
  - destruct (at_sp_here i d0 ks0 Hat E) as [-> ->]. simpl.
    now rewrite (texts_no_elements _ Hks), (texts_no_elements _ Hnew).
  - simpl. f_equal. apply flat_map_map_same. intros k Hk.
    rewrite Forall_forall in IH. apply IH; [assumption| |].
    + destruct (NoDup_elem i d0 ks0 Hnd) as [_ Hnd']. now apply (NoDup_kid ks0).
    + now apply (at_sp_kid i d0 ks0).
Qed.

Lemma descendants_retext (n : node) :
  NoDup (ids n) -> at_sp sp d ks n -> descendants (retext sp new n) = descendants n.
Proof.
  intros Hnd Hat. pose proof (elements_retext n Hnd Hat) as H.
  destruct n as [i s|i d0 ks0]; [reflexivity|].
  simpl in H. unfold descendants. simpl. destruct (i =? sp); simpl in *; now inversion H.
Qed.

Lemma retext_id (n : node) : node_id (retext sp new n) = node_id n.
Proof. destruct n as [|i d0 ks0]; [reflexivity|]. simpl. now destruct (i =? sp). Qed.

Lemma retext_is_document (n : node) : is_document (retext sp new n) = is_document n.
Proof. destruct n as [|i d0 ks0]; [reflexivity|]. simpl. now destruct (i =? sp). Qed.

Lemma chain_retext (c : nat) (n : node) :
  NoDup (ids n) -> at_sp sp d ks n -> ~ In c (fids ks) -> ~ In c (fids new) ->
  chain c (retext sp new n) = chain c n.
Proof.
  intros Hnd Hat Hc1 Hc2. revert Hnd Hat.
  induction n as [i s|i d0 ks0 IH] using node_ind'; intros Hnd Hat; [reflexivity|].
  simpl. destruct (i =? sp) eqn:E.
  - destruct (at_sp_here i d0 ks0 Hat E) as [-> ->]. simpl.
    destruct (i =? c); [reflexivity|].
    now rewrite (fchain_notin c new Hc2), (fchain_notin c ks Hc1).
  - simpl. destruct (i =? c); [reflexivity|].
    replace (first_some (chain c) (List.map (retext sp new) ks0))
      with (first_some (chain c) ks0); [reflexivity|].
    symmetry.
    rewrite (first_some_map_in (chain c) (retext sp new) (fun v => v) (chain c)).
    + now destruct (first_some (chain c) ks0).
    + intros k Hk. rewrite Forall_forall in IH. rewrite IH; try assumption.
      * now destruct (chain c k).
      * destruct (NoDup_elem i d0 ks0 Hnd) as [_ Hnd']. now apply (NoDup_kid ks0).
      * now apply (at_sp_kid i d0 ks0).
Qed.

Lemma retext_notin (n : node) : ~ In sp (ids n) -> retext sp new n = n.
Proof.
  intros H. pose proof (rewrite_on_kids sp new n) as E.
  rewrite rewrite_notin in E by assumption. congruence.
Qed.

Lemma rewrite_const_retext (n : node) :
  NoDup (ids n) -> at_sp sp d ks n ->
  rewrite_node sp (fun _ => [Elem sp d new]) n = [retext sp new n].
Proof.
  intros Hnd Hat. destruct (in_dec Nat.eq_dec sp (ids n)) as [Hin|Hout].
  - destruct (find_node_in sp n Hin) as [m Hm]. pose proof (Hat m Hm) as ->.
    rewrite <- rewrite_on_kids.
    now rewrite (rewrite_const sp (on_kids (fun _ => new)) n (Elem sp d ks) Hnd Hm).
  - rewrite rewrite_notin by assumption. now rewrite retext_notin.
Qed.

Variable f : list node.
Hypothesis Hnd : NoDup (fids f).
Hypothesis Hsp : ffind sp f = Some (Elem sp d ks).
Hypothesis Hfresh : forall y, In y (fids new) -> ~ In y (fids f).

Lemma at_sp_root (k : node) : In k f -> at_sp sp d ks k.
Proof.
  intros Hk m Hm. pose proof (ffind_unique sp f k m Hnd Hk Hm) as H.
  rewrite Hsp in H. now inversion H.
Qed.

Lemma at_sp_found (z : nat) (m : node) : ffind z f = Some m -> at_sp sp d ks m.
Proof.
  intros Hz m' Hm'. pose proof (ffind_trans z sp f m m' Hnd Hz Hm') as H.
  rewrite Hsp in H. now inversion H.
Qed.

Lemma retext_const :
  List.map (retext sp new) f = frewrite sp (fun _ => [Elem sp d new]) f.
Proof.
  rewrite <- frewrite_on_kids.
  now rewrite (frewrite_const sp (on_kids (fun _ => new)) f (Elem sp d ks) Hnd Hsp).
Qed.

Lemma sp_in : In sp (fids f).
Proof. apply (ffind_sub sp f _ Hsp). now left. Qed.

Lemma ks_in (z : nat) : In z (fids ks) -> In z (fids f).
Proof. intros Hz. apply (ffind_sub sp f _ Hsp). now right. Qed.

Lemma sp_not_new : ~ In sp (fids new).
Proof. intros H. exact (Hfresh sp H sp_in). Qed.

Lemma sp_not_ks : ~ In sp (fids ks).
Proof.
  pose proof (NoDup_ffind sp f _ Hnd Hsp) as H. now apply NoDup_elem in H.
Qed.

Lemma view_retext (z : nat) :
  view z (List.map (retext sp new) f ++ ks) = view z f.
Proof.
  unfold view. rewrite ffind_app, retext_const.
  destruct (in_dec Nat.eq_dec z (sp :: fids ks ++ fids new)) as [Hin|Hout].
  - assert (~ In z (fskel sp f)) as Hsk.
    { destruct Hin as [<-|Hin]; [apply fskel_not_x|].
      apply in_app_or in Hin. destruct Hin as [Hin|Hin].
      - apply (fskel_disjoint sp z f _ Hnd Hsp). now right.
      - intros H. apply fskel_sub in H. exact (Hfresh z Hin H). }
    rewrite (ffind_frewrite sp z [Elem sp d new] f Hsk sp_in).
    destruct Hin as [<-|Hin].
    + rewrite Hsp. unfold ffind. simpl. rewrite Nat.eqb_refl.
      now rewrite (texts_no_elements _ Hks), (texts_no_elements _ Hnew).
    + assert (z <> sp) as Hne.
      { intros ->. apply in_app_or in Hin.
        destruct Hin; [now apply sp_not_ks|now apply sp_not_new]. }
      unfold ffind at 1. simpl. apply Nat.eqb_neq in Hne. rewrite Nat.eqb_sym, Hne.
      fold (ffind z new).
      assert (match match ffind z new with Some b => Some b | None => None end with
              | Some m => Some m | None => ffind z ks end
              = match ffind z new with Some m => Some m | None => ffind z ks end) as ->
          by now destruct (ffind z new).
      assert (forall o, (forall m, o = Some m -> is_text m = true) ->
                        match o with
                        | Some (Elem _ d0 ks0) => Some (d0, flat_map elements ks0)
                        | _ => None
                        end = None) as Hview.
      { intros [[|]|] H; try reflexivity. specialize (H _ eq_refl). discriminate. }
      rewrite Hview.
      * symmetry. apply Hview. intros m Hm.
        apply in_app_or in Hin. destruct Hin as [Hin|Hin].
        -- destruct (texts_in z ks Hks Hin) as [s Hs].
           pose proof (kid_found sp f d ks (Text z s) Hnd Hsp Hs) as H.
           simpl in H. rewrite H in Hm. now inversion Hm.
        -- rewrite (ffind_notin z f (Hfresh z Hin)) in Hm. discriminate.
      * intros m Hm. destruct (ffind z new) eqn:En.
        -- inversion Hm. subst. exact (texts_find z new m Hnew En).
        -- exact (texts_find z ks m Hks Hm).
  - assert (z <> sp) as Hne by (intros ->; apply Hout; now left).
    assert (~ In z (fids ks)) as Hk by (intros H; apply Hout; right; apply in_or_app; now left).
    assert (~ In z (fids new)) as Hn by (intros H; apply Hout; right; apply in_or_app; now right).
    assert (In z (fids f) -> In z (fskel sp f)) as Hsk.
    { intros Hz. destruct (inside_or_outside sp z f _ Hnd Hsp Hz) as [H|H]; [assumption|].
      destruct H as [H|H]; [now subst|tauto]. }
    assert (~ In z (fids [Elem sp d new])) as Hl.
    { simpl. rewrite app_nil_r. intros [H|H]; [now subst|tauto]. }
    rewrite (ffind_out sp z [Elem sp d new] f Hnd Hsk Hl).
    destruct (ffind z f) as [m|] eqn:Ez.
    + rewrite (rewrite_const_retext m (NoDup_ffind z f m Hnd Ez) (at_sp_found z m Ez)).
      simpl.
      pose proof (elements_retext m (NoDup_ffind z f m Hnd Ez) (at_sp_found z m Ez)) as He.
      apply ffind_id in Ez.
      destruct m as [i s|i d0 ks0]; [reflexivity|]. simpl in Ez. subst i.
      simpl in *. apply Nat.eqb_neq in Hne. rewrite Hne in *. simpl in He.
      now inversion He.
    + now rewrite (ffind_notin z ks Hk).
Qed.

Lemma data_of_retext (z : nat) :
  data_of z (List.map (retext sp new) f ++ ks) = data_of z f.
Proof. now rewrite !view_data, view_retext. Qed.

Lemma inner_retext (z : nat) :
  inner z (List.map (retext sp new) f ++ ks) = inner z f.
Proof. now rewrite !view_inner, view_retext. Qed.

Lemma stable_retext : stable f (List.map (retext sp new) f ++ ks).
Proof.
  constructor.
  - intros sel _. unfold doc_querySelectorAll. f_equal.
    rewrite filter_app.
    assert (filter is_document ks = []) as ->.
    { clear - Hks. induction ks as [|[i s|] l IH]; simpl in *; [reflexivity|auto|discriminate]. }
    rewrite app_nil_r.
    rewrite filter_map_comm by apply retext_is_document.
    apply flat_map_map_same. intros k Hk. apply filter_In in Hk. destruct Hk as [Hk _].
    apply descendants_retext; [now apply (NoDup_kid f)|now apply at_sp_root].
  - intros sel _. unfold all_elements. f_equal.
    rewrite flat_map_app, (texts_no_elements _ Hks), app_nil_r.
    apply flat_map_map_same. intros k Hk.
    apply elements_retext; [now apply (NoDup_kid f)|now apply at_sp_root].
  - intros z sel _. now rewrite inner_retext.
  - intros z Hz. now rewrite inner_retext.
  - intros c sel _ Hc. unfold closest. f_equal. f_equal.
    assert (~ In c (fids ks)) as Hc1.
    { intros H. destruct (texts_in c ks Hks H) as [s Hs].
      pose proof (kid_found sp f d ks (Text c s) Hnd Hsp Hs) as Hf.
      unfold data_of in Hc. simpl in Hf. rewrite Hf in Hc. discriminate. }
    assert (~ In c (fids new)) as Hc2.
    { intros H. unfold data_of in Hc. rewrite (ffind_notin c f (Hfresh c H)) in Hc.
      discriminate. }
    unfold fchain. rewrite first_some_app.
    rewrite (first_some_map_in (chain c) (retext sp new) (fun v => v) (chain c)).
    + destruct (first_some (chain c) f); simpl; [reflexivity|].
      now rewrite (fchain_notin c ks Hc1).
    + intros k Hk. rewrite chain_retext; try assumption.
      * now destruct (chain c k).
      * now apply (NoDup_kid f).
      * now apply at_sp_root.
  - intros z. now rewrite data_of_retext.
Qed.

Lemma NoDup_retext :
  NoDup (fids new) -> NoDup (fids (List.map (retext sp new) f ++ ks)).
Proof.
  intros Hn. rewrite retext_const. unfold fids. rewrite flat_map_app.
  fold (fids (frewrite sp (fun _ => [Elem sp d new]) f)). fold (fids ks).
  assert (NoDup (fids ks)) as Hk.
  { pose proof (NoDup_ffind sp f _ Hnd Hsp) as H. now apply NoDup_elem in H. }
  assert (NoDup (fids (frewrite sp (fun _ => [Elem sp d new]) f))) as Ha.
  { apply NoDup_frewrite; [assumption| |].
    - simpl. rewrite app_nil_r. constructor; [apply sp_not_new|assumption].
    - simpl. rewrite app_nil_r. intros y [<-|Hy]; [apply fskel_not_x|].
      intros H. apply fskel_sub in H. exact (Hfresh y Hy H). }
  apply NoDup_app; [assumption|assumption|].
  intros y Hy Hy'. apply fids_frewrite in Hy. destruct Hy as [Hy|[_ Hy]].
  - apply (fskel_disjoint sp y f _ Hnd Hsp) in Hy; [assumption|now right].
  - simpl in Hy. rewrite app_nil_r in Hy. destruct Hy as [<-|Hy].
    + now apply sp_not_ks.
    + exact (Hfresh y Hy (ks_in y Hy')).
Qed.

Lemma fids_retext (y : nat) :
  In y (fids (List.map (retext sp new) f ++ ks)) -> In y (fids f) \/ In y (fids new).
Proof.
  rewrite retext_const. unfold fids. rewrite flat_map_app. intros H.
  apply in_app_or in H. destruct H as [H|H].
  - apply fids_frewrite in H. destruct H as [H|[_ H]].
    + left. exact (fskel_sub sp f y H).
    + simpl in H. rewrite app_nil_r in H. destruct H as [<-|H]; [left; apply sp_in|now right].
  - left. now apply ks_in.
Qed.

Lemma ffind_retext :
  ffind sp (List.map (retext sp new) f ++ ks) = Some (Elem sp d new).
Proof.
  rewrite ffind_app, retext_const.
  rewrite (ffind_frewrite sp sp [Elem sp d new] f (fskel_not_x sp f) sp_in).
  unfold ffind. simpl. now rewrite Nat.eqb_refl.
Qed.

Lemma textContent_retext :
  textContent sp (List.map (retext sp new) f ++ ks) = flat_map text_of new.
Proof. unfold textContent. now rewrite ffind_retext. Qed.

End Retext.

(* ================================================================== *)
(** * The state of content regions and toggles *)

Lemma querySelector_inner (w : nat) (sel : selector) (f : list node) :
  querySelector w sel f = hd_error (select sel (inner w f)).
Proof. unfold querySelector, inner. now destruct (ffind w f). Qed.

Lemma stable_querySelector (f f' : list node) (w : nat) (sel : selector) :
  stable f f' -> plain_sel sel = true -> querySelector w sel f' = querySelector w sel f.
Proof. intros H Hp. rewrite !querySelector_inner. now rewrite (st_inner _ _ H). Qed.

Lemma stable_parts (f f' : list node) (w : nat) : stable f f' -> parts w f' = parts w f.
Proof.
  intros H. unfold parts. now rewrite !(stable_querySelector f f' w _ H) by reflexivity.
Qed.

Lemma stable_getElementById (f f' : list node) (i : string) :
  stable f f' -> getElementById i f' = getElementById i f.
Proof.
  intros H. unfold getElementById, doc_querySelector. now rewrite (st_doc _ _ H).
Qed.

Lemma quiet_token (c : bool) : quiet (set_classes (token c)).
Proof. destruct c; [apply quiet_add|apply quiet_remove]. Qed.

Lemma token_sets (c : bool) (l : list string) : str_mem "collapsed" (token c l) = c.
Proof. destruct c; [apply str_mem_add_same|apply str_mem_remove_same]. Qed.

Lemma collapsed_class (c : bool) (i z : nat) (f : list node) :
  NoDup (fids f) ->
  collapsed i (frewrite z (on_data (set_classes (token c))) f)
  = if (i =? z) && is_some (data_of z f) then c else collapsed i f.
Proof.
  intros Hnd. unfold collapsed, classList_contains. rewrite data_of_update by assumption.
  destruct (i =? z) eqn:E; simpl; [|reflexivity].
  apply Nat.eqb_eq in E. subst i. destruct (data_of z f); simpl; [|reflexivity].
  apply token_sets.
Qed.

Lemma aria_class (g : list string -> list string) (i z : nat) (f : list node) :
  NoDup (fids f) -> aria i (frewrite z (on_data (set_classes g)) f) = aria i f.
Proof.
  intros Hnd. unfold aria, getAttribute. rewrite data_of_update by assumption.
  destruct (i =? z); [|reflexivity]. now destruct (data_of i f).
Qed.

Lemma collapsed_attr (k v : string) (i z : nat) (f : list node) :
  NoDup (fids f) -> collapsed i (frewrite z (on_data (set_attr k v)) f) = collapsed i f.
Proof.
  intros Hnd. unfold collapsed, classList_contains. rewrite data_of_update by assumption.
  destruct (i =? z); [|reflexivity]. now destruct (data_of i f).
Qed.

Lemma aria_attr (v : string) (i z : nat) (f : list node) :
  NoDup (fids f) ->
  aria i (frewrite z (on_data (set_attr "aria-expanded" v)) f)
  = if (i =? z) && is_some (data_of z f) then Some v else aria i f.
Proof.
  intros Hnd. unfold aria, getAttribute. rewrite data_of_update by assumption.
  destruct (i =? z) eqn:E; simpl; [|reflexivity].
  apply Nat.eqb_eq in E. subst i. destruct (data_of z f); simpl; [|reflexivity].
  apply assoc_put_same.
Qed.

Lemma collapsed_style (k v : string) (i z : nat) (f : list node) :
  NoDup (fids f) -> collapsed i (frewrite z (on_data (set_style k v)) f) = collapsed i f.
Proof.
  intros Hnd. unfold collapsed, classList_contains. rewrite data_of_update by assumption.
  destruct (i =? z); [|reflexivity]. now destruct (data_of i f).
Qed.

Lemma aria_style (k v : string) (i z : nat) (f : list node) :
  NoDup (fids f) -> aria i (frewrite z (on_data (set_style k v)) f) = aria i f.
Proof.
  intros Hnd. unfold aria, getAttribute. rewrite data_of_update by assumption.
  destruct (i =? z); [|reflexivity]. now destruct (data_of i f).
Qed.

Lemma is_some_update (y z : nat) (g : edata -> edata) (f : list node) :
  NoDup (fids f) ->
  is_some (data_of z (frewrite y (on_data g) f)) = is_some (data_of z f).
Proof.
  intros Hnd. rewrite data_of_update by assumption.
  destruct (z =? y); [|reflexivity]. now destruct (data_of z f).
Qed.

Lemma fids_set_state (c : bool) (ct t : nat) (f : list node) :
  NoDup (fids f) -> fids (set_state c ct t f) = fids f.
Proof.
  intros Hnd. unfold set_state.
  assert (NoDup (fids (frewrite ct (on_data (set_classes (token c))) f))) as H1
      by now rewrite fids_update.
  assert (NoDup (fids (frewrite t (on_data (set_classes (token c)))
                         (frewrite ct (on_data (set_classes (token c))) f)))) as H2
      by now rewrite fids_update.
  now rewrite !fids_update by assumption.
Qed.

Lemma stable_set_state (c : bool) (ct t : nat) (f : list node) :
  NoDup (fids f) -> stable f (set_state c ct t f).
Proof.
  intros Hnd. unfold set_state.
  assert (NoDup (fids (frewrite ct (on_data (set_classes (token c))) f))) as H1
      by now rewrite fids_update.
  assert (NoDup (fids (frewrite t (on_data (set_classes (token c)))
                         (frewrite ct (on_data (set_classes (token c))) f)))) as H2
      by now rewrite fids_update.
  eapply stable_trans; [|apply stable_update; [exact H2|apply quiet_aria]].
  eapply stable_trans; [|apply stable_update; [exact H1|apply quiet_token]].
  apply stable_update; [assumption|apply quiet_token].
Qed.

Lemma collapsed_set_state (c : bool) (ct t i : nat) (f : list node) :
  NoDup (fids f) -> is_some (data_of ct f) = true -> is_some (data_of t f) = true ->
  collapsed i (set_state c ct t f) = if (i =? ct) || (i =? t) then c else collapsed i f.
Proof.
  intros Hnd Hct Ht. unfold set_state.
  assert (NoDup (fids (frewrite ct (on_data (set_classes (token c))) f))) as H1
      by now rewrite fids_update.
  assert (NoDup (fids (frewrite t (on_data (set_classes (token c)))
                         (frewrite ct (on_data (set_classes (token c))) f)))) as H2
      by now rewrite fids_update.
  rewrite collapsed_attr by assumption.
  rewrite collapsed_class by assumption.
  rewrite is_some_update by assumption. rewrite Ht, andb_true_r.
  rewrite collapsed_class by assumption. rewrite Hct, andb_true_r.
  destruct (i =? t); [now rewrite orb_true_r|]. now rewrite orb_false_r.
Qed.

Lemma aria_set_state (c : bool) (ct t i : nat) (f : list node) :
  NoDup (fids f) -> is_some (data_of t f) = true ->
  aria i (set_state c ct t f) = if i =? t then Some (aria_of c) else aria i f.
Proof.
  intros Hnd Ht. unfold set_state.
  assert (NoDup (fids (frewrite ct (on_data (set_classes (token c))) f))) as H1
      by now rewrite fids_update.
  assert (NoDup (fids (frewrite t (on_data (set_classes (token c)))
                         (frewrite ct (on_data (set_classes (token c))) f)))) as H2
      by now rewrite fids_update.
  rewrite aria_attr by assumption.
  rewrite !is_some_update by assumption. rewrite Ht, andb_true_r.
  now rewrite !aria_class by assumption.
Qed.

(** The branch both handlers take for the state [c]. *)
Lemma run_set_state (c : bool) (ct t : nat) (p : page) :
  (if c then
     classList_add ct "collapsed" ;;
     classList_add t "collapsed" ;;
     setAttribute t "aria-expanded" "false"
   else
     classList_remove ct "collapsed" ;;
     classList_remove t "collapsed" ;;
     setAttribute t "aria-expanded" "true") p
  = Ok tt (with_roots (set_state c ct t) p).
Proof. now destruct c. Qed.

(** A selected element is an element. *)
Lemma selected_element (w z : nat) (sel : selector) (f : list node) :
  NoDup (fids f) -> querySelector w sel f = Some z -> is_some (data_of z f) = true.
Proof.
  intros Hnd H. unfold querySelector in H. destruct (ffind w f) as [n|] eqn:E; [|discriminate].
  apply hd_error_in, select_in in H. destruct H as [d [H _]].
  apply descendants_sub in H.
  destruct (elements_find z d n (NoDup_ffind w f n Hnd E) H) as [ks Hk].
  unfold data_of. now rewrite (ffind_trans w z f n _ Hnd E Hk).
Qed.

(* ================================================================== *)
(** * The global toggle *)

Lemma run_get r n l (a : bool) :
  get_isAllCollapsed (mkPage r n l a) = Ok a (mkPage r n l a).
Proof. reflexivity. Qed.

Lemma run_set (b : bool) r n l (a : bool) :
  set_isAllCollapsed b (mkPage r n l a) = Ok tt (mkPage r n l b).
Proof. reflexivity. Qed.

Lemma run_wrapper_body (w : nat) r n l (a : bool) :
  (content <- read (querySelector w sel_content) ;;
   toggle <- read (querySelector w sel_toggle) ;;
   match content, toggle with
   | Some content, Some toggle =>
       collapsed <- get_isAllCollapsed ;;
       if collapsed then
         classList_add content "collapsed" ;;
         classList_add toggle "collapsed" ;;
         setAttribute toggle "aria-expanded" "false"
       else
         classList_remove content "collapsed" ;;
         classList_remove toggle "collapsed" ;;
         setAttribute toggle "aria-expanded" "true"
   | _, _ => ret tt
   end) (mkPage r n l a)
  = Ok tt (mkPage (match parts w r with
                   | (Some ct, Some t) => set_state a ct t r
                   | _ => r
                   end) n l a).
Proof.
  unfold bind at 1. rewrite run_read. unfold bind at 1. rewrite run_read.
  unfold parts.
  destruct (querySelector w sel_content r) as [ct|]; [|reflexivity].
  destruct (querySelector w sel_toggle r) as [t|]; [|reflexivity].
  unfold bind at 1. rewrite run_get.
  now rewrite run_set_state.
Qed.

Lemma targets_stable (ws : list nat) (f f' : list node) :
  stable f f' -> targets ws f' = targets ws f.
Proof.
  intros H. unfold targets, both. apply flat_map_ext. intros w.
  now rewrite (stable_parts f f' w H).
Qed.

Lemma targets_cons (w : nat) (ws : list nat) (f : list node) :
  targets (w :: ws) f = both w f ++ targets ws f.
Proof. reflexivity. Qed.

Lemma touched_cons (i ct t : nat) (T : list (nat * nat)) :
  touched i ((ct, t) :: T) = (i =? ct) || (i =? t) || touched i T.
Proof. reflexivity. Qed.

Lemma toggled_cons (i ct t : nat) (T : list (nat * nat)) :
  toggled i ((ct, t) :: T) = (i =? t) || toggled i T.
Proof. reflexivity. Qed.

Lemma run_wrappers (ws : list nat) n l (a : bool) (r : list node) :
  NoDup (fids r) ->
  exists r',
    forEach ws (fun wrapper =>
      content <- read (querySelector wrapper sel_content) ;;
      toggle <- read (querySelector wrapper sel_toggle) ;;
      match content, toggle with
      | Some content, Some toggle =>
          collapsed <- get_isAllCollapsed ;;
          if collapsed then
            classList_add content "collapsed" ;;
            classList_add toggle "collapsed" ;;
            setAttribute toggle "aria-expanded" "false"
          else
            classList_remove content "collapsed" ;;
            classList_remove toggle "collapsed" ;;
            setAttribute toggle "aria-expanded" "true"
      | _, _ => ret tt
      end) (mkPage r n l a) = Ok tt (mkPage r' n l a)
    /\ stable r r' /\ fids r' = fids r
    /\ (forall i, collapsed i r' = if touched i (targets ws r) then a else collapsed i r)
    /\ (forall i, aria i r'
                  = if toggled i (targets ws r) then Some (aria_of a) else aria i r).
Proof.
  revert r. induction ws as [|w ws IH]; intros r Hnd.
  - exists r. split; [reflexivity|]. split; [apply stable_refl|]. now repeat split.
  - cbn [forEach]. unfold bind at 1. rewrite run_wrapper_body.
    destruct (parts w r) as [[ct|] [t|]] eqn:Ep;
      try (destruct (IH r Hnd) as [r' [H1 [H2 [H3 [H4 H5]]]]];
           exists r'; rewrite targets_cons; unfold both; rewrite Ep; cbn [app];
           exact (conj H1 (conj H2 (conj H3 (conj H4 H5))))).
    assert (is_some (data_of ct r) = true) as Hct.
    { unfold parts in Ep. inversion Ep as [[E1 E2]].
      exact (selected_element w ct sel_content r Hnd E1). }
    assert (is_some (data_of t r) = true) as Ht.
    { unfold parts in Ep. inversion Ep as [[E1 E2]].
      exact (selected_element w t sel_toggle r Hnd E2). }
    pose proof (stable_set_state a ct t r Hnd) as Hst.
    pose proof (fids_set_state a ct t r Hnd) as Hfi.
    assert (NoDup (fids (set_state a ct t r))) as Hnd1 by now rewrite Hfi.
    destruct (IH _ Hnd1) as [r' [H1 [H2 [H3 [H4 H5]]]]].
    rewrite (targets_stable ws _ _ Hst) in H4, H5.
    exists r'. split; [exact H1|]. split; [exact (stable_trans _ _ _ Hst H2)|].
    split; [now rewrite H3|].
    rewrite targets_cons. unfold both. rewrite Ep. cbn [app].
    split; intros i.
    + rewrite H4, (collapsed_set_state a ct t i r Hnd Hct Ht), touched_cons.
      destruct (touched i (targets ws r)); [now rewrite orb_true_r|].
      now rewrite orb_false_r.
    + rewrite H5, (aria_set_state a ct t i r Hnd Ht), toggled_cons.
      destruct (toggled i (targets ws r)); [now rewrite orb_true_r|].
      now rewrite orb_false_r.
Qed.

Lemma textContent_update (y z : nat) (g : edata -> edata) (f : list node) :
  NoDup (fids f) -> textContent z (frewrite y (on_data g) f) = textContent z f.
Proof.
  intros Hnd. unfold textContent. rewrite frewrite_on_data, ffind_relabel by assumption.
  destruct (ffind z f); [apply text_of_relabel|reflexivity].
Qed.

Lemma data_of_element (z : nat) (f : list node) :
  is_some (data_of z f) = true -> exists d ks, ffind z f = Some (Elem z d ks).
Proof.
  unfold data_of. destruct (ffind z f) as [[|i d ks]|] eqn:E; try discriminate.
  intros _. apply ffind_id in E. simpl in E. subst i. now exists d, ks.
Qed.

Lemma collapsed_data (f f' : list node) :
  (forall i, data_of i f' = data_of i f) -> forall i, collapsed i f' = collapsed i f.
Proof. intros H i. unfold collapsed, classList_contains. now rewrite H. Qed.

Lemma aria_data (f f' : list node) :
  (forall i, data_of i f' = data_of i f) -> forall i, aria i f' = aria i f.
Proof. intros H i. unfold aria, getAttribute. now rewrite H. Qed.

(** [span.textContent = txt] for a label that holds text only. *)
Lemma run_span (span : option nat) (txt : jstr) r n l (c : bool) :
  txt <> [] -> NoDup (fids r) -> (forall i, In i (fids r) -> i < n) ->
  (forall sp, span = Some sp -> is_some (data_of sp r) = true /\ inner sp r = []) ->
  exists r' n',
    when_some span (fun span => set_textContent span txt) (mkPage r n l c)
    = Ok tt (mkPage r' n' l c)
    /\ NoDup (fids r') /\ (forall i, In i (fids r') -> i < n')
    /\ stable r r' /\ (forall i, data_of i r' = data_of i r)
    /\ (forall sp, span = Some sp -> textContent sp r' = txt).
Proof.
  intros Htxt Hnd Hlt Hspan. destruct span as [sp|]; simpl.
  - destruct (Hspan sp eq_refl) as [He Hin].
    destruct (data_of_element sp r He) as [d [ks Hf]].
    assert (forallb is_text ks = true) as Hks.
    { apply no_elements_texts. unfold inner in Hin. now rewrite Hf in Hin. }
    destruct txt as [|c0 s0]; [congruence|].
    exists (List.map (retext sp [Text n (c0 :: s0)]) r ++ ks), (S n).
    assert (forall y, In y (fids [Text n (c0 :: s0)]) -> ~ In y (fids r)) as Hfresh.
    { simpl. intros y [<-|[]] H. apply Hlt in H. lia. }
    split.
    { unfold set_textContent. cbn [roots next_id listeners isAllCollapsed].
      rewrite frewrite_on_kids. unfold old_kids. now rewrite Hf. }
    split; [apply (NoDup_retext sp d); try assumption; simpl;
            constructor; [tauto|constructor]|].
    split.
    { intros i Hi. apply (fids_retext sp d ks _ r Hnd Hf) in Hi.
      destruct Hi as [Hi|Hi]; [apply Hlt in Hi; lia|].
      simpl in Hi. destruct Hi as [<-|[]]. lia. }
    split; [now apply (stable_retext sp d)|].
    split; [intros i; now apply (data_of_retext sp d)|].
    intros sp' E. inversion E. subst sp'.
    rewrite (textContent_retext sp d ks _ r Hnd Hf). simpl. now rewrite app_nil_r.
  - exists r, n. split; [reflexivity|]. split; [assumption|]. split; [assumption|].
    split; [apply stable_refl|]. split; [reflexivity|]. intros sp E. discriminate.
Qed.

(** [svg.style.transform = v] *)
Lemma run_svg (svg : option nat) (v : string) r n l (c : bool) :
  NoDup (fids r) ->
  exists r',
    when_some svg (fun svg => style_set svg "transform" v) (mkPage r n l c)
    = Ok tt (mkPage r' n l c)
    /\ fids r' = fids r /\ stable r r'
    /\ (forall i, collapsed i r' = collapsed i r)
    /\ (forall i, aria i r' = aria i r)
    /\ (forall z, textContent z r' = textContent z r)
    /\ (forall sv, svg = Some sv -> is_some (data_of sv r) = true ->
                   style_of sv "transform" r' = Some v).
Proof.
  intros Hnd. destruct svg as [sv|]; simpl.
  - exists (frewrite sv (on_data (set_style "transform" v)) r).
    split; [reflexivity|]. split; [now apply fids_update|].
    split; [apply stable_update; [assumption|apply quiet_style]|].
    split; [intros i; now apply collapsed_style|].
    split; [intros i; now apply aria_style|].
    split; [intros z; now apply textContent_update|].
    intros sv' E He. inversion E. subst sv'. unfold style_of.
    rewrite data_of_update, Nat.eqb_refl by assumption.
    destruct (data_of sv r); [|discriminate]. simpl. apply assoc_put_same.
  - exists r. split; [reflexivity|]. split; [reflexivity|]. split; [apply stable_refl|].
    repeat split. intros sv E. discriminate.
Qed.

Lemma label_of_cons (c : bool) : label_of c <> [].
Proof. destruct c; discriminate. Qed.

Lemma plain_label_span (f : list node) (b sp : nat) :
  plain_label f = true -> getElementById "collapse-all-btn" f = Some b ->
  querySelector b sel_span f = Some sp -> inner sp f = [].
Proof.
  unfold plain_label. intros H Hb Hs. rewrite Hb, Hs in H.
  now destruct (inner sp f).
Qed.

Lemma stable_plain_label (f f' : list node) :
  stable f f' -> plain_label f = true -> plain_label f' = true.
Proof.
  intros H. unfold plain_label.
  rewrite (stable_getElementById f f' _ H).
  destruct (getElementById "collapse-all-btn" f) as [b|]; [|reflexivity].
  rewrite (stable_querySelector f f' b sel_span H eq_refl).
  destruct (querySelector b sel_span f) as [sp|]; [|reflexivity].
  destruct (inner sp f) eqn:E; [|discriminate]. intros _.
  now rewrite (st_leaf _ _ H sp E).
Qed.

(** One activation of the global toggle. *)
Lemma toggleAll_run r n l (a : bool) :
  NoDup (fids r) -> (forall i, In i (fids r) -> i < n) -> plain_label r = true ->
  exists r' n',
    toggleAllMessages (mkPage r n l a) = Ok tt (mkPage r' n' l (negb a))
    /\ NoDup (fids r') /\ (forall i, In i (fids r') -> i < n')
    /\ stable r r'
    /\ (forall i, collapsed i r'
                  = if touched i (targets (doc_querySelectorAll sel_wrapper r) r)
                    then negb a else collapsed i r)
    /\ (forall i, aria i r'
                  = if toggled i (targets (doc_querySelectorAll sel_wrapper r) r)
                    then Some (aria_of (negb a)) else aria i r)
    /\ (forall b sp, getElementById "collapse-all-btn" r = Some b ->
                     querySelector b sel_span r = Some sp ->
                     textContent sp r' = label_of (negb a))
    /\ (forall b sv, getElementById "collapse-all-btn" r = Some b ->
                     querySelector b sel_svg r = Some sv ->
                     style_of sv "transform" r' = Some (icon_of (negb a))).
Proof.
  intros Hnd Hlt Hpl. unfold toggleAllMessages.
  unfold bind at 1. rewrite run_read. unfold bind at 1. rewrite run_read.
  unfold bind at 1. rewrite run_get.
  unfold bind at 1. rewrite run_set.
  unfold bind at 1.
  destruct (run_wrappers (doc_querySelectorAll sel_wrapper r) n l (negb a) r Hnd)
    as [r1 [H1 [Hst1 [Hfi1 [Hc1 Ha1]]]]].
  rewrite H1. clear H1.
  assert (NoDup (fids r1)) as Hnd1 by now rewrite Hfi1.
  assert (forall i, In i (fids r1) -> i < n) as Hlt1 by (rewrite Hfi1; exact Hlt).
  destruct (getElementById "collapse-all-btn" r) as [b|] eqn:Eb.
  - cbn [when_some]. unfold bind at 1. rewrite run_read. unfold bind at 1. rewrite run_read.
    unfold bind at 1. rewrite run_get.
    rewrite (stable_querySelector r r1 b sel_span Hst1 eq_refl).
    rewrite (stable_querySelector r r1 b sel_svg Hst1 eq_refl).
    fold (label_of (negb a)). fold (icon_of (negb a)).
    destruct (run_span (querySelector b sel_span r) (label_of (negb a)) r1 n l (negb a)
                (label_of_cons _) Hnd1 Hlt1) as [r2 [n2 [H2 [Hnd2 [Hlt2 [Hst2 [Hd2 Ht2]]]]]]].
    { intros sp Hs. split.
      - rewrite (st_elem _ _ Hst1). exact (selected_element b sp sel_span r Hnd Hs).
      - apply (st_leaf _ _ Hst1). exact (plain_label_span r b sp Hpl Eb Hs). }
    unfold bind at 1. rewrite H2. clear H2.
    destruct (run_svg (querySelector b sel_svg r) (icon_of (negb a)) r2 n2 l (negb a) Hnd2)
      as [r3 [H3 [Hfi3 [Hst3 [Hc3 [Ha3 [Ht3 Hs3]]]]]]].
    rewrite H3. clear H3.
    exists r3, n2. split; [reflexivity|].
    split; [now rewrite Hfi3|]. split; [now rewrite Hfi3|].
    split; [exact (stable_trans _ _ _ Hst1 (stable_trans _ _ _ Hst2 Hst3))|].
    split; [intros i; now rewrite Hc3, (collapsed_data _ _ Hd2), Hc1|].
    split; [intros i; now rewrite Ha3, (aria_data _ _ Hd2), Ha1|].
    split.
    + intros b' sp E Hs. inversion E. subst b'. rewrite Ht3. now apply Ht2.
    + intros b' sv E Hs. inversion E. subst b'. apply Hs3; [assumption|].
      rewrite (st_elem _ _ Hst2), (st_elem _ _ Hst1).
      exact (selected_element b sv sel_svg r Hnd Hs).
  - cbn [when_some]. exists r1, n. split; [reflexivity|].
    split; [assumption|]. split; [assumption|]. split; [assumption|].
    split; [assumption|]. split; [assumption|].
    split; intros b' z E; discriminate.
Qed.

(* ================================================================== *)
(** * Parity of the global toggle *)

Lemma in_targets (ws : list nat) (f : list node) (w ct t : nat) :
  In w ws -> parts w f = (Some ct, Some t) -> In (ct, t) (targets ws f).
Proof.
  intros Hw Hp. unfold targets. apply in_flat_map. exists w. split; [assumption|].
  unfold both. rewrite Hp. now left.
Qed.

Lemma touched_in (T : list (nat * nat)) (ct t : nat) :
  In (ct, t) T -> touched ct T = true /\ touched t T = true /\ toggled t T = true.
Proof.
  intros H. unfold touched, toggled. repeat split; apply existsb_exists;
    exists (ct, t); (split; [assumption|]); simpl; rewrite Nat.eqb_refl;
    try reflexivity; now rewrite ?orb_true_r.
Qed.

Lemma stable_doc_targets (f f' : list node) :
  stable f f' ->
  targets (doc_querySelectorAll sel_wrapper f') f'
  = targets (doc_querySelectorAll sel_wrapper f) f.
Proof.
  intros H. rewrite (st_doc _ _ H) by reflexivity. now apply targets_stable.
Qed.

Lemma activations_run (N : nat) :
  forall r n l (a : bool),
    NoDup (fids r) -> (forall i, In i (fids r) -> i < n) -> plain_label r = true ->
    exists r' n',
      activations N (mkPage r n l a) = Ok tt (mkPage r' n' l (xorb a (Nat.odd N)))
      /\ stable r r'
      /\ (N = 0 -> r' = r)
      /\ (0 < N ->
          (forall i, touched i (targets (doc_querySelectorAll sel_wrapper r) r) = true ->
                     collapsed i r' = xorb a (Nat.odd N))
          /\ (forall i, toggled i (targets (doc_querySelectorAll sel_wrapper r) r) = true ->
                        aria i r' = Some (aria_of (xorb a (Nat.odd N))))
          /\ (forall b sp, getElementById "collapse-all-btn" r = Some b ->
                           querySelector b sel_span r = Some sp ->
                           textContent sp r' = label_of (xorb a (Nat.odd N)))
          /\ (forall b sv, getElementById "collapse-all-btn" r = Some b ->
                           querySelector b sel_svg r = Some sv ->
                           style_of sv "transform" r' = Some (icon_of (xorb a (Nat.odd N))))).
Proof.
  induction N as [|k IH]; intros r n l a Hnd Hlt Hpl.
  - exists r, n. simpl. rewrite xorb_false_r. split; [reflexivity|].
    split; [apply stable_refl|]. split; [reflexivity|]. intros H. lia.
  - destruct (toggleAll_run r n l a Hnd Hlt Hpl)
      as [r1 [n1 [H1 [Hnd1 [Hlt1 [Hst1 [Hc1 [Ha1 [Ht1 Hs1]]]]]]]]].
    destruct (IH r1 n1 l (negb a) Hnd1 Hlt1 (stable_plain_label r r1 Hst1 Hpl))
      as [r2 [n2 [H2 [Hst2 [Hz2 Hp2]]]]].
    assert (xorb (negb a) (Nat.odd k) = xorb a (Nat.odd (S k))) as Hx.
    { rewrite Nat.odd_succ, <- Nat.negb_odd. now destruct a, (Nat.odd k). }
    rewrite Hx in *.
    exists r2, n2. split.
    { cbn [activations]. unfold bind at 1. now rewrite H1. }
    split; [exact (stable_trans _ _ _ Hst1 Hst2)|].
    split; [discriminate|]. intros _.
    destruct k as [|k'].
    + rewrite (Hz2 eq_refl). simpl in Hx. rewrite xorb_false_r in Hx. rewrite <- Hx.
      split; [intros i Hi; now rewrite Hc1, Hi|].
      split; [intros i Hi; now rewrite Ha1, Hi|]. now split.
    + destruct (Hp2 (Nat.lt_0_succ k')) as [Hc2 [Ha2 [Ht2 Hs2]]].
      rewrite (stable_doc_targets r r1 Hst1) in Hc2, Ha2.
      split; [assumption|]. split; [assumption|].
      split.
      * intros b sp Hb Hs. apply (Ht2 b sp).
        -- now rewrite (stable_getElementById r r1 _ Hst1).
        -- now rewrite (stable_querySelector r r1 b sel_span Hst1 eq_refl).
      * intros b sv Hb Hs. apply (Hs2 b sv).
        -- now rewrite (stable_getElementById r r1 _ Hst1).
        -- now rewrite (stable_querySelector r r1 b sel_svg Hst1 eq_refl).
Qed.

(** C4: from the initial aggregate state and wrappers as the transform
    leaves them, [N] activations of the global toggle return; the aggregate
    state is then "collapsed" exactly when [N] is odd, the document has the
    wrappers it had, and every wrapper with a content region and a toggle
    has both marked collapsed, and [aria-expanded] "false", exactly when [N]
    is odd; after one activation or more the button's label reads
    "Expand All" and its icon is turned exactly when [N] is odd. *)
Theorem global_toggle_parity (p : page) (N : nat) :
  wf p -> plain_label (roots p) = true ->
  isAllCollapsed p = false -> all_expanded (roots p) = true ->
  exists p',
    activations N p = Ok tt p'
    /\ isAllCollapsed p' = Nat.odd N
    /\ doc_querySelectorAll sel_wrapper (roots p')
       = doc_querySelectorAll sel_wrapper (roots p)
    /\ (forall w ct t,
          In w (doc_querySelectorAll sel_wrapper (roots p)) ->
          parts w (roots p) = (Some ct, Some t) ->
          parts w (roots p') = (Some ct, Some t)
          /\ collapsed ct (roots p') = Nat.odd N
          /\ collapsed t (roots p') = Nat.odd N
          /\ aria t (roots p') = Some (aria_of (Nat.odd N)))
    /\ (0 < N ->
        forall b, getElementById "collapse-all-btn" (roots p) = Some b ->
          (forall sp, querySelector b sel_span (roots p) = Some sp ->
                      textContent sp (roots p') = label_of (Nat.odd N))
          /\ (forall sv, querySelector b sel_svg (roots p) = Some sv ->
                         style_of sv "transform" (roots p') = Some (icon_of (Nat.odd N)))).
Proof.
  destruct p as [r n l a]. cbn [roots isAllCollapsed]. intros [Hnd Hlt] Hpl -> Hex.
  cbn [roots next_id] in Hnd, Hlt.
  destruct (activations_run N r n l false Hnd Hlt Hpl) as [r' [n' [H [Hst [Hz Hp]]]]].
  rewrite xorb_false_l in *.
  exists (mkPage r' n' l (Nat.odd N)). cbn [roots isAllCollapsed].
  split; [assumption|]. split; [reflexivity|].
  split; [now rewrite (st_doc _ _ Hst)|].
  split.
  - intros w ct t Hw Hparts. split; [now rewrite (stable_parts r r' w Hst)|].
    destruct N as [|k].
    + rewrite (Hz eq_refl). cbn [Nat.odd Nat.even negb aria_of].
      unfold all_expanded in Hex. rewrite forallb_forall in Hex.
      specialize (Hex w Hw). rewrite Hparts in Hex.
      apply andb_true_iff in Hex. destruct Hex as [Hex H3].
      apply andb_true_iff in Hex. destruct Hex as [H1 H2].
      apply negb_true_iff in H1, H2.
      split; [assumption|]. split; [assumption|].
      unfold opt_is in H3. destruct (aria t r); [|discriminate].
      apply String.eqb_eq in H3. now subst.
    + destruct (Hp (Nat.lt_0_succ k)) as [Hc [Ha _]].
      destruct (touched_in _ ct t (in_targets _ r w ct t Hw Hparts)) as [T1 [T2 T3]].
      split; [now apply Hc|]. split; [now apply Hc|]. now apply Ha.
  - intros HN b Hb. destruct (Hp HN) as [_ [_ [Ht Hs]]].
    split; [intros sp; now apply Ht|intros sv; now apply Hs].
Qed.

Lemma global_toggle_parity_witness :
  exists p',
    activations 3 scanned_page = Ok tt p'
    /\ isAllCollapsed p' = Nat.odd 3
    /\ doc_querySelectorAll sel_wrapper (roots p')
       = doc_querySelectorAll sel_wrapper (roots scanned_page)
    /\ (forall w ct t,
          In w (doc_querySelectorAll sel_wrapper (roots scanned_page)) ->
          parts w (roots scanned_page) = (Some ct, Some t) ->
          parts w (roots p') = (Some ct, Some t)
          /\ collapsed ct (roots p') = Nat.odd 3
          /\ collapsed t (roots p') = Nat.odd 3
          /\ aria t (roots p') = Some (aria_of (Nat.odd 3)))
    /\ (0 < 3 ->
        forall b, getElementById "collapse-all-btn" (roots scanned_page) = Some b ->
          (forall sp, querySelector b sel_span (roots scanned_page) = Some sp ->
                      textContent sp (roots p') = label_of (Nat.odd 3))
          /\ (forall sv, querySelector b sel_svg (roots scanned_page) = Some sv ->
                         style_of sv "transform" (roots p') = Some (icon_of (Nat.odd 3)))).
Proof.
  apply (global_toggle_parity scanned_page 3); [apply wfb_sound| | |];
    vm_compute; reflexivity.
Defined.

(* ================================================================== *)
(** * Consistency of the markers *)

Lemma run_flip (c : bool) (ct t : nat) (p : page) :
  (if c then
     classList_remove ct "collapsed" ;;
     classList_remove t "collapsed" ;;
     setAttribute t "aria-expanded" "true"
   else
     classList_add ct "collapsed" ;;
     classList_add t "collapsed" ;;
     setAttribute t "aria-expanded" "false") p
  = Ok tt (with_roots (set_state (negb c) ct t) p).
Proof. now destruct c. Qed.

Lemma handleToggle_run (c t : nat) r n l (a : bool) :
  handleToggle c t (mkPage r n l a)
  = Ok tt (mkPage (match closest c sel_wrapper r with
                   | Some w =>
                       match querySelector w sel_content r with
                       | Some ct => set_state (negb (collapsed ct r)) ct t r
                       | None => r
                       end
                   | None => r
                   end) n l a).
Proof.
  unfold handleToggle. unfold bind at 1. rewrite run_read.
  destruct (closest c sel_wrapper r) as [w|]; [|reflexivity].
  cbn [when_some]. unfold bind at 1. rewrite run_read.
  destruct (querySelector w sel_content r) as [ct|]; [|reflexivity].
  cbn [when_some]. unfold bind at 1. rewrite run_read.
  now rewrite run_flip.
Qed.

Lemma chain_elements (c : nat) (n : node) (ch : list (nat * edata)) :
  chain c n = Some ch -> incl ch (elements n).
Proof.
  revert ch. induction n as [i s|i d ks IH] using node_ind'; intros ch H.
  - simpl in H. destruct (i =? c); inversion H. intros e [].
  - simpl in H. destruct (i =? c).
    + inversion H. intros e [<-|[]]. now left.
    + destruct (first_some (chain c) ks) as [ch'|] eqn:E; [|discriminate].
      inversion H. subst ch. apply first_some_in in E. destruct E as [k [Hk E]].
      rewrite Forall_forall in IH. pose proof (IH k Hk ch' E) as Hin.
      intros e He. apply in_app_or in He. destruct He as [He|[<-|[]]]; [|now left].
      right. apply in_flat_map. exists k. split; [assumption|now apply Hin].
Qed.

Lemma select_intro (sel : selector) (l : list (nat * edata)) (w : nat) (d : edata) :
  In (w, d) l -> matches sel d = true -> In w (select sel l).
Proof.
  intros Hin Hm. unfold select. apply in_map_iff. exists (w, d). split; [reflexivity|].
  apply filter_In. now split.
Qed.

Lemma closest_in_all (c w : nat) (sel : selector) (f : list node) :
  closest c sel f = Some w -> In w (select sel (all_elements f)).
Proof.
  unfold closest, fchain. intros H. apply hd_error_in, select_in in H.
  destruct H as [d [Hin Hm]].
  destruct (first_some (chain c) f) as [ch|] eqn:E; [|destruct Hin].
  apply first_some_in in E. destruct E as [k [Hk E]].
  apply (select_intro sel _ w d); [|assumption].
  unfold all_elements. apply in_flat_map. exists k. split; [assumption|].
  exact (chain_elements c k ch E _ Hin).
Qed.

Lemma doc_in_all (w : nat) (sel : selector) (f : list node) :
  In w (doc_querySelectorAll sel f) -> In w (select sel (all_elements f)).
Proof.
  unfold doc_querySelectorAll. intros H. apply select_in in H. destruct H as [d [Hin Hm]].
  apply (select_intro sel _ w d); [|assumption].
  apply in_flat_map in Hin. destruct Hin as [k [Hk Hin]].
  apply filter_In in Hk. destruct Hk as [Hk _].
  unfold all_elements. apply in_flat_map. exists k. split; [assumption|].
  now apply descendants_sub.
Qed.

(** Pairs that are the parts of a wrapper each hit both parts of [ct],
    [t] or none. *)
Lemma all_or_nothing (T : list (nat * nat)) (ct t : nat) :
  (forall e, In e T -> sep (Some ct, Some t) (Some (fst e), Some (snd e)) = true) ->
  (touched ct T = true /\ touched t T = true /\ toggled t T = true)
  \/ (touched ct T = false /\ touched t T = false /\ toggled t T = false).
Proof.
  induction T as [|[a b] T IH]; intros H; [now right|].
  pose proof (H (a, b) (or_introl eq_refl)) as Hab. cbn [sep fst snd] in Hab.
  rewrite !touched_cons, !toggled_cons.
  destruct (ct =? a) eqn:E1, (t =? b) eqn:E2, (ct =? b) eqn:E3, (t =? a) eqn:E4;
    simpl in Hab; try discriminate; simpl; try (now left);
    apply IH; intros e He; apply H; now right.
Qed.

Lemma opt_is_some (v : string) : opt_is (Some v) v = true.
Proof. simpl. apply String.eqb_refl. Qed.

(** A change that brings the parts of some wrappers into the state [s]
    and leaves every other element alone keeps the markers consistent. *)
Lemma consistent_preserved (r r' : list node) (T : list (nat * nat)) (s : bool) :
  stable r r' ->
  (forall i, collapsed i r' = if touched i T then s else collapsed i r) ->
  (forall i, aria i r' = if toggled i T then Some (aria_of s) else aria i r) ->
  (forall e, In e T ->
     exists w0, In w0 (wrappers r) /\ parts w0 r = (Some (fst e), Some (snd e))) ->
  separated r = true ->
  forallb (consistent r) (wrappers r) = true ->
  forallb (consistent r') (wrappers r') = true.
Proof.
  intros Hst Hc Ha HT Hsep Hcon. unfold wrappers. rewrite (st_all _ _ Hst) by reflexivity.
  fold (wrappers r). apply forallb_forall. intros w Hw.
  rewrite forallb_forall in Hcon. specialize (Hcon w Hw).
  unfold consistent in *. rewrite (stable_parts r r' w Hst).
  destruct (parts w r) as [[ct|] [t|]] eqn:Ep; try reflexivity.
  destruct (all_or_nothing T ct t) as [[H1 [H2 H3]]|[H1 [H2 H3]]].
  - intros e He. destruct (HT e He) as [w0 [Hw0 Hp0]].
    unfold separated in Hsep. rewrite forallb_forall in Hsep.
    specialize (Hsep w Hw). rewrite forallb_forall in Hsep.
    specialize (Hsep w0 Hw0). now rewrite Ep, Hp0 in Hsep.
  - rewrite !Hc, Ha, H1, H2, H3. rewrite opt_is_some. now destruct s.
  - now rewrite !Hc, Ha, H1, H2, H3.
Qed.

Lemma stable_separated (r r' : list node) :
  stable r r' -> separated r = true -> separated r' = true.
Proof.
  intros Hst. unfold separated, wrappers. rewrite (st_all _ _ Hst) by reflexivity.
  intros H. apply forallb_forall. intros w Hw. apply forallb_forall. intros w' Hw'.
  rewrite forallb_forall in H. specialize (H w Hw).
  rewrite forallb_forall in H. specialize (H w' Hw').
  now rewrite !(stable_parts r r' _ Hst).
Qed.

Lemma stable_handler_ok (r r' : list node) (h : handler) :
  stable r r' -> handler_ok r h = true -> handler_ok r' h = true.
Proof.
  intros Hst. destruct h as [|c t|w]; try reflexivity. unfold handler_ok.
  intros H. apply andb_true_iff in H. destruct H as [He H].
  rewrite (st_elem _ _ Hst), He. cbn [andb].
  rewrite (st_chain _ _ Hst c sel_wrapper eq_refl He).
  destruct (closest c sel_wrapper r) as [w|]; [|reflexivity].
  now rewrite (stable_parts r r' w Hst).
Qed.

Lemma stable_handlers (r r' : list node) n n' l a a' :
  stable r r' -> handlers_ok (mkPage r n l a) = true ->
  handlers_ok (mkPage r' n' l a') = true.
Proof.
  intros Hst. unfold handlers_ok. cbn [roots listeners]. intros H.
  apply forallb_forall. intros x Hx. rewrite forallb_forall in H.
  apply (stable_handler_ok r r' _ Hst). now apply H.
Qed.

Lemma registered_handler (p : page) (c t : nat) :
  registered p (Individual c t) = true -> handlers_ok p = true ->
  handler_ok (roots p) (HHandleToggle c t) = true.
Proof.
  unfold registered, handlers_ok. intros H Hok. apply existsb_exists in H.
  destruct H as [x [Hx H]]. rewrite forallb_forall in Hok. specialize (Hok x Hx).
  destruct (snd x) as [|c' t'|]; try discriminate. simpl in H.
  apply andb_true_iff in H. destruct H as [H1 H2].
  apply Nat.eqb_eq in H1, H2. now subst.
Qed.

(** One transition keeps the invariant. *)
Lemma action_keeps (p : page) (a : action) :
  toggle_inv p -> registered p a = true ->
  exists p', run_action a p = Ok tt p' /\ toggle_inv p'
             /\ listeners p' = listeners p
             /\ wrappers (roots p') = wrappers (roots p).
Proof.
  destruct p as [r n l ag]. intros [[Hnd Hlt] [Hpl [Hsep [Hh Hcon]]]] Hreg.
  cbn [roots next_id] in *.
  destruct a as [c t|]; cbn [run_action].
  - pose proof (registered_handler _ c t Hreg Hh) as Hok. cbn [roots] in Hok.
    rewrite handleToggle_run. eexists. split; [reflexivity|].
    unfold handler_ok in Hok. apply andb_true_iff in Hok. destruct Hok as [Hc Hok].
    destruct (closest c sel_wrapper r) as [w|] eqn:Ew;
      [|repeat split; assumption].
    unfold parts in Hok.
    destruct (querySelector w sel_content r) as [ct|] eqn:Ect;
      [|repeat split; assumption].
    destruct (querySelector w sel_toggle r) as [t'|] eqn:Et; [|discriminate].
    apply Nat.eqb_eq in Hok. subst t'.
    pose proof (selected_element w ct sel_content r Hnd Ect) as Hect.
    pose proof (selected_element w t sel_toggle r Hnd Et) as Het.
    set (s := negb (collapsed ct r)).
    pose proof (stable_set_state s ct t r Hnd) as Hst.
    pose proof (fids_set_state s ct t r Hnd) as Hfi.
    split; [|split; [reflexivity|unfold wrappers; now rewrite (st_all _ _ Hst)]].
    split; [split; cbn [roots next_id]; now rewrite Hfi|]. cbn [roots].
    split; [exact (stable_plain_label _ _ Hst Hpl)|].
    split; [exact (stable_separated _ _ Hst Hsep)|].
    split; [exact (stable_handlers _ _ _ _ _ _ _ Hst Hh)|].
    apply (consistent_preserved r _ [(ct, t)] s Hst); try assumption.
    + intros i. rewrite (collapsed_set_state s ct t i r Hnd Hect Het).
      rewrite touched_cons. cbn. now rewrite orb_false_r.
    + intros i. rewrite (aria_set_state s ct t i r Hnd Het).
      rewrite toggled_cons. cbn. now rewrite orb_false_r.
    + intros e [<-|[]]. exists w. split; [exact (closest_in_all c w _ r Ew)|].
      unfold parts. cbn [fst snd]. now rewrite Ect, Et.
  - destruct (toggleAll_run r n l ag Hnd Hlt Hpl)
      as [r1 [n1 [H1 [Hnd1 [Hlt1 [Hst1 [Hc1 [Ha1 _]]]]]]]].
    eexists. split; [exact H1|].
    split; [|split; [reflexivity|unfold wrappers; now rewrite (st_all _ _ Hst1)]].
    split; [now split|]. cbn [roots].
    split; [exact (stable_plain_label _ _ Hst1 Hpl)|].
    split; [exact (stable_separated _ _ Hst1 Hsep)|].
    split; [exact (stable_handlers _ _ _ _ _ _ _ Hst1 Hh)|].
    apply (consistent_preserved r r1 _ (negb ag) Hst1 Hc1 Ha1); try assumption.
    intros [ct t] He. unfold targets in He. apply in_flat_map in He.
    destruct He as [w [Hw He]]. exists w. split; [now apply doc_in_all|].
    unfold both in He. destruct (parts w r) as [[ct'|] [t'|]]; try destruct He.
    + now inversion H.
    + destruct H.
Qed.

Lemma actions_keep (acts : list action) :
  forall p, toggle_inv p -> forallb (registered p) acts = true ->
  exists p', forEach acts run_action p = Ok tt p' /\ toggle_inv p'
             /\ wrappers (roots p') = wrappers (roots p).
Proof.
  induction acts as [|a acts IH]; intros p Hinv Hreg.
  - exists p. split; [reflexivity|]. split; [assumption|reflexivity].
  - simpl in Hreg. apply andb_true_iff in Hreg. destruct Hreg as [Ha Hacts].
    destruct (action_keeps p a Hinv Ha) as [p1 [H1 [Hinv1 [Hl1 Hw1]]]].
    assert (forallb (registered p1) acts = true) as Hacts1.
    { apply forallb_forall. intros a' Ha'.
      rewrite forallb_forall in Hacts. rewrite <- (Hacts a' Ha').
      destruct a'; [|reflexivity]. unfold registered. now rewrite Hl1. }
    destruct (IH p1 Hinv1 Hacts1) as [p2 [H2 [Hinv2 Hw2]]].
    exists p2. split; [|split; [assumption|now rewrite Hw2]].
    cbn [forEach]. unfold bind. now rewrite H1.
Qed.

Lemma find_node_elements (z : nat) (n : node) (d : edata) (ks : list node) :
  find_node z n = Some (Elem z d ks) -> In (z, d) (elements n).
Proof.
  induction n as [i s|i d0 ks0 IH] using node_ind'; intros H.
  - simpl in H. destruct (i =? z); inversion H.
  - simpl in H. destruct (i =? z).
    + inversion H. now left.
    + apply first_some_in in H. destruct H as [k [Hk H]].
      rewrite Forall_forall in IH. right. apply in_flat_map. exists k.
      split; [assumption|now apply IH].
Qed.

Lemma ffind_elements (z : nat) (f : list node) (d : edata) (ks : list node) :
  ffind z f = Some (Elem z d ks) -> In (z, d) (all_elements f).
Proof.
  intros H. apply first_some_in in H. destruct H as [k [Hk H]].
  apply in_flat_map. exists k. split; [assumption|].
  exact (find_node_elements z k d ks H).
Qed.

Lemma find_toggle (b : nat) (u s : bool) (t : jstr) (n : node) :
  find_node (2 + b) (wrapper_tree b u s t n)
  = Some (Elem (2 + b) (toggle_data ["collapse-toggle"%string] "true") (toggle_html (3 + b))).
Proof. unfold wrapper_tree. fsimp. reflexivity. Qed.

Lemma wrapper_parts (b : nat) (u s : bool) (t : jstr) (n : node) :
  hd_error (select sel_content (descendants (wrapper_tree b u s t n))) = Some (12 + b)
  /\ hd_error (select sel_toggle (descendants (wrapper_tree b u s t n))) = Some (2 + b).
Proof. destruct t; split; reflexivity. Qed.

(** C5: a wrapper the transform made starts expanded: neither its content
    region nor its toggle is marked collapsed and [aria-expanded] is
    "true"; its closure is registered on the toggle and on the line.  And on
    a page whose wrappers own their parts, every sequence of individual and
    global toggles returns and leaves, in every wrapper, the marker of the
    content region, the marker of the toggle and [aria-expanded] in
    agreement, [aria-expanded] being "true" exactly when the wrapper is
    expanded. *)
Theorem toggles_keep_markers_consistent :
  (forall p x n,
      wf p -> ffind x (roots p) = Some n ->
      parent_kind x (roots p) = Some KElement ->
      in_wrapper x (roots p) = false ->
      20 <= text_length x (roots p) ->
      exists p',
        addToggleToMessage x p = Ok tt p'
        /\ In (next_id p) (wrappers (roots p'))
        /\ parts (next_id p) (roots p') = (Some (12 + next_id p), Some (2 + next_id p))
        /\ collapsed (12 + next_id p) (roots p') = false
        /\ collapsed (2 + next_id p) (roots p') = false
        /\ aria (2 + next_id p) (roots p') = Some "true"%string
        /\ In (2 + next_id p, HHandleToggle (1 + next_id p) (2 + next_id p)) (listeners p')
        /\ In (9 + next_id p, HHandleToggle (1 + next_id p) (2 + next_id p)) (listeners p'))
  /\ (forall p acts,
        toggle_inv p -> forallb (registered p) acts = true ->
        exists p',
          forEach acts run_action p = Ok tt p'
          /\ toggle_inv p'
          /\ wrappers (roots p') = wrappers (roots p)
          /\ forall w ct t,
              In w (wrappers (roots p')) -> parts w (roots p') = (Some ct, Some t) ->
              collapsed t (roots p') = collapsed ct (roots p')
              /\ aria t (roots p') = Some (aria_of (collapsed ct (roots p')))).
Proof.
  split.
  - intros p x n Hwf Hn Hk Hw Hl. exists (wrapped p x n).
    assert (closest x sel_wrapper (roots p) = None) as Hc.
    { unfold in_wrapper in Hw. now destruct (closest x sel_wrapper (roots p)). }
    split; [now apply addToggle_wraps|].
    assert (forall y, In y (ids n) -> y < next_id p) as Hbelow
        by (intros y Hy; apply (proj2 Hwf); exact (ffind_sub _ _ _ Hn y Hy)).
    set (b := next_id p) in *. set (u := is_user x (roots p)).
    set (s := is_assistant x (roots p)). set (t := preview_text u n).
    assert (forall k, k <= 12 ->
              ffind (k + b) (roots (wrapped p x n))
              = find_node (k + b) (wrapper_tree b u s t n)) as Hfind.
    { intros k Hk'. apply (wrapped_ffind p x n Hwf Hn). now apply in_wrapper_tree_new. }
    assert (ffind b (roots (wrapped p x n)) = Some (wrapper_tree b u s t n)) as Hb.
    { pose proof (Hfind 0 (Nat.le_0_l 12)) as H0. change (0 + b) with b in H0.
      rewrite H0. apply (find_here (wrapper_tree b u s t n)). }
    split.
    { apply (select_intro sel_wrapper _ b (div (wrapper_classes u s))).
      - exact (ffind_elements b _ _ _ Hb).
      - now destruct u, s. }
    split.
    { unfold parts, querySelector. rewrite Hb.
      destruct (wrapper_parts b u s t n) as [-> ->]. reflexivity. }
    split.
    { unfold collapsed, classList_contains, data_of. rewrite (Hfind 12) by lia.
      now rewrite (find_content b u s t n Hbelow). }
    split.
    { unfold collapsed, classList_contains, data_of. rewrite (Hfind 2) by lia.
      now rewrite (find_toggle b u s t n). }
    split.
    { unfold aria, getAttribute, data_of. rewrite (Hfind 2) by lia.
      now rewrite (find_toggle b u s t n). }
    split; apply in_or_app; right; simpl; tauto.
  - intros p acts Hinv Hreg.
    destruct (actions_keep acts p Hinv Hreg) as [p' [H [Hinv' Hw']]].
    exists p'. split; [assumption|]. split; [assumption|]. split; [assumption|].
    intros w ct t Hw Hp. destruct Hinv' as [_ [_ [_ [_ Hcon]]]].
    rewrite forallb_forall in Hcon. specialize (Hcon w Hw).
    unfold consistent in Hcon. rewrite Hp in Hcon.
    apply andb_true_iff in Hcon. destruct Hcon as [H1 H2].
    apply Bool.eqb_prop in H1. split; [now symmetry|].
    unfold opt_is in H2. destruct (aria t (roots p')); [|discriminate].
    apply String.eqb_eq in H2. now subst.
Qed.

(** The invariant holds where the scan nested one wrapper in another. *)
Example nested_wrappers_inv :
  doc_querySelectorAll sel_wrapper (roots nested_scanned) = [29; 16]
  /\ toggle_inv nested_scanned.
Proof.
  split; [vm_compute; reflexivity|].
  split; [apply wfb_sound; vm_compute; reflexivity|].
  repeat split; vm_compute; reflexivity.
Qed.

Lemma toggles_keep_markers_consistent_witness :
  (exists p',
      addToggleToMessage 4 sample_page = Ok tt p'
      /\ In (next_id sample_page) (wrappers (roots p'))
      /\ parts (next_id sample_page) (roots p')
         = (Some (12 + next_id sample_page), Some (2 + next_id sample_page))
      /\ collapsed (12 + next_id sample_page) (roots p') = false
      /\ collapsed (2 + next_id sample_page) (roots p') = false
      /\ aria (2 + next_id sample_page) (roots p') = Some "true"%string
      /\ In (2 + next_id sample_page,
             HHandleToggle (1 + next_id sample_page) (2 + next_id sample_page))
            (listeners p')
      /\ In (9 + next_id sample_page,
             HHandleToggle (1 + next_id sample_page) (2 + next_id sample_page))
            (listeners p'))
  /\ (exists p',
        forEach [Individual 20 21; Global; Individual 20 21; Individual 20 21; Global]
                run_action scanned_page = Ok tt p'
        /\ toggle_inv p'
        /\ wrappers (roots p') = wrappers (roots scanned_page)
        /\ forall w ct t,
            In w (wrappers (roots p')) -> parts w (roots p') = (Some ct, Some t) ->
            collapsed t (roots p') = collapsed ct (roots p')
            /\ aria t (roots p') = Some (aria_of (collapsed ct (roots p')))).
Proof.
  split.
  - apply (proj1 toggles_keep_markers_consistent sample_page 4
             (el 4 "div" ["message"%string; "user"%string]
                [el 5 "p" [] [Text 6 (lit "Hello, how are you today please respond")]]));
      [apply wfb_sound| | | |]; vm_compute; first [reflexivity | lia].
  - apply (proj2 toggles_keep_markers_consistent scanned_page).
    + split; [apply wfb_sound; vm_compute; reflexivity|].
      repeat split; vm_compute; reflexivity.
    + vm_compute. reflexivity.
Defined.

(* ================================================================== *)
(** * Trimmed text of an element and of its ancestors *)

Lemma trim_start_split (s : jstr) : exists a, s = a ++ trim_start s.
Proof.
  induction s as [|c s [a IH]]; [now exists []|].
  simpl. destruct (is_ws c); [|now exists []].
  exists (c :: a). simpl. now rewrite <- IH.
Qed.

Lemma trim_start_head (s r : jstr) (h : N) : trim_start s = h :: r -> is_ws h = false.
Proof.
  induction s as [|c s IH]; simpl; [discriminate|].
  destruct (is_ws c) eqn:E; [assumption|]. intros H. inversion H. now subst.
Qed.

Lemma trim_start_keep (l m : jstr) (h : N) :
  is_ws h = false -> exists l', trim_start (l ++ h :: m) = l' ++ h :: m.
Proof.
  intros Hh. induction l as [|c l [l' IH]]; simpl.
  - rewrite Hh. now exists [].
  - destruct (is_ws c); [now exists l'|]. now exists (c :: l).
Qed.

Lemma trim_infix (l s r : jstr) :
  List.length (trim s) <= List.length (trim (l ++ s ++ r)).
Proof.
  unfold trim. rewrite !length_rev.
  destruct (trim_start s) as [|c m] eqn:E1; [simpl; lia|].
  pose proof (trim_start_head s m c E1) as Hc.
  destruct (trim_start_split s) as [a Ha]. rewrite E1 in Ha.
  destruct (trim_start_keep (l ++ a) (m ++ r) c Hc) as [l1 H1].
  replace (l ++ s ++ r) with ((l ++ a) ++ c :: m ++ r)
    by (rewrite Ha, <- !app_assoc; reflexivity).
  rewrite H1.
  destruct (trim_start_keep (rev m) [] c Hc) as [l2 H2].
  change (rev (c :: m)) with (rev m ++ [c]). rewrite H2.
  destruct (trim_start_split (rev m ++ [c])) as [a2 Ha2]. rewrite H2 in Ha2.
  replace (rev (l1 ++ c :: m ++ r)) with ((rev r ++ a2) ++ (l2 ++ [c]) ++ rev l1).
  - destruct (l2 ++ [c]) as [|h2 u] eqn:E2; [destruct l2; discriminate|].
    assert (is_ws h2 = false) as Hh2.
    { apply (trim_start_head (rev m ++ [c]) u). now rewrite H2. }
    destruct (trim_start_keep (rev r ++ a2) (u ++ rev l1) h2 Hh2) as [l3 H3].
    change ((h2 :: u) ++ rev l1) with (h2 :: u ++ rev l1). rewrite H3.
    rewrite !length_app. simpl. rewrite length_app. lia.
  - rewrite rev_app_distr. simpl. rewrite rev_app_distr.
    rewrite <- !app_assoc. f_equal. rewrite !app_assoc. f_equal.
    rewrite <- !app_assoc. exact (eq_sym Ha2).
Qed.

Lemma text_of_infix (x : nat) (m n : node) :
  find_node x m = Some n -> exists l r, text_of m = l ++ text_of n ++ r.
Proof.
  revert n. induction m as [i s|i d ks IH] using node_ind'; intros n H.
  - simpl in H. destruct (i =? x); inversion H. exists [], []. now rewrite app_nil_r.
  - simpl in H. destruct (i =? x).
    + inversion H. exists [], []. now rewrite app_nil_r.
    + apply first_some_in in H. destruct H as [k [Hk H]].
      rewrite Forall_forall in IH. destruct (IH k Hk n H) as [l [r E]].
      destruct (in_split k ks Hk) as [l1 [l2 ->]].
      exists (flat_map text_of l1 ++ l), (r ++ flat_map text_of l2).
      simpl. rewrite flat_map_app. simpl. rewrite E. now rewrite <- !app_assoc.
Qed.

Lemma elements_sub (x : nat) (m n : node) :
  find_node x m = Some n -> incl (elements n) (elements m).
Proof.
  revert n. induction m as [i s|i d ks IH] using node_ind'; intros n H.
  - simpl in H. destruct (i =? x); inversion H. apply incl_refl.
  - simpl in H. destruct (i =? x).
    + inversion H. apply incl_refl.
    + apply first_some_in in H. destruct H as [k [Hk H]].
      rewrite Forall_forall in IH. intros e He. right.
      apply in_flat_map. exists k. split; [assumption|]. exact (IH k Hk n H e He).
Qed.

Lemma descendants_inside (x : nat) (m n : node) :
  find_node x m = Some n -> incl (descendants n) (descendants m).
Proof.
  intros H. destruct m as [i s|i d ks].
  - simpl in H. destruct (i =? x); inversion H. apply incl_refl.
  - simpl in H. destruct (i =? x).
    + inversion H. apply incl_refl.
    + apply first_some_in in H. destruct H as [k [Hk H]].
      intros e He. apply descendants_sub in He. unfold descendants. simpl.
      apply in_flat_map. exists k. split; [assumption|].
      exact (elements_sub x k n H e He).
Qed.

Lemma select_some_incl (sel : selector) (l l' : list (nat * edata)) :
  incl l l' -> is_some (hd_error (select sel l)) = true ->
  is_some (hd_error (select sel l')) = true.
Proof.
  intros Hi H. destruct (select sel l) as [|w r] eqn:E; [discriminate|].
  assert (In w (select sel l)) as Hw by (rewrite E; now left).
  apply select_in in Hw. destruct Hw as [d [Hin Hm]].
  pose proof (select_intro sel l' w d (Hi _ Hin) Hm) as H'.
  now destruct (select sel l').
Qed.

(** An element that holds an accepted element passes the filter too. *)
Lemma accepted_up (f : list node) (c x : nat) (m n : node) :
  ffind c f = Some m -> ffind x f = Some n -> find_node x m = Some n ->
  accepted x f = true -> accepted c f = true.
Proof.
  intros Hc Hx Hin. unfold accepted, text_length, has_structure, textContent, querySelector.
  rewrite Hc, Hx. intros H. apply andb_true_iff in H. destruct H as [H1 H2].
  destruct (text_of_infix x m n Hin) as [l [r E]].
  pose proof (trim_infix l (text_of n) r) as Hlen. rewrite <- E in Hlen.
  apply Nat.leb_le in H1. apply andb_true_iff. split; [apply Nat.leb_le; lia|].
  apply orb_true_iff in H2. apply orb_true_iff. destruct H2 as [H2|H2].
  - left. exact (select_some_incl _ _ _ (descendants_inside x m n Hin) H2).
  - right. apply Nat.ltb_lt in H2. apply Nat.ltb_lt. lia.
Qed.

(* ================================================================== *)
(** * The scan *)

Lemma forEach_skip {A} (l : list A) (body : A -> M unit) (q : page) :
  (forall c, In c l -> body c q = Ok tt q) -> forEach l body q = Ok tt q.
Proof.
  induction l as [|c l IH]; intros H; [reflexivity|].
  cbn [forEach]. unfold bind. rewrite (H c) by now left.
  apply IH. intros c' Hc'. apply H. now right.
Qed.

Lemma forEach_cons_ok {A} (x : A) (l : list A) (body : A -> M unit) (q q1 : page) :
  forEach (x :: l) body q = Ok tt q1 ->
  exists q', body x q = Ok tt q' /\ forEach l body q' = Ok tt q1.
Proof.
  cbn [forEach]. unfold bind. destruct (body x q) as [[] q'|q']; [|discriminate].
  intros H. now exists q'.
Qed.

Lemma set_add_in (x c : nat) (s : list nat) : In c (set_add x s) <-> c = x \/ In c s.
Proof.
  unfold set_add. destruct (existsb (Nat.eqb x) s) eqn:E.
  - apply existsb_eqb_in in E. split; [now right|]. intros [->|H]; assumption.
  - rewrite in_app_iff. simpl. intuition congruence.
Qed.

Lemma fold_add_in (l acc : list nat) (c : nat) :
  In c (fold_left (fun a el => set_add el a) l acc) <-> In c acc \/ In c l.
Proof.
  revert acc. induction l as [|x l IH]; intros acc; simpl; [tauto|].
  rewrite IH, set_add_in. intuition congruence.
Qed.

Lemma fold_sel_in (g : selector -> list nat) (sels : list selector) (acc : list nat) (c : nat) :
  In c (fold_left (fun acc sel => fold_left (fun a el => set_add el a) (g sel) acc) sels acc)
  <-> In c acc \/ exists sel, In sel sels /\ In c (g sel).
Proof.
  revert acc. induction sels as [|s sels IH]; intros acc; simpl.
  - split; [now left|]. intros [H|[sel [[] _]]]. assumption.
  - rewrite IH, fold_add_in. split.
    + intros [[H|H]|[sel [H1 H2]]]; [now left|right; exists s; tauto|right; exists sel; tauto].
    + intros [H|[sel [[<-|H1] H2]]]; [tauto|tauto|right; now exists sel].
Qed.

Lemma foundMessages_spec (f : list node) (c : nat) :
  In c (foundMessages f)
  <-> exists sel, In sel selectors /\ In c (doc_querySelectorAll sel f).
Proof.
  unfold foundMessages.
  rewrite (fold_sel_in (fun sel => doc_querySelectorAll sel f)). simpl. tauto.
Qed.

Lemma process_one_settled (q : page) (c : nat) :
  settled (roots q) c = true -> process_one c q = Ok tt q.
Proof.
  unfold settled, in_wrapper, accepted, text_length, has_structure.
  unfold process_one, bind, read, ret.
  destruct (is_some (closest c sel_wrapper (roots q))); [reflexivity|].
  rewrite orb_false_l. intros H. apply negb_true_iff in H.
  destruct (Nat.ltb_spec (List.length (trim (textContent c (roots q)))) 20) as [Hl|Hl];
    [reflexivity|].
  replace (20 <=? List.length (trim (textContent c (roots q)))) with true in H
    by (symmetry; now apply Nat.leb_le).
  rewrite andb_true_l in H. now rewrite H.
Qed.

Lemma process_one_open (q : page) (c : nat) :
  settled (roots q) c = false ->
  process_one c q = addToggleToMessage c q
  /\ in_wrapper c (roots q) = false /\ accepted c (roots q) = true
  /\ 20 <= text_length c (roots q).
Proof.
  unfold settled. intros H. apply orb_false_iff in H. destruct H as [Hw Ha].
  apply negb_false_iff in Ha. split; [|split; [assumption|split; [assumption|]]].
  - revert Hw Ha. unfold in_wrapper, accepted, text_length, has_structure.
    unfold process_one, bind, read, ret. intros -> Ha.
    apply andb_true_iff in Ha. destruct Ha as [H1 H2]. apply Nat.leb_le in H1.
    replace (List.length (trim (textContent c (roots q))) <? 20) with false
      by (symmetry; now apply Nat.ltb_ge).
    now rewrite H2.
  - unfold accepted in Ha. apply andb_true_iff in Ha. destruct Ha as [H1 _].
    now apply Nat.leb_le in H1.
Qed.

Lemma descendants_parent (n : node) :
  forall c d, NoDup (ids n) -> In (c, d) (descendants n) ->
  exists par pd pks cks,
    find_node par n = Some (Elem par pd pks) /\ In (Elem c d cks) pks.
Proof.
  induction n as [i s|i d0 ks IH] using node_ind'; intros c d Hnd Hin; [destruct Hin|].
  unfold descendants in Hin. simpl in Hin. apply in_flat_map in Hin.
  destruct Hin as [k [Hk Hin]]. destruct (NoDup_elem i d0 ks Hnd) as [Hi Hks].
  destruct k as [j s|j dj kj]; [destruct Hin|]. simpl in Hin. destruct Hin as [E|Hin].
  - inversion E. subst. exists i, d0, ks, kj. split; [|assumption].
    simpl. now rewrite Nat.eqb_refl.
  - rewrite Forall_forall in IH.
    destruct (IH _ Hk c d (NoDup_kid ks _ Hks Hk) Hin) as [par [pd [pks [cks [Hf Hc]]]]].
    exists par, pd, pks, cks. split; [|assumption].
    simpl. destruct (i =? par) eqn:E.
    + apply Nat.eqb_eq in E. subst par. exfalso. apply Hi.
      apply in_flat_map. exists (Elem j dj kj). split; [assumption|].
      apply (find_node_sub i _ _ Hf). now left.
    + exact (ffind_unique par ks _ _ Hks Hk Hf).
Qed.

Lemma doc_element_parent (f : list node) (c : nat) (d : edata) :
  NoDup (fids f) -> In (c, d) (doc_elements f) ->
  exists cks par pd,
    ffind c f = Some (Elem c d cks) /\ parentNode c f = Some par
    /\ parent_kind c f = Some (kind pd)
    /\ exists pks, ffind par f = Some (Elem par pd pks) /\ In (Elem c d cks) pks.
Proof.
  intros Hnd Hin. unfold doc_elements in Hin. apply in_flat_map in Hin.
  destruct Hin as [r [Hr Hin]]. apply filter_In in Hr. destruct Hr as [Hr _].
  destruct (descendants_parent r c d (NoDup_kid f r Hnd Hr) Hin)
    as [par [pd [pks [cks [Hf Hc]]]]].
  pose proof (ffind_unique par f r _ Hnd Hr Hf) as Hpar.
  exists cks, par, pd.
  pose proof (kid_found par f pd pks _ Hnd Hpar Hc) as Hcf. simpl in Hcf.
  pose proof (parentNode_unique par f pd pks _ Hnd Hpar Hc) as Hpn. simpl in Hpn.
  split; [assumption|]. split; [assumption|]. split; [|now exists pks].
  unfold parent_kind. now rewrite Hpn, (data_of_find par f pd pks Hpar).
Qed.

Lemma in_wrapper_in_fids (c : nat) (f : list node) :
  in_wrapper c f = true -> In c (fids f).
Proof.
  intros H. destruct (in_dec Nat.eq_dec c (fids f)) as [Hin|Hout]; [assumption|].
  unfold in_wrapper, closest, fchain in H. now rewrite (fchain_notin c f Hout) in H.
Qed.

Lemma ids_in_wrapper (b : nat) (u s : bool) (t : jstr) (n : node) (y : nat) :
  In y (ids n) -> In y (ids (wrapper_tree b u s t n)).
Proof.
  intros H. unfold wrapper_tree, toggle_html, chevron.
  destruct t; simpl; rewrite ?in_app_iff; simpl; tauto.
Qed.

Lemma elements_in_wrapper (b : nat) (u s : bool) (t : jstr) (n : node) :
  incl (elements n) (flat_map elements [wrapper_tree b u s t n]).
Proof.
  intros e H. unfold wrapper_tree, toggle_html, chevron.
  destruct t; simpl; rewrite ?in_app_iff; simpl; tauto.
Qed.

Lemma in_W_fids (W : node) (y : nat) : In y (fids [W]) <-> In y (ids W).
Proof. change (fids [W]) with (ids W ++ []). now rewrite app_nil_r. Qed.

(** Wrapping [x] leaves settled what was settled. *)
Lemma settled_kept (p : page) (x c : nat) (n : node) :
  wf p -> ffind x (roots p) = Some n -> accepted x (roots p) = true ->
  In c (fids (roots p)) ->
  settled (roots p) c = true -> settled (roots (wrapped p x n)) c = true.
Proof.
  intros Hwf Hx Hacc Hc Hs. pose proof (proj1 Hwf) as Hnd.
  pose proof (wrapped_roots p x n) as HR. pose proof (W_local p x n Hwf Hx) as HW.
  remember (wrapper_tree (next_id p) (is_user x (roots p)) (is_assistant x (roots p))
              (preview_text (is_user x (roots p)) n) n) as W eqn:EW.
  destruct (inside_or_outside x c (roots p) n Hnd Hx Hc) as [Hout|Hin].
  - assert (~ In c (fids [W])) as Hnew by (intros H; exact (HW c H Hout)).
    unfold settled in *. unfold in_wrapper at 1, closest. rewrite HR.
    rewrite (fchain_out x c _ (roots p) Hnd (fun _ => Hout) Hnew).
    fold (closest c sel_wrapper (roots p)). fold (in_wrapper c (roots p)).
    destruct (in_wrapper c (roots p)); [reflexivity|].
    rewrite orb_false_l in Hs |- *.
    destruct (ffind_in c (roots p) Hc) as [m Hm].
    assert (~ In x (ids m)) as Hxm.
    { intros Hin. destruct (find_node_in x m Hin) as [n' Hn'].
      pose proof (ffind_trans c x (roots p) m n' Hnd Hm Hn') as E.
      rewrite Hx in E. inversion E. subst n'.
      rewrite (accepted_up (roots p) c x m n Hm Hx Hn' Hacc) in Hs. discriminate. }
    assert (ffind c (frewrite x (fun _ => [W]) (roots p)) = Some m) as Hm'.
    { rewrite (ffind_out x c _ (roots p) Hnd (fun _ => Hout) Hnew), Hm.
      now rewrite rewrite_notin. }
    rewrite <- Hs. f_equal.
    unfold accepted, text_length, has_structure, textContent, querySelector.
    now rewrite Hm', Hm.
  - unfold settled. apply orb_true_iff. left.
    apply (in_wrapper_closest p x n Hwf Hx). now apply ids_in_wrapper.
Qed.

Lemma elements_kept (x : nat) (n : node) (l : list node) (k : node) :
  NoDup (ids k) -> (forall m, find_node x k = Some m -> m = n) ->
  incl (elements n) (flat_map elements l) ->
  incl (elements k) (flat_map elements (rewrite_node x (fun _ => l) k)).
Proof.
  intros Hnd Hat Hl. revert Hnd Hat.
  induction k as [i s|i d ks IH] using node_ind'; intros Hnd Hat; [intros e []|].
  simpl. destruct (i =? x) eqn:E.
  - assert (Elem i d ks = n) as <-; [|assumption].
    apply Hat. simpl. now rewrite E.
  - destruct (NoDup_elem i d ks Hnd) as [_ Hks].
    intros e [<-|He]; [now left|]. right. simpl. rewrite app_nil_r.
    apply in_flat_map in He. destruct He as [k [Hk He]].
    rewrite flat_map_comp. apply in_flat_map. exists k. split; [assumption|].
    rewrite Forall_forall in IH. apply (IH k Hk); [now apply (NoDup_kid ks)| |assumption].
    intros m Hm. apply Hat. simpl. rewrite E. exact (ffind_unique x ks k m Hks Hk Hm).
Qed.

Lemma doc_elements_kept (p : page) (x : nat) (n : node) (e : nat * edata) :
  wf p -> ffind x (roots p) = Some n -> is_document n = false ->
  In e (doc_elements (roots p)) -> In e (doc_elements (roots (wrapped p x n))).
Proof.
  intros Hwf Hx Hdoc He. pose proof (proj1 Hwf) as Hnd.
  rewrite wrapped_roots. unfold doc_elements in *. apply in_flat_map in He.
  destruct He as [r [Hr He]]. apply filter_In in Hr. destruct Hr as [Hr Hrd].
  assert (forall m, find_node x r = Some m -> m = n) as Hat.
  { intros m Hm. pose proof (ffind_unique x (roots p) r m Hnd Hr Hm) as E.
    rewrite Hx in E. now inversion E. }
  destruct r as [i s|i d ks]; [discriminate|].
  assert ((i =? x) = false) as Hix.
  { destruct (i =? x) eqn:E; [|reflexivity].
    assert (Elem i d ks = n) as <- by (apply Hat; simpl; now rewrite E).
    rewrite Hrd in Hdoc. discriminate. }
  apply in_flat_map.
  exists (Elem i d (flat_map (rewrite_node x (fun _ =>
            [wrapper_tree (next_id p) (is_user x (roots p)) (is_assistant x (roots p))
               (preview_text (is_user x (roots p)) n) n])) ks)).
  split.
  - apply filter_In. split; [|exact Hrd].
    unfold frewrite. apply in_flat_map. exists (Elem i d ks). split; [assumption|].
    simpl. rewrite Hix. now left.
  - unfold descendants in *. simpl in *. apply in_flat_map in He.
    destruct He as [k [Hk He]]. rewrite flat_map_comp. apply in_flat_map.
    exists k. split; [assumption|].
    pose proof (NoDup_kid (roots p) _ Hnd Hr) as Hndr.
    destruct (NoDup_elem i d ks Hndr) as [_ Hks].
    apply (elements_kept x n _ k); [now apply (NoDup_kid ks)| |apply elements_in_wrapper|assumption].
    intros m Hm. apply Hat. simpl. rewrite Hix. exact (ffind_unique x ks k m Hks Hk Hm).
Qed.

Lemma in_wrapper_kept (p : page) (x c : nat) (n : node) :
  wf p -> ffind x (roots p) = Some n ->
  in_wrapper c (roots p) = true -> in_wrapper c (roots (wrapped p x n)) = true.
Proof.
  intros Hwf Hx Hc. pose proof (proj1 Hwf) as Hnd.
  pose proof (wrapped_roots p x n) as HR. pose proof (W_local p x n Hwf Hx) as HW.
  pose proof (in_wrapper_closest p x n Hwf Hx c) as HC.
  remember (wrapper_tree (next_id p) (is_user x (roots p)) (is_assistant x (roots p))
              (preview_text (is_user x (roots p)) n) n) as W eqn:EW.
  destruct (inside_or_outside x c (roots p) n Hnd Hx (in_wrapper_in_fids c _ Hc))
    as [Hout|Hin].
  - assert (~ In c (fids [W])) as Hnew by (intros H; exact (HW c H Hout)).
    unfold in_wrapper, closest. rewrite HR.
    now rewrite (fchain_out x c _ (roots p) Hnd (fun _ => Hout) Hnew).
  - apply HC. subst W. now apply ids_in_wrapper.
Qed.

Lemma doc_elements_fids (f : list node) (e : nat * edata) :
  In e (doc_elements f) -> In (fst e) (fids f).
Proof.
  unfold doc_elements. intros H. apply in_flat_map in H. destruct H as [r [Hr H]].
  apply filter_In in Hr. destruct Hr as [Hr _]. apply descendants_sub, elements_ids in H.
  apply in_fids. now exists r.
Qed.

(** One turn of the loop on a candidate that is in the document. *)
Lemma scan_step (q q' : page) (x : nat) (d : edata) :
  wf q -> In (x, d) (doc_elements (roots q)) -> kind d = KElement ->
  process_one x q = Ok tt q' ->
  wf q'
  /\ settled (roots q') x = true
  /\ (forall c, In c (fids (roots q)) -> settled (roots q) c = true ->
                settled (roots q') c = true)
  /\ (forall e, In e (doc_elements (roots q)) -> In e (doc_elements (roots q')))
  /\ (forall e, In e (doc_elements (roots q')) ->
                In e (doc_elements (roots q)) \/ in_wrapper (fst e) (roots q') = true)
  /\ (forall c, in_wrapper c (roots q) = true -> in_wrapper c (roots q') = true).
Proof.
  intros Hwf Hx Hk Hrun. destruct (settled (roots q) x) eqn:Es.
  - rewrite (process_one_settled q x Es) in Hrun. inversion Hrun. subst q'.
    split; [assumption|]. split; [assumption|]. split; [auto|]. split; [auto|].
    split; [auto|auto].
  - destruct (process_one_open q x Es) as [Hopen [Hw [Hacc Hlen]]].
    rewrite Hopen in Hrun. clear Hopen.
    destruct (doc_element_parent (roots q) x d (proj1 Hwf) Hx)
      as [cks [par [pd [Hn [Hpar [Hpk [pks [Hp Hin]]]]]]]].
    destruct (kind pd) eqn:Ekp.
    + rewrite (addToggle_wraps q x _ Hwf Hn Hpk (closest_none x _ Hw) Hlen) in Hrun.
      inversion Hrun. subst q'. clear Hrun.
      split; [now apply wrapped_wf|].
      split; [unfold settled; now rewrite (wrapped_in_wrapper q x _ Hwf Hn)|].
      split; [intros c Hc Hs; now apply settled_kept|].
      split.
      { intros e He. apply doc_elements_kept; try assumption.
        unfold is_document. simpl. now rewrite Hk. }
      split; [|intros c Hc; now apply in_wrapper_kept].
      intros e He. rewrite wrapped_roots in He. apply doc_elements_frewrite in He.
      destruct He as [He|He]; [now left|right].
      apply (in_wrapper_closest q x _ Hwf Hn).
      simpl in He. rewrite app_nil_r in He. now apply elements_ids.
    + exfalso. destruct q as [R b ls a]. cbn [roots next_id] in *.
      rewrite (addToggle_throw_run R b x _ ls a (proj2 Hwf) Hn (closest_none x _ Hw) Hlen
                 par pd pks Hpar Hp) in Hrun; [discriminate| |assumption].
      apply existsb_exists. exists (Elem x d cks). split; [assumption|].
      unfold is_element. simpl. now rewrite Hk.
Qed.

Lemma scan_loop (p0 : page) (todo : list nat) :
  forall (done : list nat) (q q1 : page),
    wf q ->
    (forall e, In e (doc_elements (roots q)) ->
               In e (doc_elements (roots p0)) \/ in_wrapper (fst e) (roots q) = true) ->
    (forall c, In c done -> settled (roots q) c = true) ->
    (forall c, In c (done ++ todo) ->
               exists d, In (c, d) (doc_elements (roots q)) /\ kind d = KElement) ->
    forEach todo process_one q = Ok tt q1 ->
    wf q1
    /\ (forall e, In e (doc_elements (roots q1)) ->
                  In e (doc_elements (roots p0)) \/ in_wrapper (fst e) (roots q1) = true)
    /\ (forall c, In c (done ++ todo) -> settled (roots q1) c = true).
Proof.
  induction todo as [|x todo IH]; intros done q q1 Hwf Hnew Hdone Hdoc Hrun.
  - inversion Hrun. subst q1. rewrite app_nil_r.
    split; [assumption|]. split; assumption.
  - destruct (forEach_cons_ok x todo process_one q q1 Hrun) as [q' [Hx Hrest]].
    destruct (Hdoc x) as [d [Hxd Hk]]; [apply in_or_app; right; now left|].
    destruct (scan_step q q' x d Hwf Hxd Hk Hx) as [Hwf' [Hsx [Hkeep [Hmono [Hback Hw]]]]].
    destruct (IH (done ++ [x]) q' q1 Hwf') as [H1 [H2 H3]]; try assumption.
    + intros e He. destruct (Hback e He) as [H|H]; [|now right].
      destruct (Hnew e H) as [H'|H']; [now left|right; now apply Hw].
    + intros c Hc. apply in_app_or in Hc. destruct Hc as [Hc|[<-|[]]]; [|assumption].
      apply Hkeep; [|now apply Hdone].
      destruct (Hdoc c) as [dc [Hcd _]]; [apply in_or_app; now left|].
      exact (doc_elements_fids _ _ Hcd).
    + intros c Hc. rewrite <- app_assoc in Hc. destruct (Hdoc c Hc) as [dc [Hcd Hkc]].
      exists dc. split; [now apply Hmono|assumption].
    + split; [assumption|]. split; [assumption|].
      intros c Hc. apply H3. now rewrite <- app_assoc.
Qed.

Lemma candidate_element (f : list node) (c : nat) :
  In c (foundMessages f) -> exists d, In (c, d) (doc_elements f) /\ kind d = KElement.
Proof.
  intros H. apply foundMessages_spec in H. destruct H as [sel [_ H]].
  unfold doc_querySelectorAll in H. apply select_in in H. destruct H as [d [Hin Hm]].
  exists d. split; [assumption|]. unfold matches in Hm. now destruct (kind d).
Qed.

(** C2: a second run of [processMessages] right after a first returns
    the page as the first left it: no wrapper is added and none is changed.
    Every candidate of the second run is inside a wrapper or rejected by the
    filter, and every element the first run added to the document is inside
    a wrapper. *)
Theorem processMessages_idempotent (p p1 : page) :
  wf p -> processMessages p = Ok tt p1 ->
  processMessages p1 = Ok tt p1
  /\ (forall c, In c (foundMessages (roots p1)) -> settled (roots p1) c = true)
  /\ (forall e, In e (doc_elements (roots p1)) ->
                In e (doc_elements (roots p)) \/ in_wrapper (fst e) (roots p1) = true).
Proof.
  intros Hwf Hrun. unfold processMessages, bind, read in Hrun.
  destruct (scan_loop p (foundMessages (roots p)) [] p p1 Hwf) as [Hwf1 [Hnew Hset]];
    try assumption.
  - intros e He. now left.
  - intros c [].
  - intros c Hc. now apply candidate_element.
  - assert (forall c, In c (foundMessages (roots p1)) -> settled (roots p1) c = true) as Hall.
    { intros c Hc. apply foundMessages_spec in Hc. destruct Hc as [sel [Hsel Hc]].
      unfold doc_querySelectorAll in Hc. apply select_in in Hc.
      destruct Hc as [d [Hin Hm]]. destruct (Hnew _ Hin) as [Hold|Hw].
      - apply Hset. simpl. apply foundMessages_spec. exists sel. split; [assumption|].
        exact (select_intro sel _ c d Hold Hm).
      - unfold settled. simpl in Hw. now rewrite Hw. }
    split; [|split; assumption].
    unfold processMessages, bind, read. apply forEach_skip.
    intros c Hc. apply process_one_settled. now apply Hall.
Qed.

Lemma processMessages_idempotent_witness :
  processMessages (page_of (processMessages sample_page))
  = Ok tt (page_of (processMessages sample_page))
  /\ (forall c, In c (foundMessages (roots (page_of (processMessages sample_page)))) ->
                settled (roots (page_of (processMessages sample_page))) c = true)
  /\ (forall e, In e (doc_elements (roots (page_of (processMessages sample_page)))) ->
                In e (doc_elements (roots sample_page))
                \/ in_wrapper (fst e) (roots (page_of (processMessages sample_page))) = true).
Proof.
  apply (processMessages_idempotent sample_page); [apply wfb_sound|];
    vm_compute; reflexivity.
Defined.

(* ================================================================== *)
(** * The candidate set *)

Lemma set_add_NoDup (x : nat) (s : list nat) : NoDup s -> NoDup (set_add x s).
Proof.
  intros H. unfold set_add. destruct (existsb (Nat.eqb x) s) eqn:E; [assumption|].
  apply NoDup_app; [assumption|repeat constructor; intros []|].
  intros y Hy [<-|[]]. apply existsb_eqb_in in Hy. congruence.
Qed.

Lemma fold_add_NoDup (l acc : list nat) :
  NoDup acc -> NoDup (fold_left (fun a el => set_add el a) l acc).
Proof.
  revert acc. induction l as [|x l IH]; intros acc H; [assumption|].
  simpl. apply IH. now apply set_add_NoDup.
Qed.

Lemma fold_sel_NoDup (g : selector -> list nat) (sels : list selector) (acc : list nat) :
  NoDup acc ->
  NoDup (fold_left (fun acc sel => fold_left (fun a el => set_add el a) (g sel) acc)
                   sels acc).
Proof.
  revert acc. induction sels as [|s sels IH]; intros acc H; [assumption|].
  simpl. apply IH. now apply fold_add_NoDup.
Qed.

(** X1: the candidates [processMessages] collects are the elements of the
    document that match one of its nine selectors, each once however many
    selectors it matches. *)
Theorem foundMessages_is_a_set (f : list node) :
  NoDup (foundMessages f)
  /\ (forall c, In c (foundMessages f)
                <-> exists sel d, In sel selectors /\ In (c, d) (doc_elements f)
                                  /\ matches sel d = true).
Proof.
  split.
  - unfold foundMessages.
    apply (fold_sel_NoDup (fun sel => doc_querySelectorAll sel f)). constructor.
  - intros c. rewrite foundMessages_spec. split.
    + intros [sel [Hs Hc]]. unfold doc_querySelectorAll in Hc.
      apply select_in in Hc. destruct Hc as [d [Hin Hm]]. now exists sel, d.
    + intros [sel [d [Hs [Hin Hm]]]]. exists sel. split; [assumption|].
      exact (select_intro sel _ c d Hin Hm).
Qed.

(* ================================================================== *)
(** * What a scan keeps *)

(** One turn of the loop wraps the candidate or leaves the page alone. *)
Lemma scan_step_shape (q q' : page) (x : nat) (d : edata) :
  wf q -> In (x, d) (doc_elements (roots q)) -> kind d = KElement ->
  process_one x q = Ok tt q' ->
  q' = q \/ exists n, ffind x (roots q) = Some n /\ q' = wrapped q x n.
Proof.
  intros Hwf Hx Hk Hrun. destruct (settled (roots q) x) eqn:Es.
  - rewrite (process_one_settled q x Es) in Hrun. inversion Hrun. now left.
  - destruct (process_one_open q x Es) as [Hopen [Hw [Hacc Hlen]]].
    rewrite Hopen in Hrun. clear Hopen.
    destruct (doc_element_parent (roots q) x d (proj1 Hwf) Hx)
      as [cks [par [pd [Hn [Hpar [Hpk [pks [Hp Hin]]]]]]]].
    destruct (kind pd) eqn:Ekp.
    + rewrite (addToggle_wraps q x _ Hwf Hn Hpk (closest_none x _ Hw) Hlen) in Hrun.
      inversion Hrun. right. now exists (Elem x d cks).
    + exfalso. destruct q as [R b ls a]. cbn [roots next_id] in *.
      rewrite (addToggle_throw_run R b x _ ls a (proj2 Hwf) Hn (closest_none x _ Hw) Hlen
                 par pd pks Hpar Hp) in Hrun; [discriminate| |assumption].
      apply existsb_exists. exists (Elem x d cks). split; [assumption|].
      unfold is_element. simpl. now rewrite Hk.
Qed.

Lemma scan_keeps (todo : list nat) :
  forall (q q1 : page),
    wf q ->
    (forall c, In c todo ->
               exists d, In (c, d) (doc_elements (roots q)) /\ kind d = KElement) ->
    forEach todo process_one q = Ok tt q1 ->
    wf q1
    /\ (forall e, In e (doc_elements (roots q)) -> In e (doc_elements (roots q1)))
    /\ (exists ls, listeners q1 = listeners q ++ ls)
    /\ isAllCollapsed q1 = isAllCollapsed q
    /\ next_id q <= next_id q1.
Proof.
  induction todo as [|x todo IH]; intros q q1 Hwf Hdoc Hrun.
  - inversion Hrun. subst q1. split; [assumption|]. split; [auto|].
    split; [exists []; now rewrite app_nil_r|]. split; [reflexivity|lia].
  - destruct (forEach_cons_ok x todo process_one q q1 Hrun) as [q' [Hx Hrest]].
    destruct (Hdoc x (or_introl eq_refl)) as [d [Hxd Hk]].
    destruct (scan_step q q' x d Hwf Hxd Hk Hx) as [Hwf' [_ [_ [Hmono _]]]].
    destruct (IH q' q1 Hwf') as [H1 [H2 [[ls H3] [H4 H5]]]]; [|assumption|].
    { intros c Hc. destruct (Hdoc c (or_intror Hc)) as [dc [Hcd Hkc]].
      exists dc. split; [now apply Hmono|assumption]. }
    split; [assumption|]. split; [auto|].
    destruct (scan_step_shape q q' x d Hwf Hxd Hk Hx) as [->|[n [_ ->]]].
    + split; [now exists ls|]. split; assumption.
    + cbn [wrapped listeners isAllCollapsed next_id] in *.
      split; [exists (wrapper_listeners (next_id q) ++ ls); now rewrite H3, app_assoc|].
      split; [assumption|]. lia.
Qed.

(** X2: a scan that returns keeps the page well formed and takes nothing
    away: every element of the document is still in it with the tag,
    classes and attributes it had, the listeners there were are still
    registered in their order, and the aggregate state is untouched. *)
Theorem scan_keeps_the_document (p p1 : page) :
  wf p -> processMessages p = Ok tt p1 ->
  wf p1
  /\ (forall e, In e (doc_elements (roots p)) -> In e (doc_elements (roots p1)))
  /\ (exists ls, listeners p1 = listeners p ++ ls)
  /\ isAllCollapsed p1 = isAllCollapsed p
  /\ next_id p <= next_id p1.
Proof.
  intros Hwf Hrun. unfold processMessages, bind, read in Hrun.
  apply (scan_keeps (foundMessages (roots p)) p p1 Hwf); [|assumption].
  intros c Hc. now apply candidate_element.
Qed.

Lemma scan_keeps_the_document_witness :
  wf (page_of (processMessages sample_page))
  /\ (forall e, In e (doc_elements (roots sample_page)) ->
                In e (doc_elements (roots (page_of (processMessages sample_page)))))
  /\ (exists ls, listeners (page_of (processMessages sample_page))
                 = listeners sample_page ++ ls)
  /\ isAllCollapsed (page_of (processMessages sample_page)) = isAllCollapsed sample_page
  /\ next_id sample_page <= next_id (page_of (processMessages sample_page)).
Proof.
  apply (scan_keeps_the_document sample_page); [apply wfb_sound|];
    vm_compute; reflexivity.
Defined.

(* ================================================================== *)
(** * Below and above a wrapped element *)

Lemma find_node_smaller (x : nat) (m n : node) :
  find_node x m = Some n -> node_id m <> x ->
  List.length (ids n) < List.length (ids m).
Proof.
  revert n. induction m as [i s|i d ks IH] using node_ind'; intros n H Hne.
  - simpl in *. apply Nat.eqb_neq in Hne. rewrite Hne in H. discriminate.
  - simpl in *. pose proof Hne as Hne'. apply Nat.eqb_neq in Hne'. rewrite Hne' in H.
    apply first_some_in in H. destruct H as [k [Hk H]].
    rewrite Forall_forall in IH.
    assert (List.length (ids n) <= List.length (ids k)) as Hle.
    { destruct (Nat.eq_dec (node_id k) x) as [E|E].
      - rewrite <- E, find_here in H. inversion H. lia.
      - specialize (IH k Hk n H E). lia. }
    destruct (in_split k ks Hk) as [l1 [l2 ->]].
    rewrite flat_map_app. simpl. rewrite !length_app. lia.
Qed.

(** A proper ancestor of [x] is outside the subtree of [x]. *)
Lemma ancestor_outside (f : list node) (x y : nat) (n m : node) :
  NoDup (fids f) -> ffind x f = Some n -> ffind y f = Some m ->
  In x (ids m) -> y <> x -> In y (fskel x f).
Proof.
  intros Hnd Hx Hy Hin Hne.
  assert (In y (fids f)) as Hyf.
  { apply (ffind_sub y f m Hy). rewrite <- (ffind_id y f m Hy). apply ids_head. }
  destruct (inside_or_outside x y f n Hnd Hx Hyf) as [H|H]; [assumption|exfalso].
  destruct (find_node_in x m Hin) as [n' Hn'].
  pose proof (ffind_trans y x f m n' Hnd Hy Hn') as E. rewrite Hx in E.
  inversion E. subst n'.
  destruct (find_node_in y n H) as [m' Hm'].
  pose proof (ffind_trans x y f n m' Hnd Hx Hm') as E'. rewrite Hy in E'.
  inversion E'. subst m'.
  pose proof (find_node_smaller x m n Hn') as H1.
  pose proof (find_node_smaller y n m Hm') as H2.
  rewrite (ffind_id y f m Hy) in H1. rewrite (ffind_id x f n Hx) in H2.
  specialize (H1 Hne). specialize (H2 (fun E0 => Hne (eq_sym E0))). lia.
Qed.

Lemma ancestor_still_eligible (p : page) (x y : nat) (n m : node) :
  wf p -> ffind x (roots p) = Some n -> accepted x (roots p) = true ->
  ffind y (roots p) = Some m -> In x (ids m) -> y <> x ->
  in_wrapper y (roots (wrapped p x n)) = in_wrapper y (roots p)
  /\ accepted y (roots (wrapped p x n)) = true.
Proof.
  intros Hwf Hx Hacc Hy Hin Hne. pose proof (proj1 Hwf) as Hnd.
  pose proof (ancestor_outside (roots p) x y n m Hnd Hx Hy Hin Hne) as Hout.
  pose proof (wrapped_wf p x n Hwf Hx) as Hwf'.
  pose proof (wrapped_roots p x n) as HR. pose proof (W_local p x n Hwf Hx) as HW.
  assert (ffind x (roots (wrapped p x n)) = Some n) as Hx'.
  { rewrite (wrapped_ffind p x n Hwf Hx).
    - rewrite <- (ffind_id x _ n Hx). apply find_inner.
      intros z Hz. apply (proj2 Hwf). exact (ffind_sub _ _ _ Hx z Hz).
    - rewrite <- (ffind_id x _ n Hx). apply x_in_wrapper_tree. }
  pose proof (x_in_wrapper_tree (next_id p) (is_user x (roots p)) (is_assistant x (roots p))
                (preview_text (is_user x (roots p)) n) n) as HxW.
  remember (wrapper_tree (next_id p) (is_user x (roots p)) (is_assistant x (roots p))
              (preview_text (is_user x (roots p)) n) n) as W eqn:EW.
  assert (~ In y (fids [W])) as Hnew by (intros H; exact (HW y H Hout)).
  split.
  - unfold in_wrapper, closest. rewrite HR.
    now rewrite (fchain_out x y _ (roots p) Hnd (fun _ => Hout) Hnew).
  - assert (exists m', ffind y (roots (wrapped p x n)) = Some m' /\ In x (ids m'))
      as [m' [Hy' Hin']].
    { rewrite HR, (ffind_out x y _ (roots p) Hnd (fun _ => Hout) Hnew), Hy.
      assert ((node_id m =? x) = false) as E
          by (apply Nat.eqb_neq; now rewrite (ffind_id y _ m Hy)).
      destruct m as [i s|i d ks]; simpl in E |- *; rewrite E.
      - simpl in Hin. destruct Hin as [Hin|[]]. apply Nat.eqb_neq in E. congruence.
      - eexists. split; [reflexivity|].
        assert (In x (fids (rewrite_node x (fun _ => [W]) (Elem i d ks)))) as H.
        { apply ids_rewrite. right. split; [assumption|].
          apply in_W_fids. rewrite <- (ffind_id x _ n Hx). exact HxW. }
        simpl in H. rewrite E in H. simpl in H. now rewrite app_nil_r in H. }
    destruct (find_node_in x m' Hin') as [n' Hn'].
    pose proof (ffind_trans y x _ m' n' (proj1 Hwf') Hy' Hn') as E.
    rewrite Hx' in E. inversion E. subst n'.
    apply (accepted_up _ y x m' n Hy' Hx' Hn').
    rewrite <- Hacc. unfold accepted, text_length, has_structure, textContent, querySelector.
    now rewrite Hx', Hx.
Qed.

(** X3: once an element is wrapped, the element and everything below it
    is inside a wrapper and will not be wrapped again; an element above it
    that was outside every wrapper still is, and passes the filter, so a
    scan that comes to it wraps it too, around the wrapper just made. *)
Theorem wrapping_guards_below_not_above (p : page) (x : nat) (n : node) :
  wf p -> ffind x (roots p) = Some n ->
  parent_kind x (roots p) = Some KElement ->
  in_wrapper x (roots p) = false -> accepted x (roots p) = true ->
  exists p',
    addToggleToMessage x p = Ok tt p'
    /\ (forall c, In c (ids n) -> in_wrapper c (roots p') = true
                                  /\ process_one c p' = Ok tt p')
    /\ (forall y m, ffind y (roots p) = Some m -> In x (ids m) -> y <> x ->
                    in_wrapper y (roots p) = false ->
                    in_wrapper y (roots p') = false
                    /\ accepted y (roots p') = true
                    /\ process_one y p' = addToggleToMessage y p').
Proof.
  intros Hwf Hx Hk Hw Hacc. exists (wrapped p x n).
  assert (20 <= text_length x (roots p)) as Hlen.
  { unfold accepted in Hacc. apply andb_true_iff in Hacc. now apply Nat.leb_le. }
  split; [exact (addToggle_wraps p x n Hwf Hx Hk (closest_none x _ Hw) Hlen)|].
  split.
  - intros c Hc.
    assert (in_wrapper c (roots (wrapped p x n)) = true) as H.
    { apply (in_wrapper_closest p x n Hwf Hx). now apply ids_in_wrapper. }
    split; [assumption|]. apply process_one_settled. unfold settled. now rewrite H.
  - intros y m Hy Hin Hne Hwy.
    destruct (ancestor_still_eligible p x y n m Hwf Hx Hacc Hy Hin Hne) as [H1 H2].
    rewrite Hwy in H1. split; [assumption|]. split; [assumption|].
    apply process_one_open. unfold settled. now rewrite H1, H2.
Qed.

Lemma wrapping_guards_below_not_above_witness :
  exists p',
    addToggleToMessage 4 nested_page = Ok tt p'
    /\ (forall c, In c (ids (el 4 "div" ["prose"%string]
                              [Text 5 (lit "an answer that has more than fifty code units of text in it")])) ->
                  in_wrapper c (roots p') = true /\ process_one c p' = Ok tt p')
    /\ (forall y m, ffind y (roots nested_page) = Some m -> In 4 (ids m) -> y <> 4 ->
                    in_wrapper y (roots nested_page) = false ->
                    in_wrapper y (roots p') = false
                    /\ accepted y (roots p') = true
                    /\ process_one y p' = addToggleToMessage y p').
Proof.
  apply (wrapping_guards_below_not_above nested_page 4); [apply wfb_sound| | | |];
    vm_compute; reflexivity.
Defined.

(* ================================================================== *)
(** * When the transform throws *)

Lemma doc_elements_detached (f : list node) (n : node) :
  is_document n = false -> doc_elements (f ++ [n]) = doc_elements f.
Proof.
  intros H. unfold doc_elements. rewrite filter_app. simpl. rewrite H.
  now rewrite app_nil_r.
Qed.

(** X4: [addToggleToMessage] on an element of a well-formed page throws
    in one case only, when the element passes the guards and its parent is
    the Document; it then leaves the document, the listeners and the
    aggregate state as they were.  In every other case it returns. *)
Theorem addToggle_throws_only_under_the_document (p : page) (x : nat) (n : node) :
  wf p -> ffind x (roots p) = Some n -> is_element n = true ->
  (parent_kind x (roots p) <> Some KDocument ->
   exists p', addToggleToMessage x p = Ok tt p')
  /\ (forall p', addToggleToMessage x p = Throw p' ->
        parent_kind x (roots p) = Some KDocument
        /\ in_wrapper x (roots p) = false
        /\ 20 <= text_length x (roots p)
        /\ doc_elements (roots p') = doc_elements (roots p)
        /\ listeners p' = listeners p
        /\ isAllCollapsed p' = isAllCollapsed p)
  /\ (parent_kind x (roots p) = Some KDocument ->
      in_wrapper x (roots p) = false -> 20 <= text_length x (roots p) ->
      exists p', addToggleToMessage x p = Throw p').
Proof.
  intros Hwf Hn Hel.
  assert (forall par pd pks, parentNode x (roots p) = Some par ->
            ffind par (roots p) = Some (Elem par pd pks) ->
            existsb (fun k => node_id k =? x) pks = true ->
            existsb is_element pks = true) as Hkid.
  { intros par pd pks Hp Hf He. apply existsb_exists in He.
    destruct He as [k [Hk E]]. apply Nat.eqb_eq in E.
    apply existsb_exists. exists k. split; [assumption|].
    assert (ffind x (roots p) = Some k) as Hk'.
    { apply (ffind_trans par x (roots p) _ k (proj1 Hwf) Hf). simpl.
      destruct (Nat.eqb_spec par x) as [E'|E'].
      - exfalso. subst par. pose proof (NoDup_ffind _ _ _ (proj1 Hwf) Hf) as Hnd.
        simpl in Hnd. inversion Hnd as [|? ? Hni _]. apply Hni.
        apply in_fids. exists k. split; [assumption|]. rewrite <- E. apply ids_head.
      - rewrite <- E. apply (ffind_unique (node_id k) pks k k).
        + pose proof (NoDup_ffind _ _ _ (proj1 Hwf) Hf) as Hnd. simpl in Hnd.
          now inversion Hnd.
        + assumption.
        + apply find_here. }
    rewrite Hn in Hk'. congruence. }
  assert (is_some (closest x sel_wrapper (roots p)) = true
          \/ text_length x (roots p) < 20
          \/ (in_wrapper x (roots p) = false /\ 20 <= text_length x (roots p))) as Hg.
  { unfold in_wrapper. destruct (is_some (closest x sel_wrapper (roots p))); [now left|].
    right. destruct (Nat.lt_ge_cases (text_length x (roots p)) 20); [now left|now right]. }
  assert (forall q, q = with_orphan p x ->
            doc_elements (roots q) = doc_elements (roots p)
            /\ listeners q = listeners p /\ isAllCollapsed q = isAllCollapsed p) as Ho.
  { intros q ->. unfold with_orphan. cbn [roots listeners isAllCollapsed].
    split; [|split; reflexivity]. now apply doc_elements_detached. }
  destruct Hg as [Hg|[Hg|[Hw Hl]]].
  1,2: pose proof (addToggle_skips p x) as Hs; unfold text_length in Hg;
    rewrite Hs by tauto; split; [now eexists|]; split; [discriminate|];
    intros _ Hw' Hl'; exfalso; unfold in_wrapper, text_length in *;
    first [rewrite Hg in Hw'; discriminate | lia].
  destruct (parentNode x (roots p)) as [par|] eqn:Hp.
  - destruct (parentNode_spec x par (roots p) (proj1 Hwf) Hp) as [pd [pks [Hf He]]].
    assert (parent_kind x (roots p) = Some (kind pd)) as Hpk.
    { unfold parent_kind. now rewrite Hp, (data_of_find _ _ _ _ Hf). }
    destruct (kind pd) eqn:Ek.
    + rewrite (addToggle_wraps p x n Hwf Hn Hpk (closest_none x _ Hw) Hl).
      split; [now eexists|]. split; [discriminate|]. rewrite Hpk. discriminate.
    + assert (addToggleToMessage x p = Throw (with_orphan p x)) as Hrun.
      { destruct Hwf as [Hnd Hlt]. rewrite (page_eta p) at 1.
        exact (addToggle_throw_run (roots p) (next_id p) x n (listeners p)
                 (isAllCollapsed p) Hlt Hn (closest_none x _ Hw) Hl par pd pks Hp Hf
                 (Hkid par pd pks eq_refl Hf He) Ek). }
      rewrite Hrun. split; [intros H; now elim H|].
      split; [|intros; now eexists].
      intros p' E. inversion E. subst p'.
      destruct (Ho _ eq_refl) as [H1 [H2 H3]]. auto 10.
  - assert (parent_kind x (roots p) = None) as Hpk
        by (unfold parent_kind; now rewrite Hp).
    rewrite (addToggle_orphan p x Hwf Hp (closest_none x _ Hw) Hl).
    split; [now eexists|]. split; [discriminate|]. rewrite Hpk. discriminate.
Qed.

Lemma addToggle_throws_only_under_the_document_witness :
  (parent_kind 1 (roots root_candidate_page) <> Some KDocument ->
   exists p', addToggleToMessage 1 root_candidate_page = Ok tt p')
  /\ (forall p', addToggleToMessage 1 root_candidate_page = Throw p' ->
        parent_kind 1 (roots root_candidate_page) = Some KDocument
        /\ in_wrapper 1 (roots root_candidate_page) = false
        /\ 20 <= text_length 1 (roots root_candidate_page)
        /\ doc_elements (roots p') = doc_elements (roots root_candidate_page)
        /\ listeners p' = listeners root_candidate_page
        /\ isAllCollapsed p' = isAllCollapsed root_candidate_page)
  /\ (parent_kind 1 (roots root_candidate_page) = Some KDocument ->
      in_wrapper 1 (roots root_candidate_page) = false ->
      20 <= text_length 1 (roots root_candidate_page) ->
      exists p', addToggleToMessage 1 root_candidate_page = Throw p').
Proof.
  destruct (ffind 1 (roots root_candidate_page)) as [n|] eqn:E;
    [|vm_compute in E; discriminate].
  apply (addToggle_throws_only_under_the_document root_candidate_page 1 n);
    [apply wfb_sound; vm_compute; reflexivity | exact E |].
  vm_compute in E. inversion E. vm_compute. reflexivity.
Defined.

(* ================================================================== *)
(** * The role classes of a wrapper *)

Lemma prefix_refl (s : string) : String.prefix s s = true.
Proof.
  induction s as [|c s IH]; simpl; [reflexivity|].
  destruct (Ascii.ascii_dec c c); [assumption|congruence].
Qed.

Lemma contains_refl (s : string) : contains s s = true.
Proof.
  assert (contains s s = String.prefix s s
                         || match s with EmptyString => false | String _ r => contains s r end)
    as -> by (destruct s; reflexivity).
  now rewrite prefix_refl.
Qed.

Lemma mem_contains (c : string) (l : list string) :
  str_mem c l = true -> existsb (contains c) l = true.
Proof.
  unfold str_mem. intros H. apply existsb_exists in H. destruct H as [y [Hy E]].
  apply String.eqb_eq in E. subst y. apply existsb_exists. exists c.
  split; [assumption|apply contains_refl].
Qed.

(** The chain of an element starts with the element. *)
Lemma chain_head (x : nat) (n : node) :
  (find_node x n = None -> chain x n = None)
  /\ (forall d ks, find_node x n = Some (Elem x d ks) ->
                   exists c, chain x n = Some ((x, d) :: c)).
Proof.
  induction n as [i s|i e l IH] using node_ind'.
  - simpl. destruct (i =? x); split; try discriminate; auto.
  - simpl. destruct (Nat.eqb_spec i x) as [E|E].
    + split; [discriminate|]. intros d ks H. inversion H. subst. now exists [].
    + assert ((first_some (find_node x) l = None -> first_some (chain x) l = None)
              /\ (forall d ks, first_some (find_node x) l = Some (Elem x d ks) ->
                               exists c, first_some (chain x) l = Some ((x, d) :: c)))
        as [H1 H2].
      { induction l as [|k l IHl]; [split; [reflexivity|discriminate]|].
        inversion IH as [|? ? [Hk1 Hk2] Hl]; subst. specialize (IHl Hl).
        simpl. destruct (find_node x k) as [m|] eqn:Ek.
        - split; [discriminate|]. intros d ks H. inversion H. subst m.
          destruct (Hk2 d ks eq_refl) as [c ->]. now exists c.
        - rewrite (Hk1 eq_refl). exact IHl. }
      split.
      * intros H. now rewrite (H1 H).
      * intros d ks H. destruct (H2 d ks H) as [c ->]. now exists (c ++ [(i, e)]).
Qed.

Lemma fchain_head (x : nat) (f : list node) (d : edata) (ks : list node) :
  ffind x f = Some (Elem x d ks) -> exists c, fchain x f = (x, d) :: c.
Proof.
  unfold ffind, fchain. induction f as [|k f IH]; [discriminate|].
  simpl. destruct (find_node x k) as [m|] eqn:Ek.
  - intros H. inversion H. subst m.
    destruct (proj2 (chain_head x k) d ks Ek) as [c ->]. now exists c.
  - rewrite (proj1 (chain_head x k) Ek). exact IH.
Qed.

Lemma closest_some (x : nat) (sel : selector) (f : list node) :
  is_some (closest x sel f) = existsb (fun e => matches sel (snd e)) (fchain x f).
Proof.
  unfold closest, select. induction (fchain x f) as [|e c IH]; [reflexivity|].
  simpl. destruct (matches sel (snd e)); [reflexivity|exact IH].
Qed.

(** The class test on the element is covered by the test on its chain. *)
Lemma role_by_chain (x : nat) (v : string) (f : list node) (d : edata) (ks : list node) :
  ffind x f = Some (Elem x d ks) -> kind d = KElement ->
  classList_contains x v f || is_some (closest x [[SClassSub v]] f)
  = role_in_chain v x f.
Proof.
  intros Hf Hk. unfold role_in_chain. rewrite closest_some.
  assert (forall c, existsb (fun e => matches [[SClassSub v]] (snd e)) c
                    = existsb (fun e => existsb (contains v) (classes (snd e))
                        && match kind (snd e) with KElement => true | KDocument => false end) c)
    as ->.
  { intros c. induction c as [|e c IH]; [reflexivity|]. simpl. rewrite IH. f_equal.
    unfold matches. destruct (kind (snd e)); simpl;
      now rewrite ?andb_true_r, ?andb_false_r, ?orb_false_r. }
  destruct (fchain_head x f d ks Hf) as [c Hc]. rewrite Hc. simpl. rewrite Hk, andb_true_r.
  unfold classList_contains. rewrite (data_of_find _ _ _ _ Hf).
  destruct (str_mem v (classes d)) eqn:E; [|reflexivity].
  now rewrite (mem_contains _ _ E).
Qed.

(** X5: the wrapper of an element has the class [user-message] exactly
    when the element or one of its ancestor elements has a class with
    [user] in its name, the class [assistant-message] exactly when one has
    a class with [assistant] in its name; the two do not exclude each other,
    and the test for a class named [user] or [assistant] on the element
    itself adds nothing to them. *)
Theorem wrapper_role_classes (p : page) (x : nat) (d : edata) (ks : list node) :
  wf p -> ffind x (roots p) = Some (Elem x d ks) -> kind d = KElement ->
  parent_kind x (roots p) = Some KElement ->
  in_wrapper x (roots p) = false -> 20 <= text_length x (roots p) ->
  exists p',
    addToggleToMessage x p = Ok tt p'
    /\ classList_contains (next_id p) "message-wrapper" (roots p') = true
    /\ classList_contains (next_id p) "user-message" (roots p') = role_in_chain "user" x (roots p)
    /\ classList_contains (next_id p) "assistant-message" (roots p')
       = role_in_chain "assistant" x (roots p).
Proof.
  intros Hwf Hn Hk Hpk Hw Hl. exists (wrapped p x (Elem x d ks)).
  split; [exact (addToggle_wraps p x _ Hwf Hn Hpk (closest_none x _ Hw) Hl)|].
  assert (data_of (next_id p) (roots (wrapped p x (Elem x d ks)))
          = Some (div (wrapper_classes (is_user x (roots p)) (is_assistant x (roots p)))))
    as Hd.
  { unfold data_of. rewrite (wrapped_ffind p x _ Hwf Hn).
    - unfold wrapper_tree. cbn [find_node]. now rewrite Nat.eqb_refl.
    - apply (in_wrapper_tree_new _ _ _ _ _ 0). lia. }
  unfold classList_contains. rewrite Hd.
  rewrite <- !(role_by_chain x _ (roots p) d ks Hn Hk).
  fold sel_user. fold sel_assistant. fold (is_user x (roots p)).
  fold (is_assistant x (roots p)).
  destruct (is_user x (roots p)), (is_assistant x (roots p)); repeat split; reflexivity.
Qed.

Lemma wrapper_role_classes_witness :
  exists p',
    addToggleToMessage 4 sample_page = Ok tt p'
    /\ classList_contains (next_id sample_page) "message-wrapper" (roots p') = true
    /\ classList_contains (next_id sample_page) "user-message" (roots p')
       = role_in_chain "user" 4 (roots sample_page)
    /\ classList_contains (next_id sample_page) "assistant-message" (roots p')
       = role_in_chain "assistant" 4 (roots sample_page).
Proof.
  apply (wrapper_role_classes sample_page 4
           (mkData KElement "div" ["message"; "user"]%string [] [])
           [ el 5 "p" [] [Text 6 (lit "Hello, how are you today please respond")] ]);
    [apply wfb_sound| | | | |]; vm_compute; solve [reflexivity | lia].
Defined.

(* ================================================================== *)
(** * The document after a subtree was replaced *)

Lemma elements_new (x : nat) (d : edata) (l : list node) (e : nat * edata) (k : node) :
  In (x, d) (elements k) -> In e (flat_map elements l) ->
  In e (flat_map elements (rewrite_node x (fun _ => l) k)).
Proof.
  intros Hx He. induction k as [i s|i dd ks IH] using node_ind'; [destruct Hx|].
  simpl. destruct (Nat.eqb_spec i x) as [E|E]; [assumption|].
  simpl in Hx. destruct Hx as [Hx|Hx]; [congruence|].
  simpl. rewrite app_nil_r. right.
  apply in_flat_map in Hx. destruct Hx as [k [Hk Hx]].
  rewrite flat_map_comp. apply in_flat_map. exists k. split; [assumption|].
  rewrite Forall_forall in IH. now apply IH.
Qed.

Lemma document_rewritten (x : nat) (l f : list node) (i : nat) (dd : edata)
      (ks : list node) :
  In (Elem i dd ks) (filter is_document f) -> i <> x ->
  In (Elem i dd (flat_map (rewrite_node x (fun _ => l)) ks))
     (filter is_document (frewrite x (fun _ => l) f)).
Proof.
  intros Hr Hix. apply filter_In in Hr. destruct Hr as [Hr Hd].
  apply filter_In. split; [|exact Hd].
  unfold frewrite. apply in_flat_map. exists (Elem i dd ks). split; [assumption|].
  simpl. apply Nat.eqb_neq in Hix. rewrite Hix. now left.
Qed.

(** What replaces a node of the document is in the document. *)
Lemma doc_elements_new (x : nat) (d : edata) (l f : list node) (e : nat * edata) :
  NoDup (fids f) -> In (x, d) (doc_elements f) -> In e (flat_map elements l) ->
  In e (doc_elements (frewrite x (fun _ => l) f)).
Proof.
  intros Hnd Hx He. unfold doc_elements in *. apply in_flat_map in Hx.
  destruct Hx as [r [Hr Hx]]. destruct r as [i s|i dd ks]; [destruct Hx|].
  pose proof Hr as Hr'. apply filter_In in Hr'. destruct Hr' as [Hrf _].
  pose proof (NoDup_kid f _ Hnd Hrf) as Hndr.
  destruct (NoDup_elem i dd ks Hndr) as [Hi _].
  unfold descendants in Hx. simpl in Hx.
  assert (i <> x) as Hix.
  { intros ->. apply Hi. apply in_flat_map in Hx. destruct Hx as [k [Hk Hx]].
    apply in_fids. exists k. split; [assumption|exact (elements_ids _ _ Hx)]. }
  apply in_flat_map. eexists. split; [exact (document_rewritten x l f i dd ks Hr Hix)|].
  unfold descendants. simpl. apply in_flat_map in Hx. destruct Hx as [k [Hk Hx]].
  rewrite flat_map_comp. apply in_flat_map. exists k. split; [assumption|].
  exact (elements_new x d l e k Hx He).
Qed.

(** What was in the document stays, when the replacement holds the
    elements of the node it replaces. *)
Lemma doc_elements_stay (x : nat) (n : node) (l f : list node) (e : nat * edata) :
  NoDup (fids f) -> ffind x f = Some n -> is_document n = false ->
  incl (elements n) (flat_map elements l) ->
  In e (doc_elements f) -> In e (doc_elements (frewrite x (fun _ => l) f)).
Proof.
  intros Hnd Hx Hdoc Hl He. unfold doc_elements in *. apply in_flat_map in He.
  destruct He as [r [Hr He]]. pose proof Hr as Hr'. apply filter_In in Hr'.
  destruct Hr' as [Hrf Hrd].
  assert (forall m, find_node x r = Some m -> m = n) as Hat.
  { intros m Hm. pose proof (ffind_unique x f r m Hnd Hrf Hm) as E.
    rewrite Hx in E. now inversion E. }
  destruct r as [i s|i d ks]; [discriminate|].
  assert (i <> x) as Hix.
  { intros ->. assert (Elem x d ks = n) as <- by (apply Hat; simpl; now rewrite Nat.eqb_refl).
    rewrite Hrd in Hdoc. discriminate. }
  apply in_flat_map. eexists. split; [exact (document_rewritten x l f i d ks Hr Hix)|].
  unfold descendants in *. simpl in *. apply in_flat_map in He.
  destruct He as [k [Hk He]]. rewrite flat_map_comp. apply in_flat_map.
  exists k. split; [assumption|].
  pose proof (NoDup_kid f _ Hnd Hrf) as Hndr.
  destruct (NoDup_elem i d ks Hndr) as [_ Hks].
  apply (elements_kept x n l k); [now apply (NoDup_kid ks)| |assumption|assumption].
  intros m Hm. apply Hat. simpl. apply Nat.eqb_neq in Hix. rewrite Hix.
  exact (ffind_unique x ks k m Hks Hk Hm).
Qed.

(* ================================================================== *)
(** * The global button, inserted once *)

Lemma document_body_in_document (c : nat) (f : list node) :
  document_body f = Some c ->
  exists d, In (c, d) (doc_elements f) /\ kind d = KElement.
Proof.
  unfold document_body, document_element, doc_elements.
  destruct (filter is_document f) as [|r rs] eqn:Ef; [discriminate|].
  destruct (find is_element (kids r)) as [h|] eqn:Eh; [|discriminate].
  apply find_some in Eh. destruct Eh as [Hh _].
  destruct h as [|hi hd hks]; [discriminate|].
  destruct (String.eqb (tag hd) "html"); [|discriminate].
  destruct (find _ hks) as [k|] eqn:Ek; [|discriminate]. simpl.
  intros [= <-]. apply find_some in Ek. destruct Ek as [Hk Hel].
  destruct k as [|ki kd kks]; [discriminate|]. exists kd. split.
  - simpl. apply in_or_app. left. unfold descendants. apply in_flat_map.
    exists (Elem hi hd hks). split; [assumption|]. simpl. right.
    apply in_flat_map. exists (Elem ki kd kks). split; [assumption|now left].
  - apply andb_prop in Hel. destruct Hel as [Hel _].
    unfold is_element in Hel. simpl in Hel. now destruct (kind kd).
Qed.

Lemma container_in_document (c : nat) (f : list node) :
  find is_some (possibleContainers f) = Some (Some c) ->
  exists d, In (c, d) (doc_elements f) /\ kind d = KElement.
Proof.
  intros H. apply find_some in H. destruct H as [H _].
  unfold possibleContainers in H. simpl in H.
  destruct H as [H|[H|[H|[H|[H|[]]]]]]; try exact (document_body_in_document c f H).
  all: apply hd_error_in, select_in in H; destruct H as [d [Hd Hm]];
    exists d; split; [exact Hd | exact (matches_element _ _ Hm)].
Qed.

Lemma insert_button_present (p : page) :
  is_some (getElementById "collapse-all-btn" (roots p)) = true ->
  insertCollapseAllButton p = Ok tt p.
Proof.
  intros H. unfold insertCollapseAllButton, bind, read, ret.
  now destruct (getElementById "collapse-all-btn" (roots p)).
Qed.

Lemma insert_button_nowhere (p : page) :
  find is_some (possibleContainers (roots p)) = None ->
  insertCollapseAllButton p = Ok tt p.
Proof.
  intros H. unfold insertCollapseAllButton, bind, read, ret.
  destruct (getElementById "collapse-all-btn" (roots p)); [reflexivity|].
  cbn [is_some]. now rewrite H.
Qed.

Lemma button_in_container (b c : nat) (cd : edata) (cks : list node) :
  In (b, mkData KElement "button" ["collapse-all-button"%string]
            [("id", "collapse-all-btn")%string] [])
     (flat_map elements
        [Elem c cd (if appends_button (tag cd)
                                then cks ++ [button_tree b] else button_tree b :: cks)]).
Proof.
  simpl. right. rewrite app_nil_r.
  destruct (appends_button (tag cd)).
  - rewrite flat_map_app. apply in_or_app. right. now left.
  - now left.
Qed.

Lemma with_button_wf (p : page) (c : nat) (cd : edata) (cks : list node) :
  wf p -> ffind c (roots p) = Some (Elem c cd cks) -> wf (with_button p c cd cks).
Proof.
  intros Hwf HC. split; [exact (NoDup_with_button p c cd cks Hwf HC)|].
  destruct Hwf as [Hnd Hlt]. unfold with_button. cbn [roots next_id].
  intros y Hy. apply fids_frewrite in Hy. destruct Hy as [Hy|[_ Hy]].
  - apply fskel_sub in Hy. apply Hlt in Hy. lia.
  - cbn [fids flat_map ids] in Hy. rewrite app_nil_r in Hy.
    assert (forall z, In z (fids cks) -> z < 10 + next_id p) as Hk.
    { intros z Hz. assert (z < next_id p); [|lia].
      apply Hlt. apply (ffind_sub _ _ _ HC). now right. }
    assert (forall z, In z (fids [button_tree (next_id p)]) -> z < 10 + next_id p) as Hb.
    { intros z Hz. cbn [fids flat_map] in Hz. rewrite app_nil_r in Hz.
      apply ids_button in Hz. lia. }
    destruct Hy as [<-|Hy].
    + assert (c < next_id p); [|lia].
      apply Hlt. apply (ffind_sub _ _ _ HC). now left.
    + destruct (appends_button (tag cd)).
      * unfold fids in Hy. rewrite flat_map_app in Hy. apply in_app_or in Hy.
        destruct Hy as [Hy|Hy]; [now apply Hk|now apply Hb].
      * change (button_tree (next_id p) :: cks) with ([button_tree (next_id p)] ++ cks) in Hy.
        unfold fids in Hy. rewrite flat_map_app in Hy. apply in_app_or in Hy.
        destruct Hy as [Hy|Hy]; [now apply Hb|now apply Hk].
Qed.

Lemma with_button_found (p : page) (c : nat) (cd : edata) (cks : list node) :
  wf p -> In (c, cd) (doc_elements (roots p)) ->
  is_some (getElementById "collapse-all-btn" (roots (with_button p c cd cks))) = true.
Proof.
  intros Hwf Hc. unfold getElementById, doc_querySelector, doc_querySelectorAll.
  fold (doc_elements (roots (with_button p c cd cks))).
  pose proof (doc_elements_new c cd _ (roots p) _ (proj1 Hwf) Hc
                (button_in_container (next_id p) c cd cks)) as H.
  assert (roots (with_button p c cd cks)
          = frewrite c (fun _ => [Elem c cd (if appends_button (tag cd)
                                             then cks ++ [button_tree (next_id p)]
                                             else button_tree (next_id p) :: cks)])
              (roots p)) as HR by reflexivity.
  rewrite HR.
  pose proof (select_intro [[SId "collapse-all-btn"]] _ _ _ H eq_refl) as Hs.
  destruct (select _ _); [destruct Hs|reflexivity].
Qed.

Lemma with_button_keeps (p : page) (c : nat) (cd : edata) (cks : list node)
      (e : nat * edata) :
  wf p -> ffind c (roots p) = Some (Elem c cd cks) -> kind cd = KElement ->
  In e (doc_elements (roots p)) -> In e (doc_elements (roots (with_button p c cd cks))).
Proof.
  intros Hwf HC Hk He. unfold with_button. cbn [roots].
  apply (doc_elements_stay c (Elem c cd cks)); try assumption.
  - exact (proj1 Hwf).
  - unfold is_document. simpl. now rewrite Hk.
  - intros z Hz. cbn [elements flat_map] in Hz |- *. rewrite app_nil_r.
    destruct Hz as [Hz|Hz]; [now left|right].
    destruct (appends_button (tag cd)).
    + rewrite flat_map_app. apply in_or_app. now left.
    + cbn [flat_map]. apply in_or_app. now right.
Qed.

(** X6: [insertCollapseAllButton] on a well-formed page returns; if the
    page has one of the containers, the document then holds an element of
    id [collapse-all-btn], and a second call changes nothing: the button is
    inserted once.  The call takes no element out of the document, adds at
    most the listener of the new button, and leaves the aggregate state. *)
Theorem button_is_inserted_once (p : page) :
  wf p ->
  exists p',
    insertCollapseAllButton p = Ok tt p'
    /\ wf p'
    /\ insertCollapseAllButton p' = Ok tt p'
    /\ (find is_some (possibleContainers (roots p)) <> None ->
        is_some (getElementById "collapse-all-btn" (roots p')) = true)
    /\ (forall e, In e (doc_elements (roots p)) -> In e (doc_elements (roots p')))
    /\ (listeners p' = listeners p
        \/ (getElementById "collapse-all-btn" (roots p) = None
            /\ listeners p' = listeners p ++ [(next_id p, HToggleAll)]))
    /\ isAllCollapsed p' = isAllCollapsed p.
Proof.
  intros Hwf.
  destruct (getElementById "collapse-all-btn" (roots p)) as [b0|] eqn:Eb.
  - exists p. assert (insertCollapseAllButton p = Ok tt p) as H
        by (apply insert_button_present; now rewrite Eb).
    split; [assumption|]. split; [assumption|]. split; [assumption|].
    split; [intros _; now rewrite Eb|]. split; [auto|]. split; [now left|reflexivity].
  - destruct (find is_some (possibleContainers (roots p))) as [[c|]|] eqn:Ec.
    + destruct (container_found c (roots p) (proj1 Hwf) Ec) as [cd [cks [HC Hkind]]].
      destruct (container_in_document c (roots p) Ec) as [cd' [Hdoc _]].
      destruct (doc_elements_find c cd' (roots p) (proj1 Hwf) Hdoc) as [cks' HC'].
      rewrite HC in HC'. inversion HC'. subst cd' cks'. clear HC'.
      exists (with_button p c cd cks).
      pose proof (with_button_found p c cd cks Hwf Hdoc) as Hfound.
      split.
      { rewrite (page_eta p) at 1.
        apply insert_button_run; try assumption; [exact (proj1 Hwf) | exact (proj2 Hwf)]. }
      split; [exact (with_button_wf p c cd cks Hwf HC)|].
      split; [exact (insert_button_present _ Hfound)|].
      split; [intros _; exact Hfound|].
      split; [intros e; exact (with_button_keeps p c cd cks e Hwf HC Hkind)|].
      split; [right; split; reflexivity|reflexivity].
    + apply find_some in Ec. destruct Ec as [_ Ec]. discriminate.
    + exists p. pose proof (insert_button_nowhere p Ec) as H.
      split; [assumption|]. split; [assumption|]. split; [assumption|].
      split; [intros H'; now elim H'|]. split; [auto|]. split; [now left|reflexivity].
Qed.

Lemma button_is_inserted_once_witness :
  exists p',
    insertCollapseAllButton sample_page = Ok tt p'
    /\ wf p'
    /\ insertCollapseAllButton p' = Ok tt p'
    /\ (find is_some (possibleContainers (roots sample_page)) <> None ->
        is_some (getElementById "collapse-all-btn" (roots p')) = true)
    /\ (forall e, In e (doc_elements (roots sample_page)) -> In e (doc_elements (roots p')))
    /\ (listeners p' = listeners sample_page
        \/ (getElementById "collapse-all-btn" (roots sample_page) = None
            /\ listeners p' = listeners sample_page ++ [(next_id sample_page, HToggleAll)]))
    /\ isAllCollapsed p' = isAllCollapsed sample_page.
Proof.
  apply (button_is_inserted_once sample_page). apply wfb_sound. vm_compute. reflexivity.
Defined.

(* ================================================================== *)
(** * One click on a toggle *)

Lemma handleToggle_on (p : page) (c t w ct : nat) :
  closest c sel_wrapper (roots p) = Some w ->
  querySelector w sel_content (roots p) = Some ct ->
  handleToggle c t p
  = Ok tt (with_roots (set_state (negb (collapsed ct (roots p))) ct t) p).
Proof.
  intros Hw Hct. rewrite (page_eta p) at 1. rewrite handleToggle_run, Hw, Hct.
  reflexivity.
Qed.

Lemma handleToggle_off (p : page) (c t : nat) :
  closest c sel_wrapper (roots p) = None
  \/ (exists w, closest c sel_wrapper (roots p) = Some w
                /\ querySelector w sel_content (roots p) = None) ->
  handleToggle c t p = Ok tt p.
Proof.
  intros H. rewrite (page_eta p) at 1. rewrite handleToggle_run.
  destruct H as [->|[w [-> ->]]]; now destruct p.
Qed.

(** X7: a click on the toggle or the line of a wrapper inverts the state
    of the content region and gives the toggle that new state, whatever the
    toggle showed before; no other element changes its markers, the
    aggregate state and the listeners stay, and a second click brings the
    content region back.  Outside a wrapper, or in a wrapper without a
    content region, the click does nothing. *)
Theorem handleToggle_flips_its_wrapper (p : page) (c t : nat) :
  wf p -> is_some (data_of c (roots p)) = true -> is_some (data_of t (roots p)) = true ->
  exists p',
    handleToggle c t p = Ok tt p'
    /\ wf p'
    /\ next_id p' = next_id p /\ listeners p' = listeners p
    /\ isAllCollapsed p' = isAllCollapsed p
    /\ ((closest c sel_wrapper (roots p) = None
         \/ (exists w, closest c sel_wrapper (roots p) = Some w
                       /\ querySelector w sel_content (roots p) = None)) ->
        p' = p)
    /\ (forall w ct,
          closest c sel_wrapper (roots p) = Some w ->
          querySelector w sel_content (roots p) = Some ct ->
          collapsed ct (roots p') = negb (collapsed ct (roots p))
          /\ collapsed t (roots p') = negb (collapsed ct (roots p))
          /\ aria t (roots p') = Some (aria_of (negb (collapsed ct (roots p))))
          /\ (forall i, i <> ct -> i <> t ->
                        collapsed i (roots p') = collapsed i (roots p))
          /\ (forall i, i <> t -> aria i (roots p') = aria i (roots p))
          /\ exists p'',
               handleToggle c t p' = Ok tt p''
               /\ collapsed ct (roots p'') = collapsed ct (roots p)
               /\ collapsed t (roots p'') = collapsed ct (roots p)
               /\ aria t (roots p'') = Some (aria_of (collapsed ct (roots p)))).
Proof.
  intros Hwf Hc Ht. pose proof (proj1 Hwf) as Hnd.
  destruct (closest c sel_wrapper (roots p)) as [w|] eqn:Ew.
  2:{ exists p. rewrite (handleToggle_off p c t) by (left; exact Ew).
      split; [reflexivity|]. split; [assumption|]. do 3 (split; [reflexivity|]).
      split; [reflexivity|]. intros w ct E. discriminate. }
  destruct (querySelector w sel_content (roots p)) as [ct|] eqn:Ect.
  2:{ exists p. rewrite (handleToggle_off p c t) by (right; exists w; now split).
      split; [reflexivity|]. split; [assumption|]. do 3 (split; [reflexivity|]).
      split; [reflexivity|]. intros w' ct E E'. inversion E. subst w'.
      rewrite Ect in E'. discriminate. }
  set (s := collapsed ct (roots p)).
  exists (with_roots (set_state (negb s) ct t) p).
  pose proof (selected_element w ct sel_content (roots p) Hnd Ect) as Hd.
  pose proof (stable_set_state (negb s) ct t (roots p) Hnd) as Hst.
  pose proof (fids_set_state (negb s) ct t (roots p) Hnd) as Hfi.
  assert (wf (with_roots (set_state (negb s) ct t) p)) as Hwf'.
  { split; unfold with_roots; cbn [roots next_id]; rewrite Hfi; [assumption|exact (proj2 Hwf)]. }
  split; [exact (handleToggle_on p c t w ct Ew Ect)|].
  split; [assumption|]. do 3 (split; [reflexivity|]).
  split.
  { intros [E|[w' [E1 E]]]; [discriminate|]. inversion E1. subst w'.
    rewrite Ect in E. discriminate. }
  intros w' ct' E E'. inversion E. subst w'. rewrite Ect in E'. inversion E'. subst ct'.
  clear E E'. unfold with_roots. cbn [roots].
  assert (collapsed ct (set_state (negb s) ct t (roots p)) = negb s) as Hc1.
  { rewrite collapsed_set_state by assumption. now rewrite Nat.eqb_refl. }
  split; [exact Hc1|].
  split; [rewrite collapsed_set_state by assumption;
          now rewrite Nat.eqb_refl, orb_true_r|].
  split; [rewrite aria_set_state by assumption; now rewrite Nat.eqb_refl|].
  split.
  { intros i H1 H2. rewrite collapsed_set_state by assumption.
    apply Nat.eqb_neq in H1, H2. now rewrite H1, H2. }
  split.
  { intros i H2. rewrite aria_set_state by assumption.
    apply Nat.eqb_neq in H2. now rewrite H2. }
  set (q := mkPage (set_state (negb s) ct t (roots p)) (next_id p) (listeners p)
                   (isAllCollapsed p)).
  assert (closest c sel_wrapper (roots q) = Some w) as Ew'.
  { cbn [q roots]. rewrite (st_chain _ _ Hst c sel_wrapper eq_refl Hc). exact Ew. }
  assert (querySelector w sel_content (roots q) = Some ct) as Ect'.
  { cbn [q roots]. rewrite (stable_querySelector _ _ w sel_content Hst eq_refl). exact Ect. }
  exists (with_roots (set_state (negb (collapsed ct (roots q))) ct t) q).
  split; [exact (handleToggle_on q c t w ct Ew' Ect')|].
  cbn [q roots with_roots]. rewrite Hc1, negb_involutive.
  assert (is_some (data_of ct (set_state (negb s) ct t (roots p))) = true) as Hd'
      by (rewrite (st_elem _ _ Hst); exact Hd).
  assert (is_some (data_of t (set_state (negb s) ct t (roots p))) = true) as Ht'
      by (rewrite (st_elem _ _ Hst); exact Ht).
  assert (NoDup (fids (set_state (negb s) ct t (roots p)))) as Hnd' by now rewrite Hfi.
  split; [rewrite collapsed_set_state by assumption; now rewrite Nat.eqb_refl|].
  split; [rewrite collapsed_set_state by assumption;
          now rewrite Nat.eqb_refl, orb_true_r|].
  rewrite aria_set_state by assumption. now rewrite Nat.eqb_refl.
Qed.

Lemma handleToggle_flips_its_wrapper_witness :
  exists p',
    handleToggle 20 21 scanned_page = Ok tt p'
    /\ wf p'
    /\ next_id p' = next_id scanned_page /\ listeners p' = listeners scanned_page
    /\ isAllCollapsed p' = isAllCollapsed scanned_page
    /\ ((closest 20 sel_wrapper (roots scanned_page) = None
         \/ (exists w, closest 20 sel_wrapper (roots scanned_page) = Some w
                       /\ querySelector w sel_content (roots scanned_page) = None)) ->
        p' = scanned_page)
    /\ (forall w ct,
          closest 20 sel_wrapper (roots scanned_page) = Some w ->
          querySelector w sel_content (roots scanned_page) = Some ct ->
          collapsed ct (roots p') = negb (collapsed ct (roots scanned_page))
          /\ collapsed 21 (roots p') = negb (collapsed ct (roots scanned_page))
          /\ aria 21 (roots p') = Some (aria_of (negb (collapsed ct (roots scanned_page))))
          /\ (forall i, i <> ct -> i <> 21 ->
                        collapsed i (roots p') = collapsed i (roots scanned_page))
          /\ (forall i, i <> 21 -> aria i (roots p') = aria i (roots scanned_page))
          /\ exists p'',
               handleToggle 20 21 p' = Ok tt p''
               /\ collapsed ct (roots p'') = collapsed ct (roots scanned_page)
               /\ collapsed 21 (roots p'') = collapsed ct (roots scanned_page)
               /\ aria 21 (roots p'') = Some (aria_of (collapsed ct (roots scanned_page)))).
Proof.
  apply (handleToggle_flips_its_wrapper scanned_page 20 21); [apply wfb_sound| |];
    vm_compute; reflexivity.
Defined.

(* ================================================================== *)
(** * The global toggle over any states *)

Lemma untouched_untoggled (i : nat) (T : list (nat * nat)) :
  touched i T = false -> toggled i T = false.
Proof.
  unfold touched, toggled. induction T as [|e T IH]; [reflexivity|].
  simpl. intros Hi. apply orb_false_iff in Hi. destruct Hi as [Hi1 Hi2].
  apply orb_false_iff in Hi1. destruct Hi1 as [_ ->]. exact (IH Hi2).
Qed.

(** X8: one activation of the global toggle inverts the aggregate state
    and gives every wrapper of the document that has a content region and a
    toggle that new state, whatever state it was in: states set by single
    toggles are overwritten.  Elements that are no such part keep their
    markers; the listeners stay and the page stays well formed. *)
Theorem toggleAll_overrides_single_states (p : page) :
  wf p -> plain_label (roots p) = true ->
  exists p',
    toggleAllMessages p = Ok tt p'
    /\ wf p'
    /\ isAllCollapsed p' = negb (isAllCollapsed p)
    /\ listeners p' = listeners p
    /\ (forall w ct t,
          In w (doc_querySelectorAll sel_wrapper (roots p)) ->
          parts w (roots p) = (Some ct, Some t) ->
          parts w (roots p') = (Some ct, Some t)
          /\ collapsed ct (roots p') = isAllCollapsed p'
          /\ collapsed t (roots p') = isAllCollapsed p'
          /\ aria t (roots p') = Some (aria_of (isAllCollapsed p')))
    /\ (forall i,
          touched i (targets (doc_querySelectorAll sel_wrapper (roots p)) (roots p)) = false ->
          collapsed i (roots p') = collapsed i (roots p)
          /\ aria i (roots p') = aria i (roots p))
    /\ doc_querySelectorAll sel_wrapper (roots p')
       = doc_querySelectorAll sel_wrapper (roots p).
Proof.
  intros [Hnd Hlt] Hpl. destruct p as [r n l a]. cbn [roots next_id listeners isAllCollapsed] in *.
  destruct (toggleAll_run r n l a Hnd Hlt Hpl)
    as [r' [n' [Hrun [Hnd' [Hlt' [Hst [Hc [Ha _]]]]]]]].
  exists (mkPage r' n' l (negb a)). cbn [roots next_id listeners isAllCollapsed].
  split; [assumption|]. split; [split; assumption|].
  split; [reflexivity|]. split; [reflexivity|].
  split; [|split].
  - intros w ct t Hw Hp.
    destruct (touched_in _ ct t (in_targets _ r w ct t Hw Hp)) as [H1 [H2 H3]].
    split; [now rewrite (stable_parts _ _ w Hst)|].
    rewrite !Hc, Ha, H1, H2, H3. auto.
  - intros i Hi. rewrite Hc, Ha, Hi. split; [reflexivity|].
    assert (toggled i (targets (doc_querySelectorAll sel_wrapper r) r) = false) as ->;
      [|reflexivity].
    exact (untouched_untoggled i _ Hi).
  - exact (st_doc _ _ Hst sel_wrapper eq_refl).
Qed.

Lemma toggleAll_overrides_single_states_witness :
  exists p',
    toggleAllMessages (page_of (handleToggle 20 21 scanned_page)) = Ok tt p'
    /\ wf p'
    /\ isAllCollapsed p' = negb (isAllCollapsed (page_of (handleToggle 20 21 scanned_page)))
    /\ listeners p' = listeners (page_of (handleToggle 20 21 scanned_page))
    /\ (forall w ct t,
          In w (doc_querySelectorAll sel_wrapper
                  (roots (page_of (handleToggle 20 21 scanned_page)))) ->
          parts w (roots (page_of (handleToggle 20 21 scanned_page))) = (Some ct, Some t) ->
          parts w (roots p') = (Some ct, Some t)
          /\ collapsed ct (roots p') = isAllCollapsed p'
          /\ collapsed t (roots p') = isAllCollapsed p'
          /\ aria t (roots p') = Some (aria_of (isAllCollapsed p')))
    /\ (forall i,
          touched i (targets (doc_querySelectorAll sel_wrapper
                                (roots (page_of (handleToggle 20 21 scanned_page))))
                       (roots (page_of (handleToggle 20 21 scanned_page)))) = false ->
          collapsed i (roots p') = collapsed i (roots (page_of (handleToggle 20 21 scanned_page)))
          /\ aria i (roots p') = aria i (roots (page_of (handleToggle 20 21 scanned_page))))
    /\ doc_querySelectorAll sel_wrapper (roots p')
       = doc_querySelectorAll sel_wrapper (roots (page_of (handleToggle 20 21 scanned_page))).
Proof.
  apply (toggleAll_overrides_single_states (page_of (handleToggle 20 21 scanned_page)));
    [apply wfb_sound|]; vm_compute; reflexivity.
Defined.

(* ================================================================== *)
(** * The two scans and the global button *)

Lemma has_container_found (f : list node) :
  has_container f = true -> find is_some (possibleContainers f) <> None.
Proof.
  unfold has_container, container_selectors, possibleContainers. cbn [existsb find].
  destruct (doc_querySelector [[STag "header"]] f); [discriminate|].
  destruct (doc_querySelector [[SClassSub "header"]] f); [discriminate|].
  destruct (doc_querySelector [[STag "nav"]] f); [discriminate|].
  destruct (doc_querySelector [[STag "main"]] f); [discriminate|].
  discriminate.
Qed.

Lemma has_container_incl (f f' : list node) :
  incl (doc_elements f) (doc_elements f') ->
  has_container f = true -> has_container f' = true.
Proof.
  intros Hi H. unfold has_container in *. apply existsb_exists in H.
  destruct H as [sel [Hsel H]]. apply existsb_exists. exists sel. split; [assumption|].
  exact (select_some_incl sel _ _ Hi H).
Qed.

Lemma button_incl (f f' : list node) :
  incl (doc_elements f) (doc_elements f') ->
  is_some (getElementById "collapse-all-btn" f) = true ->
  is_some (getElementById "collapse-all-btn" f') = true.
Proof. intros Hi H. exact (select_some_incl _ _ _ Hi H). Qed.

Lemma insert_button_leaves (p : page) :
  wf p -> find is_some (possibleContainers (roots p)) <> None ->
  exists p',
    insertCollapseAllButton p = Ok tt p' /\ wf p'
    /\ is_some (getElementById "collapse-all-btn" (roots p')) = true
    /\ incl (doc_elements (roots p)) (doc_elements (roots p')).
Proof.
  intros Hwf Hsome.
  destruct (getElementById "collapse-all-btn" (roots p)) as [b0|] eqn:Eb.
  - exists p. split; [apply insert_button_present; now rewrite Eb|].
    split; [assumption|]. split; [now rewrite Eb|]. intros e He. exact He.
  - destruct (find is_some (possibleContainers (roots p))) as [[c|]|] eqn:Ec.
    + destruct (container_found c (roots p) (proj1 Hwf) Ec) as [cd [cks [HC Hkind]]].
      destruct (container_in_document c (roots p) Ec) as [cd' [Hdoc _]].
      destruct (doc_elements_find c cd' (roots p) (proj1 Hwf) Hdoc) as [cks' HC'].
      rewrite HC in HC'. inversion HC'. subst cd' cks'. clear HC'.
      exists (with_button p c cd cks). split.
      { rewrite (page_eta p) at 1.
        apply insert_button_run; try assumption; [exact (proj1 Hwf) | exact (proj2 Hwf)]. }
      split; [exact (with_button_wf p c cd cks Hwf HC)|].
      split; [exact (with_button_found p c cd cks Hwf Hdoc)|].
      intros e. exact (with_button_keeps p c cd cks e Hwf HC Hkind).
    + apply find_some in Ec. destruct Ec as [_ Ec]. discriminate.
    + now elim Hsome.
Qed.

Lemma scan_result (p p1 : page) :
  wf p -> processMessages p = Ok tt p1 ->
  wf p1 /\ incl (doc_elements (roots p)) (doc_elements (roots p1)).
Proof.
  intros Hwf Hrun. unfold processMessages, bind, read in Hrun.
  destruct (scan_keeps (foundMessages (roots p)) p p1 Hwf) as [H1 [H2 _]];
    [|assumption|now split].
  intros c Hc. now apply candidate_element.
Qed.

(** X9: on a page that has a header, an element with [header] in a
    class, a nav or a main element, either scheduled task, if it
    returns, ends with the global button in the document: the first scan
    inserts it before it wraps the messages and the wrapping keeps it, the
    later scans insert it after the wrapping if it is not there. *)
Theorem every_scan_leaves_the_button (t : task) (p p' : page) :
  wf p -> has_container (roots p) = true ->
  run_task t p = Ok tt p' ->
  wf p' /\ is_some (getElementById "collapse-all-btn" (roots p')) = true
  /\ incl (doc_elements (roots p)) (doc_elements (roots p')).
Proof.
  intros Hwf Hc Hrun. destruct t; unfold run_task in Hrun.
  - unfold bind at 1 in Hrun.
    destruct (insert_button_leaves p Hwf (has_container_found _ Hc))
      as [p1 [H1 [Hwf1 [Hb1 Hi1]]]].
    rewrite H1 in Hrun.
    destruct (scan_result p1 p' Hwf1 Hrun) as [Hwf' Hi'].
    split; [assumption|]. split; [exact (button_incl _ _ Hi' Hb1)|].
    intros e He. apply Hi', Hi1, He.
  - unfold bind at 1 in Hrun.
    destruct (processMessages p) as [[] p1|p1] eqn:E; [|discriminate].
    destruct (scan_result p p1 Hwf E) as [Hwf1 Hi1].
    pose proof (has_container_incl _ _ Hi1 Hc) as Hc1.
    destruct (insert_button_leaves p1 Hwf1 (has_container_found _ Hc1))
      as [p2 [H2 [Hwf2 [Hb2 Hi2]]]].
    unfold bind, read in Hrun.
    destruct (is_some (getElementById "collapse-all-btn" (roots p1))) eqn:Eb.
    + inversion Hrun. subst p'. split; [assumption|]. split; assumption.
    + rewrite H2 in Hrun. inversion Hrun. subst p'.
      split; [assumption|]. split; [assumption|].
      intros e He. apply Hi2, Hi1, He.
Qed.

Lemma every_scan_leaves_the_button_witness :
  wf (page_of (run_task MutationScan sample_page))
  /\ is_some (getElementById "collapse-all-btn"
                (roots (page_of (run_task MutationScan sample_page)))) = true
  /\ incl (doc_elements (roots sample_page))
          (doc_elements (roots (page_of (run_task MutationScan sample_page)))).
Proof.
  apply (every_scan_leaves_the_button MutationScan sample_page);
    [apply wfb_sound| |]; vm_compute; reflexivity.
Defined.

(* ================================================================== *)
(** * The first scan and the scan it causes *)

Lemma fresh_none (b : nat) (n : node) :
  (forall i, In i (ids n) -> i < b) -> fresh_nodes b n = [].
Proof.
  induction n as [i s|i d ks IH] using node_ind'; intros H.
  - simpl. replace (b <=? i) with false; [reflexivity|].
    symmetry. apply Nat.leb_gt. apply H. now left.
  - cbn [fresh_nodes node_id].
    replace (b <=? i) with false
      by (symmetry; apply Nat.leb_gt; apply H; now left).
    cbn [app]. rewrite Forall_forall in IH.
    induction ks as [|k ks IHks]; [reflexivity|].
    cbn [flat_map]. rewrite (IH k (or_introl eq_refl)).
    + apply IHks.
      * intros x Hx. apply IH. now right.
      * intros j [<-|Hj]; apply H; [now left|]. right. simpl. apply in_or_app. now right.
    + intros j Hj. apply H. right. simpl. apply in_or_app. now left.
Qed.

(** A callback that leaves the page as it is gives the observer nothing. *)
Lemma own_records_same (target : nat) (p : page) :
  wf p -> own_records target p p = [].
Proof.
  intros [Hnd Hlt]. unfold own_records.
  destruct (ffind target (roots p)) as [n|] eqn:E; [|reflexivity].
  assert (flat_map (fresh_nodes (next_id p)) (kids n) = []) as ->; [|reflexivity].
  assert (forall k, In k (kids n) -> forall i, In i (ids k) -> i < next_id p) as H.
  { intros k Hk i Hi. apply Hlt. apply (ffind_sub _ _ _ E).
    destruct n as [|j d ks]; [destruct Hk|]. right. apply in_fids. eauto. }
  induction (kids n) as [|k ks IH]; [reflexivity|].
  cbn [flat_map]. rewrite (fresh_none _ k (H k (or_introl eq_refl))).
  apply IH. intros k' Hk'. apply H. now right.
Qed.

Lemma body_is_a_container (f : list node) (b : nat) :
  document_body f = Some b -> find is_some (possibleContainers f) <> None.
Proof.
  intros H. unfold possibleContainers. cbn [find]. rewrite H.
  destruct (doc_querySelector [[STag "header"]] f); [discriminate|].
  destruct (doc_querySelector [[SClassSub "header"]] f); [discriminate|].
  destruct (doc_querySelector [[STag "nav"]] f); [discriminate|].
  destruct (doc_querySelector [[STag "main"]] f); discriminate.
Qed.

(** A scan right after a scan that returned finds nothing to wrap. *)
Lemma second_scan_skips (p p1 : page) :
  wf p -> processMessages p = Ok tt p1 -> processMessages p1 = Ok tt p1.
Proof.
  intros Hwf Hrun. unfold processMessages, bind, read in Hrun.
  destruct (scan_loop p (foundMessages (roots p)) [] p p1 Hwf) as [Hwf1 [Hnew Hset]];
    try assumption.
  - intros e He. now left.
  - intros c [].
  - intros c Hc. now apply candidate_element.
  - unfold processMessages, bind, read. apply forEach_skip.
    intros c Hc. apply process_one_settled.
    apply foundMessages_spec in Hc. destruct Hc as [sel [Hsel Hc]].
    unfold doc_querySelectorAll in Hc. apply select_in in Hc.
    destruct Hc as [d [Hin Hm]]. destruct (Hnew _ Hin) as [Hold|Hw].
    + apply Hset. simpl. apply foundMessages_spec. exists sel. split; [assumption|].
      exact (select_intro sel _ c d Hold Hm).
    + unfold settled. simpl in Hw. now rewrite Hw.
Qed.

(** On a page with a body, the scan the first scan causes changes
    nothing. *)
Lemma echo_changes_nothing (p p1 : page) (b : nat) :
  wf p -> document_body (roots p) = Some b ->
  run_task InitialScan p = Ok tt p1 ->
  wf p1 /\ run_task MutationScan p1 = Ok tt p1.
Proof.
  intros Hwf Hb Hrun. unfold run_task in Hrun. unfold bind at 1 in Hrun.
  destruct (insert_button_leaves p Hwf (body_is_a_container _ b Hb))
    as [p0 [H0 [Hwf0 [Hb0 _]]]].
  rewrite H0 in Hrun.
  destruct (scan_result p0 p1 Hwf0 Hrun) as [Hwf1 Hi].
  split; [assumption|]. unfold run_task, bind, read.
  rewrite (second_scan_skips p0 p1 Hwf0 Hrun).
  now rewrite (button_incl _ _ Hi Hb0).
Qed.

Section AfterInit.
Variables (p p1 : page) (c : nat) (log : list (nat * task)) (target : nat).
Hypothesis Hfirst : page_of (run_task InitialScan p) = p1.
Hypothesis Hecho : page_of (run_task MutationScan p1) = p1.
Hypothesis Hquiet : own_records target p1 p1 = [].

Lemma after_init_step (s d : nat) :
  step (after_init p p1 c log target s) (Elapse d) = after_init p p1 c log target (s + d).
Proof.
  unfold after_init, step, advance.
  assert (forall due k, patience (c + s + d) [(due, k)] = S (c + s + d) - due) as Hp
      by (intros; rewrite patience_cons; change (patience (c + s + d) []) with 0; lia).
  destruct (Nat.ltb_spec s 500) as [Hs|Hs].
  - cbn [timers clock]. rewrite Hp.
    destruct (Nat.ltb_spec (s + d) 500) as [Hsd|Hsd].
    + replace (S (c + s + d) - (c + 500)) with 0 by lia. cbn [fire].
      cbn [the_page clock timers ran observed]. f_equal. lia.
    + replace (S (c + s + d) - (c + 500)) with (S (s + d - 500)) by lia.
      cbn [fire timers].
      replace (c + 500 <=? c + s + d) with true by (symmetry; apply Nat.leb_le; lia).
      unfold run_timer. cbn [the_page clock ran observed]. rewrite Hfirst.
      replace (Nat.max (c + 500) (c + s)) with (c + 500) by lia.
      rewrite (deliver_qualifying _ (mkLoop _ _ _ _ (Some target)) target eq_refl).
      destruct (shouldProcess (own_records target p p1)).
      * unfold setTimeout. cbn [the_page clock timers ran observed insert_timer].
        replace (c + 500 + 100) with (c + 600) by lia.
        destruct (Nat.ltb_spec (s + d) 600) as [H6|H6].
        -- rewrite fire_wait
             by (cbn [timers firstn forallb fst];
                 replace (c + s + d <? c + 600) with true
                   by (symmetry; apply Nat.ltb_lt; lia); reflexivity).
           cbn [the_page clock timers ran observed]. f_equal. lia.
        -- replace (s + d - 500) with (S (s + d - 501)) by lia. cbn [fire timers].
           replace (c + 600 <=? c + s + d) with true by (symmetry; apply Nat.leb_le; lia).
           unfold run_timer. cbn [the_page clock ran observed]. rewrite Hecho, Hquiet.
           cbn [deliver observed]. rewrite fire_wait by reflexivity.
           cbn [the_page clock timers ran observed]. rewrite <- app_assoc. cbn [app].
           f_equal. lia.
      * rewrite fire_wait by reflexivity.
        cbn [the_page clock timers ran observed]. f_equal. lia.
  - replace (s + d <? 500) with false by (symmetry; apply Nat.ltb_ge; lia).
    destruct (shouldProcess (own_records target p p1)).
    + destruct (Nat.ltb_spec s 600) as [H6|H6].
      * cbn [timers clock]. rewrite Hp.
        destruct (Nat.ltb_spec (s + d) 600) as [H6'|H6'].
        -- replace (S (c + s + d) - (c + 600)) with 0 by lia. cbn [fire].
           cbn [the_page clock timers ran observed]. f_equal. lia.
        -- replace (S (c + s + d) - (c + 600)) with (S (s + d - 600)) by lia.
           cbn [fire timers].
           replace (c + 600 <=? c + s + d) with true by (symmetry; apply Nat.leb_le; lia).
           unfold run_timer. cbn [the_page clock ran observed]. rewrite Hecho, Hquiet.
           cbn [deliver observed]. rewrite fire_wait by reflexivity.
           cbn [the_page clock timers ran observed]. rewrite <- app_assoc. cbn [app].
           f_equal. lia.
      * replace (s + d <? 600) with false by (symmetry; apply Nat.ltb_ge; lia).
        rewrite fire_wait by reflexivity.
        cbn [the_page clock timers ran observed]. f_equal. lia.
    + rewrite fire_wait by reflexivity.
      cbn [the_page clock timers ran observed]. f_equal. lia.
Qed.

Lemma after_init_run (ds : list nat) (s : nat) :
  run_events (List.map Elapse ds) (after_init p p1 c log target s)
  = after_init p p1 c log target (s + list_sum ds).
Proof.
  revert s. induction ds as [|d ds IH]; intros s.
  - simpl. now rewrite Nat.add_0_r.
  - change (run_events (List.map Elapse (d :: ds)) (after_init p p1 c log target s))
      with (run_events (List.map Elapse ds)
              (step (after_init p p1 c log target s) (Elapse d))).
    rewrite after_init_step, IH. change (list_sum (d :: ds)) with (d + list_sum ds).
    now rewrite Nat.add_assoc.
Qed.
End AfterInit.

(** X10: after [init] on a loop without pending timers whose page has a
    body, and as long as the host leaves the page alone, the page stays as
    it is for 500 ms, however the time passes; then the first scan runs.
    If it returns and has put an element below the body, the observer sets
    a mutation scan for 100 ms later; that scan leaves the page as the
    first left it, so the observer sets no further one: the page is scanned
    once or twice, and then nothing is pending. *)
Theorem first_scan_and_its_echo (l : loop) (target : nat) (p1 : page) (ds : list nat) :
  wf (the_page l) -> timers l = [] ->
  document_body (roots (the_page l)) = Some target ->
  run_task InitialScan (the_page l) = Ok tt p1 ->
  init l = Returns (loop_of (init l))
  /\ run_task MutationScan p1 = Ok tt p1
  /\ run_events (List.map Elapse ds) (loop_of (init l))
     = after_init (the_page l) p1 (clock l) (ran l) target (list_sum ds).
Proof.
  intros Hwf Ht Hb Hrun.
  destruct (echo_changes_nothing (the_page l) p1 target Hwf Hb Hrun) as [Hwf1 Hecho].
  assert (init l = Returns (after_init (the_page l) p1 (clock l) (ran l) target 0)) as Hi.
  { unfold init, setTimeout, observe, after_init. cbn [the_page clock timers ran].
    rewrite Hb, Ht. cbn [insert_timer]. now rewrite Nat.add_0_r. }
  rewrite Hi. cbn [loop_of]. split; [reflexivity|]. split; [assumption|].
  rewrite after_init_run; [reflexivity| | |].
  - now rewrite Hrun.
  - now rewrite Hecho.
  - now apply own_records_same.
Qed.

Lemma first_scan_and_its_echo_witness :
  init idle_loop = Returns (loop_of (init idle_loop))
  /\ run_task MutationScan (page_of (run_task InitialScan sample_page))
     = Ok tt (page_of (run_task InitialScan sample_page))
  /\ run_events (List.map Elapse [200; 299; 1; 50; 1000]) (loop_of (init idle_loop))
     = after_init (the_page idle_loop) (page_of (run_task InitialScan sample_page))
                  (clock idle_loop) (ran idle_loop) 2 (list_sum [200; 299; 1; 50; 1000]).
Proof.
  apply (first_scan_and_its_echo idle_loop 2); [apply wfb_sound| | |];
    vm_compute; reflexivity.
Defined.

(** On the sample page the first scan inserts the button and a wrapper, so
    a second scan runs, 100 ms after the first. *)
Example sample_page_is_scanned_twice :
  ran (run_events [Elapse 550] (loop_of (init idle_loop))) = [(500, InitialScan)]
  /\ timers (run_events [Elapse 550] (loop_of (init idle_loop))) = [(600, MutationScan)]
  /\ ran (run_events [Elapse 550; Elapse 5000] (loop_of (init idle_loop)))
     = [(500, InitialScan); (600, MutationScan)]
  /\ timers (run_events [Elapse 550; Elapse 5000] (loop_of (init idle_loop))) = [].
Proof. repeat split; vm_compute; reflexivity. Qed.

(* ================================================================== *)
(** * The label of a new button *)

Lemma elements_below_in_document (c : nat) (cd : edata) (n : node) (f : list node) :
  NoDup (fids f) -> In (c, cd) (doc_elements f) -> ffind c f = Some n ->
  incl (elements n) (doc_elements f).
Proof.
  intros Hnd Hc Hn e He. unfold doc_elements in *. apply in_flat_map in Hc.
  destruct Hc as [r [Hr Hc]]. apply in_flat_map. exists r. split; [assumption|].
  apply filter_In in Hr. destruct Hr as [Hr _].
  destruct (elements_find c cd r (NoDup_kid f r Hnd Hr) (descendants_sub r _ Hc))
    as [ks Hf].
  pose proof (ffind_unique c f r _ Hnd Hr Hf) as E. rewrite Hn in E. inversion E. subst n.
  simpl in He. destruct He as [<-|He]; [assumption|].
  apply (descendants_inside c r _ Hf). exact He.
Qed.

Lemma find_span (b : nat) :
  find_node (7 + b) (button_tree b)
  = Some (Elem (7 + b) (new_element "span") [Text (8 + b) (lit "Collapse All")]).
Proof. unfold button_tree, button_html, chevron. fsimp. reflexivity. Qed.

Lemma with_button_lookup (p : page) (c : nat) (cd : edata) (cks : list node) :
  wf p -> ffind c (roots p) = Some (Elem c cd cks) ->
  In (c, cd) (doc_elements (roots p)) ->
  getElementById "collapse-all-btn" (roots p) = None ->
  getElementById "collapse-all-btn" (roots (with_button p c cd cks)) = Some (next_id p).
Proof.
  intros Hwf HC Hdoc Hnone.
  pose proof (with_button_found p c cd cks Hwf Hdoc) as Hsome.
  unfold getElementById, doc_querySelector, doc_querySelectorAll in *.
  fold (doc_elements (roots p)) in Hnone.
  fold (doc_elements (roots (with_button p c cd cks))) in Hsome |- *.
  assert (forall w d, In (w, d) (doc_elements (roots p)) ->
                      matches [[SId "collapse-all-btn"]] d = true -> False) as Hno.
  { intros w d Hin Hm. pose proof (select_intro _ _ w d Hin Hm) as Hs.
    destruct (select [[SId "collapse-all-btn"]] (doc_elements (roots p))); [destruct Hs|].
    discriminate. }
  destruct (select [[SId "collapse-all-btn"]] (doc_elements (roots (with_button p c cd cks))))
    as [|w r] eqn:E; [discriminate|].
  assert (In w (select [[SId "collapse-all-btn"]]
                  (doc_elements (roots (with_button p c cd cks))))) as Hw
      by (rewrite E; now left).
  apply select_in in Hw. destruct Hw as [d [Hin Hm]].
  unfold with_button in Hin. cbn [roots] in Hin.
  apply doc_elements_frewrite in Hin. destruct Hin as [Hin|Hin]; [elim (Hno w d Hin Hm)|].
  cbn [flat_map elements] in Hin. rewrite app_nil_r in Hin.
  assert (In (w, d) (elements (Elem c cd cks)) \/ In (w, d) (elements (button_tree (next_id p))))
    as [H|H].
  { destruct Hin as [Hin|Hin]; [left; now left|].
    destruct (appends_button (tag cd)).
    - rewrite flat_map_app in Hin. apply in_app_or in Hin.
      destruct Hin as [Hin|Hin]; [left; now right|right].
      cbn [flat_map] in Hin. now rewrite app_nil_r in Hin.
    - cbn [flat_map] in Hin. apply in_app_or in Hin.
      destruct Hin as [Hin|Hin]; [now right|left; now right]. }
  - elim (Hno w d (elements_below_in_document c cd _ _ (proj1 Hwf) Hdoc HC _ H) Hm).
  - simpl in H. destruct H as [H|[H|[H|[H|[]]]]]; inversion H; subst; try discriminate.
    reflexivity.
Qed.

(** X11: the button [insertCollapseAllButton] creates reads "Collapse
    All" whatever the aggregate state is.  Inserted while the state is
    collapsed, it keeps that label over the first click, which expands the
    messages; inserted while the state is expanded, the click turns the
    label to "Expand All". *)
Theorem new_button_reads_collapse_all (p : page) :
  wf p -> getElementById "collapse-all-btn" (roots p) = None ->
  find is_some (possibleContainers (roots p)) <> None ->
  exists p1 p2,
    insertCollapseAllButton p = Ok tt p1
    /\ getElementById "collapse-all-btn" (roots p1) = Some (next_id p)
    /\ querySelector (next_id p) sel_span (roots p1) = Some (7 + next_id p)
    /\ textContent (7 + next_id p) (roots p1) = lit "Collapse All"
    /\ isAllCollapsed p1 = isAllCollapsed p
    /\ toggleAllMessages p1 = Ok tt p2
    /\ isAllCollapsed p2 = negb (isAllCollapsed p)
    /\ textContent (7 + next_id p) (roots p2)
       = if isAllCollapsed p then lit "Collapse All" else lit "Expand All".
Proof.
  intros Hwf Hnone Hsome.
  destruct (find is_some (possibleContainers (roots p))) as [[c|]|] eqn:Ec;
    [| apply find_some in Ec; destruct Ec as [_ Ec]; discriminate | now elim Hsome].
  destruct (container_found c (roots p) (proj1 Hwf) Ec) as [cd [cks [HC Hkind]]].
  destruct (container_in_document c (roots p) Ec) as [cd' [Hdoc _]].
  destruct (doc_elements_find c cd' (roots p) (proj1 Hwf) Hdoc) as [cks' HC'].
  rewrite HC in HC'. inversion HC'. subst cd' cks'. clear HC'.
  pose proof (with_button_wf p c cd cks Hwf HC) as Hwf1.
  pose proof (with_button_lookup p c cd cks Hwf HC Hdoc Hnone) as Hb.
  pose proof (ffind_with_button p c cd cks Hwf HC) as HC1.
  assert (ffind (next_id p) (roots (with_button p c cd cks)) = Some (button_tree (next_id p)))
    as HB.
  { apply (kid_found c _ cd _ (button_tree (next_id p)) (proj1 Hwf1) HC1).
    destruct (appends_button (tag cd)); [apply in_or_app; right|]; now left. }
  pose proof (ffind_trans _ _ _ _ _ (proj1 Hwf1) HB (find_span (next_id p))) as HS.
  assert (querySelector (next_id p) sel_span (roots (with_button p c cd cks))
          = Some (7 + next_id p)) as Hq.
  { unfold querySelector. rewrite HB. reflexivity. }
  assert (textContent (7 + next_id p) (roots (with_button p c cd cks)) = lit "Collapse All")
    as Ht.
  { unfold textContent. rewrite HS. reflexivity. }
  assert (plain_label (roots (with_button p c cd cks)) = true) as Hpl.
  { unfold plain_label. rewrite Hb, Hq. unfold inner. rewrite HS. reflexivity. }
  remember (with_button p c cd cks) as p1 eqn:E1.
  assert (isAllCollapsed p1 = isAllCollapsed p /\ insertCollapseAllButton p = Ok tt p1)
    as [Ha Hrun].
  { subst p1. split; [reflexivity|]. rewrite (page_eta p) at 1.
    apply insert_button_run; try assumption; [exact (proj1 Hwf) | exact (proj2 Hwf)]. }
  clear E1. destruct p1 as [r1 n1 l1 a1]. cbn [roots isAllCollapsed] in *.
  destruct Hwf1 as [Hnd1 Hlt1]. cbn [roots next_id] in Hnd1, Hlt1.
  destruct (toggleAll_run r1 n1 l1 a1 Hnd1 Hlt1 Hpl)
    as [r2 [n2 [Hrun2 [_ [_ [_ [_ [_ [Hlab _]]]]]]]]].
  exists (mkPage r1 n1 l1 a1), (mkPage r2 n2 l1 (negb a1)).
  cbn [roots isAllCollapsed].
  split; [assumption|]. split; [assumption|]. split; [assumption|].
  split; [assumption|]. split; [assumption|]. split; [assumption|].
  split; [now rewrite Ha|].
  rewrite (Hlab _ _ Hb Hq). rewrite <- Ha. now destruct a1.
Qed.

Lemma new_button_reads_collapse_all_witness :
  exists p1 p2,
    insertCollapseAllButton (mkPage sample_roots 9 [] true) = Ok tt p1
    /\ getElementById "collapse-all-btn" (roots p1) = Some (next_id (mkPage sample_roots 9 [] true))
    /\ querySelector (next_id (mkPage sample_roots 9 [] true)) sel_span (roots p1) = Some (7 + next_id (mkPage sample_roots 9 [] true))
    /\ textContent (7 + next_id (mkPage sample_roots 9 [] true)) (roots p1) = lit "Collapse All"
    /\ isAllCollapsed p1 = isAllCollapsed (mkPage sample_roots 9 [] true)
    /\ toggleAllMessages p1 = Ok tt p2
    /\ isAllCollapsed p2 = negb (isAllCollapsed (mkPage sample_roots 9 [] true))
    /\ textContent (7 + next_id (mkPage sample_roots 9 [] true)) (roots p2)
       = if isAllCollapsed (mkPage sample_roots 9 [] true) then lit "Collapse All" else lit "Expand All".
Proof.
  apply (new_button_reads_collapse_all (mkPage sample_roots 9 [] true));
    [apply wfb_sound; vm_compute; reflexivity | vm_compute; reflexivity |].
  vm_compute. discriminate.
Defined.

(* ================================================================== *)
(** * Clicks *)

Lemma handleToggle_keeps_listeners (c t : nat) (p : page) :
  listeners (page_of (handleToggle c t p)) = listeners p.
Proof. rewrite (page_eta p) at 1. now rewrite handleToggle_run. Qed.

Lemma bubble_quiet (rec : nat -> page -> option page) (path : list nat) (p : page) :
  (forall y, In y path -> listeners_at y p = []) -> bubble rec path p = Some p.
Proof.
  induction path as [|y r IH]; intros H; [reflexivity|].
  cbn [bubble]. rewrite (H y (or_introl eq_refl)). cbn [invoke].
  apply IH. intros z Hz. apply H. now right.
Qed.

(** A click on a node that has the closure [handleToggle] as its only
    listener runs it and goes no further. *)
Lemma click_handleToggle (k z c t : nat) (p : page) :
  is_some (data_of z (roots p)) = true ->
  listeners_at z p = [HHandleToggle c t] ->
  click (S k) z p = Some (page_of (handleToggle c t p)).
Proof.
  intros Hz Hl. destruct (data_of_element z (roots p) Hz) as [d [ks Hf]].
  destruct (fchain_head z (roots p) d ks Hf) as [rest Hc].
  cbn [click]. rewrite Hc. cbn [List.map fst bubble]. rewrite Hl. reflexivity.
Qed.

(** A click on a preview whose wrapper has a toggle clicks that toggle. *)
Lemma click_preview (k pv w t c : nat) (p : page) :
  is_some (data_of pv (roots p)) = true ->
  listeners_at pv p = [HPreviewClick w] ->
  querySelector w sel_toggle (roots p) = Some t ->
  is_some (data_of t (roots p)) = true ->
  listeners_at t p = [HHandleToggle c t] ->
  (forall y, In y (tl (List.map fst (fchain pv (roots p)))) -> listeners_at y p = []) ->
  click (S (S k)) pv p = Some (page_of (handleToggle c t p)).
Proof.
  intros Hpv Hl Hq Ht Hlt Hquiet.
  destruct (data_of_element pv (roots p) Hpv) as [d [ks Hf]].
  destruct (fchain_head pv (roots p) d ks Hf) as [rest Hc].
  rewrite Hc in Hquiet. cbn [List.map fst tl] in Hquiet.
  change (click (S (S k)) pv p)
    with (bubble (click (S k)) (List.map fst (fchain pv (roots p))) p).
  rewrite Hc. cbn [List.map fst bubble]. rewrite Hl.
  cbn [invoke run_handler]. rewrite Hq, (click_handleToggle k t c t p Ht Hlt).
  cbn [stops orb]. apply bubble_quiet.
  intros y Hy. unfold listeners_at. rewrite handleToggle_keeps_listeners.
  exact (Hquiet y Hy).
Qed.

(* ================================================================== *)
(** * The ancestors of a node inside a replacement *)

Lemma chain_some_in (y : nat) (n : node) (c : list (nat * edata)) :
  chain y n = Some c -> In y (ids n).
Proof.
  intros H. destruct (in_dec Nat.eq_dec y (ids n)) as [Hin|Hout]; [assumption|].
  rewrite (chain_notin y n Hout) in H. discriminate.
Qed.

Lemma find_node_some_in (x : nat) (n m : node) : find_node x n = Some m -> In x (ids n).
Proof.
  intros H. apply (find_node_sub _ _ _ H). rewrite <- (find_node_id _ _ _ H). apply ids_head.
Qed.

(** The child through which a node of the replacement is reached is the
    child that holds [x]. *)
Lemma rewritten_kid (x y : nat) (l ks : list node) (c : list (nat * edata)) :
  NoDup (fids ks) ->
  first_some (chain y) (flat_map (rewrite_node x (fun _ => l)) ks) = Some c ->
  ~ In y (flat_map (skel x) ks) ->
  exists k, In k ks /\ In x (ids k)
            /\ first_some (chain y) (rewrite_node x (fun _ => l) k) = Some c
            /\ ~ In y (skel x k)
            /\ first_some (chain x) ks = chain x k
            /\ first_some (find_node x) ks = find_node x k.
Proof.
  intros Hnd Hc Hy. apply first_some_flat_map_in in Hc. destruct Hc as [k [Hk Hc]].
  assert (~ In y (skel x k)) as Hyk
      by (intros H; apply Hy; apply in_flat_map; eauto).
  assert (In x (ids k)) as Hx.
  { destruct (in_dec Nat.eq_dec x (ids k)) as [Hin|Hout]; [assumption|exfalso].
    rewrite (rewrite_notin x _ k Hout), first_some_one in Hc.
    apply chain_some_in in Hc. apply Hyk.
    assert (In y (fids (rewrite_node x (fun _ => l) k))) as H.
    { rewrite (rewrite_notin x _ k Hout). apply in_W_fids. exact Hc. }
    apply ids_rewrite in H. destruct H as [H|[H _]]; [assumption|contradiction]. }
  exists k. split; [assumption|]. split; [assumption|]. split; [assumption|].
  split; [assumption|]. split.
  - destruct (chain_in x k Hx) as [ck Hck]. rewrite Hck.
    apply (first_some_only (chain x) ks k ck Hk Hck).
    intros k' c' Hk' Hc'. pose proof (chain_some_in _ _ _ Hc') as Hx'.
    assert (k' = k) as -> by exact (unique_kid ks k' k x Hnd Hk' Hk Hx' Hx). congruence.
  - destruct (find_node_in x k Hx) as [m Hm]. rewrite Hm.
    apply (first_some_only (find_node x) ks k m Hk Hm).
    intros k' m' Hk' Hm'. pose proof (find_node_some_in _ _ _ Hm') as Hx'.
    assert (k' = k) as -> by exact (unique_kid ks k' k x Hnd Hk' Hk Hx' Hx). congruence.
Qed.

Lemma chain_in_rewrite_exact (x y : nat) (l : list node) (dx : edata) (kx : list node)
      (n : node) :
  forall c cx,
    NoDup (ids n) -> find_node x n = Some (Elem x dx kx) ->
    first_some (chain y) (rewrite_node x (fun _ => l) n) = Some c ->
    ~ In y (skel x n) -> chain x n = Some cx ->
    exists c1, c = c1 ++ tl cx /\ first_some (chain y) l = Some c1.
Proof.
  induction n as [i s|i d ks IH] using node_ind'; intros c cx Hnd Hf Hc Hy Hcx.
  - simpl in Hf. destruct (i =? x); inversion Hf.
  - simpl in Hf, Hc, Hy, Hcx. destruct (i =? x) eqn:E.
    + inversion Hcx. subst cx. exists c. cbn [tl]. now rewrite app_nil_r.
    + rewrite first_some_one in Hc. simpl in Hc, Hy.
      destruct (Nat.eqb_spec i y) as [->|Hiy]; [tauto|].
      destruct (first_some (chain y) (flat_map (rewrite_node x (fun _ => l)) ks))
        as [c'|] eqn:Ec; [|discriminate].
      injection Hc as <-.
      destruct (NoDup_elem i d ks Hnd) as [_ Hks].
      destruct (rewritten_kid x y l ks c' Hks Ec) as [k [Hk [Hx [Hck [Hyk [H1 H2]]]]]];
        [tauto|].
      rewrite H1 in Hcx. rewrite H2 in Hf.
      destruct (chain x k) as [ck|] eqn:Eck; [|discriminate]. injection Hcx as <-.
      rewrite Forall_forall in IH.
      destruct (IH k Hk c' ck (NoDup_kid ks k Hks Hk) Hf Hck Hyk Eck) as [c1 [-> Hc1]].
      exists c1. split; [|assumption].
      destruct (proj2 (chain_head x k) dx kx Hf) as [r Hr]. rewrite Hr in Eck.
      inversion Eck. subst ck. cbn [tl app]. now rewrite app_assoc.
Qed.

(** The chain of a node of the replacement: its chain inside the
    replacement, then the ancestors of the replaced element. *)
Lemma fchain_in_rewrite_exact (x y : nat) (l f : list node) (dx : edata) (kx : list node)
      (c1 : list (nat * edata)) :
  NoDup (fids f) -> ffind x f = Some (Elem x dx kx) ->
  first_some (chain y) l = Some c1 -> ~ In y (fskel x f) ->
  fchain y (frewrite x (fun _ => l) f) = c1 ++ tl (fchain x f).
Proof.
  intros Hnd Hf Hc1 Hy.
  assert (In x (fids f)) as Hx.
  { apply (ffind_sub _ _ _ Hf). now left. }
  assert (In y (fids l)) as Hyl.
  { apply first_some_in in Hc1. destruct Hc1 as [k [Hk Hc]].
    apply in_fids. exists k. split; [assumption|exact (chain_some_in _ _ _ Hc)]. }
  destruct (fchain_in_rewrite x y l f Hx Hyl Hy) as [c1' [c2 [Hc _]]].
  unfold fchain in *. unfold frewrite in *.
  destruct (first_some (chain y) (flat_map (rewrite_node x (fun _ => l)) f)) as [c|] eqn:Ec.
  2:{ exfalso. assert (In y (fids (frewrite x (fun _ => l) f))) as Hin
          by (apply fids_frewrite; auto).
      apply in_fids in Hin. destruct Hin as [m [Hm Hin]].
      destruct (chain_in _ _ Hin) as [cm Hcm]. revert Ec.
      unfold frewrite in Hm. clear - Hm Hcm.
      induction (flat_map (rewrite_node x (fun _ => l)) f) as [|k r IH]; [destruct Hm|].
      simpl. destruct Hm as [->|Hm]; [now rewrite Hcm|].
      destruct (chain y k); [discriminate|auto]. }
  destruct (rewritten_kid x y l f c Hnd Ec Hy) as [k [Hk [Hxk [Hck [Hyk [H1 H2]]]]]].
  unfold ffind in Hf. rewrite H2 in Hf. rewrite H1.
  destruct (chain_in x k Hxk) as [ck Eck]. rewrite Eck.
  destruct (chain_in_rewrite_exact x y l dx kx k c ck (NoDup_kid f k Hnd Hk) Hf Hck Hyk Eck)
    as [c1'' [-> Hc1'']].
  rewrite Hc1 in Hc1''. now inversion Hc1''.
Qed.

(* ================================================================== *)
(** * Clicks on a new wrapper *)

Lemma listeners_at_fresh (p : page) (z : nat) :
  listeners_bound p = true -> next_id p <= z -> listeners_at z p = [].
Proof.
  unfold listeners_bound, listeners_at. intros H Hz.
  induction (listeners p) as [|l ls IH]; [reflexivity|].
  simpl in H |- *. apply andb_true_iff in H. destruct H as [H1 H2].
  apply Nat.ltb_lt in H1.
  replace (fst l =? z) with false by (symmetry; apply Nat.eqb_neq; lia). now apply IH.
Qed.

Lemma listeners_at_wrapped (p : page) (x : nat) (n : node) (z : nat) :
  listeners_at z (wrapped p x n)
  = listeners_at z p
      ++ List.map snd (filter (fun l => fst l =? z) (wrapper_listeners (next_id p))).
Proof. unfold listeners_at, wrapped. cbn [listeners]. now rewrite filter_app, map_app. Qed.

Lemma listeners_at_old (p : page) (x : nat) (n : node) (z : nat) :
  z < next_id p -> listeners_at z (wrapped p x n) = listeners_at z p.
Proof.
  intros Hz. rewrite listeners_at_wrapped. unfold wrapper_listeners. cbn [filter fst].
  eqb_tac. cbn [List.map]. apply app_nil_r.
Qed.

Lemma listeners_at_new (p : page) (x : nat) (n : node) (k : nat) :
  listeners_bound p = true ->
  listeners_at (k + next_id p) (wrapped p x n)
  = List.map snd (filter (fun l => fst l =? k + next_id p) (wrapper_listeners (next_id p))).
Proof.
  intros H. rewrite listeners_at_wrapped, (listeners_at_fresh p _ H) by lia. reflexivity.
Qed.

Lemma find_line (b : nat) (u s : bool) (t : jstr) (n : node) :
  find_node (9 + b) (wrapper_tree b u s t n)
  = Some (Elem (9 + b) (div ["collapse-line"%string]) []).
Proof. unfold wrapper_tree, toggle_html, chevron. fsimp. reflexivity. Qed.

Lemma chain_preview (b : nat) (u s : bool) (t : jstr) (n : node) :
  first_some (chain (11 + b)) [wrapper_tree b u s t n]
  = Some [ (11 + b, div ["message-preview"%string]);
           (10 + b, div ["message-content-container"%string]);
           (b, div (wrapper_classes u s)) ].
Proof.
  unfold wrapper_tree, toggle_html, chevron.
  repeat progress (cbn [chain first_some app Nat.add]; eqb_tac). reflexivity.
Qed.

Lemma chain_column (b : nat) (u s : bool) (t : jstr) (n : node) :
  first_some (chain (1 + b)) [wrapper_tree b u s t n]
  = Some [ (1 + b, div ["collapse-column"%string]); (b, div (wrapper_classes u s)) ].
Proof.
  unfold wrapper_tree, toggle_html, chevron.
  repeat progress (cbn [chain first_some app Nat.add]; eqb_tac). reflexivity.
Qed.

Lemma fchain_below (x : nat) (f : list node) (e : nat * edata) :
  In e (fchain x f) -> In (fst e) (fids f).
Proof.
  unfold fchain. destruct (first_some (chain x) f) as [c|] eqn:E; [|intros []].
  apply first_some_in in E. destruct E as [k [Hk E]]. intros He.
  apply in_fids. exists k. split; [assumption|].
  apply elements_ids. exact (chain_elements x k c E e He).
Qed.

(** The clicks the transform wires up. *)
Lemma wrapped_clicks (p : page) (x : nat) (d : edata) (ks : list node) :
  wf p -> ffind x (roots p) = Some (Elem x d ks) ->
  listeners_bound p = true -> quiet_above x p = true ->
  let b := next_id p in
  let p' := wrapped p x (Elem x d ks) in
  closest (1 + b) sel_wrapper (roots p') = Some b
  /\ querySelector b sel_content (roots p') = Some (12 + b)
  /\ collapsed (12 + b) (roots p') = false
  /\ is_some (data_of (2 + b) (roots p')) = true
  /\ forall k,
       click (S k) (2 + b) p' = Some (page_of (handleToggle (1 + b) (2 + b) p'))
       /\ click (S k) (9 + b) p' = Some (page_of (handleToggle (1 + b) (2 + b) p'))
       /\ click (S (S k)) (11 + b) p' = Some (page_of (handleToggle (1 + b) (2 + b) p')).
Proof.
  intros Hwf Hn Hlb Hq b p'. pose proof (proj1 Hwf) as Hnd.
  assert (forall y, In y (ids (Elem x d ks)) -> y < b) as Hbelow
      by (intros y Hy; apply (proj2 Hwf); exact (ffind_sub _ _ _ Hn y Hy)).
  set (u := is_user x (roots p)). set (s := is_assistant x (roots p)).
  set (t := preview_text u (Elem x d ks)).
  assert (forall k, k <= 12 ->
            ffind (k + b) (roots p') = find_node (k + b) (wrapper_tree b u s t (Elem x d ks)))
    as Hfind.
  { intros k Hk. apply (wrapped_ffind p x _ Hwf Hn). now apply in_wrapper_tree_new. }
  assert (ffind b (roots p') = Some (wrapper_tree b u s t (Elem x d ks))) as Hb.
  { pose proof (Hfind 0 (Nat.le_0_l 12)) as H0. change (0 + b) with b in H0.
    rewrite H0. apply (find_here (wrapper_tree b u s t (Elem x d ks))). }
  assert (forall y c1, first_some (chain y) [wrapper_tree b u s t (Elem x d ks)] = Some c1 ->
            In y (ids (wrapper_tree b u s t (Elem x d ks))) ->
            fchain y (roots p') = c1 ++ tl (fchain x (roots p))) as Hchain.
  { intros y c1 Hc1 Hy. unfold p'. rewrite wrapped_roots.
    apply (fchain_in_rewrite_exact x y _ (roots p) d ks c1 Hnd Hn Hc1).
    apply (W_local p x _ Hwf Hn). now apply in_W_fids. }
  assert (is_some (data_of (2 + b) (roots p')) = true) as Ht.
  { unfold data_of. rewrite (Hfind 2) by lia. now rewrite find_toggle. }
  assert (is_some (data_of (9 + b) (roots p')) = true) as Hl.
  { unfold data_of. rewrite (Hfind 9) by lia. now rewrite find_line. }
  assert (is_some (data_of (11 + b) (roots p')) = true) as Hpv.
  { unfold data_of. rewrite (Hfind 11) by lia. now rewrite (find_preview b u s t _ Hbelow). }
  assert (listeners_at (2 + b) p' = [HHandleToggle (1 + b) (2 + b)]) as L2.
  { unfold p', b. rewrite (listeners_at_new p x _ 2 Hlb). unfold wrapper_listeners.
    cbn [filter fst]. eqb_tac. reflexivity. }
  assert (listeners_at (9 + b) p' = [HHandleToggle (1 + b) (2 + b)]) as L9.
  { unfold p', b. rewrite (listeners_at_new p x _ 9 Hlb). unfold wrapper_listeners.
    cbn [filter fst]. eqb_tac. reflexivity. }
  assert (listeners_at (11 + b) p' = [HPreviewClick b]) as L11.
  { unfold p', b. rewrite (listeners_at_new p x _ 11 Hlb). unfold wrapper_listeners.
    cbn [filter fst]. eqb_tac. reflexivity. }
  split.
  { unfold closest.
    rewrite (Hchain (1 + b) _ (chain_column b u s t _))
      by (apply (in_wrapper_tree_new _ _ _ _ _ 1); lia).
    unfold select. rewrite filter_app, map_app. now destruct u, s. }
  split.
  { unfold querySelector. rewrite Hb.
    now destruct (wrapper_parts b u s t (Elem x d ks)) as [-> _]. }
  split.
  { unfold collapsed, classList_contains, data_of. rewrite (Hfind 12) by lia.
    now rewrite (find_content b u s t _ Hbelow). }
  split; [exact Ht|].
  intros k. split; [exact (click_handleToggle k _ _ _ p' Ht L2)|].
  split; [exact (click_handleToggle k _ _ _ p' Hl L9)|].
  apply (click_preview k (11 + b) b (2 + b) (1 + b) p' Hpv L11); try assumption.
  - unfold querySelector. rewrite Hb.
    now destruct (wrapper_parts b u s t (Elem x d ks)) as [_ ->].
  - rewrite (Hchain (11 + b) _ (chain_preview b u s t _))
      by (apply (in_wrapper_tree_new _ _ _ _ _ 11); lia).
    cbn [app List.map fst tl]. intros y [<-|[<-|Hy]].
    + unfold p', b. rewrite (listeners_at_new p x _ 10 Hlb). unfold wrapper_listeners.
      cbn [filter fst]. eqb_tac. reflexivity.
    + unfold p', b. rewrite (listeners_at_new p x _ 0 Hlb). unfold wrapper_listeners.
      cbn [filter fst]. eqb_tac. reflexivity.
    + assert (In y (tl (List.map fst (fchain x (roots p))))) as Hy'.
      { destruct (fchain x (roots p)); [destruct Hy|exact Hy]. }
      assert (y < b) as Hyb.
      { apply (proj2 Hwf). destruct (fchain x (roots p)) as [|e0 c] eqn:E; [destruct Hy|].
        cbn [tl] in Hy. apply in_map_iff in Hy. destruct Hy as [e [<- He]].
        apply (fchain_below x). rewrite E. now right. }
      unfold p'. rewrite (listeners_at_old p x _ y Hyb).
      unfold quiet_above in Hq. rewrite forallb_forall in Hq. specialize (Hq y Hy').
      now destruct (listeners_at y p).
Qed.

(** X12: on the wrapper the transform makes, a click on the toggle, a
    click on the line and a click on the preview all do what one call of
    the wrapper's [handleToggle] does, and that collapses the new wrapper:
    the content region and the toggle get the class [collapsed] and
    [aria-expanded] becomes "false".  The preview reaches the handler through
    [toggle.click()]; the click on it then bubbles through its ancestors,
    where no listener of the script sits. *)
Theorem clicks_collapse_the_new_wrapper (p : page) (x : nat) :
  wf p -> is_some (data_of x (roots p)) = true ->
  parent_kind x (roots p) = Some KElement ->
  in_wrapper x (roots p) = false -> 20 <= text_length x (roots p) ->
  listeners_bound p = true -> quiet_above x p = true ->
  exists p' q,
    addToggleToMessage x p = Ok tt p'
    /\ handleToggle (1 + next_id p) (2 + next_id p) p' = Ok tt q
    /\ collapsed (12 + next_id p) (roots q) = true
    /\ collapsed (2 + next_id p) (roots q) = true
    /\ aria (2 + next_id p) (roots q) = Some "false"%string
    /\ forall fuel, 2 <= fuel ->
         click fuel (2 + next_id p) p' = Some q
         /\ click fuel (9 + next_id p) p' = Some q
         /\ click fuel (11 + next_id p) p' = Some q.
Proof.
  intros Hwf Hx Hpk Hw Hl Hlb Hq.
  destruct (data_of_element x (roots p) Hx) as [d [ks Hn]].
  destruct (wrapped_clicks p x d ks Hwf Hn Hlb Hq) as [Hc [Hct [Hcol [Ht Hclick]]]].
  pose proof (wrapped_wf p x _ Hwf Hn) as Hwf'.
  set (p' := wrapped p x (Elem x d ks)) in *.
  pose proof (handleToggle_on p' _ (2 + next_id p) _ _ Hc Hct) as Hrun.
  rewrite Hcol in Hrun. cbn [negb] in Hrun.
  exists p', (with_roots (set_state true (12 + next_id p) (2 + next_id p)) p').
  split; [exact (addToggle_wraps p x _ Hwf Hn Hpk (closest_none x _ Hw) Hl)|].
  split; [exact Hrun|].
  pose proof (selected_element _ _ _ _ (proj1 Hwf') Hct) as Hd.
  unfold with_roots. cbn [roots].
  split; [rewrite collapsed_set_state by (assumption || exact (proj1 Hwf'));
          now rewrite Nat.eqb_refl|].
  split; [rewrite collapsed_set_state by (assumption || exact (proj1 Hwf'));
          now rewrite Nat.eqb_refl, orb_true_r|].
  split; [rewrite aria_set_state by (assumption || exact (proj1 Hwf'));
          now rewrite Nat.eqb_refl|].
  intros fuel Hf. destruct fuel as [|[|k]]; [lia|lia|].
  destruct (Hclick (S k)) as [H2 [H9 _]]. destruct (Hclick k) as [_ [_ H11]].
  rewrite H2, H9, H11, Hrun. auto.
Qed.

Lemma clicks_collapse_the_new_wrapper_witness :
  exists p' q,
    addToggleToMessage 3 (page_of (addToggleToMessage 4 nested_page)) = Ok tt p'
    /\ handleToggle (1 + next_id (page_of (addToggleToMessage 4 nested_page)))
                    (2 + next_id (page_of (addToggleToMessage 4 nested_page))) p' = Ok tt q
    /\ collapsed (12 + next_id (page_of (addToggleToMessage 4 nested_page))) (roots q) = true
    /\ collapsed (2 + next_id (page_of (addToggleToMessage 4 nested_page))) (roots q) = true
    /\ aria (2 + next_id (page_of (addToggleToMessage 4 nested_page))) (roots q)
       = Some "false"%string
    /\ forall fuel, 2 <= fuel ->
         click fuel (2 + next_id (page_of (addToggleToMessage 4 nested_page))) p' = Some q
         /\ click fuel (9 + next_id (page_of (addToggleToMessage 4 nested_page))) p' = Some q
         /\ click fuel (11 + next_id (page_of (addToggleToMessage 4 nested_page))) p' = Some q.
Proof.
  apply (clicks_collapse_the_new_wrapper (page_of (addToggleToMessage 4 nested_page)) 3);
    [apply wfb_sound| | | | | |]; vm_compute; solve [reflexivity | lia].
Defined.

(** On the page the first scan leaves, with two wrappers one in the
    other, a click on the inner preview collapses the inner wrapper and
    leaves the outer one. *)
Example inner_preview_click :
  exists q, click 2 27 nested_scanned = Some q
            /\ collapsed 28 (roots q) = true /\ collapsed 18 (roots q) = true
            /\ collapsed 41 (roots q) = false /\ collapsed 31 (roots q) = false.
Proof. eexists. split; [vm_compute; reflexivity|]. repeat split; vm_compute; reflexivity. Qed.

(* ================================================================== *)
(** * When a scan returns *)

(** Wrapping [x] leaves every element of the document under an element,
    if it was under one. *)
Lemma parent_kind_kept (p : page) (x : nat) (n : node) (c : nat) (d : edata) :
  wf p -> ffind x (roots p) = Some n ->
  In (c, d) (doc_elements (roots p)) ->
  parent_kind c (roots p) = Some KElement ->
  parent_kind c (roots (wrapped p x n)) = Some KElement.
Proof.
  intros Hwf Hn Hc Hk. pose proof (proj1 Hwf) as Hnd.
  pose proof (wrapped_wf p x n Hwf Hn) as Hwf'.
  assert (forall y, In y (ids n) -> y < next_id p) as Hbelow
      by (intros y Hy; apply (proj2 Hwf); exact (ffind_sub _ _ _ Hn y Hy)).
  destruct (doc_element_parent (roots p) c d Hnd Hc)
    as [cks [par [pd [Hfc [Hpar [Hpk [pks [Hfp Hin]]]]]]]].
  rewrite Hpk in Hk. injection Hk as Hkind.
  assert (forall q pd' pks' k, ffind q (roots (wrapped p x n)) = Some (Elem q pd' pks') ->
            In k pks' -> node_id k = c -> kind pd' = KElement ->
            parent_kind c (roots (wrapped p x n)) = Some KElement) as Hgoal.
  { intros q pd' pks' k Hq Hk' <- Hkd. unfold parent_kind.
    rewrite (parentNode_unique q _ pd' pks' k (proj1 Hwf') Hq Hk').
    now rewrite (data_of_find _ _ _ _ Hq), <- Hkd. }
  destruct (Nat.eq_dec c x) as [->|Hcx].
  - rewrite Hn in Hfc. inversion Hfc. subst n.
    apply (Hgoal (12 + next_id p) (div ["message-content"%string]) [Elem x d cks]
             (Elem x d cks)); [|now left|reflexivity|reflexivity].
    rewrite (wrapped_ffind p x _ Hwf Hn) by (apply (in_wrapper_tree_new _ _ _ _ _ 12); lia).
    now apply find_content.
  - assert (In par (fids (roots p))) as Hparin
        by (apply (ffind_sub _ _ _ Hfp); now left).
    destruct (inside_or_outside x par (roots p) n Hnd Hn Hparin) as [Hout|Hins].
    + assert (par <> x) as Hpx by (intros ->; exact (fskel_not_x x _ Hout)).
      apply (Hgoal par pd (flat_map (rewrite_node x (fun _ =>
               [wrapper_tree (next_id p) (is_user x (roots p)) (is_assistant x (roots p))
                  (preview_text (is_user x (roots p)) n) n])) pks)
               (Elem c d (flat_map (rewrite_node x (fun _ =>
               [wrapper_tree (next_id p) (is_user x (roots p)) (is_assistant x (roots p))
                  (preview_text (is_user x (roots p)) n) n])) cks)));
        [| |reflexivity|assumption].
      * rewrite wrapped_roots, (ffind_out x par _ (roots p) Hnd (fun _ => Hout)), Hfp.
        -- simpl. apply Nat.eqb_neq in Hpx. now rewrite Hpx.
        -- intros H. exact (W_local p x n Hwf Hn par H Hout).
      * apply in_flat_map. exists (Elem c d cks). split; [assumption|].
        simpl. apply Nat.eqb_neq in Hcx. rewrite Hcx. now left.
    + destruct (find_node_in par n Hins) as [m Hm].
      pose proof (ffind_trans x par (roots p) n m Hnd Hn Hm) as E.
      rewrite Hfp in E. inversion E. subst m. clear E.
      apply (Hgoal par pd pks (Elem c d cks)); [|assumption|reflexivity|assumption].
      rewrite (wrapped_ffind p x _ Hwf Hn) by (now apply ids_in_wrapper).
      apply (find_trans x par _ n).
      * apply NoDup_wrapper; [exact (NoDup_ffind _ _ _ Hnd Hn)|exact Hbelow].
      * rewrite <- (ffind_id _ _ _ Hn). now apply find_inner.
      * exact Hm.
Qed.

Lemma scan_returns_loop (todo : list nat) :
  forall q : page,
    wf q ->
    (forall c, In c todo ->
               exists d, In (c, d) (doc_elements (roots q)) /\ kind d = KElement
                         /\ parent_kind c (roots q) = Some KElement) ->
    exists q1, forEach todo process_one q = Ok tt q1.
Proof.
  induction todo as [|x todo IH]; intros q Hwf Hdoc.
  - exists q. reflexivity.
  - destruct (Hdoc x (or_introl eq_refl)) as [d [Hxd [Hk Hpk]]].
    assert (exists q', process_one x q = Ok tt q'
                       /\ (q' = q \/ exists n, ffind x (roots q) = Some n
                                               /\ q' = wrapped q x n)) as [q' [Hx Hshape]].
    { destruct (settled (roots q) x) eqn:Es.
      - exists q. split; [exact (process_one_settled q x Es)|now left].
      - destruct (process_one_open q x Es) as [Hopen [Hw [_ Hlen]]].
        destruct (doc_elements_find x d (roots q) (proj1 Hwf) Hxd) as [cks Hn].
        exists (wrapped q x (Elem x d cks)). rewrite Hopen. split.
        + exact (addToggle_wraps q x _ Hwf Hn Hpk (closest_none x _ Hw) Hlen).
        + right. now exists (Elem x d cks). }
    destruct (scan_step q q' x d Hwf Hxd Hk Hx) as [Hwf' [_ [_ [Hmono _]]]].
    destruct (IH q' Hwf') as [q1 H1].
    { intros c Hc. destruct (Hdoc c (or_intror Hc)) as [dc [Hcd [Hkc Hpc]]].
      exists dc. split; [now apply Hmono|]. split; [assumption|].
      destruct Hshape as [->|[n [Hn ->]]]; [assumption|].
      exact (parent_kind_kept q x n c dc Hwf Hn Hcd Hpc). }
    exists q1. cbn [forEach]. unfold bind. now rewrite Hx.
Qed.

(** X13: a scan of a well-formed page returns when no candidate is a
    child of the Document, that is when the root element matches none of
    the selectors: the wrappers the scan makes on the way leave every
    candidate under an element. *)
Theorem scan_returns (p : page) :
  wf p ->
  forallb (fun c => under_element c (roots p)) (foundMessages (roots p)) = true ->
  exists p1, processMessages p = Ok tt p1 /\ wf p1.
Proof.
  intros Hwf Hpar. unfold processMessages, bind, read.
  rewrite forallb_forall in Hpar.
  destruct (scan_returns_loop (foundMessages (roots p)) p Hwf) as [p1 H1].
  - intros c Hc. destruct (candidate_element (roots p) c Hc) as [d [Hd Hk]].
    exists d. split; [assumption|]. split; [assumption|].
    specialize (Hpar c Hc). unfold under_element in Hpar.
    destruct (parent_kind c (roots p)) as [[|]|]; try discriminate. reflexivity.
  - exists p1. split; [assumption|].
    destruct (scan_keeps (foundMessages (roots p)) p p1 Hwf) as [Hwf1 _];
      [|assumption|assumption].
    intros c Hc. now apply candidate_element.
Qed.

Lemma scan_returns_witness :
  exists p1, processMessages nested_page = Ok tt p1 /\ wf p1.
Proof.
  apply (scan_returns nested_page); [apply wfb_sound|]; vm_compute; reflexivity.
Defined.
